(** * State-space search: grid pathfinding and the sliding-tile puzzle

    A shallow embedding of [grid.py], [algorithms.py], [puzzle_logic.py]
    and [bfs_solver.py].  Python integers are [Z]; lists are lists; [dict]
    and [set] objects keyed by positions are [gmap] and [gset]; an exception
    is a value of the result type [res]; [while] loops take fuel, and a
    bound on the number of iterations is proved for each of them. *)

From Stdlib Require Import ZArith Lia.
From stdpp Require Import base option list gmap sets strings.

Local Open Scope Z_scope.

(** ** Results of Python computations *)

Inductive exn := IndexError | KeyError | ValueError | UnboundLocalError.

Inductive res (A : Type) : Type :=
| Ok (a : A)
| Raise (e : exn)
| OutOfFuel.
Arguments Ok {A} a.
Arguments Raise {A} e.
Arguments OutOfFuel {A}.

#[global] Instance res_ret : MRet res := fun A a => Ok a.
#[global] Instance res_bind : MBind res := fun A B f m =>
  match m with
  | Ok a => f a
  | Raise e => Raise e
  | OutOfFuel => OutOfFuel
  end.
#[global] Instance res_fmap : FMap res := fun A B f m =>
  match m with
  | Ok a => Ok (f a)
  | Raise e => Raise e
  | OutOfFuel => OutOfFuel
  end.

(** [l[i]] on a Python list: negative indices count from the end, and an
    index outside [-len, len) raises [IndexError]. *)
Definition py_norm_index {A} (l : list A) (i : Z) : option nat :=
  let n := Z.of_nat (length l) in
  let j := if i <? 0 then i + n else i in
  if (0 <=? j) && (j <? n) then Some (Z.to_nat j) else None.

Definition py_getitem {A} (l : list A) (i : Z) : res A :=
  match py_norm_index l i with
  | Some j => match l !! j with Some x => Ok x | None => Raise IndexError end
  | None => Raise IndexError
  end.

(** [l[i] = x] *)
Definition py_setitem {A} (l : list A) (i : Z) (x : A) : res (list A) :=
  match py_norm_index l i with
  | Some j => Ok (<[j := x]> l)
  | None => Raise IndexError
  end.

(** [m[i][j]] and [m[i][j] = x] on a list of separately allocated rows. *)
Definition py_getitem2 {A} (m : list (list A)) (i j : Z) : res A :=
  row ← py_getitem m i; py_getitem row j.

Definition py_setitem2 {A} (m : list (list A)) (i j : Z) (x : A)
  : res (list (list A)) :=
  row ← py_getitem m i;
  row' ← py_setitem row j x;
  py_setitem m i row'.

(** A [for] loop whose body can raise. *)
Fixpoint foldM {A B : Type} (f : B → A → res B) (b : B) (l : list A) : res B :=
  match l with
  | [] => Ok b
  | x :: l' => f b x ≫= λ b' : B, foldM f b' l'
  end.

(** A position [(row, col)]. *)
Abbreviation pos := (Z * Z)%type.

(** ** grid.py *)

Module Grid.

Inductive CellType :=
| EMPTY | WALL | START | END | VISITED | PATH | EXPLORING.

#[global] Instance CellType_eq_dec : EqDecision CellType.
Proof. solve_decision. Defined.

Record Grid := mkGrid {
  rows : Z;
  cols : Z;
  grid : list (list CellType);
  start_pos : option pos;
  end_pos : option pos;
}.

Definition with_grid (g : Grid) (m : list (list CellType)) : Grid :=
  mkGrid (rows g) (cols g) m (start_pos g) (end_pos g).
Definition with_start_pos (g : Grid) (p : option pos) : Grid :=
  mkGrid (rows g) (cols g) (grid g) p (end_pos g).
Definition with_end_pos (g : Grid) (p : option pos) : Grid :=
  mkGrid (rows g) (cols g) (grid g) (start_pos g) p.

(** [Grid(rows, cols)]: [range] of a negative number is empty. *)
Definition init (rows cols : Z) : Grid :=
  mkGrid rows cols
    (replicate (Z.to_nat rows) (replicate (Z.to_nat cols) EMPTY)) None None.

(** [0 <= row < self.rows and 0 <= col < self.cols] *)
Definition in_bounds (g : Grid) (row col : Z) : bool :=
  (0 <=? row) && (row <? rows g) && (0 <=? col) && (col <? cols g).

(** [self.grid[row][col]] and [self.grid[row][col] = ct] *)
Definition read (g : Grid) (row col : Z) : res CellType :=
  py_getitem2 (grid g) row col.
Definition write (g : Grid) (row col : Z) (ct : CellType) : res Grid :=
  with_grid g <$> py_setitem2 (grid g) row col ct.

Definition get_cell (g : Grid) (row col : Z) : res CellType :=
  if in_bounds g row col then read g row col else Ok WALL.

Definition set_cell (g : Grid) (row col : Z) (cell_type : CellType) : res Grid :=
  if in_bounds g row col then
    g1 ← match cell_type with
         | WALL =>
             cur ← read g row col;
             g' ← (if decide (cur = START) then Ok (with_start_pos g None)
                   else cur' ← read g row col;
                        if decide (cur' = END) then Ok (with_end_pos g None)
                        else Ok g);
             write g' row col WALL
         | START =>
             g' ← match start_pos g with
                  | Some (old_row, old_col) =>
                      old ← read g old_row old_col;
                      if decide (old = START) then write g old_row old_col EMPTY
                      else Ok g
                  | None => Ok g
                  end;
             let g'' := with_start_pos g' (Some (row, col)) in
             cur ← read g'' row col;
             if decide (cur ≠ END) then write g'' row col START else Ok g''
         | END =>
             g' ← match end_pos g with
                  | Some (old_row, old_col) =>
                      old ← read g old_row old_col;
                      if decide (old = END) then write g old_row old_col EMPTY
                      else Ok g
                  | None => Ok g
                  end;
             Ok (with_end_pos g' (Some (row, col)))
         | _ => Ok g
         end;
    cur ← read g1 row col;
    if decide (cur ≠ START) then
      cur' ← read g1 row col;
      if decide (cur' ≠ END) then write g1 row col cell_type else Ok g1
    else Ok g1
  else Ok g.

(** [is_valid]: the cell is read only when the position is in bounds. *)
Definition is_valid (g : Grid) (row col : Z) : res bool :=
  if in_bounds g row col then
    cur ← read g row col; Ok (bool_decide (cur ≠ WALL))
  else Ok false.

Definition directions4 : list pos := [(0, 1); (1, 0); (0, -1); (-1, 0)].
Definition directions_diag : list pos := [(1, 1); (1, -1); (-1, 1); (-1, -1)].

Fixpoint collect_neighbors (g : Grid) (row col : Z) (dirs : list pos)
    (neighbors : list pos) : res (list pos) :=
  match dirs with
  | [] => Ok neighbors
  | (dr, dc) :: dirs' =>
      let new_row := row + dr in
      let new_col := col + dc in
      is_valid g new_row new_col ≫= λ ok : bool,
      collect_neighbors g row col dirs'
        (if ok then neighbors ++ [(new_row, new_col)] else neighbors)
  end.

Definition get_neighbors (g : Grid) (row col : Z) (diagonal : bool)
  : res (list pos) :=
  let directions :=
    if diagonal then directions4 ++ directions_diag else directions4 in
  collect_neighbors g row col directions [].

(** [range(n)] *)
Definition range (n : Z) : list Z := Z.of_nat <$> seq 0 (Z.to_nat n).

(** [toggle_wall]: the indices go to the lists unchecked. *)
Definition toggle_wall (g : Grid) (row col : Z) : res Grid :=
  read g row col ≫= λ cur : CellType,
  if decide (cur = WALL) then write g row col EMPTY
  else
    read g row col ≫= λ cur' : CellType,
    if decide (cur' = EMPTY) then write g row col WALL else Ok g.

(** [clear_path]: the body of the two loops, then the loops over
    [range(self.rows)] and [range(self.cols)]. *)
Definition clear_path_cell (g : Grid) (row col : Z) : res Grid :=
  read g row col ≫= λ cur : CellType,
  if decide (cur ∈ [VISITED; PATH; EXPLORING]) then write g row col EMPTY
  else Ok g.

Definition clear_path (g : Grid) : res Grid :=
  foldM (λ (g1 : Grid) (row : Z),
           foldM (λ (g2 : Grid) (col : Z), clear_path_cell g2 row col)
             g1 (range (cols g1)))
    g (range (rows g)).

(** [clear_all] replaces the array by a new one and forgets both markers. *)
Definition clear_all (g : Grid) : Grid :=
  mkGrid (rows g) (cols g)
    (replicate (Z.to_nat (rows g)) (replicate (Z.to_nat (cols g)) EMPTY))
    None None.

Definition clear_walls_cell (g : Grid) (row col : Z) : res Grid :=
  read g row col ≫= λ cur : CellType,
  if decide (cur = WALL) then write g row col EMPTY else Ok g.

Definition clear_walls (g : Grid) : res Grid :=
  foldM (λ (g1 : Grid) (row : Z),
           foldM (λ (g2 : Grid) (col : Z), clear_walls_cell g2 row col)
             g1 (range (cols g1)))
    g (range (rows g)).

Definition get_wall_count (g : Grid) : res Z :=
  foldM (λ (count : Z) (row : Z),
           foldM (λ (count' : Z) (col : Z),
                    read g row col ≫= λ cur : CellType,
                    Ok (if decide (cur = WALL) then count' + 1 else count'))
             count (range (cols g)))
    0 (range (rows g)).

(** [generate_maze_dfs].  [random.shuffle(x)] exchanges, for [i] from
    [len(x) - 1] down to 1, [x[i]] with [x[j]] for a number [j] below
    [i + 1] that the generator draws; [draws k] is the [k]-th number drawn
    and stands for [j = draws k mod (i + 1)].  [rng] counts the draws. *)
Fixpoint shuffle_from {A} (draws : nat → nat) (rng i : nat) (x : list A)
  : list A * nat :=
  match i with
  | O => (x, rng)
  | S i' =>
      let j := (draws rng mod S i)%nat in
      let x' := match x !! i, x !! j with
                | Some a, Some b => <[j := a]> (<[i := b]> x)
                | _, _ => x
                end in
      shuffle_from draws (S rng) i' x'
  end.

Definition random_shuffle {A} (draws : nat → nat) (rng : nat) (x : list A)
  : list A * nat :=
  shuffle_from draws rng (length x - 1) x.

(** The grid, the set [visited] that the calls of [carve_path] share, and
    the state of the generator. *)
Record carve_state := mkCarve {
  c_grid : Grid;
  c_visited : gset pos;
  c_rng : nat;
}.

Definition maze_directions : list pos := [(0, 2); (2, 0); (0, -2); (-2, 0)].

(** Body of [for dr, dc in directions]; [rec] is the recursive call. *)
Definition carve_step (rec : Z → Z → carve_state → res carve_state)
    (row col : Z) (st : carve_state) (d : pos) : res carve_state :=
  let '(dr, dc) := d in
  let new_row := row + dr in
  let new_col := col + dc in
  if (0 <? new_row) && (new_row <? rows (c_grid st) - 1) &&
     (0 <? new_col) && (new_col <? cols (c_grid st) - 1) &&
     bool_decide ((new_row, new_col) ∉ c_visited st)
  then
    let mid_row := row + dr / 2 in
    let mid_col := col + dc / 2 in
    write (c_grid st) mid_row mid_col EMPTY ≫= λ g : Grid,
    rec new_row new_col (mkCarve g (c_visited st) (c_rng st))
  else Ok st.

(** [carve_path]; [fuel] bounds the depth of the recursion. *)
Fixpoint carve_path (draws : nat → nat) (fuel : nat) (row col : Z)
    (st : carve_state) : res carve_state :=
  match fuel with
  | O => OutOfFuel
  | S fuel' =>
      let visited := {[(row, col)]} ∪ c_visited st in
      write (c_grid st) row col EMPTY ≫= λ g : Grid,
      let '(directions, rng) :=
        random_shuffle draws (c_rng st) maze_directions in
      foldM (carve_step (carve_path draws fuel') row col)
        (mkCarve g visited rng) directions
  end.

Definition fill_walls (g : Grid) : res Grid :=
  foldM (λ (g1 : Grid) (row : Z),
           foldM (λ (g2 : Grid) (col : Z), write g2 row col WALL)
             g1 (range (cols g1)))
    g (range (rows g)).

Definition generate_maze_dfs (draws : nat → nat) (fuel : nat) (g : Grid)
  : res Grid :=
  fill_walls (clear_all g) ≫= λ g1 : Grid,
  carve_path draws fuel 1 1 (mkCarve g1 ∅ 0) ≫= λ st : carve_state,
  let g2 := c_grid st in
  if (2 <? rows g2) && (2 <? cols g2) then
    set_cell g2 1 1 START ≫= λ g3 : Grid,
    set_cell g3 (rows g3 - 2) (cols g3 - 2) END
  else Ok g2.

(** *** Invariants and closed forms used in the statements

    The definitions from here to the end of the module are not methods of
    the class: they name the shape of a grid, its marker invariant and the
    effect of [set_cell], and are related to the methods by lemmas. *)

(** The shape every [Grid] object has: [rows] rows of [cols] cells each.
    The constructor builds it and no method changes it. *)
Definition wf (g : Grid) : Prop :=
  Z.of_nat (length (grid g)) = Z.max 0 (rows g) ∧
  Forall (λ r, Z.of_nat (length r) = Z.max 0 (cols g)) (grid g).

(** The cell at an in-bounds position of a well-shaped grid. *)
Definition cell (g : Grid) (p : pos) : option CellType :=
  if in_bounds g p.1 p.2 then
    row ← grid g !! Z.to_nat p.1; row !! Z.to_nat p.2
  else None.

(** The marker invariant of a grid: a START (END) cell of the array is the
    one [start_pos] ([end_pos]) names, and both name in-bounds cells. *)
Record marked (g : Grid) : Prop := mkMarked {
  marked_wf : wf g;
  marked_start p : cell g p = Some START → start_pos g = Some p;
  marked_end p : cell g p = Some END → end_pos g = Some p;
  marked_start_in p : start_pos g = Some p → in_bounds g p.1 p.2 = true;
  marked_end_in p : end_pos g = Some p → in_bounds g p.1 p.2 = true;
}.

(** Grids built by the constructor followed by calls of [set_cell]. *)
Inductive reachable : Grid → Prop :=
| reach_init r c : reachable (init r c)
| reach_set g row col ct g' :
    reachable g → set_cell g row col ct = Ok g' → reachable g'.

(** What one call of [set_cell] does to the array. *)
Definition set_cell_array (g : Grid) (row col : Z) (ct : CellType) (p : pos)
  : option CellType :=
  let old := cell g p in
  if decide (p = (row, col)) then
    match ct with
    | WALL => Some WALL
    | START => if decide (old = Some END) then Some END else Some START
    | END => if decide (old = Some START) then Some START else Some END
    | _ => if decide (old = Some START ∨ old = Some END) then old else Some ct
    end
  else
    match ct with
    | START => if decide (old = Some START) then Some EMPTY else old
    | END => if decide (old = Some END) then Some EMPTY else old
    | _ => old
    end.

Definition set_cell_start_pos (g : Grid) (row col : Z) (ct : CellType)
  : option pos :=
  match ct with
  | WALL => if decide (cell g (row, col) = Some START) then None else start_pos g
  | START => Some (row, col)
  | _ => start_pos g
  end.

Definition set_cell_end_pos (g : Grid) (row col : Z) (ct : CellType)
  : option pos :=
  match ct with
  | WALL => if decide (cell g (row, col) = Some START) then end_pos g
            else if decide (cell g (row, col) = Some END) then None
            else end_pos g
  | END => Some (row, col)
  | _ => end_pos g
  end.

(** What [toggle_wall], [clear_path] and [clear_walls] do to one cell. *)
Definition flip_wall (ct : CellType) : CellType :=
  match ct with WALL => EMPTY | EMPTY => WALL | _ => ct end.
Definition unmark (ct : CellType) : CellType :=
  match ct with VISITED | PATH | EXPLORING => EMPTY | _ => ct end.
Definition unwall (ct : CellType) : CellType :=
  match ct with WALL => EMPTY | _ => ct end.

(** The positions of the grid, row by row, and those that hold a wall. *)
Definition cells (g : Grid) : list pos :=
  row ← range (rows g); (λ col, (row, col)) <$> range (cols g).
Definition wall_cells (g : Grid) : list pos :=
  filter (λ p, cell g p = Some WALL) (cells g).

(** Grids built by the constructor and any of the methods that change the
    grid, [toggle_wall] being called inside the bounds. *)
Inductive built : Grid → Prop :=
| built_init r c : built (init r c)
| built_set_cell g row col ct g' :
    built g → set_cell g row col ct = Ok g' → built g'
| built_toggle_wall g row col g' :
    built g → in_bounds g row col = true → toggle_wall g row col = Ok g' →
    built g'
| built_clear_path g g' : built g → clear_path g = Ok g' → built g'
| built_clear_walls g g' : built g → clear_walls g = Ok g' → built g'
| built_clear_all g : built g → built (clear_all g).

End Grid.
(** ** algorithms.py *)

(** The four searches take an optional callback [on_visit], which they call
    on each position taken off the frontier and whose result they discard.
    Its default is [None]; the functions below are the searches at that
    default. *)

Module Algorithms.
Import Grid.

Record PathfindingResult := mkResult {
  path : list pos;
  visited : list pos;
  exploring : list pos;
  found : bool;
  path_length : Z;
  nodes_explored : Z;
}.

(** [PathfindingResult()] *)
Definition new_result : PathfindingResult := mkResult [] [] [] false 0 0.

Definition add_exploring (r : PathfindingResult) (p : pos) :=
  mkResult (path r) (visited r) (exploring r ++ [p]) (found r)
    (path_length r) (nodes_explored r).
Definition add_visited (r : PathfindingResult) (p : pos) :=
  mkResult (path r) (visited r ++ [p]) (exploring r) (found r)
    (path_length r) (nodes_explored r).
Definition set_nodes_explored (r : PathfindingResult) (n : Z) :=
  mkResult (path r) (visited r) (exploring r) (found r) (path_length r) n.

(** Ghost record of the frontier operations of a run, in program order:
    [Enq p] when [p] is put on the queue, stack or heap, [Deq p] when it is
    taken off.  No branch of the program reads it. *)
Inductive fevent := Enq (p : pos) | Deq (p : pos).

Definition enqueued (log : list fevent) : list pos :=
  omap (λ e, match e with Enq p => Some p | Deq _ => None end) log.
Definition dequeued (log : list fevent) : list pos :=
  omap (λ e, match e with Deq p => Some p | Enq _ => None end) log.

(** The elements of a list in the order of their first occurrence. *)
Definition first_occurrences (l : list pos) : list pos :=
  foldl (λ acc x, if decide (x ∈ acc) then acc else acc ++ [x]) [] l.

(** [not grid.is_valid( *start) or not grid.is_valid( *end)], with the
    short-circuit of [or]. *)
Definition endpoints_invalid (g : Grid) (start end_ : pos) : res bool :=
  is_valid g start.1 start.2 ≫= λ vs : bool,
  if negb vs then Ok true
  else is_valid g end_.1 end_.2 ≫= λ ve : bool, Ok (negb ve).

(** [grid.get_neighbors( *current)] *)
Definition neighbors_of (g : Grid) (p : pos) : res (list pos) :=
  get_neighbors g p.1 p.2 false.

(** [while node is not None: path.append(node); node = parent[node]] *)
Fixpoint reconstruct (fuel : nat) (parent : gmap pos (option pos))
    (node : option pos) (path : list pos) : res (list pos) :=
  match node with
  | None => Ok path
  | Some n =>
      match fuel with
      | O => OutOfFuel
      | S fuel' =>
          match parent !! n with
          | None => Raise KeyError
          | Some next => reconstruct fuel' parent next (path ++ [n])
          end
      end
  end.

(** The block under [if current == end:].  The chain of parents has no
    repetition, so it is no longer than the map. *)
Definition finish_found (parent : gmap pos (option pos)) (end_ : pos)
    (r : PathfindingResult) (n_visited : nat) : res PathfindingResult :=
  reconstruct (size parent) parent (Some end_) [] ≫= λ p : list pos,
  let pth := reverse p in
  Ok (mkResult pth (visited r) (exploring r) true
        (Z.of_nat (length pth) - 1) (Z.of_nat n_visited)).

(** Number of cells of the grid. *)
Definition area (g : Grid) : nat := (Z.to_nat (rows g) * Z.to_nat (cols g))%nat.

(** *** bfs *)

Record bfs_state := mkBfs {
  b_queue : list pos;
  b_visited : gset pos;
  b_parent : gmap pos (option pos);
  b_result : PathfindingResult;
  b_log : list fevent;
}.

(** Body of [for neighbor in grid.get_neighbors( *current)]. *)
Definition bfs_visit (current : pos) (st : bfs_state) (neighbor : pos)
  : bfs_state :=
  if decide (neighbor ∈ b_visited st) then st
  else mkBfs (b_queue st ++ [neighbor]) ({[neighbor]} ∪ b_visited st)
         (<[neighbor := Some current]> (b_parent st))
         (add_visited (b_result st) neighbor)
         (b_log st ++ [Enq neighbor]).

Fixpoint bfs_loop (fuel : nat) (g : Grid) (end_ : pos) (st : bfs_state)
  : res (PathfindingResult * list fevent) :=
  match fuel with
  | O => OutOfFuel
  | S fuel' =>
      match b_queue st with
      | [] =>
          Ok (set_nodes_explored (b_result st) (Z.of_nat (size (b_visited st))),
              b_log st)
      | current :: rest =>
          let r1 := add_exploring (b_result st) current in
          let log1 := b_log st ++ [Deq current] in
          if decide (current = end_) then
            finish_found (b_parent st) end_ r1 (size (b_visited st))
              ≫= λ r : PathfindingResult, Ok (r, log1)
          else
            neighbors_of g current ≫= λ ns : list pos,
            bfs_loop fuel' g end_
              (foldl (bfs_visit current)
                 (mkBfs rest (b_visited st) (b_parent st) r1 log1) ns)
      end
  end.

Definition bfs_init (start : pos) : bfs_state :=
  mkBfs [start] {[start]} {[start := None]} new_result [Enq start].

Definition bfs_trace (g : Grid) (start end_ : pos)
  : res (PathfindingResult * list fevent) :=
  endpoints_invalid g start end_ ≫= λ bad : bool,
  if bad then Ok (new_result, [])
  else bfs_loop (S (2 * area g)) g end_ (bfs_init start).

Definition bfs (g : Grid) (start end_ : pos) : res PathfindingResult :=
  fst <$> bfs_trace g start end_.

(** *** dfs *)

(** [dfs] keeps the same locals as [bfs] with a stack in the place of the
    queue: [b_queue] holds the stack, and the body of the loop over the
    neighbours is [bfs_visit]. *)

(** [stack.pop()]: the last element of the list. *)
Definition py_pop {A} (l : list A) : option (A * list A) :=
  match reverse l with
  | [] => None
  | x :: r => Some (x, reverse r)
  end.

Fixpoint dfs_loop (fuel : nat) (g : Grid) (end_ : pos) (st : bfs_state)
  : res (PathfindingResult * list fevent) :=
  match fuel with
  | O => OutOfFuel
  | S fuel' =>
      match py_pop (b_queue st) with
      | None =>
          Ok (set_nodes_explored (b_result st) (Z.of_nat (size (b_visited st))),
              b_log st)
      | Some (current, rest) =>
          let r1 := add_exploring (b_result st) current in
          let log1 := b_log st ++ [Deq current] in
          if decide (current = end_) then
            finish_found (b_parent st) end_ r1 (size (b_visited st))
              ≫= λ r : PathfindingResult, Ok (r, log1)
          else
            neighbors_of g current ≫= λ ns : list pos,
            dfs_loop fuel' g end_
              (foldl (bfs_visit current)
                 (mkBfs rest (b_visited st) (b_parent st) r1 log1) ns)
      end
  end.

Definition dfs_trace (g : Grid) (start end_ : pos)
  : res (PathfindingResult * list fevent) :=
  endpoints_invalid g start end_ ≫= λ bad : bool,
  if bad then Ok (new_result, [])
  else dfs_loop (S (2 * area g)) g end_ (bfs_init start).

Definition dfs (g : Grid) (start end_ : pos) : res PathfindingResult :=
  fst <$> dfs_trace g start end_.

(** *** heapq on entries [(priority, position)] *)

Definition entry : Type := Z * pos.

(** Python's order on the tuples [(k, (row, col))]. *)
Definition entry_leb (a b : entry) : bool :=
  (a.1 <? b.1) ||
  ((a.1 =? b.1) &&
   ((a.2.1 <? b.2.1) || ((a.2.1 =? b.2.1) && (a.2.2 <=? b.2.2)))).

Fixpoint heap_min (x : entry) (l : list entry) : entry :=
  match l with
  | [] => x
  | y :: l' => heap_min (if entry_leb x y then x else y) l'
  end.

Fixpoint remove_one (x : entry) (l : list entry) : list entry :=
  match l with
  | [] => []
  | y :: l' => if decide (x = y) then l' else y :: remove_one x l'
  end.

(** [heapq.heappush] and [heapq.heappop].  The heap is kept as the bag of
    its entries: [heappop] returns a least entry, the order is total, and
    equal entries are the same value, so the array layout of the binary
    heap does not show in what the program computes. *)
Definition heappush (h : list entry) (x : entry) : list entry := h ++ [x].
Definition heappop (h : list entry) : option (entry * list entry) :=
  match h with
  | [] => None
  | x :: l => let m := heap_min x l in Some (m, remove_one m h)
  end.

(** [heuristic]: Manhattan distance. *)
Definition heuristic (row1 col1 row2 col2 : Z) : Z :=
  Z.abs (row1 - row2) + Z.abs (col1 - col2).

(** [if neighbor not in result.visited: result.visited.append(neighbor)] *)
Definition add_visited_once (r : PathfindingResult) (p : pos) :=
  if decide (p ∈ visited r) then r else add_visited r p.

(** *** astar *)

Record astar_state := mkAstar {
  a_open_set : list entry;
  a_came_from : gmap pos (option pos);
  a_g_score : gmap pos Z;
  a_f_score : gmap pos Z;
  a_visited_set : gset pos;
  a_result : PathfindingResult;
  a_log : list fevent;
}.

Definition astar_visit (end_ current : pos) (st : astar_state) (neighbor : pos)
  : res astar_state :=
  if decide (neighbor ∈ a_visited_set st) then Ok st
  else
    match a_g_score st !! current with
    | None => Raise KeyError
    | Some g_current =>
        let tentative_g := g_current + 1 in
        let better :=
          match a_g_score st !! neighbor with
          | None => true
          | Some g_neighbor => tentative_g <? g_neighbor
          end in
        if better then
          let f_neighbor :=
            tentative_g + heuristic neighbor.1 neighbor.2 end_.1 end_.2 in
          Ok (mkAstar (heappush (a_open_set st) (f_neighbor, neighbor))
                (<[neighbor := Some current]> (a_came_from st))
                (<[neighbor := tentative_g]> (a_g_score st))
                (<[neighbor := f_neighbor]> (a_f_score st))
                (a_visited_set st)
                (add_visited_once (a_result st) neighbor)
                (a_log st ++ [Enq neighbor]))
        else Ok st
    end.

Fixpoint astar_loop (fuel : nat) (g : Grid) (end_ : pos) (st : astar_state)
  : res (PathfindingResult * list fevent) :=
  match fuel with
  | O => OutOfFuel
  | S fuel' =>
      match heappop (a_open_set st) with
      | None =>
          Ok (set_nodes_explored (a_result st)
                (Z.of_nat (size (a_visited_set st))), a_log st)
      | Some ((current_f, current), open') =>
          let log1 := a_log st ++ [Deq current] in
          if decide (current ∈ a_visited_set st) then
            astar_loop fuel' g end_
              (mkAstar open' (a_came_from st) (a_g_score st) (a_f_score st)
                 (a_visited_set st) (a_result st) log1)
          else
            let visited1 := {[current]} ∪ a_visited_set st in
            let r1 := add_exploring (a_result st) current in
            if decide (current = end_) then
              finish_found (a_came_from st) end_ r1 (size visited1)
                ≫= λ r : PathfindingResult, Ok (r, log1)
            else
              neighbors_of g current ≫= λ ns : list pos,
              foldM (astar_visit end_ current)
                (mkAstar open' (a_came_from st) (a_g_score st) (a_f_score st)
                   visited1 r1 log1) ns ≫= λ st' : astar_state,
              astar_loop fuel' g end_ st'
      end
  end.

Definition astar_init (start end_ : pos) : astar_state :=
  mkAstar [(0, start)] {[start := None]} {[start := 0]}
    {[start := heuristic start.1 start.2 end_.1 end_.2]} ∅ new_result
    [Enq start].

Definition astar_trace (g : Grid) (start end_ : pos)
  : res (PathfindingResult * list fevent) :=
  endpoints_invalid g start end_ ≫= λ bad : bool,
  if bad then Ok (new_result, [])
  else astar_loop (4 * area g + 2) g end_ (astar_init start end_).

Definition astar (g : Grid) (start end_ : pos) : res PathfindingResult :=
  fst <$> astar_trace g start end_.

(** *** dijkstra *)

Record dijkstra_state := mkDijkstra {
  d_distances : gmap pos Z;
  d_parent : gmap pos (option pos);
  d_pq : list entry;
  d_visited : gset pos;
  d_result : PathfindingResult;
  d_log : list fevent;
}.

Definition dijkstra_visit (current_dist : Z) (current : pos)
    (st : dijkstra_state) (neighbor : pos) : dijkstra_state :=
  if decide (neighbor ∈ d_visited st) then st
  else
    let new_dist := current_dist + 1 in
    let better :=
      match d_distances st !! neighbor with
      | None => true
      | Some d_neighbor => new_dist <? d_neighbor
      end in
    if better then
      mkDijkstra (<[neighbor := new_dist]> (d_distances st))
        (<[neighbor := Some current]> (d_parent st))
        (heappush (d_pq st) (new_dist, neighbor))
        (d_visited st)
        (add_visited_once (d_result st) neighbor)
        (d_log st ++ [Enq neighbor])
    else st.

Fixpoint dijkstra_loop (fuel : nat) (g : Grid) (end_ : pos)
    (st : dijkstra_state) : res (PathfindingResult * list fevent) :=
  match fuel with
  | O => OutOfFuel
  | S fuel' =>
      match heappop (d_pq st) with
      | None =>
          Ok (set_nodes_explored (d_result st)
                (Z.of_nat (size (d_visited st))), d_log st)
      | Some ((current_dist, current), pq') =>
          let log1 := d_log st ++ [Deq current] in
          if decide (current ∈ d_visited st) then
            dijkstra_loop fuel' g end_
              (mkDijkstra (d_distances st) (d_parent st) pq' (d_visited st)
                 (d_result st) log1)
          else
            let visited1 := {[current]} ∪ d_visited st in
            let r1 := add_exploring (d_result st) current in
            if decide (current = end_) then
              finish_found (d_parent st) end_ r1 (size visited1)
                ≫= λ r : PathfindingResult, Ok (r, log1)
            else
              neighbors_of g current ≫= λ ns : list pos,
              dijkstra_loop fuel' g end_
                (foldl (dijkstra_visit current_dist current)
                   (mkDijkstra (d_distances st) (d_parent st) pq' visited1
                      r1 log1) ns)
      end
  end.

Definition dijkstra_init (start : pos) : dijkstra_state :=
  mkDijkstra {[start := 0]} {[start := None]} [(0, start)] ∅ new_result
    [Enq start].

Definition dijkstra_trace (g : Grid) (start end_ : pos)
  : res (PathfindingResult * list fevent) :=
  endpoints_invalid g start end_ ≫= λ bad : bool,
  if bad then Ok (new_result, [])
  else dijkstra_loop (4 * area g + 2) g end_ (dijkstra_init start).

Definition dijkstra (g : Grid) (start end_ : pos) : res PathfindingResult :=
  fst <$> dijkstra_trace g start end_.

(** *** Paths of the grid *)

(** [q] is one 4-directional move away from [p]. *)
Definition adjacent4 (p q : pos) : Prop :=
  ∃ d, d ∈ directions4 ∧ q = (p.1 + d.1, p.2 + d.2).

(** A non-empty sequence of cells that [is_valid] accepts, each one move
    from the one before. *)
Fixpoint is_path (g : Grid) (l : list pos) : Prop :=
  match l with
  | [] => False
  | p :: l' =>
      is_valid g p.1 p.2 = Ok true ∧
      match l' with
      | [] => True
      | q :: _ => adjacent4 p q ∧ is_path g l'
      end
  end.

Definition path_between (g : Grid) (s e : pos) (l : list pos) : Prop :=
  is_path g l ∧ head l = Some s ∧ last l = Some e.

Definition edge_count (l : list pos) : Z := Z.of_nat (length l) - 1.

(** [n] is the least number of moves of a path from [s] to [e]. *)
Definition shortest_length (g : Grid) (s e : pos) (n : Z) : Prop :=
  (∃ l, path_between g s e l ∧ edge_count l = n) ∧
  (∀ l, path_between g s e l → n <= edge_count l).

End Algorithms.

(** ** Auxiliary notions used by the proofs about the searches *)

Module SearchSpec.
Import Grid Algorithms.

(** What [is_valid] answers on a grid of the constructor's shape. *)
Definition validb (g : Grid) (p : pos) : bool :=
  match cell g p with
  | Some ct => bool_decide (ct ≠ WALL)
  | None => false
  end.

Definition move (p d : pos) : pos := (p.1 + d.1, p.2 + d.2).

(** What [get_neighbors] answers there. *)
Definition nbrs (g : Grid) (p : pos) : list pos :=
  filter (λ q, validb g q = true) (move p <$> directions4).

(** All positions of the grid, and the set of those [is_valid] accepts. *)
Definition positions (g : Grid) : list pos :=
  r ← seq 0 (Z.to_nat (rows g));
  c ← seq 0 (Z.to_nat (cols g));
  [(Z.of_nat r, Z.of_nat c)].

Definition valid_cells (g : Grid) : gset pos :=
  list_to_set (filter (λ q, validb g q = true) (positions g)).

(** [walk g s v n]: [v] is reached from [s] by [n] moves through valid
    cells. *)
Inductive walk (g : Grid) (s : pos) : pos → nat → Prop :=
| walk_here : validb g s = true → walk g s s 0
| walk_step v w n :
    walk g s v n → adjacent4 v w → validb g w = true → walk g s w (S n).

(** The predecessor map [parent] and the depths [d] agree: the start has no
    predecessor and depth 0, and every other recorded cell is valid, one
    move from its predecessor and one deeper. *)
Definition chain_ok (g : Grid) (s : pos) (parent : gmap pos (option pos))
    (d : gmap pos Z) : Prop :=
  ∀ v dv, d !! v = Some dv →
    0 <= dv ∧ validb g v = true ∧
    match parent !! v with
    | Some None => v = s ∧ dv = 0
    | Some (Some u) => d !! u = Some (dv - 1) ∧ adjacent4 u v
    | None => False
    end.

(** Invariant shared by [bfs] and [dfs]; [dep] is the ghost depth of the
    discovered cells. *)
Record basic_inv (g : Grid) (s : pos) (st : bfs_state) (dep : gmap pos Z)
  : Prop := mkBasicInv {
  bi_dom_parent : dom (b_parent st) = b_visited st;
  bi_dom_dep : dom dep = b_visited st;
  bi_start : dep !! s = Some 0;
  bi_chain : chain_ok g s (b_parent st) dep;
  bi_depth v dv : dep !! v = Some dv → dv < Z.of_nat (size (b_visited st));
  bi_frontier v : v ∈ b_queue st → v ∈ b_visited st;
  bi_rvisited_nodup : NoDup (visited (b_result st));
  bi_rvisited_sub v : v ∈ visited (b_result st) → v ∈ b_visited st;
  bi_log_enq : enqueued (b_log st) = s :: visited (b_result st);
  bi_log_deq : dequeued (b_log st) = exploring (b_result st);
  bi_found : found (b_result st) = false;
}.

(** The level structure of the [bfs] queue: depths [k] then [k+1], no
    discovered cell deeper than [k+1], and every cell that has left the
    queue has all its neighbours discovered, at most one deeper. *)
Record bfs_level (g : Grid) (st : bfs_state) (dep : gmap pos Z) (k : Z)
    (q1 q2 : list pos) : Prop := mkBfsLevel {
  bl_queue : b_queue st = q1 ++ q2;
  bl_q1 v : v ∈ q1 → dep !! v = Some k;
  bl_q2 v : v ∈ q2 → dep !! v = Some (k + 1);
  bl_bound v dv : dep !! v = Some dv → dv <= k + 1;
  bl_closed v w dv :
    dep !! v = Some dv → v ∉ b_queue st → w ∈ nbrs g v →
    ∃ dw, dep !! w = Some dw ∧ dw <= dv + 1;
}.

(** Iterations the [bfs] and [dfs] loops can still make. *)
Definition bfs_measure (g : Grid) (st : bfs_state) : nat :=
  (length (b_queue st) + 2 * size (valid_cells g ∖ b_visited st))%nat.

(** What a finished [bfs] or [dfs] run satisfies. *)
Record trace_post (s : pos) (r : PathfindingResult) (log : list fevent)
  : Prop := mkTracePost {
  tp_nodup : NoDup (visited r);
  tp_enq : enqueued log = s :: visited r;
  tp_deq : dequeued log = exploring r;
}.

(** *** Best-first search

    [astar] and [dijkstra] are the same loop over a heap of entries
    [(key, position)]: the key of a pushed neighbour is its tentative cost
    plus [h], and the cost of the node taken off the heap is read from the
    cost map ([astar]) or is the key itself ([dijkstra], [from_key]). *)

Section BestFirst.
Variable h : pos → Z.
Variable from_key : bool.

Definition bf_visit (key : Z) (current : pos) (st : astar_state)
    (neighbor : pos) : res astar_state :=
  if decide (neighbor ∈ a_visited_set st) then Ok st
  else
    match (if from_key then Some key else a_g_score st !! current) with
    | None => Raise KeyError
    | Some g_current =>
        let tentative_g := g_current + 1 in
        let better :=
          match a_g_score st !! neighbor with
          | None => true
          | Some g_neighbor => tentative_g <? g_neighbor
          end in
        if better then
          let f_neighbor := tentative_g + h neighbor in
          Ok (mkAstar (heappush (a_open_set st) (f_neighbor, neighbor))
                (<[neighbor := Some current]> (a_came_from st))
                (<[neighbor := tentative_g]> (a_g_score st))
                (<[neighbor := f_neighbor]> (a_f_score st))
                (a_visited_set st)
                (add_visited_once (a_result st) neighbor)
                (a_log st ++ [Enq neighbor]))
        else Ok st
    end.

Fixpoint bf_loop (fuel : nat) (g : Grid) (end_ : pos) (st : astar_state)
  : res (PathfindingResult * list fevent) :=
  match fuel with
  | O => OutOfFuel
  | S fuel' =>
      match heappop (a_open_set st) with
      | None =>
          Ok (set_nodes_explored (a_result st)
                (Z.of_nat (size (a_visited_set st))), a_log st)
      | Some ((key, current), open') =>
          let log1 := a_log st ++ [Deq current] in
          if decide (current ∈ a_visited_set st) then
            bf_loop fuel' g end_
              (mkAstar open' (a_came_from st) (a_g_score st) (a_f_score st)
                 (a_visited_set st) (a_result st) log1)
          else
            let visited1 := {[current]} ∪ a_visited_set st in
            let r1 := add_exploring (a_result st) current in
            if decide (current = end_) then
              finish_found (a_came_from st) end_ r1 (size visited1)
                ≫= λ r : PathfindingResult, Ok (r, log1)
            else
              neighbors_of g current ≫= λ ns : list pos,
              foldM (bf_visit key current)
                (mkAstar open' (a_came_from st) (a_g_score st)
                   (a_f_score st) visited1 r1 log1) ns
                ≫= λ st' : astar_state,
              bf_loop fuel' g end_ st'
      end
  end.

(** Invariant of the loop.  While the neighbours of [cur] are being
    relaxed, [pending] lists those still to come; between iterations it is
    empty. *)
Record bf_inv (g : Grid) (s : pos) (cur : pos) (pending : list pos)
    (st : astar_state) : Prop := mkBfInv {
  fi_dom_came : dom (a_came_from st) = dom (a_g_score st);
  fi_start : a_g_score st !! s = Some 0;
  fi_chain : chain_ok g s (a_came_from st) (a_g_score st);
  fi_parent_closed v u :
    a_came_from st !! v = Some (Some u) → u ∈ a_visited_set st;
  fi_depth v gv :
    a_g_score st !! v = Some gv → gv < Z.of_nat (size (a_g_score st));
  fi_closed_dom v : v ∈ a_visited_set st → v ∈ dom (a_g_score st);
  fi_open_valid f v :
    (f, v) ∈ a_open_set st →
    validb g v = true ∧
    ∃ gv, a_g_score st !! v = Some gv ∧ ((v = s ∧ f = 0) ∨ gv + h v <= f);
  fi_open_has v gv :
    a_g_score st !! v = Some gv → v ∉ a_visited_set st →
    ∃ f, (f, v) ∈ a_open_set st ∧ f <= gv + h v;
  fi_closed_nbrs v w gv :
    v ∈ a_visited_set st → a_g_score st !! v = Some gv → w ∈ nbrs g v →
    (v = cur ∧ w ∈ pending) ∨
    ∃ gw, a_g_score st !! w = Some gw ∧ gw <= gv + 1;
  fi_closed_opt v gv n :
    v ∈ a_visited_set st → a_g_score st !! v = Some gv → walk g s v n →
    gv <= Z.of_nat n;
  fi_rvisited_nodup : NoDup (visited (a_result st));
  fi_found : found (a_result st) = false;
  fi_log_enq :
    ∃ l, enqueued (a_log st) = s :: l ∧
         first_occurrences l = visited (a_result st);
  fi_log_deq : first_occurrences (dequeued (a_log st)) = exploring (a_result st);
  fi_exploring v : v ∈ exploring (a_result st) ↔ v ∈ a_visited_set st;
}.
End BestFirst.

(** Iterations the heap loops can still make. *)
Definition bf_measure (g : Grid) (st : astar_state) : nat :=
  (length (a_open_set st) + 4 * size (valid_cells g ∖ a_visited_set st))%nat.

(** What a finished [astar] or [dijkstra] run satisfies. *)
Record heap_post (s : pos) (r : PathfindingResult) (log : list fevent)
  : Prop := mkHeapPost {
  hp_nodup : NoDup (visited r);
  hp_enq : ∃ l, enqueued log = s :: l ∧ first_occurrences l = visited r;
  hp_deq : first_occurrences (dequeued log) = exploring r;
}.

(** The [dijkstra] state seen as a best-first state; [f] stands for the
    [f_score] map, which [dijkstra] does not have. *)
Definition dijkstra_as_bf (st : dijkstra_state) (f : gmap pos Z) : astar_state :=
  mkAstar (d_pq st) (d_parent st) (d_distances st) f (d_visited st)
    (d_result st) (d_log st).

(** The two heuristics. *)
Definition manhattan_to (end_ : pos) (p : pos) : Z :=
  heuristic p.1 p.2 end_.1 end_.2.
Definition zero_heuristic (p : pos) : Z := 0.

(** *** Notions used for the further properties of the searches *)

(** Further invariant of the [bfs] and [dfs] loops, for the end [e]: the
    cells taken off the frontier are the discovered cells that are not
    waiting; none of them is [e], and all their neighbours are
    discovered. *)
Record more_inv (g : Grid) (s e : pos) (st : bfs_state) : Prop := mkMoreInv {
  mi_queue_nodup : NoDup (b_queue st);
  mi_frontier v : v ∈ b_queue st → v ∈ b_visited st;
  mi_exploring_nodup : NoDup (exploring (b_result st));
  mi_exploring v :
    v ∈ exploring (b_result st) ↔ v ∈ b_visited st ∧ v ∉ b_queue st;
  mi_closed v :
    v ∈ exploring (b_result st) →
    v ≠ e ∧ ∀ w, w ∈ nbrs g v → w ∈ b_visited st;
  mi_visited v : v ∈ b_visited st ↔ v = s ∨ v ∈ visited (b_result st);
  mi_start : s ∉ visited (b_result st);
  mi_head :
    match exploring (b_result st) with
    | [] => b_queue st = [s]
    | x :: _ => x = s
    end;
  mi_path : path (b_result st) = [] ∧ path_length (b_result st) = 0;
}.

(** What the result of a search from [s] to [e] satisfies, whichever the
    algorithm. *)
Record search_post (g : Grid) (s e : pos) (r : PathfindingResult)
  : Prop := mkSearchPost {
  sp_path :
    found r = true →
    path_between g s e (path r) ∧ path_length r = edge_count (path r);
  sp_none :
    found r = false →
    path r = [] ∧ path_length r = 0 ∧ ∀ l, ¬ path_between g s e l;
  sp_exploring_nodup : NoDup (exploring r);
  sp_exploring_head : head (exploring r) = Some s;
  sp_exploring_last : found r = true → last (exploring r) = Some e;
  sp_exploring_sub v :
    v ∈ exploring r → validb g v = true ∧ (v = s ∨ v ∈ visited r);
  sp_visited v : v ∈ visited r → validb g v = true ∧ v ≠ s;
}.

(** Further invariant of the heap loops, for the start [s] and the end
    [e]. *)
Record bf_more (g : Grid) (s e : pos) (st : astar_state) : Prop := mkBfMore {
  bm_closed_ne v : v ∈ a_visited_set st → v ≠ e;
  bm_exploring_nodup : NoDup (exploring (a_result st));
  bm_head :
    match exploring (a_result st) with
    | [] => ∀ x, x ∈ a_open_set st → x.2 = s
    | x :: _ => x = s
    end;
  bm_open x : x ∈ a_open_set st → x.2 = s ∨ x.2 ∈ visited (a_result st);
  bm_visited v : v ∈ visited (a_result st) → validb g v = true ∧ v ≠ s;
  bm_explored v :
    v ∈ exploring (a_result st) → v = s ∨ v ∈ visited (a_result st);
  bm_path : path (a_result st) = [] ∧ path_length (a_result st) = 0;
}.

(** The four searches. *)
Definition searches : list (Grid → pos → pos → res PathfindingResult) :=
  [bfs; dfs; astar; dijkstra].

End SearchSpec.
(** ** puzzle_logic.py *)

Module PuzzleLogic.

Record Puzzle := mkPuzzle {
  size : Z;
  total_tiles : Z;
  state : list (list Z);
}.

Definition with_state (p : Puzzle) (st : list (list Z)) : Puzzle :=
  mkPuzzle (size p) (total_tiles p) st.

(** [range(n)] and [range(a, b)] *)
Definition range (n : Z) : list Z := Z.of_nat <$> seq 0 (Z.to_nat n).
Definition range_from (a b : Z) : list Z :=
  (λ i : nat, a + Z.of_nat i) <$> seq 0 (Z.to_nat (b - a)).

(** [_generate_goal_state]: the inner loop returns the row and the counter
    [num]. *)
Fixpoint goal_row (js : list Z) (total_tiles num : Z) (row : list Z)
  : list Z * Z :=
  match js with
  | [] => (row, num)
  | _ :: js' =>
      if num <=? total_tiles then goal_row js' total_tiles (num + 1) (row ++ [num])
      else goal_row js' total_tiles num (row ++ [0])
  end.

Fixpoint goal_rows (ix : list Z) (size total_tiles num : Z)
    (goal : list (list Z)) : list (list Z) :=
  match ix with
  | [] => goal
  | _ :: ix' =>
      let '(row, num') := goal_row (range size) total_tiles num [] in
      goal_rows ix' size total_tiles num' (goal ++ [row])
  end.

Definition generate_goal_state (p : Puzzle) : list (list Z) :=
  goal_rows (range (size p)) (size p) (total_tiles p) 1 [].

(** [Puzzle(size, state)]: [total_tiles] comes from the argument [size],
    the field [size] from the given state. *)
Definition init (size : Z) (state : option (list (list Z))) : res Puzzle :=
  if (size <? 3) || (5 <? size) then Raise ValueError
  else
    let total_tiles := size * size - 1 in
    match state with
    | None =>
        Ok (mkPuzzle size total_tiles
              (generate_goal_state (mkPuzzle size total_tiles [])))
    | Some st => Ok (mkPuzzle (Z.of_nat (length st)) total_tiles st)
    end.

Fixpoint find_empty_row (st : list (list Z)) (i : Z) (js : list Z)
  : res (option pos) :=
  match js with
  | [] => Ok None
  | j :: js' =>
      py_getitem2 st i j ≫= λ v : Z,
      if v =? 0 then Ok (Some (i, j)) else find_empty_row st i js'
  end.

Fixpoint find_empty_rows (st : list (list Z)) (ix js : list Z)
  : res (option pos) :=
  match ix with
  | [] => Ok None
  | i :: ix' =>
      find_empty_row st i js ≫= λ r : option pos,
      match r with
      | Some p => Ok (Some p)
      | None => find_empty_rows st ix' js
      end
  end.

Definition find_empty (p : Puzzle) : res pos :=
  find_empty_rows (state p) (range (size p)) (range (size p))
    ≫= λ r : option pos, Ok (default (-1, -1) r).

Definition is_goal (p : Puzzle) : bool :=
  bool_decide (state p = generate_goal_state p).

Definition get_valid_moves (p : Puzzle) : res (list string) :=
  find_empty p ≫= λ e : pos,
  let '(row, col) := e in
  let valid_moves := [] in
  let valid_moves := if 0 <? row then valid_moves ++ ["up"] else valid_moves in
  let valid_moves :=
    if row <? size p - 1 then valid_moves ++ ["down"] else valid_moves in
  let valid_moves := if 0 <? col then valid_moves ++ ["left"] else valid_moves in
  let valid_moves :=
    if col <? size p - 1 then valid_moves ++ ["right"] else valid_moves in
  Ok valid_moves.

(** The position [make_move] swaps the blank with; the [if]/[elif] chain
    binds nothing for any other string. *)
Definition target (direction : string) (row col : Z) : option pos :=
  if decide (direction = "up") then Some (row - 1, col)
  else if decide (direction = "down") then Some (row + 1, col)
  else if decide (direction = "left") then Some (row, col - 1)
  else if decide (direction = "right") then Some (row, col + 1)
  else None.

(** [make_move] returns its boolean and the puzzle after the call. *)
Definition make_move (p : Puzzle) (direction : string) : res (bool * Puzzle) :=
  get_valid_moves p ≫= λ valid : list string,
  if decide (direction ∈ valid) then
    find_empty p ≫= λ e : pos,
    let '(row, col) := e in
    match target direction row col with
    | None => Raise UnboundLocalError
    | Some (new_row, new_col) =>
        py_getitem2 (state p) new_row new_col ≫= λ a : Z,
        py_getitem2 (state p) row col ≫= λ b : Z,
        py_setitem2 (state p) row col a ≫= λ st1 : list (list Z),
        py_setitem2 st1 new_row new_col b ≫= λ st2 : list (list Z),
        Ok (true, with_state p st2)
    end
  else Ok (false, p).

(** [copy]: a new object built by the constructor. *)
Definition copy (p : Puzzle) : res Puzzle := init (size p) (Some (state p)).

(** [__eq__] compares [state] and [size]; [__hash__] hashes [state]. *)
Definition key (p : Puzzle) : list (list Z) * Z := (state p, size p).

(** The comprehension of [is_solvable]:
    [[state[i][j] for i ... for j ... if state[i][j] != 0]]. *)
Fixpoint flatten_row (st : list (list Z)) (i : Z) (js : list Z) (flat : list Z)
  : res (list Z) :=
  match js with
  | [] => Ok flat
  | j :: js' =>
      py_getitem2 st i j ≫= λ v : Z,
      if negb (v =? 0) then
        py_getitem2 st i j ≫= λ v' : Z, flatten_row st i js' (flat ++ [v'])
      else flatten_row st i js' flat
  end.

Fixpoint flatten_rows (st : list (list Z)) (ix js : list Z) (flat : list Z)
  : res (list Z) :=
  match ix with
  | [] => Ok flat
  | i :: ix' =>
      flatten_row st i js flat ≫= λ flat' : list Z, flatten_rows st ix' js flat'
  end.

(** The two loops counting inversions. *)
Fixpoint inversions_inner (flat : list Z) (i : Z) (js : list Z) (inversions : Z)
  : res Z :=
  match js with
  | [] => Ok inversions
  | j :: js' =>
      py_getitem flat i ≫= λ a : Z,
      py_getitem flat j ≫= λ b : Z,
      inversions_inner flat i js' (if b <? a then inversions + 1 else inversions)
  end.

Fixpoint inversions_outer (flat : list Z) (ix : list Z) (inversions : Z)
  : res Z :=
  match ix with
  | [] => Ok inversions
  | i :: ix' =>
      inversions_inner flat i (range_from (i + 1) (Z.of_nat (length flat)))
        inversions ≫= λ inversions' : Z,
      inversions_outer flat ix' inversions'
  end.

Definition is_solvable (p : Puzzle) : res bool :=
  flatten_rows (state p) (range (size p)) (range (size p)) []
    ≫= λ flat : list Z,
  inversions_outer flat (range (Z.of_nat (length flat))) 0
    ≫= λ inversions : Z,
  if size p mod 2 =? 1 then Ok (inversions mod 2 =? 0)
  else
    find_empty p ≫= λ e : pos,
    let empty_row := e.1 in
    let empty_row_from_bottom := size p - 1 - empty_row in
    Ok ((inversions + empty_row_from_bottom) mod 2 =? 0).

(** [random.choice(seq)] is [seq[k]] for a number [k] below [len(seq)]
    that the generator draws; a draw [d] stands for [k = d mod len(seq)].
    On an empty sequence it raises [IndexError]. *)
Definition choice (d : nat) (seq : list string) : res string :=
  match seq !! (d mod length seq)%nat with
  | Some x => Ok x
  | None => Raise IndexError
  end.

(** Body of the loop of [shuffle]; [draws i] is what the generator draws
    in iteration [i]. *)
Definition shuffle_step (draws : Z → nat) (p : Puzzle) (i : Z) : res Puzzle :=
  get_valid_moves p ≫= λ valid_moves : list string,
  match valid_moves with
  | [] => Ok p
  | _ :: _ =>
      choice (draws i) valid_moves ≫= λ random_move : string,
      make_move p random_move ≫= λ moved : bool * Puzzle, Ok moved.2
  end.

(** [shuffle]: [moves] is [None] or a number. *)
Definition shuffle (draws : Z → nat) (p : Puzzle) (moves : option Z)
  : res Puzzle :=
  let moves := match moves with None => size p * 50 | Some m => m end in
  foldM (shuffle_step draws) p (range moves).

End PuzzleLogic.

(** ** bfs_solver.py *)

Module BFSSolver.
Import PuzzleLogic.

Record BFSSolver := mkSolver { initial_puzzle : Puzzle }.

(** [BFSSolver(puzzle)] *)
Definition init (puzzle : Puzzle) : res BFSSolver :=
  copy puzzle ≫= λ p : Puzzle, Ok (mkSolver p).

(** The locals of [solve].  The [print] call of [solve] writes to the
    standard output only and is left out. *)
Record solve_state := mkSolve {
  s_queue : list (Puzzle * list string);
  s_visited : gset (list (list Z) * Z);
  s_nodes_explored : Z;
}.

(** Body of [for move in current_puzzle.get_valid_moves()]. *)
Definition solve_visit (current : Puzzle) (path : list string)
    (st : solve_state) (move : string) : res solve_state :=
  copy current ≫= λ new_puzzle : Puzzle,
  make_move new_puzzle move ≫= λ moved : bool * Puzzle,
  let new_puzzle := moved.2 in
  if decide (key new_puzzle ∈ s_visited st) then Ok st
  else Ok (mkSolve (s_queue st ++ [(new_puzzle, path ++ [move])])
             ({[key new_puzzle]} ∪ s_visited st) (s_nodes_explored st)).

Fixpoint solve_loop (fuel : nat) (st : solve_state)
  : res (option (list string)) :=
  match fuel with
  | O => OutOfFuel
  | S fuel' =>
      match s_queue st with
      | [] => Ok None
      | (current_puzzle, path) :: rest =>
          if is_goal current_puzzle then Ok (Some path)
          else
            get_valid_moves current_puzzle ≫= λ moves : list string,
            foldM (solve_visit current_puzzle path)
              (mkSolve rest (s_visited st) (s_nodes_explored st + 1)) moves
              ≫= λ st' : solve_state,
            solve_loop fuel' st'
      end
  end.

(** [solve]: [None] is Python's [None], [Some path] a list of moves.  The
    state graph of a puzzle is finite but large, so the number of loop
    iterations allowed is a parameter. *)
Definition solve (fuel : nat) (s : BFSSolver) : res (option (list string)) :=
  if is_goal (initial_puzzle s) then Ok (Some [])
  else
    is_solvable (initial_puzzle s) ≫= λ solvable : bool,
    if negb solvable then Ok None
    else
      copy (initial_puzzle s) ≫= λ p0 : Puzzle,
      solve_loop fuel (mkSolve [(p0, [])] {[key (initial_puzzle s)]} 0).

(** Applying a list of moves with [make_move], one after the other. *)
Fixpoint apply_moves (p : Puzzle) (moves : list string) : res Puzzle :=
  match moves with
  | [] => Ok p
  | m :: moves' =>
      make_move p m ≫= λ moved : bool * Puzzle, apply_moves moved.2 moves'
  end.

(** [solve_with_stats]: the statistics are a [dict] from strings to
    numbers; the loop is the loop of [solve] with the local
    [max_queue_size] beside it. *)
Definition stats_dict (items : list (string * Z)) : gmap string Z :=
  list_to_map items.

Fixpoint stats_loop (fuel : nat) (st : solve_state) (max_queue_size : Z)
  : res (option (list string) * gmap string Z) :=
  match fuel with
  | O => OutOfFuel
  | S fuel' =>
      match s_queue st with
      | [] =>
          Ok (None, stats_dict [("nodes_explored", s_nodes_explored st);
                                ("solution_length", 0)])
      | (current_puzzle, path) :: rest =>
          let nodes_explored := s_nodes_explored st + 1 in
          let max_queue_size :=
            Z.max max_queue_size (Z.of_nat (length rest)) in
          if is_goal current_puzzle then
            Ok (Some path,
                stats_dict [("nodes_explored", nodes_explored);
                            ("solution_length", Z.of_nat (length path));
                            ("max_queue_size", max_queue_size)])
          else
            get_valid_moves current_puzzle ≫= λ moves : list string,
            foldM (solve_visit current_puzzle path)
              (mkSolve rest (s_visited st) nodes_explored) moves
              ≫= λ st' : solve_state,
            stats_loop fuel' st' max_queue_size
      end
  end.

Definition solve_with_stats (fuel : nat) (s : BFSSolver)
  : res (option (list string) * gmap string Z) :=
  if is_goal (initial_puzzle s) then
    Ok (Some [], stats_dict [("nodes_explored", 0); ("solution_length", 0)])
  else
    is_solvable (initial_puzzle s) ≫= λ solvable : bool,
    if negb solvable then
      Ok (None, stats_dict [("nodes_explored", 0); ("solution_length", 0)])
    else
      copy (initial_puzzle s) ≫= λ p0 : Puzzle,
      stats_loop fuel (mkSolve [(p0, [])] {[key (initial_puzzle s)]} 0) 1.

End BFSSolver.

(** ** Notions used to state the properties of the puzzle *)

Module PuzzleSpec.
Import PuzzleLogic.

(** The board is [size] rows of [size] tiles. *)
Definition square (p : Puzzle) : Prop :=
  size p = Z.of_nat (length (state p)) ∧
  Forall (λ row, length row = length (state p)) (state p).

(** Boards of [n] rows of [n] tiles. *)
Definition board (n : nat) (st : list (list Z)) : Prop :=
  length st = n ∧ Forall (λ row, length row = n) st.

(** The tile at a position of non-negative coordinates. *)
Definition tile_at (st : list (list Z)) (q : pos) : option Z :=
  if (0 <=? q.1) && (0 <=? q.2) then
    row ← st !! Z.to_nat q.1; row !! Z.to_nat q.2
  else None.

(** [b] is the one position that holds the blank. *)
Definition the_blank (p : Puzzle) (b : pos) : Prop :=
  tile_at (state p) b = Some 0 ∧
  ∀ q, tile_at (state p) q = Some 0 → q = b.

(** The board with the tiles at [a] and [b] exchanged. *)
Definition swap_cells (st : list (list Z)) (a b : pos) : list (list Z) :=
  imap (λ i row,
    imap (λ j v,
      if decide ((Z.of_nat i, Z.of_nat j) = a) then default v (tile_at st b)
      else if decide ((Z.of_nat i, Z.of_nat j) = b) then default v (tile_at st a)
      else v) row) st.

(** Row-major flattening without the blank. *)
Definition flatten_board (st : list (list Z)) : list Z :=
  filter (λ v, v ≠ 0) (concat st).

(** Number of pairs [(i, j)], [i < j], with [flat[i] > flat[j]]. *)
Definition inverted (flat : list Z) (ij : nat * nat) : bool :=
  bool_decide (ij.1 < ij.2)%nat &&
  match flat !! ij.1, flat !! ij.2 with
  | Some a, Some b => b <? a
  | _, _ => false
  end.

Definition index_pairs (n : nat) : list (nat * nat) :=
  i ← seq 0 n; j ← seq 0 n; [(i, j)].

Definition inversion_count (flat : list Z) : Z :=
  Z.of_nat
    (length (filter (λ ij, inverted flat ij = true)
               (index_pairs (length flat)))).

(** [flat[i] > flat[j]] *)
Definition gt_at (flat : list Z) (i j : nat) : bool :=
  match flat !! i, flat !! j with
  | Some a, Some b => b <? a
  | _, _ => false
  end.

(** Inversions counted row by row, as the loops do. *)
Fixpoint inversions_from (flat : list Z) (ix : list nat) : nat :=
  match ix with
  | [] => 0
  | i :: ix' =>
      (length (filter (λ j, gt_at flat i j = true)
                 (seq (S i) (length flat - S i))) +
       inversions_from flat ix')%nat
  end.

(** The parity criterion: [n] is the board size, [i] the number of
    inversions, [r] the row of the blank counted from the bottom. *)
Definition parity_solvable (n i r : Z) : Prop :=
  (Z.Odd n ∧ Z.Even i) ∨ (Z.Even n ∧ Z.Even (i + r)).

(** The canonical goal of size [n]: [1 .. n*n-1] row by row, then the
    blank. *)
Definition canonical_goal (n : Z) : list (list Z) :=
  generate_goal_state (mkPuzzle n (n * n - 1) []).

(** A puzzle the solver accepts: a square board of size 3 to 5 with one
    blank, whose [total_tiles] matches its size (as [copy] makes it). *)
Definition playable (p : Puzzle) : Prop :=
  square p ∧ 3 <= size p <= 5 ∧ ∃ b, the_blank p b.

Definition consistent (p : Puzzle) : Prop :=
  total_tiles p = size p * size p - 1.

(** The puzzle object [copy] builds from [p]. *)
Definition normalized (p : Puzzle) : Puzzle :=
  mkPuzzle (size p) (size p * size p - 1) (state p).

(** *** Notions used for the further properties of the puzzle *)

(** The board as one list: the index of a position, and the list with two
    entries exchanged. *)
Definition cell_index (n : nat) (q : pos) : nat :=
  (Z.to_nat q.1 * n + Z.to_nat q.2)%nat.

Definition swap_at (f : list Z) (i j : nat) : list Z :=
  match f !! i, f !! j with
  | Some x, Some y => <[i := y]> (<[j := x]> f)
  | _, _ => f
  end.

(** No two cells hold the same number. *)
Definition distinct_tiles (p : Puzzle) : Prop := NoDup (concat (state p)).

(** The board with every number [v] replaced by [f v]. *)
Definition relabel_state (f : Z → Z) (st : list (list Z)) : list (list Z) :=
  (λ row : list Z, f <$> row) <$> st.

Definition relabel (f : Z → Z) (p : Puzzle) : Puzzle :=
  mkPuzzle (size p) (total_tiles p) (relabel_state f (state p)).

(** The move that takes the blank back. *)
Definition opposite (direction : string) : string :=
  if decide (direction = "up") then "down"
  else if decide (direction = "down") then "up"
  else if decide (direction = "left") then "right"
  else if decide (direction = "right") then "left"
  else direction.

(** The number [_generate_goal_state] writes as its [k]-th (from 1). *)
Definition goal_value (total_tiles k : Z) : Z :=
  if k <=? total_tiles then k else 0.

(** The counter [num] against the number [c] of cells filled so far plus
    one: they agree until [num] passes [total_tiles]. *)
Definition goal_counter (T num c : Z) : Prop :=
  (num <= T ↔ c <= T) ∧ (num <= T → num = c).

(** A run of accepted moves. *)
Inductive accepted : Puzzle → list string → Puzzle → Prop :=
  | accepted_nil p : accepted p [] p
  | accepted_cons p m p1 moves q :
      make_move p m = Ok (true, p1) → accepted p1 moves q →
      accepted p (m :: moves) q.

End PuzzleSpec.

(** ** Notions used to state the properties of the solver *)

Module SolverSpec.
Import PuzzleLogic PuzzleSpec BFSSolver.

(** A queue entry: its path leads from the initial puzzle [p0] to its
    puzzle. *)
Definition entry_ok (p0 : Puzzle) (e : Puzzle * list string) : Prop :=
  apply_moves p0 e.2 = Ok e.1 ∧ playable e.1 ∧ consistent e.1.

(** [q] is not the goal and every move from it leads into [visited]. *)
Definition closed_under_moves (visited : gset (list (list Z) * Z))
    (q : Puzzle) : Prop :=
  is_goal q = false ∧
  ∀ m ok q', make_move q m = Ok (ok, q') → key q' ∈ visited.

(** A state seen by the search and its puzzle object. *)
Definition seen (visited : gset (list (list Z) * Z)) (q : Puzzle) : Prop :=
  playable q ∧ consistent q ∧ key q ∈ visited.

(** Invariant of the loop of [solve]: every state seen is waiting in the
    queue or has been expanded without being the goal. *)
Record solve_inv (st : solve_state) : Prop := mkSolveInv {
  si_queue : Forall (λ e, seen (s_visited st) e.1) (s_queue st);
  si_visited q :
    seen (s_visited st) q →
    q ∈ (s_queue st).*1 ∨ closed_under_moves (s_visited st) q;
}.

(** *** Notions used for the further properties of the solver *)

(** What the loop of [solve] keeps, for the search from [p0], beyond
    [solve_inv]: the queue holds paths of [k] moves and then paths of
    [k + 1] moves, no shorter path leads to a queued state, every state
    within [k] moves of [p0] has been seen, and the states seen are boards
    of the tiles of [p0]. *)
Record solve_level (p0 : Puzzle) (st : solve_state) (k : nat) : Prop :=
  mkSolveLevel {
  sl_inv : solve_inv st;
  sl_entry : Forall (entry_ok p0) (s_queue st);
  sl_sorted :
    ∃ q1 q2, s_queue st = q1 ++ q2 ∧
             Forall (λ e, length e.2 = k) q1 ∧
             Forall (λ e, length e.2 = S k) q2 ∧
             (q1 = [] → q2 = []);
  sl_min e moves :
    e ∈ s_queue st → apply_moves p0 moves = Ok e.1 →
    (length e.2 ≤ length moves)%nat;
  sl_near moves q :
    (length moves ≤ k)%nat → apply_moves p0 moves = Ok q →
    key q ∈ s_visited st;
  sl_tiles kk :
    kk ∈ s_visited st →
    ∃ q, key q = kk ∧ square q ∧ size q = size p0 ∧
         concat (state q) ≡ₚ concat (state p0);
}.

(** Iterations the loop of [solve] can still make. *)
Definition solve_measure (p0 : Puzzle) (st : solve_state) : nat :=
  (length (s_queue st) +
   (length (permutations (concat (state p0))) - base.size (s_visited st)))%nat.

End SolverSpec.


(** ** Notions used to state the properties of the maze generator *)

Module MazeSpec.
Import Grid Algorithms SearchSpec.

(** The cells [carve_path] is called on: inside the border, both
    coordinates odd. *)
Definition odd_cell (g : Grid) (p : pos) : Prop :=
  0 < p.1 < rows g - 1 ∧ 0 < p.2 < cols g - 1 ∧
  p.1 mod 2 = 1 ∧ p.2 mod 2 = 1.

#[global] Instance odd_cell_dec g p : Decision (odd_cell g p).
Proof. unfold odd_cell. apply _. Defined.

Definition odd_cells (g : Grid) : gset pos :=
  list_to_set (filter (odd_cell g) (positions g)).

(** The cells a maze can open: the odd cells and the cells between two of
    them. *)
Definition passage (g : Grid) (p : pos) : Prop :=
  0 < p.1 ∧ 0 < p.2 ∧ (p.1 mod 2 = 1 ∨ p.2 mod 2 = 1) ∧
  p.1 + (1 - p.1 mod 2) < rows g - 1 ∧
  p.2 + (1 - p.2 mod 2) < cols g - 1.

(** Two cells of the lattice one step of [carve_path] apart. *)
Definition lattice_adj (v w : pos) : Prop :=
  ∃ d, d ∈ maze_directions ∧ w = move v d.

(** What holds between the calls of [carve_path] on a grid of the
    dimensions of [g0]. *)
Record carve_inv (g0 : Grid) (st : carve_state) : Prop := mkCarveInv {
  ci_wf : wf (c_grid st);
  ci_rows : rows (c_grid st) = rows g0;
  ci_cols : cols (c_grid st) = cols g0;
  ci_start : start_pos (c_grid st) = None;
  ci_end : end_pos (c_grid st) = None;
  ci_cells p ct : cell (c_grid st) p = Some ct → ct = EMPTY ∨ ct = WALL;
  ci_empty p : cell (c_grid st) p = Some EMPTY → passage g0 p;
  ci_visited v :
    v ∈ c_visited st → odd_cell g0 v ∧ cell (c_grid st) v = Some EMPTY;
  ci_conn v : v ∈ c_visited st → ∃ n, walk (c_grid st) (1, 1) v n;
}.

(** How a cell enters the maze: it is the first one, or the wall between
    it and a visited cell has been opened. *)
Definition carve_entry (st : carve_state) (p : pos) : Prop :=
  p = (1, 1) ∨
  ∃ u m, u ∈ c_visited st ∧ adjacent4 u m ∧ adjacent4 m p ∧
         cell (c_grid st) m = Some EMPTY.

(** What a call of [carve_path] on [p] achieves. *)
Record carve_post (g0 : Grid) (p : pos) (st st' : carve_state) : Prop :=
  mkCarvePost {
  cp_inv : carve_inv g0 st';
  cp_sub : c_visited st ⊆ c_visited st';
  cp_here : p ∈ c_visited st';
  cp_keep q : cell (c_grid st) q = Some EMPTY →
              cell (c_grid st') q = Some EMPTY;
  cp_closed v w :
    v ∈ c_visited st' → v ∉ c_visited st → lattice_adj v w →
    odd_cell g0 w → w ∈ c_visited st';
}.

End MazeSpec.
(** * Proofs *)

(** ** Python list indexing *)

Lemma py_getitem_nonneg {A} (l : list A) (i : Z) :
  0 <= i < Z.of_nat (length l) →
  ∃ x, l !! Z.to_nat i = Some x ∧ py_getitem l i = Ok x.
Proof.
  intros Hi. unfold py_getitem, py_norm_index.
  destruct (Z.ltb_spec i 0); [lia|].
  destruct (Z.leb_spec 0 i); [|lia].
  destruct (Z.ltb_spec i (Z.of_nat (length l))); [|lia]. simpl.
  destruct (lookup_lt_is_Some_2 l (Z.to_nat i)) as [x Hx]; [lia|].
  exists x. by rewrite Hx.
Qed.

Lemma py_setitem_nonneg {A} (l : list A) (i : Z) (x : A) :
  0 <= i < Z.of_nat (length l) →
  py_setitem l i x = Ok (<[Z.to_nat i := x]> l).
Proof.
  intros Hi. unfold py_setitem, py_norm_index.
  destruct (Z.ltb_spec i 0); [lia|].
  destruct (Z.leb_spec 0 i); [|lia].
  destruct (Z.ltb_spec i (Z.of_nat (length l))); [|lia]. done.
Qed.

(** ** Facts about grid.py *)

Module GridFacts.
Import Grid.

Lemma in_bounds_spec g row col :
  in_bounds g row col = true ↔ 0 <= row < rows g ∧ 0 <= col < cols g.
Proof. unfold in_bounds. rewrite !andb_true_iff. lia. Qed.

Lemma init_wf r c : wf (init r c).
Proof.
  split; simpl.
  - rewrite length_replicate. lia.
  - apply Forall_replicate. rewrite length_replicate. lia.
Qed.

Lemma read_ok g row col :
  wf g → in_bounds g row col = true →
  ∃ ct, cell g (row, col) = Some ct ∧ read g row col = Ok ct.
Proof.
  intros [Hr Hc] Hb. pose proof Hb as Hb'. apply in_bounds_spec in Hb'.
  unfold read, py_getitem2, cell. simpl. rewrite Hb.
  destruct (py_getitem_nonneg (grid g) row) as (r & Hl & ->); [lia|].
  rewrite Hl. simpl.
  assert (Z.of_nat (length r) = Z.max 0 (cols g)) as Hlen.
  { eapply (proj1 (Forall_forall _ _) Hc), list_elem_of_lookup_2, Hl. }
  destruct (py_getitem_nonneg r col) as (x & Hx & ->); [lia|].
  exists x. by rewrite Hx.
Qed.

Lemma write_ok g row col ct :
  wf g → in_bounds g row col = true →
  ∃ g', write g row col ct = Ok g' ∧ wf g' ∧
        rows g' = rows g ∧ cols g' = cols g ∧
        start_pos g' = start_pos g ∧ end_pos g' = end_pos g ∧
        ∀ p, cell g' p = if decide (p = (row, col)) then Some ct else cell g p.
Proof.
  intros [Hr Hc] Hb. pose proof Hb as Hb'. apply in_bounds_spec in Hb'.
  unfold write, py_setitem2.
  destruct (py_getitem_nonneg (grid g) row) as (r & Hl & ->); [lia|].
  assert (Z.of_nat (length r) = Z.max 0 (cols g)) as Hlen.
  { eapply (proj1 (Forall_forall _ _) Hc), list_elem_of_lookup_2, Hl. }
  simpl. rewrite (py_setitem_nonneg r col); [|lia]. simpl.
  rewrite py_setitem_nonneg; [|lia]. simpl.
  eexists; split; [done|]. repeat split; simpl.
  - by rewrite length_insert.
  - apply Forall_insert; [done|]. by rewrite length_insert.
  - intros [r' c']. unfold cell, in_bounds. simpl.
    destruct ((0 <=? r') && (r' <? rows g) && (0 <=? c') && (c' <? cols g))
      eqn:Hb2.
    2:{ case_decide as Heq; [|done]. inversion Heq; subst.
        unfold in_bounds in Hb. congruence. }
    assert (0 <= r' < rows g ∧ 0 <= c' < cols g) as Hb2'.
    { by apply in_bounds_spec. }
    destruct (decide (r' = row)) as [->|Hne].
    + rewrite list_lookup_insert_eq; [|lia]. simpl.
      destruct (decide (c' = col)) as [->|Hne].
      * rewrite list_lookup_insert_eq; [|lia]. by rewrite decide_True.
      * rewrite list_lookup_insert_ne; [|lia].
        rewrite decide_False; [|congruence]. by rewrite Hl.
    + rewrite list_lookup_insert_ne; [|lia].
      by rewrite decide_False; [|congruence].
Qed.

Lemma cell_in_bounds g p ct : cell g p = Some ct → in_bounds g p.1 p.2 = true.
Proof. unfold cell. by destruct (in_bounds _ _ _). Qed.

Ltac grid_side :=
  first [ done
        | eassumption
        | unfold in_bounds in *; simpl in *; congruence ].

Ltac grid_read g r c :=
  let ct := fresh "cur" in
  let Hc := fresh "Hcur" in
  let Hr := fresh "Hread" in
  destruct (read_ok g r c) as (ct & Hc & Hr);
  [grid_side | grid_side |];
  rewrite Hr; clear Hr; simpl.

Ltac grid_write g r c v :=
  let g' := fresh "g" in
  let Hw := fresh "Hwrite" in
  let Hwf := fresh "Hwf" in
  let Hrows := fresh "Hrows" in
  let Hcols := fresh "Hcols" in
  let Hsp := fresh "Hsp" in
  let Hep := fresh "Hep" in
  let Hcell := fresh "Hcell" in
  destruct (write_ok g r c v)
    as (g' & Hw & Hwf & Hrows & Hcols & Hsp & Hep & Hcell);
  [grid_side | grid_side |];
  rewrite Hw; clear Hw; simpl.

Ltac grid_step :=
  match goal with
  | |- context [read ?g ?r ?c] => grid_read g r c
  | |- context [write ?g ?r ?c ?v] => grid_write g r c v
  end.

Lemma in_bounds_eq g g' row col :
  rows g' = rows g → cols g' = cols g →
  in_bounds g' row col = in_bounds g row col.
Proof. unfold in_bounds. by intros -> ->. Qed.

Lemma set_cell_out g row col ct :
  in_bounds g row col = false → set_cell g row col ct = Ok g.
Proof. unfold set_cell. by intros ->. Qed.

Lemma cell_with_start_pos g x p : cell (with_start_pos g x) p = cell g p.
Proof. done. Qed.
Lemma cell_with_end_pos g x p : cell (with_end_pos g x) p = cell g p.
Proof. done. Qed.

Ltac grid_solve :=
  simpl in *; unfold set_cell_start_pos, set_cell_end_pos, set_cell_array;
  repeat first
    [ match goal with H : ∀ p : pos, cell _ p = _ |- _ => rewrite H end
    | rewrite cell_with_start_pos
    | rewrite cell_with_end_pos ];
  repeat (case_decide; simplify_eq; simpl in *; try done; try congruence);
  try (intuition (simplify_eq; congruence)).

Ltac grid_fin :=
  eexists; split; [reflexivity|];
  split_and!;
  [ ..
  | let p := fresh "p" in
    intros p;
    repeat match goal with
           | H : ∀ q : pos, cell ?g q = Some _ → _ |- _ =>
               pose proof (H p); try pose proof (H (_, _) ltac:(eassumption));
               clear H
           end ];
  grid_solve.

Ltac grid_norm :=
  repeat first
    [ match goal with
      | H : ∀ p : pos, cell ?g p = _, H' : cell ?g _ = Some _ |- _ =>
          rewrite H in H'
      end
    | match goal with
      | H' : context [cell (with_start_pos _ _) _] |- _ =>
          rewrite cell_with_start_pos in H'
      | H' : context [cell (with_end_pos _ _) _] |- _ =>
          rewrite cell_with_end_pos in H'
      end ].

Ltac grid_run :=
  repeat first [ grid_step; grid_norm
               | case_decide; simplify_eq; simpl
               | progress simplify_eq ].

Lemma set_cell_in g row col ct :
  marked g → in_bounds g row col = true →
  ∃ g', set_cell g row col ct = Ok g' ∧ wf g' ∧
        rows g' = rows g ∧ cols g' = cols g ∧
        start_pos g' = set_cell_start_pos g row col ct ∧
        end_pos g' = set_cell_end_pos g row col ct ∧
        ∀ p, cell g' p = set_cell_array g row col ct p.
Proof.
  intros [Hwf Hs He Hsi Hei] Hb. unfold set_cell. rewrite Hb.
  destruct ct; simpl.
  - grid_run; grid_fin.
  - grid_run; grid_fin.
  - destruct (start_pos g) as [[orow ocol]|] eqn:Hsp0; simpl.
    + pose proof (Hsi _ eq_refl) as Hob. simpl in Hob. grid_run. all: grid_fin.
    + grid_run; grid_fin.
  - destruct (end_pos g) as [[orow ocol]|] eqn:Hep0; simpl.
    + pose proof (Hei _ eq_refl) as Hob. simpl in Hob. grid_run; grid_fin.
    + grid_run; grid_fin.
  - grid_run; grid_fin.
  - grid_run; grid_fin.
  - grid_run; grid_fin.
Qed.

Lemma init_marked r c : marked (init r c).
Proof.
  split; try done; [apply init_wf| |].
  - intros [i j]. unfold cell. simpl. destruct (in_bounds _ _ _); [|done].
    intros Hl. destruct (replicate _ _ !! _) as [row|] eqn:Hrow; [|done].
    apply lookup_replicate in Hrow as [-> _]. simpl in Hl.
    by apply lookup_replicate in Hl as [? _].
  - intros [i j]. unfold cell. simpl. destruct (in_bounds _ _ _); [|done].
    intros Hl. destruct (replicate _ _ !! _) as [row|] eqn:Hrow; [|done].
    apply lookup_replicate in Hrow as [-> _]. simpl in Hl.
    by apply lookup_replicate in Hl as [? _].
Qed.

Lemma set_cell_marked g row col ct g' :
  marked g → set_cell g row col ct = Ok g' → marked g'.
Proof.
  intros Hm Hset. destruct (in_bounds g row col) eqn:Hb.
  2:{ rewrite set_cell_out in Hset by done. by simplify_eq. }
  destruct (set_cell_in g row col ct Hm Hb)
    as (g2 & Hset' & Hwf & Hrows & Hcols & Hsp & Hep & Hcell).
  rewrite Hset in Hset'. simplify_eq.
  destruct Hm as [Hwf0 Hs He Hsi Hei].
  pose proof (Hs (row, col)) as Hs0. pose proof (He (row, col)) as He0.
  split; [done|..].
  - intros p. rewrite Hcell, Hsp. pose proof (Hs p). pose proof (He p).
    unfold set_cell_array, set_cell_start_pos.
    destruct ct; repeat (case_decide; simplify_eq; simpl; try done);
      try (intuition (simplify_eq; congruence)).
  - intros p. rewrite Hcell, Hep. pose proof (Hs p). pose proof (He p).
    unfold set_cell_array, set_cell_end_pos.
    destruct ct; repeat (case_decide; simplify_eq; simpl; try done);
      try (intuition (simplify_eq; congruence)).
  - intros p. rewrite Hsp. rewrite (in_bounds_eq g g2) by done.
    unfold set_cell_start_pos. pose proof (Hsi p).
    destruct ct; repeat (case_decide; simplify_eq; simpl; try done);
      try (intuition (simplify_eq; congruence)).
    by intros [= <-].
  - intros p. rewrite Hep. rewrite (in_bounds_eq g g2) by done.
    unfold set_cell_end_pos. pose proof (Hei p).
    destruct ct; repeat (case_decide; simplify_eq; simpl; try done);
      try (intuition (simplify_eq; congruence)).
    by intros [= <-].
Qed.

Lemma reachable_marked g : reachable g → marked g.
Proof.
  induction 1 as [|g row col ct g' _ IH Hset]; [apply init_marked|].
  by eapply set_cell_marked.
Qed.

(** C10: [get_cell] never raises on a grid of the constructor's shape, and
    a position outside [0,rows) x [0,cols) yields [WALL]. *)
Theorem get_cell_total g row col :
  wf g →
  (∃ ct, get_cell g row col = Ok ct) ∧
  (¬ (0 <= row < rows g ∧ 0 <= col < cols g) → get_cell g row col = Ok WALL).
Proof.
  intros Hwf. unfold get_cell. split.
  - destruct (in_bounds g row col) eqn:Hb; [|by eexists].
    destruct (read_ok g row col) as (ct & _ & ->); by eauto.
  - intros Hout. destruct (in_bounds g row col) eqn:Hb; [|done].
    by apply in_bounds_spec in Hb.
Qed.

Lemma get_cell_total_witness :
  (∃ ct, get_cell (init 2 3) 1 2 = Ok ct) ∧
  get_cell (init 2 3) (-1) 7 = Ok WALL.
Proof.
  destruct (get_cell_total (init 2 3) 1 2 (init_wf 2 3)) as [H1 _].
  destruct (get_cell_total (init 2 3) (-1) 7 (init_wf 2 3)) as [_ H2].
  split; [exact H1|]. apply H2. simpl. lia.
Defined.

(** C8 as stated fails: marking as START a cell that holds END leaves END in
    the array. *)
Lemma set_cell_start_on_end :
  ∃ g1 g2,
    set_cell (init 1 2) 0 0 END = Ok g1 ∧
    in_bounds g1 0 0 = true ∧
    set_cell g1 0 0 START = Ok g2 ∧
    cell g2 (0, 0) = Some END ∧ cell g2 (0, 0) ≠ Some START.
Proof. do 2 eexists. split_and!; [reflexivity..|done]. Qed.

(** C8, amended: on a grid built by the constructor and [set_cell] calls,
    and for an in-bounds position, [set_cell] with START (END) records the
    position in [start_pos] ([end_pos]), empties every other START (END)
    cell and marks the given cell unless it holds END (START), which it
    keeps; with WALL the cell becomes WALL and, if it held START (END),
    [start_pos] ([end_pos]) becomes [None]; and the array holds at most one
    START and at most one END cell. *)
Theorem set_cell_markers g row col :
  reachable g → in_bounds g row col = true →
  (∃ g', set_cell g row col START = Ok g' ∧
     start_pos g' = Some (row, col) ∧
     (∀ p, p ≠ (row, col) →
        cell g' p ≠ Some START ∧
        cell g' p = if decide (cell g p = Some START) then Some EMPTY
                    else cell g p) ∧
     cell g' (row, col) =
       if decide (cell g (row, col) = Some END) then Some END
       else Some START) ∧
  (∃ g', set_cell g row col END = Ok g' ∧
     end_pos g' = Some (row, col) ∧
     (∀ p, p ≠ (row, col) →
        cell g' p ≠ Some END ∧
        cell g' p = if decide (cell g p = Some END) then Some EMPTY
                    else cell g p) ∧
     cell g' (row, col) =
       if decide (cell g (row, col) = Some START) then Some START
       else Some END) ∧
  (∃ g', set_cell g row col WALL = Ok g' ∧
     cell g' (row, col) = Some WALL ∧
     (cell g (row, col) = Some START → start_pos g' = None) ∧
     (cell g (row, col) = Some END → end_pos g' = None)) ∧
  (∀ p q, cell g p = Some START → cell g q = Some START → p = q) ∧
  (∀ p q, cell g p = Some END → cell g q = Some END → p = q).
Proof.
  intros Hr Hb. pose proof (reachable_marked g Hr) as Hm.
  split_and!.
  - destruct (set_cell_in g row col START Hm Hb)
      as (g' & -> & _ & _ & _ & Hsp & _ & Hc).
    exists g'. split; [done|]. split; [done|]. split.
    + intros p Hp. rewrite Hc. unfold set_cell_array.
      rewrite decide_False by done. split; [|done].
      case_decide; congruence.
    + rewrite Hc. unfold set_cell_array. by rewrite decide_True.
  - destruct (set_cell_in g row col END Hm Hb)
      as (g' & -> & _ & _ & _ & _ & Hep & Hc).
    exists g'. split; [done|]. split; [done|]. split.
    + intros p Hp. rewrite Hc. unfold set_cell_array.
      rewrite decide_False by done. split; [|done].
      case_decide; congruence.
    + rewrite Hc. unfold set_cell_array. by rewrite decide_True.
  - destruct (set_cell_in g row col WALL Hm Hb)
      as (g' & -> & _ & _ & _ & Hsp & Hep & Hc).
    exists g'. split; [done|]. split_and!.
    + rewrite Hc. unfold set_cell_array. by rewrite decide_True.
    + intros Hs. rewrite Hsp. simpl. by rewrite decide_True.
    + intros He. rewrite Hep. simpl.
      rewrite decide_False by congruence. by rewrite decide_True.
  - intros p q Hp Hq. apply (marked_start g Hm) in Hp, Hq. congruence.
  - intros p q Hp Hq. apply (marked_end g Hm) in Hp, Hq. congruence.
Qed.

Lemma reachable_example :
  reachable (mkGrid 2 2 [[START; EMPTY]; [EMPTY; EMPTY]] (Some (0, 0)) None).
Proof. by eapply (reach_set (init 2 2) 0 0 START), eq_refl; apply reach_init. Qed.

Lemma set_cell_markers_witness :
  let g := mkGrid 2 2 [[START; EMPTY]; [EMPTY; EMPTY]] (Some (0, 0)) None in
  reachable g ∧ in_bounds g 1 1 = true ∧
  ∃ g', set_cell g 1 1 START = Ok g' ∧ cell g' (1, 1) = Some START.
Proof.
  intros g. split; [apply reachable_example|]. split; [reflexivity|].
  destruct (set_cell_markers g 1 1 reachable_example eq_refl)
    as ((g' & Hs & _ & _ & Hc) & _).
  exists g'. split; [exact Hs|]. exact Hc.
Defined.

End GridFacts.
(** ** Facts shared by the four searches *)

Module SearchFacts.
Import Grid GridFacts Algorithms SearchSpec.

Lemma is_valid_validb g row col :
  wf g → is_valid g row col = Ok (validb g (row, col)).
Proof.
  intros Hwf. unfold is_valid, validb.
  destruct (in_bounds g row col) eqn:Hb.
  - destruct (read_ok g row col) as (ct & -> & ->); done.
  - unfold cell. simpl. by rewrite Hb.
Qed.

Lemma collect_neighbors_ok g row col dirs acc :
  wf g →
  collect_neighbors g row col dirs acc =
    Ok (acc ++ filter (λ q, validb g q = true) (move (row, col) <$> dirs)).
Proof.
  intros Hwf. revert acc. induction dirs as [|[dr dc] dirs IH]; intros acc; simpl.
  - by rewrite app_nil_r.
  - rewrite is_valid_validb by done. simpl. rewrite IH.
    change (move (row, col) (dr, dc)) with (row + dr, col + dc).
    destruct (decide (validb g (row + dr, col + dc) = true)) as [Hv|Hv].
    + rewrite filter_cons_True by done. rewrite Hv. by rewrite <- app_assoc.
    + rewrite filter_cons_False by done.
      by destruct (validb g (row + dr, col + dc)).
Qed.

Lemma neighbors_of_ok g p : wf g → neighbors_of g p = Ok (nbrs g p).
Proof.
  intros Hwf. destruct p as [row col]. unfold neighbors_of, get_neighbors.
  by rewrite collect_neighbors_ok.
Qed.

Lemma elem_of_nbrs g p q : q ∈ nbrs g p ↔ adjacent4 p q ∧ validb g q = true.
Proof.
  unfold nbrs, adjacent4. rewrite list_elem_of_filter, list_elem_of_fmap.
  unfold move. naive_solver.
Qed.

Lemma validb_in_bounds g p : validb g p = true → in_bounds g p.1 p.2 = true.
Proof.
  unfold validb. destruct (cell g p) eqn:Hc; [|done].
  intros _. by eapply cell_in_bounds.
Qed.

Lemma elem_of_positions g p : in_bounds g p.1 p.2 = true → p ∈ positions g.
Proof.
  intros Hb. apply in_bounds_spec in Hb. destruct p as [r c]. simpl in *.
  unfold positions. apply list_elem_of_bind. exists (Z.to_nat r). split.
  - apply list_elem_of_bind. exists (Z.to_nat c). split.
    + rewrite !Z2Nat.id by lia. set_solver.
    + apply list_elem_of_In, in_seq. lia.
  - apply list_elem_of_In, in_seq. lia.
Qed.

Lemma length_positions g : length (positions g) = area g.
Proof.
  unfold positions, area.
  assert (∀ (r : nat) m b,
    length (seq b m ≫= λ c : nat, [(Z.of_nat r, Z.of_nat c)]) = m) as Hin.
  { intros r m. induction m as [|m IH]; intros b; simpl; [done|].
    by rewrite IH. }
  assert (∀ n m a,
    length (seq a n ≫= λ r : nat,
            seq 0 m ≫= λ c : nat, [(Z.of_nat r, Z.of_nat c)]) = (n * m)%nat)
    as Hout; [|apply Hout].
  intros n m. induction n as [|n IH]; intros a; simpl; [done|].
  by rewrite length_app, IH, Hin.
Qed.

Lemma elem_of_valid_cells g p : p ∈ valid_cells g ↔ validb g p = true.
Proof.
  unfold valid_cells. rewrite elem_of_list_to_set, list_elem_of_filter.
  split; [tauto|]. intros Hv. split; [done|].
  by apply elem_of_positions, validb_in_bounds.
Qed.

Lemma size_list_to_set_le (l : list pos) :
  (size (list_to_set l : gset pos) ≤ length l)%nat.
Proof.
  induction l as [|x l IH]; simpl; [done|].
  rewrite size_union_alt, size_singleton.
  assert (size (list_to_set l ∖ {[x]} : gset pos) ≤ size (list_to_set l : gset pos))%nat.
  { apply subseteq_size. set_solver. }
  lia.
Qed.

Lemma size_valid_cells g : (size (valid_cells g) ≤ area g)%nat.
Proof.
  unfold valid_cells. rewrite <- length_positions.
  etrans; [apply size_list_to_set_le|]. apply length_filter.
Qed.

(** Number of cells of [V] outside [S] drops when such a cell joins [S]. *)
Lemma size_difference_insert (V S : gset pos) (p : pos) :
  p ∈ V → p ∉ S →
  (size (V ∖ ({[p]} ∪ S)) + 1 = size (V ∖ S))%nat.
Proof.
  intros HV HS.
  assert (V ∖ S = {[p]} ∪ (V ∖ ({[p]} ∪ S))) as ->.
  { apply set_eq. intros x. rewrite elem_of_union, !elem_of_difference,
      elem_of_union, elem_of_singleton.
    destruct (decide (x = p)); naive_solver. }
  rewrite (size_union {[p]}) by set_solver. rewrite size_singleton. lia.
Qed.

(** *** heapq *)


Lemma entry_leb_total a b : entry_leb a b = true ∨ entry_leb b a = true.
Proof. unfold entry_leb. destruct a as [? [??]], b as [? [??]]; simpl. lia. Qed.

Lemma entry_leb_trans a b c :
  entry_leb a b = true → entry_leb b c = true → entry_leb a c = true.
Proof. unfold entry_leb. destruct a as [? [??]], b as [? [??]], c as [? [??]]; simpl. lia. Qed.

Lemma entry_leb_refl a : entry_leb a a = true.
Proof. unfold entry_leb. destruct a as [? [??]]; simpl. lia. Qed.

Lemma entry_leb_key a b : entry_leb a b = true → a.1 <= b.1.
Proof. unfold entry_leb. destruct a as [? [??]], b as [? [??]]; simpl. lia. Qed.

Lemma heap_min_spec x l :
  heap_min x l ∈ x :: l ∧ ∀ y, y ∈ x :: l → entry_leb (heap_min x l) y = true.
Proof.
  revert x. induction l as [|y l IH]; intros x; simpl.
  - split; [set_solver|]. intros y Hy. apply list_elem_of_singleton in Hy as ->.
    apply entry_leb_refl.
  - destruct (IH (if entry_leb x y then x else y)) as [Hin Hle]. split.
    + destruct (entry_leb x y); set_solver.
    + intros z Hz. destruct (entry_leb x y) eqn:Hxy.
      * apply elem_of_cons in Hz as [->|Hz]; [apply Hle; left|].
        apply elem_of_cons in Hz as [->|Hz].
        -- eapply (entry_leb_trans _ x); [apply Hle; left|done].
        -- apply Hle. by right.
      * apply elem_of_cons in Hz as [->|Hz].
        -- eapply (entry_leb_trans _ y); [apply Hle; left|].
           destruct (entry_leb_total x y); congruence.
        -- apply Hle. set_solver.
Qed.

Lemma remove_one_perm x l : x ∈ l → l ≡ₚ x :: remove_one x l.
Proof.
  induction l as [|y l IH]; [set_solver|]. intros Hin. simpl.
  destruct (decide (x = y)) as [->|Hne]; [done|].
  apply elem_of_cons in Hin as [?|Hin]; [done|].
  rewrite (IH Hin) at 1. apply Permutation_swap.
Qed.

Lemma heappop_None h : heappop h = None ↔ h = [].
Proof. by destruct h. Qed.

Lemma heappop_Some h e h' :
  heappop h = Some (e, h') →
  h ≡ₚ e :: h' ∧ ∀ y, y ∈ h → entry_leb e y = true.
Proof.
  destruct h as [|x l]; [done|]. unfold heappop. intros [= <- <-].
  destruct (heap_min_spec x l) as [Hin Hle]. split; [|done].
  by apply remove_one_perm.
Qed.

(** *** Paths and walks *)

Lemma is_valid_true g p :
  wf g → is_valid g p.1 p.2 = Ok true ↔ validb g p = true.
Proof.
  intros Hwf. rewrite is_valid_validb by done. destruct p; simpl.
  split; [by intros [= ->]|by intros ->].
Qed.

Lemma is_path_snoc g l v w :
  is_path g l → last l = Some v → adjacent4 v w →
  is_valid g w.1 w.2 = Ok true → is_path g (l ++ [w]).
Proof.
  induction l as [|p l IH]; [done|]. intros [Hp Hl] Hlast Hadj Hw.
  destruct l as [|q l]; simpl in *.
  - by simplify_eq.
  - destruct Hl as [Hpq Hl]. split; [done|]. split; [done|]. by apply IH.
Qed.

Lemma walk_path g s e n :
  wf g → walk g s e n →
  ∃ l, path_between g s e l ∧ length l = S n.
Proof.
  intros Hwf. induction 1 as [Hs|v w n _ (l & (Hl & Hh & Hlast) & Hlen) Hadj Hw].
  - exists [s]. repeat split; try done. by apply is_valid_true.
  - exists (l ++ [w]). split; [split; [|split]|].
    + eapply is_path_snoc; try done. by apply is_valid_true.
    + destruct l; [done|]. done.
    + by rewrite last_snoc.
    + rewrite length_app. simpl. lia.
Qed.

Lemma is_path_walk g s p l n :
  wf g → walk g s p n → is_path g (p :: l) →
  ∃ e, last (p :: l) = Some e ∧ walk g s e (n + length l).
Proof.
  intros Hwf. revert p n. induction l as [|q l IH]; intros p n Hwalk Hpath.
  - exists p. split; [done|]. by rewrite Nat.add_0_r.
  - destruct Hpath as [Hp [Hadj Hl]].
    destruct (IH q (S n)) as (e & Hlast & He); [|done|].
    + eapply walk_step; try done. apply is_valid_true; [done|]. by destruct Hl.
    + exists e. split; [done|]. simpl. by rewrite Nat.add_succ_r.
Qed.

Lemma path_walk g s e l :
  wf g → path_between g s e l → ∃ n, length l = S n ∧ walk g s e n.
Proof.
  intros Hwf (Hl & Hh & Hlast). destruct l as [|p l]; [done|].
  simpl in Hh. simplify_eq.
  destruct (is_path_walk g s s l 0) as (e' & Hlast' & He); try done.
  - apply walk_here. apply is_valid_true; [done|]. by destruct Hl.
  - exists (length l). split; [done|]. by simplify_eq.
Qed.

Lemma shortest_length_walk g s e (n : nat) :
  wf g → walk g s e n → (∀ m, walk g s e m → (n ≤ m)%nat) →
  shortest_length g s e (Z.of_nat n).
Proof.
  intros Hwf Hw Hmin. split.
  - destruct (walk_path g s e n) as (l & Hl & Hlen); try done.
    exists l. split; [done|]. unfold edge_count. lia.
  - intros l Hl. destruct (path_walk g s e l) as (m & Hlen & Hm); try done.
    apply Hmin in Hm. unfold edge_count. lia.
Qed.

(** *** Path reconstruction *)

Lemma reconstruct_chain g s parent d :
  wf g → chain_ok g s parent d →
  ∀ (n : nat) v acc fuel,
    d !! v = Some (Z.of_nat n) → (n < fuel)%nat →
    ∃ l, reconstruct fuel parent (Some v) acc = Ok (acc ++ l) ∧
         length l = S n ∧ path_between g s v (reverse l).
Proof.
  intros Hwf Hchain. induction n as [|n IH]; intros v acc fuel Hv Hfuel.
  - destruct (Hchain v _ Hv) as (_ & Hvalid & Hp).
    destruct fuel as [|fuel]; [lia|]. simpl.
    destruct (parent !! v) as [[u|]|] eqn:Hpar; [| |done].
    + destruct Hp as [Hu _]. destruct (Hchain u _ Hu) as (? & _). lia.
    + destruct Hp as [-> _]. exists [s]. destruct fuel; simpl.
      all: repeat split; try done; by apply is_valid_true.
  - destruct (Hchain v _ Hv) as (_ & Hvalid & Hp).
    destruct fuel as [|fuel]; [lia|]. simpl.
    destruct (parent !! v) as [[u|]|] eqn:Hpar; [|lia|done].
    destruct Hp as [Hu Hadj].
    replace (Z.of_nat (S n) - 1) with (Z.of_nat n) in Hu by lia.
    destruct (IH u (acc ++ [v]) fuel Hu) as (l & -> & Hlen & Hl & Hh & Hlast);
      [lia|].
    exists (v :: l). rewrite <- app_assoc. split; [done|].
    split; [simpl; lia|]. rewrite reverse_cons. split; [|split].
    + eapply is_path_snoc; try done. by apply is_valid_true.
    + destruct (reverse l); done.
    + by rewrite last_snoc.
Qed.

Lemma finish_found_ok g s parent d e dv r nv :
  wf g → chain_ok g s parent d → d !! e = Some dv →
  dv < Z.of_nat (size parent) →
  ∃ p, finish_found parent e r nv =
         Ok (mkResult p (visited r) (exploring r) true dv (Z.of_nat nv)) ∧
       path_between g s e p ∧ edge_count p = dv.
Proof.
  intros Hwf Hchain He Hsize.
  destruct (Hchain e _ He) as (Hdv & _).
  destruct (reconstruct_chain g s parent d Hwf Hchain (Z.to_nat dv) e []
              (size parent)) as (l & Hrec & Hlen & Hpath).
  { by rewrite Z2Nat.id. } { lia. }
  unfold finish_found. rewrite Hrec. simpl.
  exists (reverse l). rewrite length_reverse, Hlen.
  replace (Z.of_nat (S (Z.to_nat dv)) - 1) with dv by lia.
  split; [done|]. split; [done|]. unfold edge_count.
  rewrite length_reverse, Hlen. lia.
Qed.

(** *** The neighbour loop of bfs and dfs *)

Lemma chain_ok_insert g s parent d u du w :
  chain_ok g s parent d → d !! u = Some du → d !! w = None →
  adjacent4 u w → validb g w = true →
  chain_ok g s (<[w := Some u]> parent) (<[w := du + 1]> d).
Proof.
  intros Hchain Hu Hw Hadj Hvalid v dv Hv.
  destruct (decide (v = w)) as [->|Hne].
  - rewrite lookup_insert_eq in Hv. simplify_eq.
    destruct (Hchain u _ Hu) as (? & _).
    rewrite lookup_insert_eq. split; [lia|]. split; [done|].
    rewrite lookup_insert_ne by congruence.
    split; [|done]. rewrite Hu. f_equal. lia.
  - rewrite lookup_insert_ne in Hv by done.
    destruct (Hchain v _ Hv) as (? & ? & Hp). split; [done|]. split; [done|].
    rewrite lookup_insert_ne by done.
    destruct (parent !! v) as [[x|]|]; [|done..].
    destruct Hp as [Hx ?]. split; [|done].
    rewrite lookup_insert_ne; [done|]. congruence.
Qed.

Lemma basic_inv_visit g s st dep u du w :
  basic_inv g s st dep → dep !! u = Some du →
  adjacent4 u w → validb g w = true → w ∉ b_visited st →
  basic_inv g s (bfs_visit u st w) (<[w := du + 1]> dep) ∧
  bfs_visit u st w =
    mkBfs (b_queue st ++ [w]) ({[w]} ∪ b_visited st)
      (<[w := Some u]> (b_parent st)) (add_visited (b_result st) w)
      (b_log st ++ [Enq w]).
Proof.
  intros Hinv Hu Hadj Hvalid Hw. unfold bfs_visit.
  rewrite decide_False by done. split; [|done].
  destruct Hinv as [Hdp Hdd Hs Hchain Hdepth Hfr Hnd Hsub Henq Hdeq Hfound].
  assert (dep !! w = None) as Hwd.
  { apply not_elem_of_dom. by rewrite Hdd. }
  split; simpl.
  - by rewrite dom_insert_L, Hdp.
  - by rewrite dom_insert_L, Hdd.
  - rewrite lookup_insert_ne; [done|]. congruence.
  - by apply chain_ok_insert.
  - intros v dv Hv. rewrite size_union by set_solver. rewrite size_singleton.
    destruct (decide (v = w)) as [->|Hne].
    + rewrite lookup_insert_eq in Hv. simplify_eq.
      apply Hdepth in Hu. lia.
    + rewrite lookup_insert_ne in Hv by done. apply Hdepth in Hv. lia.
  - intros v Hv. apply elem_of_app in Hv as [Hv|Hv]; [set_solver|].
    apply list_elem_of_singleton in Hv. set_solver.
  - apply NoDup_app. split; [done|]. split; [|apply NoDup_singleton].
    intros x Hx Hx'. apply list_elem_of_singleton in Hx' as ->. by apply Hsub in Hx.
  - intros v Hv. apply elem_of_app in Hv as [Hv|Hv]; [set_solver|].
    apply list_elem_of_singleton in Hv. set_solver.
  - unfold enqueued in *. rewrite omap_app, Henq. done.
  - unfold dequeued in *. rewrite omap_app, Hdeq. simpl. by rewrite app_nil_r.
  - done.
Qed.

Lemma basic_inv_fold g s u du ns :
  (∀ w, w ∈ ns → adjacent4 u w ∧ validb g w = true) →
  ∀ st dep, basic_inv g s st dep → dep !! u = Some du →
  ∃ dep' new,
    basic_inv g s (foldl (bfs_visit u) st ns) dep' ∧ dep ⊆ dep' ∧
    b_queue (foldl (bfs_visit u) st ns) = b_queue st ++ new ∧
    (∀ v, v ∈ b_visited (foldl (bfs_visit u) st ns) ↔
          v ∈ b_visited st ∨ v ∈ new) ∧
    (∀ w, w ∈ new → dep' !! w = Some (du + 1) ∧ w ∉ b_visited st) ∧
    (∀ w, w ∈ ns → w ∈ b_visited (foldl (bfs_visit u) st ns)) ∧
    exploring (b_result (foldl (bfs_visit u) st ns)) =
      exploring (b_result st) ∧
    (length new +
       2 * size (valid_cells g ∖ b_visited (foldl (bfs_visit u) st ns))
     ≤ 2 * size (valid_cells g ∖ b_visited st))%nat.
Proof.
  induction ns as [|w ns IH]; intros Hns st dep Hinv Hu; simpl.
  - exists dep, []. rewrite app_nil_r.
    split_and!; try done; try set_solver.
  - assert (adjacent4 u w ∧ validb g w = true) as [Hadj Hvalid].
    { apply Hns. by left. }
    assert (∀ w', w' ∈ ns → adjacent4 u w' ∧ validb g w' = true) as Hns'.
    { intros w' Hw'. apply Hns. by right. }
    destruct (decide (w ∈ b_visited st)) as [Hw|Hw].
    + assert (bfs_visit u st w = st) as ->.
      { unfold bfs_visit. by rewrite decide_True. }
      destruct (IH Hns' st dep Hinv Hu)
        as (dep' & new & ? & ? & ? & Hvis & ? & Hall & ? & ?).
      exists dep', new. split_and!; try done.
      intros w' Hw'. apply elem_of_cons in Hw' as [->|Hw']; [|by apply Hall].
      apply Hvis. by left.
    + destruct (basic_inv_visit g s st dep u du w) as [Hinv1 Heq]; try done.
      assert (dep !! w = None) as Hwd.
      { apply not_elem_of_dom. by rewrite (bi_dom_dep _ _ _ _ Hinv). }
      assert (<[w := du + 1]> dep !! u = Some du) as Hu1.
      { rewrite lookup_insert_ne; [done|]. congruence. }
      destruct (IH Hns' _ _ Hinv1 Hu1)
        as (dep' & new & Hinv' & Hsub & Hq & Hvis & Hnew & Hall & Hexp & Hm).
      rewrite Heq in *. simpl in *.
      exists dep', (w :: new). split_and!; try done.
      * etrans; [|done]. by apply insert_subseteq.
      * by rewrite Hq, <- app_assoc.
      * intros v. rewrite Hvis, elem_of_union, elem_of_singleton, elem_of_cons.
        tauto.
      * intros w' Hw'. apply elem_of_cons in Hw' as [->|Hw'].
        -- split; [|done]. eapply lookup_weaken; [|done].
           by rewrite lookup_insert_eq.
        -- destruct (Hnew w' Hw') as [? Hnot]. split; [done|].
           rewrite not_elem_of_union in Hnot. tauto.
      * intros w' Hw'. apply elem_of_cons in Hw' as [->|Hw']; [|by apply Hall].
        apply Hvis. left. by apply elem_of_union_l, elem_of_singleton.
      * pose proof (size_difference_insert (valid_cells g) (b_visited st) w)
          as Hsz.
        rewrite elem_of_valid_cells in Hsz. specialize (Hsz Hvalid Hw).
        simpl. lia.
Qed.

Lemma basic_inv_pop g s st dep u rest :
  basic_inv g s st dep → (∀ v, v ∈ rest → v ∈ b_queue st) →
  basic_inv g s
    (mkBfs rest (b_visited st) (b_parent st) (add_exploring (b_result st) u)
       (b_log st ++ [Deq u])) dep.
Proof.
  intros [Hdp Hdd Hs Hchain Hdepth Hfr Hnd Hsub Henq Hdeq Hfound] Hrest.
  split; simpl; try done.
  - intros v Hv. by apply Hfr, Hrest.
  - unfold enqueued in *. rewrite omap_app, Henq. simpl. by rewrite app_nil_r.
  - unfold dequeued in *. by rewrite omap_app, Hdeq.
Qed.

Lemma basic_inv_init g s : validb g s = true → basic_inv g s (bfs_init s) {[s := 0]}.
Proof.
  intros Hs. unfold bfs_init.
  split; cbn [b_queue b_visited b_parent b_result b_log]; try done.
  - by rewrite dom_singleton_L.
  - by rewrite dom_singleton_L.
  - by rewrite lookup_singleton_eq.
  - intros v dv Hv. apply lookup_singleton_Some in Hv as [<- <-].
    split; [done|]. split; [done|]. by rewrite lookup_singleton_eq.
  - intros v dv Hv. apply lookup_singleton_Some in Hv as [<- <-].
    rewrite size_singleton. lia.
  - intros v Hv. apply list_elem_of_singleton in Hv. set_solver.
  - apply NoDup_nil_2.
  - intros v Hv. by apply elem_of_nil in Hv.
Qed.

(** *** The level structure of the bfs queue *)

Lemma bfs_level_init g s : bfs_level g (bfs_init s) {[s := 0]} 0 [s] [].
Proof.
  split; simpl; try done.
  - intros v Hv. apply list_elem_of_singleton in Hv as ->.
    by rewrite lookup_singleton_eq.
  - intros v Hv. by apply elem_of_nil in Hv.
  - intros v dv Hv. apply lookup_singleton_Some in Hv as [<- <-]. lia.
  - intros v w dv Hv Hq. apply lookup_singleton_Some in Hv as [<- <-].
    destruct Hq. by left.
Qed.

Lemma bfs_head_least g st dep k q1 q2 u rest du y dy :
  bfs_level g st dep k q1 q2 → b_queue st = u :: rest →
  dep !! u = Some du → y ∈ b_queue st → dep !! y = Some dy → du <= dy.
Proof.
  intros [Hq Hq1 Hq2 Hb Hc] Hqueue Hu Hy Hdy.
  rewrite Hq in Hqueue, Hy. apply elem_of_app in Hy.
  destruct q1 as [|x q1]; simpl in Hqueue; simplify_eq.
  - destruct Hy as [Hy|Hy]; [by apply elem_of_nil in Hy|].
    pose proof (Hq2 u ltac:(by left)). pose proof (Hq2 y Hy). simplify_eq. lia.
  - pose proof (Hq1 u ltac:(by left)).
    destruct Hy as [Hy|Hy].
    + pose proof (Hq1 y Hy). simplify_eq. lia.
    + pose proof (Hq2 y Hy). simplify_eq. lia.
Qed.

Lemma bfs_walk_bound g s st dep k q1 q2 x n :
  basic_inv g s st dep → bfs_level g st dep k q1 q2 → walk g s x n →
  (∃ dx, dep !! x = Some dx ∧ dx <= Z.of_nat n) ∨
  (∃ y dy, y ∈ b_queue st ∧ dep !! y = Some dy ∧ dy <= Z.of_nat n).
Proof.
  intros Hinv Hlev. induction 1 as [Hs|v w n _ IH Hadj Hw].
  - left. exists 0. split; [apply (bi_start _ _ _ _ Hinv)|lia].
  - destruct IH as [(dv & Hv & Hle)|(y & dy & Hy & Hdy & Hle)].
    + destruct (decide (v ∈ b_queue st)) as [Hin|Hout].
      * right. exists v, dv. split; [done|]. split; [done|]. lia.
      * left. destruct (bl_closed _ _ _ _ _ _ Hlev v w dv) as (dw & Hdw & Hle');
          try done.
        { by apply elem_of_nbrs. }
        exists dw. split; [done|]. lia.
    + right. exists y, dy. split; [done|]. split; [done|]. lia.
Qed.

Lemma bfs_head_optimal g s st dep k q1 q2 u rest du n :
  basic_inv g s st dep → bfs_level g st dep k q1 q2 →
  b_queue st = u :: rest → dep !! u = Some du → walk g s u n →
  du <= Z.of_nat n.
Proof.
  intros Hinv Hlev Hq Hu Hwalk.
  destruct (bfs_walk_bound g s st dep k q1 q2 u n)
    as [(dx & Hx & Hle)|(y & dy & Hy & Hdy & Hle)]; try done.
  - simplify_eq. lia.
  - pose proof (bfs_head_least g st dep k q1 q2 u rest du y dy
                  Hlev Hq Hu Hy Hdy). lia.
Qed.

Lemma bfs_level_step g s st dep k q1 q2 u rest du st' dep' new :
  basic_inv g s st dep → bfs_level g st dep k q1 q2 →
  b_queue st = u :: rest → dep !! u = Some du →
  basic_inv g s st' dep' → dep ⊆ dep' →
  b_queue st' = rest ++ new →
  (∀ v, v ∈ b_visited st' ↔ v ∈ b_visited st ∨ v ∈ new) →
  (∀ w, w ∈ new → dep' !! w = Some (du + 1) ∧ w ∉ b_visited st) →
  (∀ w, w ∈ nbrs g u → w ∈ b_visited st') →
  ∃ q1' q2', bfs_level g st' dep' du q1' q2'.
Proof.
  intros Hinv [Hq Hq1 Hq2 Hb Hc] Hqueue Hu Hinv' Hsub Hq' Hvis Hnew Hall.
  assert (∀ v dv, dep' !! v = Some dv →
            dep !! v = Some dv ∨ (v ∈ new ∧ dv = du + 1)) as Hdep'.
  { intros v dv Hv.
    assert (v ∈ b_visited st') as Hin.
    { rewrite <- (bi_dom_dep _ _ _ _ Hinv'). by apply elem_of_dom. }
    apply Hvis in Hin as [Hin|Hin].
    - left. rewrite <- (bi_dom_dep _ _ _ _ Hinv) in Hin.
      apply elem_of_dom in Hin as [x Hx].
      pose proof (lookup_weaken _ _ _ _ Hx Hsub). congruence.
    - right. split; [done|]. destruct (Hnew v Hin). congruence. }
  assert (k <= du <= k + 1 ∧
          ∃ q1', rest = q1' ++ (if decide (du = k) then q2 else []) ∧
                 ∀ v, v ∈ q1' → dep !! v = Some du) as (Hk & q1' & Hrest & Hq1').
  { rewrite Hq in Hqueue. destruct q1 as [|x q1]; simpl in Hqueue; simplify_eq.
    - pose proof (Hq2 u ltac:(by left)). simplify_eq. split; [lia|].
      exists rest. rewrite decide_False by lia. rewrite app_nil_r.
      split; [done|]. intros v Hv. apply Hq2. by right.
    - pose proof (Hq1 u ltac:(by left)). simplify_eq. split; [lia|].
      exists q1. rewrite decide_True by done. split; [done|].
      intros v Hv. apply Hq1. by right. }
  exists q1', ((if decide (du = k) then q2 else []) ++ new).
  split.
  - by rewrite Hq', Hrest, <- app_assoc.
  - intros v Hv. eapply lookup_weaken; [|done]. by apply Hq1'.
  - intros v Hv. apply elem_of_app in Hv as [Hv|Hv]; [|by apply Hnew].
    case_decide; [|by apply elem_of_nil in Hv]. subst.
    eapply lookup_weaken; [|done]. by apply Hq2.
  - intros v dv Hv. apply Hdep' in Hv as [Hv|[_ ->]]; [|lia].
    apply Hb in Hv. lia.
  - intros v w dv Hv Hout Hw.
    assert (v ∉ new) as Hvnew.
    { intros Hin. apply Hout. rewrite Hq'. apply elem_of_app. by right. }
    apply Hdep' in Hv as [Hv|[? _]]; [|done].
    destruct (decide (v = u)) as [->|Hne].
    + simplify_eq.
      assert (w ∈ dom dep') as Hwd.
      { rewrite (bi_dom_dep _ _ _ _ Hinv'). by apply Hall. }
      apply elem_of_dom in Hwd as [dw Hdw]. exists dw. split; [done|].
      apply Hdep' in Hdw as [Hdw|[_ ->]]; [|lia]. apply Hb in Hdw. lia.
    + destruct (Hc v w dv) as (dw & Hdw & Hle); try done.
      * rewrite Hqueue. intros Hin. apply elem_of_cons in Hin as [?|Hin]; [done|].
        apply Hout. rewrite Hq'. apply elem_of_app. by left.
      * exists dw. split; [|done]. by eapply lookup_weaken.
Qed.

Lemma size_dom_parent g s st dep :
  basic_inv g s st dep → size (b_parent st) = size (b_visited st).
Proof. intros Hinv. by rewrite <- (bi_dom_parent _ _ _ _ Hinv), size_dom. Qed.

Lemma bfs_loop_correct g s e :
  wf g →
  ∀ fuel st dep k q1 q2,
    basic_inv g s st dep → bfs_level g st dep k q1 q2 →
    (bfs_measure g st < fuel)%nat →
    ∃ r log, bfs_loop fuel g e st = Ok (r, log) ∧ trace_post s r log ∧
      (found r = true →
       path_between g s e (path r) ∧ edge_count (path r) = path_length r ∧
       shortest_length g s e (path_length r)).
Proof.
  intros Hwf. induction fuel as [|fuel IH]; intros st dep k q1 q2 Hinv Hlev Hm;
    [lia|].
  simpl. destruct (b_queue st) as [|u rest] eqn:Hq.
  - eexists _, _. split; [done|]. split.
    + destruct Hinv. by split.
    + simpl. by rewrite (bi_found _ _ _ _ Hinv).
  - assert (∀ v, v ∈ rest → v ∈ b_queue st) as Hrest.
    { intros v Hv. rewrite Hq. by right. }
    assert (u ∈ dom dep) as Hud.
    { rewrite (bi_dom_dep _ _ _ _ Hinv). apply (bi_frontier _ _ _ _ Hinv).
      rewrite Hq. by left. }
    apply elem_of_dom in Hud as [du Hu].
    destruct (decide (u = e)) as [->|Hne].
    + destruct (finish_found_ok g s (b_parent st) dep e du
                  (add_exploring (b_result st) e) (size (b_visited st)))
        as (p & -> & Hp & Hlen); try done.
      { apply (bi_chain _ _ _ _ Hinv). }
      { rewrite (size_dom_parent g s st dep Hinv).
        by apply (bi_depth _ _ _ _ Hinv e). }
      simpl. eexists _, _. split; [done|].
      destruct (basic_inv_pop g s st dep e rest Hinv Hrest)
        as [_ _ _ _ _ _ ? _ ? ? _].
      split; [by split|]. simpl. intros _. split; [done|]. split; [done|].
      destruct (path_walk g s e p Hwf Hp) as (n & Hn & Hwalk).
      assert (du = Z.of_nat n) as -> by (unfold edge_count in Hlen; lia).
      apply shortest_length_walk; try done.
      intros m Hm'.
      pose proof (bfs_head_optimal g s st dep k q1 q2 e rest _ m
                    Hinv Hlev Hq Hu Hm'). lia.
    + rewrite neighbors_of_ok by done. simpl.
      pose proof (basic_inv_pop g s st dep u rest Hinv Hrest) as Hpop.
      destruct (basic_inv_fold g s u du (nbrs g u)
                  ltac:(by intros w Hw; apply elem_of_nbrs)
                  _ dep Hpop Hu)
        as (dep' & new & Hinv' & Hsub & Hq' & Hvis & Hnew & Hall & _ & Hmeas).
      cbn [b_queue b_visited] in Hq', Hvis, Hnew, Hmeas.
      destruct (bfs_level_step g s st dep k q1 q2 u rest du _ dep' new
                  Hinv Hlev Hq Hu Hinv' Hsub Hq' Hvis Hnew Hall)
        as (q1' & q2' & Hlev').
      eapply IH; try done.
      unfold bfs_measure in *. rewrite Hq'. rewrite Hq in Hm.
      rewrite length_app. simpl in Hm. lia.
Qed.

Lemma endpoints_invalid_ok g s e :
  wf g → endpoints_invalid g s e = Ok (negb (validb g s && validb g e)).
Proof.
  intros Hwf. unfold endpoints_invalid. destruct s as [sr sc], e as [er ec].
  simpl. rewrite !is_valid_validb by done. simpl.
  destruct (validb g (sr, sc)); simpl; [|done].
  by destruct (validb g (er, ec)).
Qed.

Lemma bfs_trace_correct g s e :
  wf g → validb g s = true → validb g e = true →
  ∃ r log, bfs_trace g s e = Ok (r, log) ∧ trace_post s r log ∧
    (found r = true →
     path_between g s e (path r) ∧ edge_count (path r) = path_length r ∧
     shortest_length g s e (path_length r)).
Proof.
  intros Hwf Hs He. unfold bfs_trace. rewrite endpoints_invalid_ok by done.
  rewrite Hs, He. simpl negb. cbn [mbind res_bind].
  eapply bfs_loop_correct; try done.
  - by apply basic_inv_init.
  - apply bfs_level_init.
  - unfold bfs_measure, bfs_init. cbn [b_queue b_visited].
    pose proof (size_valid_cells g).
    assert (size (valid_cells g ∖ {[s]}) < size (valid_cells g))%nat.
    { apply subset_size. apply elem_of_valid_cells in Hs. set_solver. }
    simpl. lia.
Qed.

(** *** dfs *)

Lemma py_pop_Some {A} (l : list A) x rest :
  py_pop l = Some (x, rest) → l = rest ++ [x].
Proof.
  unfold py_pop. destruct (reverse l) as [|y r] eqn:Hr; [done|].
  intros [= <- <-]. apply (f_equal reverse) in Hr.
  by rewrite reverse_involutive, reverse_cons in Hr.
Qed.

Lemma py_pop_None {A} (l : list A) : py_pop l = None → l = [].
Proof.
  unfold py_pop. destruct (reverse l) as [|y r] eqn:Hr; [|done].
  intros _. apply (f_equal reverse) in Hr. by rewrite reverse_involutive in Hr.
Qed.

Lemma dfs_loop_correct g s e :
  wf g →
  ∀ fuel st dep,
    basic_inv g s st dep → (bfs_measure g st < fuel)%nat →
    ∃ r log, dfs_loop fuel g e st = Ok (r, log) ∧ trace_post s r log.
Proof.
  intros Hwf. induction fuel as [|fuel IH]; intros st dep Hinv Hm; [lia|].
  simpl. destruct (py_pop (b_queue st)) as [[u rest]|] eqn:Hq.
  - apply py_pop_Some in Hq.
    assert (∀ v, v ∈ rest → v ∈ b_queue st) as Hrest.
    { intros v Hv. rewrite Hq. apply elem_of_app. by left. }
    assert (u ∈ dom dep) as Hud.
    { rewrite (bi_dom_dep _ _ _ _ Hinv). apply (bi_frontier _ _ _ _ Hinv).
      rewrite Hq. apply elem_of_app. right. by left. }
    apply elem_of_dom in Hud as [du Hu].
    destruct (decide (u = e)) as [->|Hne].
    + destruct (finish_found_ok g s (b_parent st) dep e du
                  (add_exploring (b_result st) e) (size (b_visited st)))
        as (p & -> & Hp & Hlen); try done.
      { apply (bi_chain _ _ _ _ Hinv). }
      { rewrite (size_dom_parent g s st dep Hinv).
        by apply (bi_depth _ _ _ _ Hinv e). }
      simpl. eexists _, _. split; [done|].
      destruct (basic_inv_pop g s st dep e rest Hinv Hrest)
        as [_ _ _ _ _ _ ? _ ? ? _].
      by split.
    + rewrite neighbors_of_ok by done. simpl.
      pose proof (basic_inv_pop g s st dep u rest Hinv Hrest) as Hpop.
      destruct (basic_inv_fold g s u du (nbrs g u)
                  ltac:(by intros w Hw; apply elem_of_nbrs)
                  _ dep Hpop Hu)
        as (dep' & new & Hinv' & Hsub & Hq' & Hvis & Hnew & Hall & _ & Hmeas).
      cbn [b_queue b_visited] in Hq', Hvis, Hnew, Hmeas.
      eapply IH; try done.
      unfold bfs_measure in *. rewrite Hq'. rewrite Hq in Hm.
      rewrite length_app in *. simpl in Hm. lia.
  - eexists _, _. split; [done|]. destruct Hinv. by split.
Qed.

Lemma dfs_trace_correct g s e :
  wf g → validb g s = true → validb g e = true →
  ∃ r log, dfs_trace g s e = Ok (r, log) ∧ trace_post s r log.
Proof.
  intros Hwf Hs He. unfold dfs_trace. rewrite endpoints_invalid_ok by done.
  rewrite Hs, He. simpl negb. cbn [mbind res_bind].
  eapply dfs_loop_correct; try done.
  - by apply basic_inv_init.
  - unfold bfs_measure, bfs_init. cbn [b_queue b_visited].
    pose proof (size_valid_cells g).
    assert (size (valid_cells g ∖ {[s]}) < size (valid_cells g))%nat.
    { apply subset_size. apply elem_of_valid_cells in Hs. set_solver. }
    simpl. lia.
Qed.

(** Invalid endpoints: every search returns the fresh result at once. *)
Lemma traces_invalid g s e :
  wf g → validb g s && validb g e = false →
  bfs_trace g s e = Ok (new_result, []) ∧
  dfs_trace g s e = Ok (new_result, []) ∧
  astar_trace g s e = Ok (new_result, []) ∧
  dijkstra_trace g s e = Ok (new_result, []).
Proof.
  intros Hwf Hbad.
  unfold bfs_trace, dfs_trace, astar_trace, dijkstra_trace.
  rewrite endpoints_invalid_ok by done. by rewrite Hbad.
Qed.

(** *** Best-first search: astar and dijkstra *)

Lemma chain_walk g s parent d :
  chain_ok g s parent d →
  ∀ (n : nat) v, d !! v = Some (Z.of_nat n) → walk g s v n.
Proof.
  intros Hchain. induction n as [|n IH]; intros v Hv.
  - destruct (Hchain v _ Hv) as (_ & Hvalid & Hp).
    destruct (parent !! v) as [[u|]|]; [| |done].
    + destruct Hp as [Hu _]. destruct (Hchain u _ Hu) as (? & _). lia.
    + destruct Hp as [-> _]. by apply walk_here.
  - destruct (Hchain v _ Hv) as (_ & Hvalid & Hp).
    destruct (parent !! v) as [[u|]|]; [|lia|done].
    destruct Hp as [Hu Hadj].
    replace (Z.of_nat (S n) - 1) with (Z.of_nat n) in Hu by lia.
    eapply walk_step; [by apply IH|done..].
Qed.

Lemma first_occurrences_snoc l x :
  first_occurrences (l ++ [x]) =
    if decide (x ∈ first_occurrences l) then first_occurrences l
    else first_occurrences l ++ [x].
Proof. unfold first_occurrences. by rewrite foldl_app. Qed.

Lemma elem_of_first_occurrences l x : x ∈ first_occurrences l ↔ x ∈ l.
Proof.
  induction l as [|y l IH] using rev_ind; [done|].
  rewrite first_occurrences_snoc. case_decide as Hy.
  - rewrite elem_of_app, list_elem_of_singleton, <- IH.
    split; [tauto|]. intros [?| ->]; done.
  - by rewrite !elem_of_app, IH.
Qed.

Lemma NoDup_first_occurrences l : NoDup (first_occurrences l).
Proof.
  induction l as [|y l IH] using rev_ind; [apply NoDup_nil_2|].
  rewrite first_occurrences_snoc. case_decide as Hy; [done|].
  apply NoDup_app. split; [done|]. split; [|apply NoDup_singleton].
  intros x Hx Hx'. apply list_elem_of_singleton in Hx' as ->. done.
Qed.

Lemma first_occurrences_NoDup l : NoDup l → first_occurrences l = l.
Proof.
  induction l as [|y l IH] using rev_ind; [done|]. intros Hnd.
  apply NoDup_app in Hnd as (Hl & Hy & _). rewrite first_occurrences_snoc.
  rewrite IH by done. rewrite decide_False; [done|].
  intros Hin. apply (Hy y Hin). by left.
Qed.

Lemma length_nbrs g p : (length (nbrs g p) ≤ 4)%nat.
Proof. unfold nbrs. etrans; [apply length_filter|]. done. Qed.

Section BestFirstFacts.
Variable h : pos → Z.
Variable from_key : bool.
Variable g : Grid.
Variable s : pos.
Hypothesis g_wf : wf g.
Hypothesis h_nonneg : ∀ p, 0 <= h p.
Hypothesis h_consistent : ∀ p q, adjacent4 p q → h p <= 1 + h q.
Hypothesis h_from_key : from_key = true → ∀ p, h p = 0.

Lemma bf_inv_pending cur cur' st :
  bf_inv h g s cur [] st → bf_inv h g s cur' [] st.
Proof.
  intros []. split; try done. intros v w gv Hv Hgv Hw.
  destruct (fi_closed_nbrs0 v w gv) as [[_ Hin]|?]; try done.
  - by apply elem_of_nil in Hin.
  - by right.
Qed.

(** One neighbour of the node being expanded. *)
Lemma bf_visit_step key u gu w pending st :
  bf_inv h g s u (w :: pending) st →
  u ∈ a_visited_set st → a_g_score st !! u = Some gu →
  (from_key = true → key = gu) →
  adjacent4 u w → validb g w = true →
  ∃ st', bf_visit h from_key key u st w = Ok st' ∧
         bf_inv h g s u pending st' ∧
         a_visited_set st' = a_visited_set st ∧
         a_g_score st' !! u = Some gu ∧
         (length (a_open_set st') ≤ S (length (a_open_set st)))%nat.
Proof.
  intros Hinv Hu Hgu Hkey Hadj Hvalid. unfold bf_visit.
  assert (∀ v x gv, v ∈ a_visited_set st → a_g_score st !! v = Some gv →
            x ∈ nbrs g v → x ≠ w →
            (v = u ∧ x ∈ pending) ∨
            ∃ gx, a_g_score st !! x = Some gx ∧ gx <= gv + 1) as Hnb.
  { intros v x gv Hv Hgv Hx Hne.
    destruct (fi_closed_nbrs _ _ _ _ _ _ Hinv v x gv) as [[-> Hin]|?];
      try done; [|by right].
    apply elem_of_cons in Hin as [?|?]; [done|]. by left. }
  assert (walk g s w (S (Z.to_nat gu))) as Hwalk.
  { destruct (fi_chain _ _ _ _ _ _ Hinv u gu Hgu) as (? & _).
    eapply walk_step; [|done..].
    eapply chain_walk; [apply (fi_chain _ _ _ _ _ _ Hinv)|].
    by rewrite Z2Nat.id. }
  assert (0 <= gu) as Hgu0.
  { by destruct (fi_chain _ _ _ _ _ _ Hinv u gu Hgu) as (? & _). }
  destruct (decide (w ∈ a_visited_set st)) as [Hw|Hw].
  { (* closed neighbour *)
    exists st. split; [done|]. split; [|split_and!; [done|done|lia]].
    destruct Hinv. split; try done.
    intros v x gv Hv Hgv Hx. destruct (decide (x = w)) as [->|Hne];
      [|by apply Hnb].
    right. apply fi_closed_dom0 in Hw as Hwd.
    apply elem_of_dom in Hwd as [gw Hgw]. exists gw. split; [done|].
    destruct (decide (v = u)) as [->|Hvu].
    - simplify_eq. pose proof (fi_closed_opt0 w gw _ Hw Hgw Hwalk). lia.
    - destruct (fi_closed_nbrs0 v w gv) as [[? _]|(gw' & ? & ?)]; try done.
      by simplify_eq. }
  assert ((if from_key then Some key else a_g_score st !! u) = Some gu) as ->.
  { destruct from_key; [|done]. by rewrite Hkey. }
  destruct (a_g_score st !! w) as [gw|] eqn:Hgw.
  - destruct (Z.ltb_spec (gu + 1) gw) as [Hlt|Hge].
    + (* improved cost *)
      eexists. split; [done|]. cbn [a_visited_set a_g_score a_open_set].
      assert (w ≠ u) as Hwu by congruence.
      assert (w ≠ s) as Hws.
      { intros ->. rewrite (fi_start _ _ _ _ _ _ Hinv) in Hgw.
        simplify_eq. lia. }
      split; [|split; [done|split]].
      2:{ by rewrite lookup_insert_ne. }
      2:{ unfold heappush. rewrite length_app. simpl. lia. }
      destruct Hinv. split; cbn [a_came_from a_g_score a_visited_set
        a_open_set a_result a_log a_f_score]; try done.
      * by rewrite !dom_insert_L, fi_dom_came0.
      * by rewrite lookup_insert_ne.
      * intros v dv Hv. destruct (decide (v = w)) as [->|Hne].
        -- rewrite lookup_insert_eq in Hv. simplify_eq.
           rewrite lookup_insert_eq, lookup_insert_ne by done.
           split; [lia|]. split; [done|]. split; [|done].
           rewrite Hgu. f_equal. lia.
        -- rewrite lookup_insert_ne in Hv by done.
           destruct (fi_chain0 v dv Hv) as (? & ? & Hp).
           split; [done|]. split; [done|].
           rewrite lookup_insert_ne by done.
           destruct (a_came_from st !! v) as [[x|]|] eqn:Hpar; [|done..].
           destruct Hp as [Hx ?]. split; [|done].
           rewrite lookup_insert_ne; [done|].
           intros ->. by apply fi_parent_closed0 in Hpar.
      * intros v x Hv. destruct (decide (v = w)) as [->|Hne].
        -- rewrite lookup_insert_eq in Hv. by simplify_eq.
        -- rewrite lookup_insert_ne in Hv by done. by eapply fi_parent_closed0.
      * intros v gv Hv.
        assert (size (<[w:=gu + 1]> (a_g_score st)) = size (a_g_score st))
          as ->.
        { rewrite <- !size_dom, dom_insert_L.
          f_equal. apply elem_of_dom_2 in Hgw. set_solver. }
        destruct (decide (v = w)) as [->|Hne].
        -- rewrite lookup_insert_eq in Hv. simplify_eq.
           apply fi_depth0 in Hgw. lia.
        -- rewrite lookup_insert_ne in Hv by done. by eapply fi_depth0.
      * intros v Hv. rewrite dom_insert_L. apply fi_closed_dom0 in Hv.
        set_solver.
      * intros f v Hin. unfold heappush in Hin.
        apply elem_of_app in Hin as [Hin|Hin].
        -- destruct (fi_open_valid0 f v Hin) as (? & gv & Hgv & Hor).
           split; [done|]. destruct (decide (v = w)) as [->|Hne].
           ++ exists (gu + 1). rewrite lookup_insert_eq. split; [done|].
              right. simplify_eq. destruct Hor as [[? _]|?]; [done|]. lia.
           ++ exists gv. by rewrite lookup_insert_ne.
        -- apply list_elem_of_singleton in Hin. simplify_eq.
           split; [done|]. exists (gu + 1). rewrite lookup_insert_eq.
           split; [done|]. right. lia.
      * intros v gv Hv Hnc. unfold heappush.
        destruct (decide (v = w)) as [->|Hne].
        -- rewrite lookup_insert_eq in Hv. simplify_eq.
           exists (gu + 1 + h w). split; [|lia].
           apply elem_of_app. right. by left.
        -- rewrite lookup_insert_ne in Hv by done.
           destruct (fi_open_has0 v gv Hv Hnc) as (f & ? & ?).
           exists f. split; [|done]. apply elem_of_app. by left.
      * intros v x gv Hv Hgv Hx.
        assert (v ≠ w) as Hvw by congruence.
        rewrite lookup_insert_ne in Hgv by done.
        destruct (decide (x = w)) as [->|Hne].
        -- right. exists (gu + 1). rewrite lookup_insert_eq. split; [done|].
           destruct (decide (v = u)) as [->|Hvu]; [simplify_eq; lia|].
           destruct (fi_closed_nbrs0 v w gv) as [[? _]|(gw' & ? & ?)];
             try done.
           simplify_eq. lia.
        -- destruct (Hnb v x gv) as [?|(gx & ? & ?)]; try done; [by left|].
           right. exists gx. by rewrite lookup_insert_ne.
      * intros v gv n Hv Hgv Hn.
        assert (v ≠ w) as Hvw by congruence.
        rewrite lookup_insert_ne in Hgv by done. by eapply fi_closed_opt0.
      * unfold add_visited_once. case_decide; [done|]. simpl.
        apply NoDup_app. split; [done|]. split; [|apply NoDup_singleton].
        intros y Hy Hy'. apply list_elem_of_singleton in Hy' as ->. done.
      * unfold add_visited_once. by case_decide.
      * destruct fi_log_enq0 as (l & Hl & Hfo).
        exists (l ++ [w]). unfold enqueued in *.
        rewrite omap_app, Hl. split; [done|].
        rewrite first_occurrences_snoc, Hfo. unfold add_visited_once.
        by case_decide.
      * unfold dequeued in *. rewrite omap_app. simpl.
        rewrite app_nil_r. rewrite fi_log_deq0.
        unfold add_visited_once. by case_decide.
      * intros v. rewrite <- fi_exploring0.
        unfold add_visited_once. by case_decide.
    + (* no improvement *)
      exists st. split; [done|]. split; [|split_and!; [done|done|lia]].
      destruct Hinv. split; try done.
      intros v x gv Hv Hgv' Hx. destruct (decide (x = w)) as [->|Hne];
        [|by apply Hnb].
      right. exists gw. split; [done|].
      destruct (decide (v = u)) as [->|Hvu]; [simplify_eq; lia|].
      destruct (fi_closed_nbrs0 v w gv) as [[? _]|(gw' & ? & ?)]; try done.
      by simplify_eq.
  - (* first discovery *)
    eexists. split; [done|]. cbn [a_visited_set a_g_score a_open_set].
    assert (w ≠ u) as Hwu by congruence.
    assert (w ≠ s) as Hws.
    { intros ->. rewrite (fi_start _ _ _ _ _ _ Hinv) in Hgw. done. }
    split; [|split; [done|split]].
    2:{ by rewrite lookup_insert_ne. }
    2:{ unfold heappush. rewrite length_app. simpl. lia. }
    destruct Hinv. split; cbn [a_came_from a_g_score a_visited_set
      a_open_set a_result a_log a_f_score]; try done.
    * by rewrite !dom_insert_L, fi_dom_came0.
    * by rewrite lookup_insert_ne.
    * apply chain_ok_insert; try done.
    * intros v x Hv. destruct (decide (v = w)) as [->|Hne].
      -- rewrite lookup_insert_eq in Hv. by simplify_eq.
      -- rewrite lookup_insert_ne in Hv by done. by eapply fi_parent_closed0.
    * intros v gv Hv. rewrite map_size_insert_None by done.
      destruct (decide (v = w)) as [->|Hne].
      -- rewrite lookup_insert_eq in Hv. simplify_eq.
         apply fi_depth0 in Hgu. lia.
      -- rewrite lookup_insert_ne in Hv by done. apply fi_depth0 in Hv. lia.
    * intros v Hv. rewrite dom_insert_L. apply fi_closed_dom0 in Hv.
      set_solver.
    * intros f v Hin. unfold heappush in Hin.
      apply elem_of_app in Hin as [Hin|Hin].
      -- destruct (fi_open_valid0 f v Hin) as (? & gv & Hgv & Hor).
         split; [done|]. exists gv. rewrite lookup_insert_ne; [done|].
         congruence.
      -- apply list_elem_of_singleton in Hin. simplify_eq.
         split; [done|]. exists (gu + 1). rewrite lookup_insert_eq.
         split; [done|]. right. lia.
    * intros v gv Hv Hnc. unfold heappush.
      destruct (decide (v = w)) as [->|Hne].
      -- rewrite lookup_insert_eq in Hv. simplify_eq.
         exists (gu + 1 + h w). split; [|lia].
         apply elem_of_app. right. by left.
      -- rewrite lookup_insert_ne in Hv by done.
         destruct (fi_open_has0 v gv Hv Hnc) as (f & ? & ?).
         exists f. split; [|done]. apply elem_of_app. by left.
    * intros v x gv Hv Hgv Hx.
      assert (v ≠ w) as Hvw by congruence.
      rewrite lookup_insert_ne in Hgv by done.
      destruct (decide (x = w)) as [->|Hne].
      -- right. exists (gu + 1). rewrite lookup_insert_eq. split; [done|].
         destruct (decide (v = u)) as [->|Hvu]; [simplify_eq; lia|].
         destruct (fi_closed_nbrs0 v w gv) as [[? _]|(gw' & ? & ?)];
           try done.
         simplify_eq.
      -- destruct (Hnb v x gv) as [?|(gx & ? & ?)]; try done; [by left|].
         right. exists gx. by rewrite lookup_insert_ne.
    * intros v gv n Hv Hgv Hn.
      assert (v ≠ w) as Hvw by congruence.
      rewrite lookup_insert_ne in Hgv by done. by eapply fi_closed_opt0.
    * unfold add_visited_once. case_decide; [done|]. simpl.
      apply NoDup_app. split; [done|]. split; [|apply NoDup_singleton].
      intros y Hy Hy'. apply list_elem_of_singleton in Hy' as ->. done.
    * unfold add_visited_once. by case_decide.
    * destruct fi_log_enq0 as (l & Hl & Hfo).
      exists (l ++ [w]). unfold enqueued in *.
      rewrite omap_app, Hl. split; [done|].
      rewrite first_occurrences_snoc, Hfo. unfold add_visited_once.
      by case_decide.
    * unfold dequeued in *. rewrite omap_app. simpl.
      rewrite app_nil_r. rewrite fi_log_deq0.
      unfold add_visited_once. by case_decide.
    * intros v. rewrite <- fi_exploring0.
      unfold add_visited_once. by case_decide.
Qed.

(** The whole neighbour loop. *)
Lemma bf_visit_fold key u gu ns :
  (from_key = true → key = gu) →
  (∀ w, w ∈ ns → adjacent4 u w ∧ validb g w = true) →
  ∀ st,
    bf_inv h g s u ns st →
    u ∈ a_visited_set st → a_g_score st !! u = Some gu →
    ∃ st', foldM (bf_visit h from_key key u) st ns = Ok st' ∧
           bf_inv h g s u [] st' ∧
           a_visited_set st' = a_visited_set st ∧
           (length (a_open_set st') ≤ length (a_open_set st) + length ns)%nat.
Proof.
  intros Hkey. induction ns as [|w ns IH]; intros Hns st Hinv Hu Hgu; simpl.
  - exists st. split_and!; try done. lia.
  - destruct (Hns w) as [Hadj Hvalid]; [by left|].
    destruct (bf_visit_step key u gu w ns st)
      as (st1 & -> & Hinv1 & Hvis1 & Hgu1 & Hlen1); try done.
    cbn [mbind res_bind].
    destruct (IH ltac:(by intros w' Hw'; apply Hns; right) st1)
      as (st' & -> & Hinv' & Hvis' & Hlen'); try done.
    { by rewrite Hvis1. }
    exists st'. split_and!; try done; [congruence|lia].
Qed.

(** The node taken off the heap has its least cost. *)
Lemma bf_walk_bound st cur x n :
  bf_inv h g s cur [] st → walk g s x n →
  x ∈ a_visited_set st ∨
  ∃ y gy, y ∉ a_visited_set st ∧ a_g_score st !! y = Some gy ∧
          gy + h y <= Z.of_nat n + h x.
Proof.
  intros Hinv. induction 1 as [Hs|v w n Hwalk IH Hadj Hw].
  - destruct (decide (s ∈ a_visited_set st)); [by left|]. right.
    exists s, 0. split; [done|]. split; [apply (fi_start _ _ _ _ _ _ Hinv)|].
    lia.
  - destruct IH as [Hv|(y & gy & Hy & Hgy & Hle)].
    + apply (fi_closed_dom _ _ _ _ _ _ Hinv) in Hv as Hvd.
      apply elem_of_dom in Hvd as [gv Hgv].
      destruct (fi_closed_nbrs _ _ _ _ _ _ Hinv v w gv)
        as [[_ Hin]|(gw & Hgw & Hle)]; try done.
      { by apply elem_of_nbrs. }
      { by apply elem_of_nil in Hin. }
      destruct (decide (w ∈ a_visited_set st)); [by left|]. right.
      exists w, gw. split; [done|]. split; [done|].
      pose proof (fi_closed_opt _ _ _ _ _ _ Hinv v gv n Hv Hgv Hwalk). lia.
    + right. exists y, gy. split; [done|]. split; [done|].
      pose proof (h_consistent v w Hadj). lia.
Qed.

Lemma bf_pop_optimal st cur key u rest gu n :
  bf_inv h g s cur [] st →
  heappop (a_open_set st) = Some ((key, u), rest) →
  u ∉ a_visited_set st → a_g_score st !! u = Some gu →
  walk g s u n → gu <= Z.of_nat n.
Proof.
  intros Hinv Hpop Hu Hgu Hwalk.
  apply heappop_Some in Hpop as [Hperm Hmin].
  assert ((key, u) ∈ a_open_set st) as Hin.
  { rewrite Hperm. by left. }
  destruct (fi_open_valid _ _ _ _ _ _ Hinv key u Hin)
    as (_ & gu' & Hgu' & [[-> _]|Hle]).
  { rewrite (fi_start _ _ _ _ _ _ Hinv) in Hgu. simplify_eq. lia. }
  simplify_eq.
  destruct (bf_walk_bound st cur u n Hinv Hwalk)
    as [?|(y & gy & Hy & Hgy & Hle')]; [done|].
  destruct (fi_open_has _ _ _ _ _ _ Hinv y gy Hgy Hy) as (f & Hf & Hfle).
  apply Hmin, entry_leb_key in Hf. simpl in Hf. lia.
Qed.

Lemma bf_pop_key st cur key u rest gu :
  bf_inv h g s cur [] st →
  heappop (a_open_set st) = Some ((key, u), rest) →
  u ∉ a_visited_set st → a_g_score st !! u = Some gu →
  from_key = true → key = gu.
Proof.
  intros Hinv Hpop Hu Hgu Hfk.
  apply heappop_Some in Hpop as [Hperm Hmin].
  assert ((key, u) ∈ a_open_set st) as Hin.
  { rewrite Hperm. by left. }
  destruct (fi_open_has _ _ _ _ _ _ Hinv u gu Hgu Hu) as (f & Hf & Hfle).
  apply Hmin, entry_leb_key in Hf. simpl in Hf.
  rewrite (h_from_key Hfk) in Hfle.
  destruct (fi_open_valid _ _ _ _ _ _ Hinv key u Hin)
    as (_ & gu' & Hgu' & [[-> ->]|Hle]).
  - rewrite (fi_start _ _ _ _ _ _ Hinv) in Hgu. by simplify_eq.
  - rewrite (h_from_key Hfk) in Hle. simplify_eq. lia.
Qed.

(** A stale entry is dropped. *)
Lemma bf_inv_stale st cur key u rest :
  bf_inv h g s cur [] st →
  heappop (a_open_set st) = Some ((key, u), rest) →
  u ∈ a_visited_set st →
  bf_inv h g s cur []
    (mkAstar rest (a_came_from st) (a_g_score st) (a_f_score st)
       (a_visited_set st) (a_result st) (a_log st ++ [Deq u])).
Proof.
  intros Hinv Hpop Hu. apply heappop_Some in Hpop as [Hperm Hmin].
  destruct Hinv. split; cbn [a_came_from a_g_score a_visited_set
    a_open_set a_result a_log a_f_score]; try done.
  - intros f v Hin. apply fi_open_valid0. rewrite Hperm. by right.
  - intros v gv Hgv Hv. destruct (fi_open_has0 v gv Hgv Hv) as (f & Hf & ?).
    exists f. split; [|done]. rewrite Hperm in Hf.
    apply elem_of_cons in Hf as [?|?]; [|done]. by simplify_eq.
  - destruct fi_log_enq0 as (l & Hl & Hfo). exists l. split; [|done].
    unfold enqueued in *. rewrite omap_app, Hl. simpl. by rewrite app_nil_r.
  - unfold dequeued in *. rewrite omap_app. simpl.
    rewrite first_occurrences_snoc. rewrite decide_True; [done|].
    rewrite fi_log_deq0. by apply fi_exploring0.
Qed.

(** A fresh node is closed and its neighbours become pending. *)
Lemma bf_inv_close st cur key u rest gu :
  bf_inv h g s cur [] st →
  heappop (a_open_set st) = Some ((key, u), rest) →
  u ∉ a_visited_set st → a_g_score st !! u = Some gu →
  bf_inv h g s u (nbrs g u)
    (mkAstar rest (a_came_from st) (a_g_score st) (a_f_score st)
       ({[u]} ∪ a_visited_set st) (add_exploring (a_result st) u)
       (a_log st ++ [Deq u])).
Proof.
  intros Hinv Hpop Hu Hgu.
  pose proof (bf_pop_optimal st cur key u rest gu) as Hopt.
  apply heappop_Some in Hpop as Hpop'. destruct Hpop' as [Hperm Hmin].
  destruct Hinv. split; cbn [a_came_from a_g_score a_visited_set
    a_open_set a_result a_log a_f_score]; try done.
  - intros v x Hv. apply elem_of_union_r. by eapply fi_parent_closed0.
  - intros v Hv. apply elem_of_union in Hv as [Hv|Hv]; [|by apply fi_closed_dom0].
    apply elem_of_singleton in Hv as ->. by eapply elem_of_dom_2.
  - intros f v Hin. apply fi_open_valid0. rewrite Hperm. by right.
  - intros v gv Hgv Hv. rewrite not_elem_of_union, not_elem_of_singleton in Hv.
    destruct Hv as [Hvu Hv].
    destruct (fi_open_has0 v gv Hgv Hv) as (f & Hf & ?).
    exists f. split; [|done]. rewrite Hperm in Hf.
    apply elem_of_cons in Hf as [?|?]; [|done]. by simplify_eq.
  - intros v w gv Hv Hgv Hw.
    apply elem_of_union in Hv as [Hv|Hv].
    + apply elem_of_singleton in Hv as ->. by left.
    + destruct (fi_closed_nbrs0 v w gv) as [[_ Hin]|?]; try done; [|by right].
      by apply elem_of_nil in Hin.
  - intros v gv n Hv Hgv Hn. apply elem_of_union in Hv as [Hv|Hv].
    + apply elem_of_singleton in Hv as ->. simplify_eq.
      eapply Hopt; done.
    + by eapply fi_closed_opt0.
  - destruct fi_log_enq0 as (l & Hl & Hfo). exists l. split; [|done].
    unfold enqueued in *. rewrite omap_app, Hl. simpl. by rewrite app_nil_r.
  - unfold dequeued in *. rewrite omap_app. simpl.
    rewrite first_occurrences_snoc. rewrite decide_False; [by rewrite fi_log_deq0|].
    rewrite fi_log_deq0. by rewrite fi_exploring0.
  - intros v. unfold add_exploring. cbn [exploring].
    rewrite elem_of_app, list_elem_of_singleton, elem_of_union,
      elem_of_singleton, fi_exploring0. tauto.
Qed.

Lemma bf_loop_correct e :
  ∀ fuel st cur,
    bf_inv h g s cur [] st → (bf_measure g st < fuel)%nat →
    ∃ r log, bf_loop h from_key fuel g e st = Ok (r, log) ∧
      heap_post s r log ∧
      (found r = true →
       path_between g s e (path r) ∧ edge_count (path r) = path_length r ∧
       shortest_length g s e (path_length r)).
Proof.
  induction fuel as [|fuel IH]; intros st cur Hinv Hm; [lia|].
  simpl. destruct (heappop (a_open_set st)) as [[[key u] rest]|] eqn:Hpop.
  2:{ eexists _, _. split; [done|]. split.
      - destruct Hinv. by split.
      - simpl. by rewrite (fi_found _ _ _ _ _ _ Hinv). }
  pose proof Hpop as Hpop'. apply heappop_Some in Hpop' as [Hperm Hmin].
  assert (length (a_open_set st) = S (length rest)) as Hlen.
  { by rewrite Hperm. }
  destruct (decide (u ∈ a_visited_set st)) as [Hu|Hu].
  { eapply (IH _ cur); [by eapply bf_inv_stale|].
    unfold bf_measure in *. cbn [a_open_set a_visited_set]. lia. }
  assert ((key, u) ∈ a_open_set st) as Hin.
  { rewrite Hperm. by left. }
  destruct (fi_open_valid _ _ _ _ _ _ Hinv key u Hin)
    as (Hvalid & gu & Hgu & _).
  pose proof (bf_inv_close st cur key u rest gu Hinv Hpop Hu Hgu) as Hinv1.
  destruct (decide (u = e)) as [->|Hne].
  - destruct (finish_found_ok g s (a_came_from st) (a_g_score st) e gu
                (add_exploring (a_result st) e)
                (size ({[e]} ∪ a_visited_set st)))
      as (p & -> & Hp & Hplen); try done.
    { apply (fi_chain _ _ _ _ _ _ Hinv). }
    { rewrite <- size_dom, (fi_dom_came _ _ _ _ _ _ Hinv), size_dom.
      by apply (fi_depth _ _ _ _ _ _ Hinv e). }
    simpl. eexists _, _. split; [done|].
    destruct Hinv1 as [_ _ _ _ _ _ _ _ _ _ ? _ ? ? _].
    split; [by split|]. simpl. intros _. split; [done|]. split; [done|].
    destruct (path_walk g s e p g_wf Hp) as (n & Hn & Hwalk).
    assert (gu = Z.of_nat n) as -> by (unfold edge_count in Hplen; lia).
    apply shortest_length_walk; try done.
    intros m Hm'.
    pose proof (bf_pop_optimal st cur key e rest _ m Hinv Hpop Hu Hgu Hm').
    lia.
  - rewrite neighbors_of_ok by done. cbn [mbind res_bind].
    destruct (bf_visit_fold key u gu (nbrs g u)
                (bf_pop_key st cur key u rest gu Hinv Hpop Hu Hgu)
                ltac:(by intros w Hw; apply elem_of_nbrs) _ Hinv1)
      as (st' & -> & Hinv' & Hvis' & Hlen'); cbn [a_visited_set a_g_score].
    { by apply elem_of_union_l, elem_of_singleton. }
    { done. }
    cbn [a_open_set a_visited_set] in Hlen', Hvis'.
    eapply (IH _ u); [done|].
    unfold bf_measure in *. rewrite Hvis'.
    pose proof (length_nbrs g u).
    pose proof (size_difference_insert (valid_cells g) (a_visited_set st) u)
      as Hsz.
    rewrite elem_of_valid_cells in Hsz. specialize (Hsz Hvalid Hu). lia.
Qed.
End BestFirstFacts.

Lemma manhattan_nonneg e p : 0 <= manhattan_to e p.
Proof. unfold manhattan_to, heuristic. lia. Qed.

Lemma manhattan_consistent e p q :
  adjacent4 p q → manhattan_to e p <= 1 + manhattan_to e q.
Proof.
  intros (d & Hd & ->). unfold manhattan_to, heuristic, directions4 in *.
  destruct p as [r c], e as [er ec]. simpl.
  repeat (apply elem_of_cons in Hd as [->|Hd]; [simpl; lia|]).
  by apply elem_of_nil in Hd.
Qed.

Lemma bf_inv_init h g s cur f :
  (∀ p, 0 <= h p) → validb g s = true →
  bf_inv h g s cur []
    (mkAstar [(0, s)] {[s := None]} {[s := 0]} f ∅ new_result [Enq s]).
Proof.
  intros Hh Hs. split; cbn [a_came_from a_g_score a_visited_set
    a_open_set a_result a_log a_f_score]; try done.
  - by rewrite !dom_singleton_L.
  - by rewrite lookup_singleton_eq.
  - intros v dv Hv. apply lookup_singleton_Some in Hv as [<- <-].
    split; [done|]. split; [done|]. by rewrite lookup_singleton_eq.
  - intros v u Hv. by apply lookup_singleton_Some in Hv as [_ ?].
  - intros v dv Hv. apply lookup_singleton_Some in Hv as [<- <-].
    rewrite map_size_singleton. lia.
  - intros f' v Hin. apply list_elem_of_singleton in Hin. simplify_eq.
    split; [done|]. exists 0. rewrite lookup_singleton_eq. split; [done|].
    by left.
  - intros v gv Hv _. apply lookup_singleton_Some in Hv as [<- <-].
    exists 0. split; [by left|]. pose proof (Hh s). lia.
  - apply NoDup_nil_2.
  - by exists [].
  - intros v. simpl. rewrite elem_of_nil. set_solver.
Qed.

Lemma astar_visit_bf e key u st w :
  astar_visit e u st w = bf_visit (manhattan_to e) false key u st w.
Proof. done. Qed.

Lemma astar_loop_bf g e fuel st :
  astar_loop fuel g e st = bf_loop (manhattan_to e) false fuel g e st.
Proof.
  revert st. induction fuel as [|fuel IH]; intros st; [done|]. simpl.
  destruct (heappop (a_open_set st)) as [[[key u] rest]|]; [|done].
  case_decide; [apply IH|]. case_decide; [done|].
  destruct (neighbors_of g u) as [ns| |]; [|done..]. cbn [mbind res_bind].
  assert (∀ st0, foldM (astar_visit e u) st0 ns =
                 foldM (bf_visit (manhattan_to e) false key u) st0 ns) as ->.
  { induction ns as [|w ns IHns]; intros st0; [done|]. simpl.
    rewrite (astar_visit_bf e key).
    destruct (bf_visit _ _ _ _ _ _) as [st1| |]; [|done..]. apply IHns. }
  destruct (foldM _ _ _) as [st'| |]; [|done..]. apply IH.
Qed.

Lemma dijkstra_visit_bf key u ds f w :
  ∃ f', bf_visit zero_heuristic true key u (dijkstra_as_bf ds f) w =
          Ok (dijkstra_as_bf (dijkstra_visit key u ds w) f').
Proof.
  unfold bf_visit, dijkstra_visit, dijkstra_as_bf.
  cbn [a_came_from a_g_score a_visited_set a_open_set a_result a_log a_f_score].
  case_decide; [by eexists|].
  unfold zero_heuristic. rewrite Z.add_0_r.
  destruct (match d_distances ds !! w with
            | Some g_neighbor => key + 1 <? g_neighbor
            | None => true
            end); by eexists.
Qed.

Lemma dijkstra_fold_bf key u ns :
  ∀ ds f, ∃ f',
    foldM (bf_visit zero_heuristic true key u) (dijkstra_as_bf ds f) ns =
      Ok (dijkstra_as_bf (foldl (dijkstra_visit key u) ds ns) f').
Proof.
  induction ns as [|w ns IH]; intros ds f; simpl; [by eexists|].
  destruct (dijkstra_visit_bf key u ds f w) as (f1 & ->).
  cbn [mbind res_bind]. apply IH.
Qed.

Lemma dijkstra_loop_bf g e fuel :
  ∀ ds f,
    dijkstra_loop fuel g e ds =
    bf_loop zero_heuristic true fuel g e (dijkstra_as_bf ds f).
Proof.
  induction fuel as [|fuel IH]; intros ds f; [done|]. simpl.
  destruct (heappop (d_pq ds)) as [[[key u] rest]|]; [|done].
  case_decide.
  { apply (IH (mkDijkstra (d_distances ds) (d_parent ds) rest (d_visited ds)
                 (d_result ds) (d_log ds ++ [Deq u])) f). }
  case_decide; [done|].
  destruct (neighbors_of g u) as [ns| |]; [|done..]. cbn [mbind res_bind].
  match goal with
  | |- context [foldM _ ?st0 ns] =>
      change st0 with
        (dijkstra_as_bf
           (mkDijkstra (d_distances ds) (d_parent ds) rest
              ({[u]} ∪ d_visited ds) (add_exploring (d_result ds) u)
              (d_log ds ++ [Deq u])) f)
  end.
  destruct (dijkstra_fold_bf key u ns
              (mkDijkstra (d_distances ds) (d_parent ds) rest
                 ({[u]} ∪ d_visited ds) (add_exploring (d_result ds) u)
                 (d_log ds ++ [Deq u])) f) as (f' & ->).
  cbn [mbind res_bind]. apply IH.
Qed.

Lemma bf_measure_init g s f :
  validb g s = true →
  (bf_measure g
     (mkAstar [(0%Z, s)] {[s := None]} {[s := 0%Z]} f ∅ new_result [Enq s])
   < 4 * area g + 2)%nat.
Proof.
  intros Hs. unfold bf_measure. cbn [a_open_set a_visited_set].
  pose proof (size_valid_cells g).
  assert (size (valid_cells g ∖ ∅) ≤ size (valid_cells g))%nat.
  { apply subseteq_size. set_solver. }
  simpl. lia.
Qed.

Lemma astar_trace_correct g s e :
  wf g → validb g s = true → validb g e = true →
  ∃ r log, astar_trace g s e = Ok (r, log) ∧ heap_post s r log ∧
    (found r = true →
     path_between g s e (path r) ∧ edge_count (path r) = path_length r ∧
     shortest_length g s e (path_length r)).
Proof.
  intros Hwf Hs He. unfold astar_trace. rewrite endpoints_invalid_ok by done.
  rewrite Hs, He. simpl negb. cbn [mbind res_bind].
  rewrite astar_loop_bf.
  eapply (bf_loop_correct (manhattan_to e) false g s Hwf) with (cur := s).
  - apply manhattan_nonneg.
  - apply manhattan_consistent.
  - done.
  - by apply bf_inv_init; [apply manhattan_nonneg|].
  - by apply bf_measure_init.
Qed.

Lemma dijkstra_trace_correct g s e :
  wf g → validb g s = true → validb g e = true →
  ∃ r log, dijkstra_trace g s e = Ok (r, log) ∧ heap_post s r log ∧
    (found r = true →
     path_between g s e (path r) ∧ edge_count (path r) = path_length r ∧
     shortest_length g s e (path_length r)).
Proof.
  intros Hwf Hs He. unfold dijkstra_trace.
  rewrite endpoints_invalid_ok by done.
  rewrite Hs, He. simpl negb. cbn [mbind res_bind].
  rewrite (dijkstra_loop_bf g e _ _ ∅).
  eapply (bf_loop_correct zero_heuristic true g s Hwf) with (cur := s).
  - done.
  - intros p q _. unfold zero_heuristic. lia.
  - done.
  - by apply bf_inv_init.
  - by apply bf_measure_init.
Qed.

(** *** The claims about the grid searches *)

Lemma validb_blocked g p :
  in_bounds g p.1 p.2 = false ∨ cell g p = Some WALL → validb g p = false.
Proof.
  unfold validb, cell. destruct (in_bounds g p.1 p.2); simpl.
  - intros [?|Hc]; [done|]. rewrite Hc. by apply bool_decide_eq_false; intros ?.
  - done.
Qed.

Lemma shortest_length_unique g s e n m :
  shortest_length g s e n → shortest_length g s e m → n = m.
Proof.
  intros [(l & Hl & <-) Hn] [(l' & Hl' & <-) Hm].
  apply Hn in Hl'. apply Hm in Hl. lia.
Qed.

Lemma fst_trace {A B} (m : res (A * B)) r :
  fst <$> m = Ok r → ∃ log, m = Ok (r, log).
Proof. destruct m as [[r' log]| |]; [|done..]. intros [= <-]. by exists log. Qed.

(** C1: when [bfs], [dijkstra] and [astar] all find the end, they report
    the same [path_length], and it is the least number of 4-directional
    moves of any path from start to end through valid cells. *)
Theorem optimality_equivalence g start end_ rb rd ra :
  wf g →
  bfs g start end_ = Ok rb → dijkstra g start end_ = Ok rd →
  astar g start end_ = Ok ra →
  found rb = true → found rd = true → found ra = true →
  path_length rb = path_length rd ∧ path_length rd = path_length ra ∧
  shortest_length g start end_ (path_length rb).
Proof.
  intros Hwf Hb Hd Ha Hfb Hfd Hfa.
  apply fst_trace in Hb as [lb Hb], Hd as [ld Hd], Ha as [la Ha].
  destruct (validb g start && validb g end_) eqn:Hv.
  2:{ destruct (traces_invalid g start end_ Hwf Hv) as (Hb' & _).
      rewrite Hb in Hb'. by simplify_eq. }
  apply andb_true_iff in Hv as [Hs He].
  destruct (bfs_trace_correct g start end_ Hwf Hs He)
    as (rb' & lb' & Hb' & _ & Hpb).
  destruct (dijkstra_trace_correct g start end_ Hwf Hs He)
    as (rd' & ld' & Hd' & _ & Hpd).
  destruct (astar_trace_correct g start end_ Hwf Hs He)
    as (ra' & la' & Ha' & _ & Hpa).
  rewrite Hb in Hb'. rewrite Hd in Hd'. rewrite Ha in Ha'. simplify_eq.
  destruct (Hpb Hfb) as (_ & _ & Hsb). destruct (Hpd Hfd) as (_ & _ & Hsd).
  destruct (Hpa Hfa) as (_ & _ & Hsa).
  split; [by eapply shortest_length_unique|].
  split; [by eapply shortest_length_unique|done].
Qed.

Lemma optimality_equivalence_witness :
  shortest_length (init 3 3) (0, 0) (2, 2) 4.
Proof.
  pose (p := [(0, 0); (0, 1); (0, 2); (1, 2); (2, 2)] : list pos).
  pose (v := [(0, 1); (1, 0); (0, 2); (1, 1); (2, 0); (1, 2); (2, 1); (2, 2)]
             : list pos).
  pose (v' := [(0, 1); (1, 0); (0, 2); (1, 1); (1, 2); (2, 0); (2, 1); (2, 2)]
              : list pos).
  pose (x := [(0, 0); (0, 1); (1, 0); (0, 2); (1, 1); (2, 0); (1, 2); (2, 1);
              (2, 2)] : list pos).
  pose (x' := [(0, 0); (0, 1); (0, 2); (1, 0); (1, 1); (1, 2); (2, 0); (2, 1);
               (2, 2)] : list pos).
  refine (proj2 (proj2 (optimality_equivalence (init 3 3) (0, 0) (2, 2)
            (mkResult p v x true 4 9) (mkResult p v x true 4 9)
            (mkResult p v' x' true 4 9) (init_wf 3 3) _ _ _ eq_refl eq_refl
            eq_refl))); vm_compute; reflexivity.
Defined.

(** C5: when start or end is out of bounds or on a WALL cell, each of the
    four searches returns the fresh result (not found, empty path and
    traces, zero counts) without raising and without touching its
    frontier. *)
Theorem invalid_endpoints g start end_ :
  wf g →
  (in_bounds g start.1 start.2 = false ∨ cell g start = Some WALL) ∨
  (in_bounds g end_.1 end_.2 = false ∨ cell g end_ = Some WALL) →
  bfs_trace g start end_ = Ok (mkResult [] [] [] false 0 0, []) ∧
  dfs_trace g start end_ = Ok (mkResult [] [] [] false 0 0, []) ∧
  astar_trace g start end_ = Ok (mkResult [] [] [] false 0 0, []) ∧
  dijkstra_trace g start end_ = Ok (mkResult [] [] [] false 0 0, []) ∧
  bfs g start end_ = Ok (mkResult [] [] [] false 0 0) ∧
  dfs g start end_ = Ok (mkResult [] [] [] false 0 0) ∧
  astar g start end_ = Ok (mkResult [] [] [] false 0 0) ∧
  dijkstra g start end_ = Ok (mkResult [] [] [] false 0 0).
Proof.
  intros Hwf Hbad.
  assert (validb g start && validb g end_ = false) as Hv.
  { apply andb_false_iff. destruct Hbad; [left|right]; by apply validb_blocked. }
  destruct (traces_invalid g start end_ Hwf Hv) as (Hb & Hd & Ha & Hj).
  unfold bfs, dfs, astar, dijkstra. rewrite Hb, Hd, Ha, Hj. done.
Qed.

Lemma invalid_endpoints_witness :
  bfs (init 2 2) (0, 0) (5, 1) = Ok (mkResult [] [] [] false 0 0).
Proof.
  refine (proj1 (proj2 (proj2 (proj2 (proj2
    (invalid_endpoints (init 2 2) (0, 0) (5, 1) (init_wf 2 2) _)))))).
  right. left. reflexivity.
Defined.

(** C6: every run of [bfs], [astar] and [dijkstra] returns a result, and no
    position occurs twice in its visited trace. *)
Theorem visited_once g start end_ :
  wf g →
  (∃ r, bfs g start end_ = Ok r ∧ NoDup (visited r)) ∧
  (∃ r, astar g start end_ = Ok r ∧ NoDup (visited r)) ∧
  (∃ r, dijkstra g start end_ = Ok r ∧ NoDup (visited r)).
Proof.
  intros Hwf. unfold bfs, astar, dijkstra.
  destruct (validb g start && validb g end_) eqn:Hv.
  - apply andb_true_iff in Hv as [Hs He].
    destruct (bfs_trace_correct g start end_ Hwf Hs He)
      as (rb & lb & -> & [Hb _ _] & _).
    destruct (dijkstra_trace_correct g start end_ Hwf Hs He)
      as (rd & ld & -> & [Hd _ _] & _).
    destruct (astar_trace_correct g start end_ Hwf Hs He)
      as (ra & la & -> & [Ha _ _] & _).
    split_and!; eexists; (split; [reflexivity|done]).
  - destruct (traces_invalid g start end_ Hwf Hv) as (-> & _ & -> & ->).
    split_and!; eexists; (split; [reflexivity|apply NoDup_nil_2]).
Qed.

Lemma visited_once_witness :
  ∃ r, bfs (init 3 3) (0, 0) (2, 2) = Ok r ∧ NoDup (visited r).
Proof. exact (proj1 (visited_once (init 3 3) (0, 0) (2, 2) (init_wf 3 3))). Defined.

(** C9 as stated fails: on a 1x3 grid, from the middle cell to the right
    one, [exploring] is not the order of entry into the frontier and
    [visited] is not the order of removal from it. *)
Lemma exploring_is_not_entry_order :
  ∃ r log, bfs_trace (init 1 3) (0, 1) (0, 2) = Ok (r, log) ∧
    exploring r = [(0, 1); (0, 2)] ∧
    enqueued log = [(0, 1); (0, 2); (0, 0)] ∧
    visited r = [(0, 2); (0, 0)] ∧
    dequeued log = [(0, 1); (0, 2)] ∧
    exploring r ≠ enqueued log ∧ visited r ≠ dequeued log.
Proof. eexists _, _. split; [vm_compute; reflexivity|]. by split_and!. Qed.

(** C9, amended: [exploring] lists the states in the order they were taken
    off the frontier, and [visited] lists the states put on the frontier
    after the start, in the order they entered it; for [astar] and
    [dijkstra], whose heap can hold a state several times, both list each
    state at its first occurrence. *)
Theorem trace_orders g start end_ :
  wf g →
  (∃ r log, bfs_trace g start end_ = Ok (r, log) ∧
     exploring r = dequeued log ∧ visited r = tail (enqueued log)) ∧
  (∃ r log, dfs_trace g start end_ = Ok (r, log) ∧
     exploring r = dequeued log ∧ visited r = tail (enqueued log)) ∧
  (∃ r log, astar_trace g start end_ = Ok (r, log) ∧
     exploring r = first_occurrences (dequeued log) ∧
     visited r = first_occurrences (tail (enqueued log))) ∧
  (∃ r log, dijkstra_trace g start end_ = Ok (r, log) ∧
     exploring r = first_occurrences (dequeued log) ∧
     visited r = first_occurrences (tail (enqueued log))).
Proof.
  intros Hwf.
  destruct (validb g start && validb g end_) eqn:Hv.
  - apply andb_true_iff in Hv as [Hs He].
    destruct (bfs_trace_correct g start end_ Hwf Hs He)
      as (rb & lb & -> & [_ Hbe Hbd] & _).
    destruct (dfs_trace_correct g start end_ Hwf Hs He)
      as (rf & lf & -> & [_ Hfe Hfd]).
    destruct (dijkstra_trace_correct g start end_ Hwf Hs He)
      as (rd & ld & -> & [_ (l1 & Hde & Hdf) Hdd] & _).
    destruct (astar_trace_correct g start end_ Hwf Hs He)
      as (ra & la & -> & [_ (l2 & Hae & Haf) Had] & _).
    split_and!; eexists _, _; (split; [reflexivity|]).
    + by rewrite Hbe, Hbd.
    + by rewrite Hfe, Hfd.
    + by rewrite Hae, Had.
    + by rewrite Hde, Hdd.
  - destruct (traces_invalid g start end_ Hwf Hv) as (-> & -> & -> & ->).
    split_and!; eexists _, _; (split; [reflexivity|done]).
Qed.

Lemma trace_orders_witness :
  ∃ r log, bfs_trace (init 1 3) (0, 1) (0, 2) = Ok (r, log) ∧
     exploring r = dequeued log ∧ visited r = tail (enqueued log).
Proof. exact (proj1 (trace_orders (init 1 3) (0, 1) (0, 2) (init_wf 1 3))). Defined.

End SearchFacts.
(** ** Facts about puzzle_logic.py *)

Module PuzzleFacts.
Import PuzzleLogic PuzzleSpec.

Lemma elem_of_range n i : i ∈ range n ↔ 0 <= i < n.
Proof.
  unfold range. rewrite list_elem_of_fmap. split.
  - intros (k & -> & Hk). apply list_elem_of_In, in_seq in Hk. lia.
  - intros Hi. exists (Z.to_nat i). split; [lia|].
    apply list_elem_of_In, in_seq. lia.
Qed.

Section Board.
Variable p : Puzzle.
Hypothesis p_square : square p.

Lemma getitem2_tile i j :
  0 <= i < size p → 0 <= j < size p →
  ∃ v, tile_at (state p) (i, j) = Some v ∧ py_getitem2 (state p) i j = Ok v.
Proof.
  destruct p_square as [Hsz Hrows]. intros Hi Hj.
  unfold py_getitem2, tile_at. simpl.
  destruct (Z.leb_spec 0 i); [|lia]. destruct (Z.leb_spec 0 j); [|lia]. simpl.
  destruct (py_getitem_nonneg (state p) i) as (row & Hrow & ->); [lia|].
  rewrite Hrow. simpl.
  assert (length row = length (state p)) as Hlen.
  { eapply (proj1 (Forall_forall _ _) Hrows), list_elem_of_lookup_2, Hrow. }
  destruct (py_getitem_nonneg row j) as (v & Hv & ->); [lia|].
  exists v. by rewrite Hv.
Qed.

Lemma tile_at_range q v :
  tile_at (state p) q = Some v → 0 <= q.1 < size p ∧ 0 <= q.2 < size p.
Proof.
  destruct p_square as [Hsz Hrows]. unfold tile_at.
  destruct (Z.leb_spec 0 q.1); [|done]. destruct (Z.leb_spec 0 q.2); [|done].
  simpl. destruct (state p !! Z.to_nat q.1) as [row|] eqn:Hrow; [|done].
  simpl. intros Hv.
  assert (length row = length (state p)) as Hlen.
  { eapply (proj1 (Forall_forall _ _) Hrows), list_elem_of_lookup_2, Hrow. }
  apply lookup_lt_Some in Hrow, Hv. lia.
Qed.

Lemma find_empty_row_spec i js :
  0 <= i < size p → (∀ j, j ∈ js → 0 <= j < size p) →
  ∃ r, find_empty_row (state p) i js = Ok r ∧
       match r with
       | Some q => q.1 = i ∧ q.2 ∈ js ∧ tile_at (state p) q = Some 0
       | None => ∀ j, j ∈ js → tile_at (state p) (i, j) ≠ Some 0
       end.
Proof.
  intros Hi. induction js as [|j js IH]; intros Hjs; simpl.
  - exists None. split; [done|]. intros j Hj. by apply elem_of_nil in Hj.
  - destruct (getitem2_tile i j Hi) as (v & Hv & ->); [apply Hjs; by left|].
    simpl. destruct (Z.eqb_spec v 0) as [->|Hne].
    + exists (Some (i, j)). split; [done|]. split; [done|]. split; [by left|done].
    + destruct IH as (r & -> & Hr); [intros j' Hj'; apply Hjs; by right|].
      exists r. split; [done|]. destruct r as [q|].
      * destruct Hr as (? & ? & ?). split; [done|]. split; [by right|done].
      * intros j' Hj'. apply elem_of_cons in Hj' as [->|Hj']; [|by apply Hr].
        rewrite Hv. congruence.
Qed.

Lemma find_empty_rows_spec ix js :
  (∀ i, i ∈ ix → 0 <= i < size p) → (∀ j, j ∈ js → 0 <= j < size p) →
  ∃ r, find_empty_rows (state p) ix js = Ok r ∧
       match r with
       | Some q => q.1 ∈ ix ∧ q.2 ∈ js ∧ tile_at (state p) q = Some 0
       | None => ∀ i j, i ∈ ix → j ∈ js → tile_at (state p) (i, j) ≠ Some 0
       end.
Proof.
  intros Hix Hjs. induction ix as [|i ix IH]; simpl.
  - exists None. split; [done|]. intros i j Hi. by apply elem_of_nil in Hi.
  - destruct (find_empty_row_spec i js) as (r & -> & Hr); [apply Hix; by left|done|].
    simpl. destruct r as [q|].
    + exists (Some q). split; [done|]. destruct Hr as (<- & ? & ?).
      split; [by left|done].
    + destruct IH as (r & -> & Hr'); [intros i' Hi'; apply Hix; by right|].
      exists r. split; [done|]. destruct r as [q|].
      * destruct Hr' as (? & ? & ?). split; [by right|done].
      * intros i' j Hi' Hj. apply elem_of_cons in Hi' as [->|Hi'];
          [by apply Hr|by apply Hr'].
Qed.

Lemma find_empty_blank b : the_blank p b → find_empty p = Ok b.
Proof.
  intros [Hb Huniq]. unfold find_empty.
  destruct (find_empty_rows_spec (range (size p)) (range (size p)))
    as (r & -> & Hr); try (by intros i; apply elem_of_range).
  simpl. destruct r as [q|].
  - destruct Hr as (_ & _ & Hq). by rewrite (Huniq q Hq).
  - apply tile_at_range in Hb as Hrange. destruct Hrange as [H1 H2].
    destruct b as [i j]. exfalso. by apply (Hr i j); [apply elem_of_range..|].
Qed.

End Board.

Lemma board_row n st i row : board n st → st !! i = Some row → length row = n.
Proof.
  intros [_ Hrows] Hrow.
  eapply (proj1 (Forall_forall _ _) Hrows), list_elem_of_lookup_2, Hrow.
Qed.

Lemma tile_at_Some n st q v :
  board n st → tile_at st q = Some v →
  0 <= q.1 < Z.of_nat n ∧ 0 <= q.2 < Z.of_nat n.
Proof.
  intros Hb. unfold tile_at.
  destruct (Z.leb_spec 0 q.1); [|done]. destruct (Z.leb_spec 0 q.2); [|done].
  simpl. destruct (st !! Z.to_nat q.1) as [row|] eqn:Hrow; [|done].
  simpl. intros Hv. pose proof (board_row n st _ row Hb Hrow).
  destruct Hb as [Hlen _]. apply lookup_lt_Some in Hrow, Hv. lia.
Qed.

Lemma tile_at_in_range n st i j :
  board n st → 0 <= i < Z.of_nat n → 0 <= j < Z.of_nat n →
  ∃ v, tile_at st (i, j) = Some v ∧ py_getitem2 st i j = Ok v.
Proof.
  intros Hb Hi Hj. pose proof Hb as [Hlen _].
  unfold py_getitem2, tile_at. simpl.
  destruct (Z.leb_spec 0 i); [|lia]. destruct (Z.leb_spec 0 j); [|lia]. simpl.
  destruct (py_getitem_nonneg st i) as (row & Hrow & ->); [lia|].
  rewrite Hrow. simpl. pose proof (board_row n st _ row Hb Hrow).
  destruct (py_getitem_nonneg row j) as (v & Hv & ->); [lia|].
  exists v. by rewrite Hv.
Qed.

Lemma setitem2_board n st i j x :
  board n st → 0 <= i < Z.of_nat n → 0 <= j < Z.of_nat n →
  ∃ st', py_setitem2 st i j x = Ok st' ∧ board n st' ∧
         ∀ q, tile_at st' q = if decide (q = (i, j)) then Some x
                              else tile_at st q.
Proof.
  intros Hb Hi Hj. pose proof Hb as [Hlen Hrows]. unfold py_setitem2.
  destruct (py_getitem_nonneg st i) as (row & Hrow & ->); [lia|].
  pose proof (board_row n st _ row Hb Hrow) as Hrl.
  simpl. rewrite (py_setitem_nonneg row j) by lia. simpl.
  rewrite py_setitem_nonneg by lia.
  eexists. split; [done|]. split; [split|].
  - by rewrite length_insert.
  - apply Forall_insert; [done|]. by rewrite length_insert.
  - intros [i' j']. unfold tile_at. simpl.
    destruct (Z.leb_spec 0 i'); simpl.
    2:{ rewrite decide_False; [done|]. intros [= -> ->]. lia. }
    destruct (Z.leb_spec 0 j'); simpl.
    2:{ rewrite decide_False; [done|]. intros [= -> ->]. lia. }
    destruct (decide (i' = i)) as [->|Hne].
    + rewrite list_lookup_insert_eq by lia. simpl.
      destruct (decide (j' = j)) as [->|Hne].
      * rewrite list_lookup_insert_eq by lia. by rewrite decide_True.
      * rewrite list_lookup_insert_ne by lia.
        rewrite decide_False by congruence. by rewrite Hrow.
    + rewrite list_lookup_insert_ne by lia.
      by rewrite decide_False by congruence.
Qed.

Lemma board_ext n st st' :
  board n st → board n st' → (∀ q, tile_at st q = tile_at st' q) → st = st'.
Proof.
  intros Hb Hb' Heq. apply list_eq. intros i.
  destruct (st !! i) as [row|] eqn:Hrow.
  - pose proof (lookup_lt_Some _ _ _ Hrow) as Hi.
    destruct (lookup_lt_is_Some_2 st' i) as [row' Hrow'].
    { destruct Hb as [Hl _], Hb' as [Hl' _]. lia. }
    rewrite Hrow'. f_equal. apply list_eq. intros j.
    specialize (Heq (Z.of_nat i, Z.of_nat j)). unfold tile_at in Heq.
    simpl in Heq.
    destruct (Z.leb_spec 0 (Z.of_nat i)); [|lia].
    destruct (Z.leb_spec 0 (Z.of_nat j)); [|lia].
    simpl in Heq. rewrite !Nat2Z.id, Hrow, Hrow' in Heq. done.
  - apply lookup_ge_None in Hrow. symmetry. apply lookup_ge_None.
    destruct Hb as [Hl _], Hb' as [Hl' _]. lia.
Qed.

Lemma swap_cells_board n st a b : board n st → board n (swap_cells st a b).
Proof.
  intros [Hlen Hrows]. unfold swap_cells. split.
  - by rewrite length_imap.
  - apply Forall_forall. intros row Hrow.
    apply list_elem_of_lookup in Hrow as [i Hi].
    rewrite list_lookup_imap in Hi.
    destruct (st !! i) as [row0|] eqn:Hrow0; [|done]. simpl in Hi.
    simplify_eq. rewrite length_imap.
    eapply (proj1 (Forall_forall _ _) Hrows), list_elem_of_lookup_2, Hrow0.
Qed.

Lemma tile_at_swap_cells n st a b va vb q :
  board n st → tile_at st a = Some va → tile_at st b = Some vb →
  tile_at (swap_cells st a b) q =
    if decide (q = a) then Some vb
    else if decide (q = b) then Some va
    else tile_at st q.
Proof.
  intros Hb Ha Hbb. unfold swap_cells. rewrite Ha, Hbb. simpl.
  destruct (tile_at st q) as [v|] eqn:Hq.
  - pose proof (tile_at_Some n st q v Hb Hq) as [H1 H2].
    unfold tile_at in Hq |- *.
    destruct (Z.leb_spec 0 q.1); [|lia]. destruct (Z.leb_spec 0 q.2); [|lia].
    simpl in *. rewrite list_lookup_imap.
    destruct (st !! Z.to_nat q.1) as [row|] eqn:Hrow; [|done]. simpl in *.
    rewrite list_lookup_imap, Hq. simpl. rewrite !Z2Nat.id by lia.
    replace (q.1, q.2) with q by by destruct q.
    by repeat case_decide.
  - assert (q ≠ a) by congruence. assert (q ≠ b) by congruence.
    rewrite !decide_False by done.
    unfold tile_at in Hq |- *.
    destruct ((0 <=? q.1) && (0 <=? q.2)); [|done].
    rewrite list_lookup_imap.
    destruct (st !! Z.to_nat q.1) as [row|] eqn:Hrow; [|done]. simpl in *.
    by rewrite list_lookup_imap, Hq.
Qed.

Lemma square_board p : square p ↔ size p = Z.of_nat (length (state p)) ∧
                                   board (length (state p)) (state p).
Proof. unfold square, board. tauto. Qed.

Lemma target_cases direction row col t :
  target direction row col = Some t →
  (direction = "up" ∧ t = (row - 1, col)) ∨
  (direction = "down" ∧ t = (row + 1, col)) ∨
  (direction = "left" ∧ t = (row, col - 1)) ∨
  (direction = "right" ∧ t = (row, col + 1)).
Proof. unfold target. repeat case_decide; naive_solver. Qed.

(** The valid moves are those whose target is on the board. *)
Lemma get_valid_moves_spec p b :
  square p → the_blank p b →
  ∃ valid, get_valid_moves p = Ok valid ∧
    ∀ direction,
      direction ∈ valid ↔
      ∃ t, target direction b.1 b.2 = Some t ∧
           0 <= t.1 < size p ∧ 0 <= t.2 < size p.
Proof.
  intros Hsq Hblank. pose proof Hsq as [Hsz Hb]%square_board.
  unfold get_valid_moves.
  rewrite (find_empty_blank p Hsq b Hblank). simpl.
  destruct b as [row col].
  destruct Hblank as [Hb0 _].
  pose proof (tile_at_Some _ _ _ _ Hb Hb0) as [Hr Hc]. simpl in Hr, Hc.
  eexists. split; [done|]. intros d. simpl. split.
  - intros Hd. unfold target.
    destruct (Z.ltb_spec 0 row), (Z.ltb_spec row (size p - 1)),
      (Z.ltb_spec 0 col), (Z.ltb_spec col (size p - 1)); simpl in Hd;
      repeat (apply elem_of_cons in Hd as [->|Hd];
              [eexists; split; [reflexivity|simpl; lia]|]);
      by apply elem_of_nil in Hd.
  - intros (t & Ht & Ht1 & Ht2).
    apply target_cases in Ht as [[-> ->]|[[-> ->]|[[-> ->]|[-> ->]]]];
      simpl in Ht1, Ht2.
    all: destruct (Z.ltb_spec 0 row), (Z.ltb_spec row (size p - 1)),
      (Z.ltb_spec 0 col), (Z.ltb_spec col (size p - 1)); try lia; simpl;
      set_solver.
Qed.

Lemma target_neq direction row col t :
  target direction row col = Some t → t ≠ (row, col).
Proof.
  intros [[_ ->]|[[_ ->]|[[_ ->]|[_ ->]]]]%target_cases; intros [= ]; lia.
Qed.

Lemma make_move_valid p b direction t :
  square p → the_blank p b →
  target direction b.1 b.2 = Some t →
  0 <= t.1 < size p → 0 <= t.2 < size p →
  make_move p direction =
    Ok (true, with_state p (swap_cells (state p) b t)) ∧
  (∃ v, tile_at (state p) t = Some v ∧ v ≠ 0) ∧
  square (with_state p (swap_cells (state p) b t)) ∧
  the_blank (with_state p (swap_cells (state p) b t)) t.
Proof.
  intros Hsq Hblank Ht Ht1 Ht2. pose proof Hsq as [Hsz Hb]%square_board.
  destruct (get_valid_moves_spec p b Hsq Hblank) as (valid & Hvalid & Hin).
  pose proof Hblank as [Hb0 Huniq].
  pose proof (tile_at_Some _ _ _ _ Hb Hb0) as [Hr Hc].
  destruct b as [row col], t as [nr nc]. simpl in *.
  pose proof (target_neq _ _ _ _ Ht) as Hne.
  destruct (tile_at_in_range _ _ nr nc Hb) as (v & Hv & Hread1); [lia..|].
  destruct (tile_at_in_range _ _ row col Hb) as (v0 & Hv0 & Hread2); [lia..|].
  rewrite Hb0 in Hv0. simplify_eq.
  destruct (setitem2_board _ _ row col v Hb) as (st1 & Hset1 & Hb1 & Ht1');
    [lia..|].
  destruct (setitem2_board _ _ nr nc 0 Hb1) as (st2 & Hset2 & Hb2 & Ht2');
    [lia..|].
  assert (st2 = swap_cells (state p) (row, col) (nr, nc)) as Hst2.
  { eapply board_ext; [done|by apply swap_cells_board|]. intros q.
    rewrite Ht2', Ht1'.
    rewrite (tile_at_swap_cells _ _ _ _ 0 v q Hb Hb0 Hv).
    repeat case_decide; simplify_eq; done. }
  assert (v ≠ 0) as Hv0.
  { intros ->. by apply Huniq in Hv. }
  split; [|split; [by eauto|split]].
  - unfold make_move. rewrite Hvalid. simpl.
    rewrite decide_True by (apply Hin; eexists; split; [done|simpl; lia]).
    rewrite (find_empty_blank p Hsq _ Hblank). simpl. rewrite Ht.
    rewrite Hread1. simpl. rewrite Hread2. simpl. rewrite Hset1. simpl.
    rewrite Hset2. simpl. by rewrite Hst2.
  - apply square_board. simpl. rewrite <- Hst2.
    destruct Hb2 as [Hl2 Hr2]. rewrite Hl2. split; [done|]. by split.
  - unfold the_blank. simpl. rewrite <- Hst2. split.
    + rewrite Ht2'. by rewrite decide_True.
    + intros q. rewrite Ht2', Ht1'. repeat case_decide; try done.
      * intros [= ->]. done.
      * intros Hq. by apply Huniq in Hq.
Qed.

Lemma make_move_invalid p b direction :
  square p → the_blank p b →
  (∀ t, target direction b.1 b.2 = Some t →
        ¬ (0 <= t.1 < size p ∧ 0 <= t.2 < size p)) →
  make_move p direction = Ok (false, p).
Proof.
  intros Hsq Hblank Hno.
  destruct (get_valid_moves_spec p b Hsq Hblank) as (valid & Hvalid & Hin).
  unfold make_move. rewrite Hvalid. simpl.
  rewrite decide_False; [done|]. rewrite Hin. intros (t & Ht & ?).
  by apply (Hno t).
Qed.

(** C7: on a square board with one blank, [make_move] with a direction
    outside [get_valid_moves] returns [False] and leaves the puzzle as it
    is; with a valid direction it returns [True] and the board is the old
    one with the blank and the tile next to it in that direction (above for
    "up", below for "down", to the left for "left", to the right for
    "right") exchanged. *)
Theorem make_move_spec p b direction :
  square p → the_blank p b →
  ∃ valid, get_valid_moves p = Ok valid ∧
    (direction ∉ valid → make_move p direction = Ok (false, p)) ∧
    (direction ∈ valid →
     ∃ t p',
       ((direction = "up" ∧ t = (b.1 - 1, b.2)) ∨
        (direction = "down" ∧ t = (b.1 + 1, b.2)) ∨
        (direction = "left" ∧ t = (b.1, b.2 - 1)) ∨
        (direction = "right" ∧ t = (b.1, b.2 + 1))) ∧
       (∃ v, tile_at (state p) t = Some v ∧ v ≠ 0) ∧
       make_move p direction = Ok (true, p') ∧
       state p' = swap_cells (state p) b t ∧
       size p' = size p ∧ total_tiles p' = total_tiles p).
Proof.
  intros Hsq Hblank.
  destruct (get_valid_moves_spec p b Hsq Hblank) as (valid & Hvalid & Hin).
  exists valid. split; [done|]. split.
  - intros Hd. unfold make_move. rewrite Hvalid. simpl.
    by rewrite decide_False.
  - intros Hd. apply Hin in Hd as (t & Ht & Ht1 & Ht2).
    destruct (make_move_valid p b direction t) as (Hmove & Htile & _);
      try done.
    eexists t, _. split; [by apply target_cases|]. by split.
Qed.

Lemma make_move_spec_witness :
  let p := mkPuzzle 3 8 [[1; 2; 3]; [4; 5; 6]; [7; 8; 0]] in
  ∃ valid, get_valid_moves p = Ok valid ∧
    (("down" : string) ∉ valid → make_move p "down" = Ok (false, p)).
Proof.
  intros p.
  destruct (make_move_spec p (2, 2) "down") as (valid & Hv & Hn & _).
  - split; [reflexivity|]. repeat constructor.
  - split; [reflexivity|]. intros [i j] Hq.
    unfold tile_at in Hq. simpl in Hq.
    destruct (Z.leb_spec 0 i); [|done]. destruct (Z.leb_spec 0 j); [|done].
    simpl in Hq.
    destruct (Z.to_nat i) as [|[|[|?]]] eqn:Hi; simpl in Hq; try done;
      destruct (Z.to_nat j) as [|[|[|?]]] eqn:Hj; simpl in Hq; try done.
    f_equal; lia.
  - exists valid. split; [exact Hv|exact Hn].
Defined.

(** *** is_solvable *)

Lemma range_seq n : range (Z.of_nat n) = Z.of_nat <$> seq 0 n.
Proof. unfold range. by rewrite Nat2Z.id. Qed.

Lemma range_from_seq a b :
  range_from (Z.of_nat a) (Z.of_nat b) = Z.of_nat <$> seq a (b - a).
Proof.
  unfold range_from.
  replace (Z.to_nat (Z.of_nat b - Z.of_nat a)) with (b - a)%nat by lia.
  generalize (b - a)%nat as m. intros m.
  assert (∀ k, (λ i : nat, Z.of_nat a + Z.of_nat i) <$> seq k m =
               Z.of_nat <$> seq (a + k) m) as Haux.
  { induction m as [|m IH]; intros k; [done|]. simpl.
    rewrite IH. f_equal; [lia|]. by rewrite Nat.add_succ_r. }
  by rewrite Haux, Nat.add_0_r.
Qed.

Lemma flatten_row_spec st i row :
  st !! i = Some row →
  ∀ l pre flat, row = pre ++ l →
    flatten_row st (Z.of_nat i) (Z.of_nat <$> seq (length pre) (length l)) flat
      = Ok (flat ++ filter (λ v, v ≠ 0) l).
Proof.
  intros Hrow. induction l as [|v l IH]; intros pre flat Hpre; simpl.
  - by rewrite app_nil_r.
  - assert (py_getitem2 st (Z.of_nat i) (Z.of_nat (length pre)) = Ok v) as ->.
    { unfold py_getitem2.
      destruct (py_getitem_nonneg st (Z.of_nat i)) as (row' & Hrow' & ->).
      { apply lookup_lt_Some in Hrow. lia. }
      rewrite Nat2Z.id, Hrow in Hrow'. simplify_eq. simpl.
      destruct (py_getitem_nonneg (pre ++ v :: l) (Z.of_nat (length pre)))
        as (v' & Hv' & ->).
      { rewrite length_app. simpl. lia. }
      rewrite Nat2Z.id in Hv'. rewrite list_lookup_middle in Hv' by done.
      by simplify_eq. }
    simpl. specialize (IH (pre ++ [v])).
    rewrite length_app in IH. simpl in IH.
    rewrite Nat.add_1_r in IH.
    destruct (Z.eqb_spec v 0) as [->|Hne]; simpl.
    + rewrite filter_cons_False by (by intros ?).
      apply IH. by rewrite <- app_assoc.
    + rewrite filter_cons_True by done.
      rewrite IH by (by rewrite <- app_assoc).
      by rewrite <- app_assoc.
Qed.

Lemma flatten_rows_spec n st :
  board n st →
  ∀ l pre flat, st = pre ++ l →
    flatten_rows st (Z.of_nat <$> seq (length pre) (length l))
      (Z.of_nat <$> seq 0 n) flat
      = Ok (flat ++ flatten_board l).
Proof.
  intros Hb. induction l as [|row l IH]; intros pre flat Hpre; simpl.
  - by rewrite app_nil_r.
  - assert (st !! length pre = Some row) as Hrow.
    { rewrite Hpre. by apply list_lookup_middle. }
    pose proof (board_row n st _ row Hb Hrow) as Hlen.
    pose proof (flatten_row_spec st (length pre) row Hrow row [] flat eq_refl)
      as Hfr.
    simpl in Hfr. rewrite Hlen in Hfr. rewrite Hfr. simpl.
    specialize (IH (pre ++ [row])). rewrite length_app in IH. simpl in IH.
    rewrite Nat.add_1_r in IH. rewrite IH by (by rewrite <- app_assoc).
    unfold flatten_board. simpl. by rewrite filter_app, app_assoc.
Qed.

Lemma inversions_inner_spec flat i js inversions :
  (i < length flat)%nat → (∀ j, j ∈ js → (j < length flat)%nat) →
  inversions_inner flat (Z.of_nat i) (Z.of_nat <$> js) inversions =
    Ok (inversions +
        Z.of_nat (length (filter (λ j, gt_at flat i j = true) js))).
Proof.
  intros Hi. revert inversions.
  induction js as [|j js IH]; intros inversions Hjs; simpl.
  - f_equal. lia.
  - destruct (py_getitem_nonneg flat (Z.of_nat i)) as (a & Ha & ->); [lia|].
    destruct (py_getitem_nonneg flat (Z.of_nat j)) as (b & Hb & ->).
    { specialize (Hjs j ltac:(by left)). lia. }
    simpl. rewrite Nat2Z.id in Ha, Hb.
    rewrite IH by (intros j' Hj'; apply Hjs; by right).
    assert (gt_at flat i j = (b <? a)) as Hgt.
    { unfold gt_at. by rewrite Ha, Hb. }
    destruct (b <? a) eqn:Hlt.
    + rewrite filter_cons_True by done. simpl. f_equal. lia.
    + rewrite filter_cons_False by (rewrite Hgt; done). done.
Qed.

Lemma inversions_outer_spec flat ix inversions :
  (∀ i, i ∈ ix → (i < length flat)%nat) →
  inversions_outer flat (Z.of_nat <$> ix) inversions =
    Ok (inversions + Z.of_nat (inversions_from flat ix)).
Proof.
  revert inversions. induction ix as [|i ix IH]; intros inversions Hix; simpl.
  - f_equal. lia.
  - replace (Z.of_nat i + 1) with (Z.of_nat (S i)) by lia.
    rewrite range_from_seq.
    rewrite inversions_inner_spec.
    + simpl. rewrite IH by (intros i' Hi'; apply Hix; by right).
      f_equal. lia.
    + apply Hix. by left.
    + intros j Hj. apply list_elem_of_In, in_seq in Hj. lia.
Qed.

Lemma filter_none {A} (P : A → Prop) `{∀ x, Decision (P x)} (l : list A) :
  Forall (λ x, ¬ P x) l → filter P l = [].
Proof.
  induction 1 as [|x l Hx _ IH]; [done|]. by rewrite filter_cons_False.
Qed.

Lemma filter_inverted_row flat i n :
  (i < n)%nat →
  length (filter (λ ij, inverted flat ij = true) (pair i <$> seq 0 n)) =
  length (filter (λ j, gt_at flat i j = true) (seq (S i) (n - S i))).
Proof.
  intros Hi.
  replace (seq 0 n) with (seq 0 (S i) ++ seq (S i) (n - S i)).
  2:{ rewrite <- seq_app. f_equal. lia. }
  rewrite fmap_app, filter_app, length_app.
  assert (filter (λ ij, inverted flat ij = true) (pair i <$> seq 0 (S i)) = [])
    as ->.
  { apply filter_none. apply Forall_forall. intros [i' j] Hin.
    apply list_elem_of_fmap in Hin as (j' & [= -> ->] & Hj).
    apply list_elem_of_In, in_seq in Hj. unfold inverted. simpl.
    rewrite bool_decide_eq_false_2 by lia. done. }
  simpl. generalize (n - S i)%nat as m. intros m.
  assert (∀ l, (∀ j, j ∈ l → (i < j)%nat) →
            length (filter (λ ij, inverted flat ij = true) (pair i <$> l)) =
            length (filter (λ j, gt_at flat i j = true) l)) as Haux.
  { induction l as [|j l IH]; intros Hl; [done|]. simpl.
    assert (inverted flat (i, j) = gt_at flat i j) as Heq.
    { unfold inverted, gt_at. simpl.
      rewrite bool_decide_eq_true_2; [done|]. apply Hl. by left. }
    specialize (IH ltac:(by intros j' Hj'; apply Hl; right)).
    destruct (gt_at flat i j) eqn:Hgt.
    - rewrite !filter_cons_True by congruence. simpl. by f_equal.
    - rewrite !filter_cons_False by congruence. done. }
  apply Haux. intros j Hj. apply list_elem_of_In, in_seq in Hj. lia.
Qed.

Lemma bind_pair (i : nat) (l : list nat) :
  l ≫= (λ j, [(i, j)]) = pair i <$> l.
Proof. induction l as [|j l IH]; [done|]. by rewrite bind_cons, fmap_cons, IH. Qed.

Lemma inversion_count_from flat :
  inversion_count flat =
  Z.of_nat (inversions_from flat (seq 0 (length flat))).
Proof.
  unfold inversion_count, index_pairs. f_equal.
  assert (∀ l, (∀ i, i ∈ l → (i < length flat)%nat) →
    length (filter (λ ij, inverted flat ij = true)
              (l ≫= λ i, seq 0 (length flat) ≫= λ j, [(i, j)])) =
    inversions_from flat l) as Haux.
  { induction l as [|i l IH]; intros Hl; [done|].
    rewrite bind_cons, filter_app, length_app.
    rewrite IH by (intros i' Hi'; apply Hl; by right).
    cbn [inversions_from]. f_equal.
    rewrite bind_pair. apply filter_inverted_row. apply Hl. by left. }
  apply Haux. intros i Hi. apply list_elem_of_In, in_seq in Hi. lia.
Qed.

Lemma mod2_odd n : (n mod 2 =? 1) = true ↔ Z.Odd n.
Proof. rewrite Z.eqb_eq, <- Z.odd_spec, Zodd_mod, Z.eqb_eq. done. Qed.

Lemma mod2_even n : (n mod 2 =? 0) = true ↔ Z.Even n.
Proof. rewrite Z.eqb_eq, <- Z.even_spec, Zeven_mod, Z.eqb_eq. done. Qed.

(** C3: on a square board with one blank at [b], [is_solvable] answers true
    exactly when the board size is odd and the number of inversions of the
    row-major flattening without the blank is even, or the size is even and
    the inversions plus the blank's row counted from the bottom (0 for the
    last row) is even. *)
Theorem is_solvable_spec p b :
  square p → the_blank p b →
  ∃ r, is_solvable p = Ok r ∧
       (r = true ↔
        parity_solvable (size p)
          (inversion_count (flatten_board (state p))) (size p - 1 - b.1)).
Proof.
  intros Hsq Hblank. pose proof Hsq as [Hsz Hb]%square_board.
  assert (range (size p) = Z.of_nat <$> seq 0 (length (state p))) as Hrange.
  { rewrite Hsz. apply range_seq. }
  unfold is_solvable. rewrite Hrange.
  pose proof (flatten_rows_spec _ _ Hb (state p) [] [] eq_refl) as Hflat.
  simpl in Hflat. rewrite Hflat. simpl.
  rewrite range_seq, inversions_outer_spec.
  2:{ intros i Hi. apply list_elem_of_In, in_seq in Hi. lia. }
  simpl. rewrite <- inversion_count_from.
  set (inv := inversion_count (flatten_board (state p))).
  unfold parity_solvable.
  destruct (size p mod 2 =? 1) eqn:Hodd.
  - eexists. split; [done|]. apply mod2_odd in Hodd.
    rewrite mod2_even. split; [by left|].
    intros [[_ ?]|[Hev _]]; [done|].
    destruct (Z.Even_Odd_False _ Hev Hodd).
  - rewrite (find_empty_blank p Hsq b Hblank). simpl.
    eexists. split; [done|]. rewrite mod2_even.
    assert (¬ Z.Odd (size p)) as Hnodd.
    { rewrite <- mod2_odd. congruence. }
    split.
    + intros Hev. right. split; [|done].
      by destruct (Z.Even_or_Odd (size p)).
    + by intros [[? _]|[_ ?]].
Qed.

Lemma is_solvable_spec_witness :
  ∃ r, is_solvable (mkPuzzle 3 8 [[2; 1; 3]; [4; 5; 6]; [7; 8; 0]]) = Ok r ∧
       (r = true ↔ parity_solvable 3 1 0).
Proof.
  apply (is_solvable_spec (mkPuzzle 3 8 [[2; 1; 3]; [4; 5; 6]; [7; 8; 0]])
           (2, 2)).
  - split; [reflexivity|]. repeat constructor.
  - split; [reflexivity|]. intros [i j] Hq.
    unfold tile_at in Hq. simpl in Hq.
    destruct (Z.leb_spec 0 i); [|done]. destruct (Z.leb_spec 0 j); [|done].
    simpl in Hq.
    destruct (Z.to_nat i) as [|[|[|?]]] eqn:Hi; simpl in Hq; try done;
      destruct (Z.to_nat j) as [|[|[|?]]] eqn:Hj; simpl in Hq; try done.
    f_equal; lia.
Defined.

End PuzzleFacts.
(** ** Facts about bfs_solver.py *)

Module SolverFacts.
Import PuzzleLogic PuzzleSpec PuzzleFacts BFSSolver SolverSpec.

Lemma copy_normalized p :
  square p → 3 <= size p <= 5 → copy p = Ok (normalized p).
Proof.
  intros [Hsz _] Hn. unfold copy, PuzzleLogic.init, normalized.
  destruct (Z.ltb_spec (size p) 3); [lia|].
  destruct (Z.ltb_spec 5 (size p)); [lia|]. simpl. by rewrite <- Hsz.
Qed.

Lemma normalized_id p : consistent p → normalized p = p.
Proof. unfold consistent, normalized. destruct p; simpl. by intros ->. Qed.

Lemma playable_normalized p : playable p → playable (normalized p).
Proof. done. Qed.

Lemma consistent_normalized p : consistent (normalized p).
Proof. done. Qed.

(** [make_move] never raises on a playable puzzle, and keeps it playable. *)
Lemma make_move_playable p direction :
  playable p →
  ∃ ok p', make_move p direction = Ok (ok, p') ∧
           playable p' ∧ size p' = size p ∧ total_tiles p' = total_tiles p.
Proof.
  intros (Hsq & Hn & b & Hb).
  destruct (get_valid_moves_spec p b Hsq Hb) as (valid & Hvalid & Hin).
  destruct (decide (direction ∈ valid)) as [Hd|Hd].
  - apply Hin in Hd as (t & Ht & Ht1 & Ht2).
    destruct (make_move_valid p b direction t)
      as (Hmove & _ & Hsq' & Hb'); try done.
    eexists _, _. split; [done|]. split; [|done].
    split; [done|]. split; [done|]. by exists t.
  - exists false, p. split.
    + unfold make_move. rewrite Hvalid. simpl. by rewrite decide_False.
    + split; [|done]. split; [done|]. split; [done|]. by exists b.
Qed.

Lemma apply_moves_app p moves1 moves2 :
  apply_moves p (moves1 ++ moves2) =
  apply_moves p moves1 ≫= λ q, apply_moves q moves2.
Proof.
  revert p. induction moves1 as [|m moves1 IH]; intros p; simpl; [done|].
  destruct (make_move p m) as [[ok q]| |]; simpl; [|done..]. apply IH.
Qed.

Lemma apply_moves_playable p moves :
  playable p → consistent p →
  ∃ q, apply_moves p moves = Ok q ∧ playable q ∧ consistent q ∧
       size q = size p.
Proof.
  revert p. induction moves as [|m moves IH]; intros p Hp Hc; simpl.
  - by exists p.
  - destruct (make_move_playable p m Hp) as (ok & p' & -> & Hp' & Hs & Ht).
    simpl. destruct (IH p' Hp') as (q & -> & ? & ? & ?).
    { unfold consistent in *. by rewrite Hs, Ht. }
    exists q. split_and!; try done. congruence.
Qed.

(** *** Soundness of the search: queue entries carry their own paths *)

Lemma solve_visit_ok p0 current path st move :
  entry_ok p0 (current, path) → Forall (entry_ok p0) (s_queue st) →
  ∃ st', solve_visit current path st move = Ok st' ∧
         Forall (entry_ok p0) (s_queue st').
Proof.
  intros (Hpath & Hp & Hc) Hq. simpl in *. unfold solve_visit.
  destruct Hp as (Hsq & Hn & Hb).
  rewrite (copy_normalized current Hsq Hn), (normalized_id current Hc). simpl.
  destruct (make_move_playable current move) as (ok & p' & Hm & Hp' & Hs & Ht);
    [done|].
  rewrite Hm. simpl. case_decide; [by exists st|].
  eexists. split; [done|]. simpl. apply Forall_app. split; [done|].
  apply Forall_singleton. split; [|split; [done|]]; simpl.
  - rewrite apply_moves_app, Hpath. simpl. by rewrite Hm.
  - unfold consistent in *. by rewrite Hs, Ht.
Qed.

Lemma solve_fold_ok p0 current path moves :
  entry_ok p0 (current, path) →
  ∀ st, Forall (entry_ok p0) (s_queue st) →
  ∃ st', foldM (solve_visit current path) st moves = Ok st' ∧
         Forall (entry_ok p0) (s_queue st').
Proof.
  intros Hcur. induction moves as [|m moves IH]; intros st Hq; simpl.
  - by exists st.
  - destruct (solve_visit_ok p0 current path st m Hcur Hq) as (st1 & -> & Hq1).
    simpl. by apply IH.
Qed.

Lemma solve_loop_sound p0 fuel :
  ∀ st moves,
    Forall (entry_ok p0) (s_queue st) →
    solve_loop fuel st = Ok (Some moves) →
    ∃ q, apply_moves p0 moves = Ok q ∧ is_goal q = true ∧
         playable q ∧ consistent q.
Proof.
  induction fuel as [|fuel IH]; intros st moves Hq Hsolve; [done|].
  simpl in Hsolve. destruct (s_queue st) as [|[current path] rest] eqn:Hqueue;
    [done|].
  apply Forall_cons in Hq as [Hcur Hrest].
  destruct (is_goal current) eqn:Hgoal.
  - simplify_eq. destruct Hcur as (? & ? & ?). by exists current.
  - destruct Hcur as (Hpath & Hp & Hc). pose proof Hp as (Hsq & _ & b & Hb).
    destruct (get_valid_moves_spec current b Hsq Hb) as (valid & Hvalid & _).
    rewrite Hvalid in Hsolve. simpl in Hsolve.
    destruct (solve_fold_ok p0 current path valid ltac:(by split)
                (mkSolve rest (s_visited st) (s_nodes_explored st + 1)) Hrest)
      as (st' & Hfold & Hq').
    rewrite Hfold in Hsolve. simpl in Hsolve. by eapply IH.
Qed.

Lemma is_goal_canonical q :
  consistent q → is_goal q = true → state q = canonical_goal (size q).
Proof.
  unfold consistent, is_goal, canonical_goal, generate_goal_state.
  intros Hc Hg. apply bool_decide_eq_true in Hg. rewrite Hg. simpl.
  by rewrite Hc.
Qed.

(** [make_move] reads [state] and [size] only. *)
Lemma make_move_total_tiles n t t' st direction :
  make_move (mkPuzzle n t' st) direction =
  (λ r, (r.1, mkPuzzle (size r.2) t' (state r.2))) <$>
    make_move (mkPuzzle n t st) direction.
Proof.
  unfold make_move, get_valid_moves, find_empty. simpl.
  destruct (find_empty_rows st (range n) (range n)) as [r| |]; simpl; [|done..].
  destruct (default (-1, -1) r) as [row col]. simpl.
  case_decide; [|done].
  destruct (target direction row col) as [[nr nc]|]; [|done].
  destruct (py_getitem2 st nr nc); simpl; [|done..].
  destruct (py_getitem2 st row col); simpl; [|done..].
  destruct (py_setitem2 st row col _); simpl; [|done..].
  destruct (py_setitem2 _ nr nc _); simpl; done.
Qed.

Lemma apply_moves_total_tiles moves :
  ∀ n t t' st q,
    apply_moves (mkPuzzle n t st) moves = Ok q →
    apply_moves (mkPuzzle n t' st) moves =
      Ok (mkPuzzle (size q) t' (state q)).
Proof.
  induction moves as [|m moves IH]; intros n t t' st q Hq; simpl in *.
  - by simplify_eq.
  - rewrite (make_move_total_tiles n t t').
    destruct (make_move (mkPuzzle n t st) m) as [[ok [n1 t1 st1]]| |];
      simpl in *; [|done..].
    by apply (IH n1 t1 t' st1 q).
Qed.

(** C4: a solver built from a playable puzzle that is the canonical goal
    answers the empty move list, and whenever [solve] returns a move list,
    applying the moves one after the other with [make_move] to the initial
    puzzle gives the canonical goal. *)
Theorem solve_correct p s fuel :
  playable p → BFSSolver.init p = Ok s →
  (state p = canonical_goal (size p) → solve fuel s = Ok (Some [])) ∧
  (∀ moves, solve fuel s = Ok (Some moves) →
     ∃ q, apply_moves p moves = Ok q ∧ state q = canonical_goal (size p)).
Proof.
  intros Hp Hinit. pose proof Hp as (Hsq & Hn & Hb).
  unfold BFSSolver.init in Hinit. rewrite copy_normalized in Hinit by done.
  simpl in Hinit. simplify_eq. unfold solve. simpl. split.
  - intros Hgoal.
    assert (is_goal (normalized p) = true) as ->; [|done].
    apply bool_decide_eq_true. simpl. by rewrite Hgoal.
  - intros moves Hsolve.
    assert (∃ q, apply_moves (normalized p) moves = Ok q ∧ is_goal q = true ∧
                 playable q ∧ consistent q) as (q & Hq & Hg & Hpq & Hcq).
    { destruct (is_goal (normalized p)) eqn:Hg.
      - simplify_eq. by exists (normalized p).
      - destruct (is_solvable (normalized p)) as [[]| |]; simpl in Hsolve;
          try done.
        rewrite copy_normalized in Hsolve by done. simpl in Hsolve.
        eapply solve_loop_sound; [|done]. simpl.
        apply Forall_singleton. split; [done|]. split; [|done].
        by apply playable_normalized. }
    destruct (apply_moves_playable (normalized p) moves)
      as (q' & Hq' & _ & _ & Hsz); [by apply playable_normalized|done|].
    rewrite Hq in Hq'. simplify_eq.
    apply is_goal_canonical in Hg; [|done].
    destruct p as [n t st]. unfold normalized in *. simpl in *.
    rewrite (apply_moves_total_tiles moves n _ t st q' Hq).
    eexists. split; [done|]. simpl. congruence.
Qed.

Lemma solve_correct_witness :
  let p := mkPuzzle 3 8 [[1; 2; 3]; [4; 5; 6]; [7; 0; 8]] in
  ∃ q, apply_moves p ["right"] = Ok q ∧ state q = canonical_goal 3.
Proof.
  intros p.
  assert (playable p) as Hp.
  { split; [|split; [simpl; lia|exists (2, 1)]].
    - split; [reflexivity|]. repeat constructor.
    - split; [reflexivity|]. intros [i j] Hq.
      unfold tile_at in Hq. simpl in Hq.
      destruct (Z.leb_spec 0 i); [|done]. destruct (Z.leb_spec 0 j); [|done].
      simpl in Hq.
      destruct (Z.to_nat i) as [|[|[|?]]] eqn:Hi; simpl in Hq; try done;
        destruct (Z.to_nat j) as [|[|[|?]]] eqn:Hj; simpl in Hq; try done.
      f_equal; lia. }
  refine (proj2 (solve_correct p (mkSolver p) 10 Hp _) ["right"] _);
    vm_compute; reflexivity.
Defined.

(** *** Completeness of the search: [None] means the goal is out of reach *)

Lemma key_inj p q : consistent p → consistent q → key p = key q → p = q.
Proof.
  unfold consistent, key. destruct p, q; simpl. intros -> -> [= -> ->]. done.
Qed.

Lemma goal_solvable p :
  playable p → consistent p → is_goal p = true → is_solvable p = Ok true.
Proof.
  intros (_ & Hn & _) Hc Hg. apply is_goal_canonical in Hg; [|done].
  destruct p as [n t st]. unfold consistent in Hc. simpl in *. subst.
  assert (n = 3 ∨ n = 4 ∨ n = 5) as [->|[->| ->]] by lia;
    vm_compute; reflexivity.
Qed.

Lemma closed_reach visited :
  (∀ q, seen visited q → closed_under_moves visited q) →
  ∀ moves p q,
    seen visited p → apply_moves p moves = Ok q → is_goal q = false.
Proof.
  intros Hclosed. induction moves as [|m moves IH]; intros p q Hp Hq;
    simpl in Hq.
  - simplify_eq. by destruct (Hclosed q Hp).
  - destruct Hp as (Hp & Hc & Hk).
    destruct (make_move_playable p m Hp) as (ok & p' & Hm & Hp' & Hs & Ht).
    rewrite Hm in Hq. simpl in Hq. eapply (IH p'); [|done].
    split; [done|]. split; [unfold consistent in *; by rewrite Hs, Ht|].
    destruct (Hclosed p) as [_ Hmoves]; [done|]. by eapply Hmoves.
Qed.

Lemma solve_visit_eq current path st m ok p' :
  playable current → consistent current →
  make_move current m = Ok (ok, p') →
  solve_visit current path st m =
    if decide (key p' ∈ s_visited st) then Ok st
    else Ok (mkSolve (s_queue st ++ [(p', path ++ [m])])
               ({[key p']} ∪ s_visited st) (s_nodes_explored st)).
Proof.
  intros (Hsq & Hn & _) Hc Hm. unfold solve_visit.
  rewrite (copy_normalized current Hsq Hn), (normalized_id current Hc).
  cbn [mbind res_bind]. rewrite Hm. done.
Qed.

(** The loop over the valid moves of [current]. *)
Lemma solve_fold_complete current path moves :
  playable current → consistent current →
  ∀ st,
    Forall (λ e, seen (s_visited st) e.1) (s_queue st) →
    ∃ st' new,
      foldM (solve_visit current path) st moves = Ok st' ∧
      s_queue st' = s_queue st ++ new ∧
      Forall (λ e, seen (s_visited st') e.1) (s_queue st') ∧
      (∀ k, k ∈ s_visited st' ↔ k ∈ s_visited st ∨ k ∈ key <$> new.*1) ∧
      (∀ m ok q', m ∈ moves → make_move current m = Ok (ok, q') →
                  key q' ∈ s_visited st').
Proof.
  intros Hp Hc. pose proof Hp as (Hsq & Hn & Hb).
  induction moves as [|m moves IH]; intros st Hq; simpl.
  - exists st, []. rewrite app_nil_r. split_and!; try done.
    + intros k. rewrite elem_of_nil. tauto.
    + intros m ok q' Hm. by apply elem_of_nil in Hm.
  - destruct (make_move_playable current m Hp) as (ok & p' & Hm & Hp' & Hs & Ht).
    rewrite (solve_visit_eq current path st m ok p' Hp Hc Hm).
    assert (consistent p') as Hc'.
    { unfold consistent in *. by rewrite Hs, Ht. }
    destruct (decide (key p' ∈ s_visited st)) as [Hin|Hout];
      cbn [mbind res_bind].
    + destruct (IH st Hq) as (st' & new & -> & Hq' & Hall & Hvis & Hmoves).
      exists st', new. split_and!; try done.
      intros m' ok' q' Hm' Hmove. apply elem_of_cons in Hm' as [->|Hm'];
        [|by eapply Hmoves].
      rewrite Hm in Hmove. simplify_eq. apply Hvis. by left.
    + destruct (IH (mkSolve (s_queue st ++ [(p', path ++ [m])])
                      ({[key p']} ∪ s_visited st) (s_nodes_explored st)))
        as (st' & new & -> & Hq' & Hall & Hvis & Hmoves).
      { simpl. apply Forall_app. split.
        - eapply Forall_impl; [done|]. intros e (? & ? & ?).
          split_and!; try done. by apply elem_of_union_r.
        - apply Forall_singleton. split_and!; try done.
          by apply elem_of_union_l, elem_of_singleton. }
      simpl in *. exists st', ((p', path ++ [m]) :: new).
      split_and!; try done.
      * by rewrite Hq', <- app_assoc.
      * intros k. rewrite Hvis, elem_of_union, elem_of_singleton.
        rewrite !fmap_cons, elem_of_cons. simpl. tauto.
      * intros m' ok' q' Hm' Hmove. apply elem_of_cons in Hm' as [->|Hm'];
          [|by eapply Hmoves].
        rewrite Hm in Hmove. simplify_eq. apply Hvis. left.
        by apply elem_of_union_l, elem_of_singleton.
Qed.

Lemma solve_inv_step st current path rest valid b :
  solve_inv st → s_queue st = (current, path) :: rest →
  is_goal current = false → the_blank current b →
  get_valid_moves current = Ok valid →
  ∃ st',
    foldM (solve_visit current path)
      (mkSolve rest (s_visited st) (s_nodes_explored st + 1)) valid = Ok st' ∧
    solve_inv st' ∧ ∀ k, k ∈ s_visited st → k ∈ s_visited st'.
Proof.
  intros [Hqueue Hvisited] Hq Hgoal Hblank Hvalid. rewrite Hq in Hqueue.
  apply Forall_cons in Hqueue as [(Hp & Hc & Hk) Hrest]. simpl in *.
  destruct (solve_fold_complete current path valid Hp Hc
              (mkSolve rest (s_visited st) (s_nodes_explored st + 1)) Hrest)
    as (st' & new & Hfold & Hq' & Hall & Hvis & Hmoves).
  simpl in *. exists st'. split; [done|].
  assert (∀ k, k ∈ s_visited st → k ∈ s_visited st') as Hmono.
  { intros k Hin. apply Hvis. by left. }
  split; [|done]. split; [done|].
  intros q (Hpq & Hcq & Hkq). apply Hvis in Hkq as [Hkq|Hkq].
  - destruct (Hvisited q) as [Hin|[Hg Hcl]]; [done| |].
    + rewrite Hq in Hin. simpl in Hin.
      apply elem_of_cons in Hin as [->|Hin].
      * right. split; [done|]. intros m ok q' Hmove.
        destruct (decide (m ∈ valid)) as [Hm|Hm]; [by eapply Hmoves|].
        unfold make_move in Hmove. rewrite Hvalid in Hmove. simpl in Hmove.
        rewrite decide_False in Hmove by done. simplify_eq. by apply Hmono.
      * left. rewrite Hq', fmap_app. apply elem_of_app. by left.
    + right. split; [done|]. intros m ok q' Hmove. by eapply Hmono, Hcl.
  - left. rewrite Hq', fmap_app. apply elem_of_app. right.
    apply list_elem_of_fmap in Hkq as (q0 & Hkey & Hq0).
    assert (q = q0) as ->; [|done].
    apply key_inj; try done.
    apply list_elem_of_fmap in Hq0 as (e & -> & He).
    rewrite Hq' in Hall. apply Forall_app in Hall as [_ Hnew].
    by destruct (proj1 (Forall_forall _ _) Hnew e He) as (_ & ? & _).
Qed.

Lemma solve_loop_complete fuel :
  ∀ st p0,
    solve_inv st → seen (s_visited st) p0 →
    solve_loop fuel st = Ok None →
    ∀ moves q, apply_moves p0 moves = Ok q → is_goal q = false.
Proof.
  induction fuel as [|fuel IH]; intros st p0 Hinv Hp0 Hsolve; [done|].
  simpl in Hsolve.
  destruct (s_queue st) as [|[current path] rest] eqn:Hq.
  - intros moves q. apply (closed_reach (s_visited st)); [|done].
    intros q' Hq'. destruct (si_visited st Hinv q' Hq') as [Hin|?]; [|done].
    rewrite Hq in Hin. by apply elem_of_nil in Hin.
  - destruct (is_goal current) eqn:Hgoal; [done|].
    pose proof (si_queue st Hinv) as Hqueue. rewrite Hq in Hqueue.
    apply Forall_cons in Hqueue as [((Hsq & Hn & b & Hb) & Hc & Hk) _].
    simpl in *.
    destruct (get_valid_moves_spec current b Hsq Hb) as (valid & Hvalid & _).
    rewrite Hvalid in Hsolve. simpl in Hsolve.
    destruct (solve_inv_step st current path rest valid b Hinv Hq Hgoal Hb
                Hvalid) as (st' & Hfold & Hinv' & Hmono).
    rewrite Hfold in Hsolve. simpl in Hsolve.
    eapply (IH st' p0); try done.
    destruct Hp0 as (? & ? & ?). split_and!; try done. by apply Hmono.
Qed.




End SolverFacts.
(** ** More about grid.py: the other methods *)

Module GridMore.
Import Grid GridFacts Algorithms SearchSpec SearchFacts.

Lemma elem_of_grid_range n i : i ∈ range n ↔ 0 <= i < n.
Proof.
  unfold range. rewrite list_elem_of_fmap. split.
  - intros (k & -> & Hk). apply list_elem_of_In, in_seq in Hk. lia.
  - intros Hi. exists (Z.to_nat i). split; [lia|].
    apply list_elem_of_In, in_seq. lia.
Qed.

Lemma NoDup_range n : NoDup (range n).
Proof.
  unfold range. apply NoDup_fmap_2; [intros ???; lia|]. apply NoDup_seq.
Qed.

(** Two grids of the constructor's shape with the same cells and fields are
    the same grid. *)
Lemma grid_ext g g' :
  wf g → wf g' → rows g' = rows g → cols g' = cols g →
  start_pos g' = start_pos g → end_pos g' = end_pos g →
  (∀ p, cell g' p = cell g p) → g' = g.
Proof.
  intros [Hl Hr] [Hl' Hr'] Hrows Hcols Hsp Hep Hcell.
  destruct g as [r c m sp ep], g' as [r' c' m' sp' ep']. simpl in *.
  subst. f_equal. apply list_eq. intros i.
  destruct (decide (i < length m)%nat) as [Hi|Hi].
  - destruct (lookup_lt_is_Some_2 m i) as [row Hrow]; [done|].
    destruct (lookup_lt_is_Some_2 m' i) as [row' Hrow']; [lia|].
    rewrite Hrow, Hrow'. f_equal.
    pose proof (proj1 (Forall_forall _ _) Hr row
                  (list_elem_of_lookup_2 _ _ _ Hrow)) as Hlr.
    pose proof (proj1 (Forall_forall _ _) Hr' row'
                  (list_elem_of_lookup_2 _ _ _ Hrow')) as Hlr'.
    simpl in Hlr, Hlr'. apply list_eq. intros j.
    destruct (decide (j < length row)%nat) as [Hj|Hj].
    + specialize (Hcell (Z.of_nat i, Z.of_nat j)). unfold cell, in_bounds in Hcell.
      simpl in Hcell.
      destruct (Z.leb_spec 0 (Z.of_nat i)); [|lia].
      destruct (Z.ltb_spec (Z.of_nat i) r); [|lia].
      destruct (Z.leb_spec 0 (Z.of_nat j)); [|lia].
      destruct (Z.ltb_spec (Z.of_nat j) c); [|lia].
      simpl in Hcell. rewrite !Nat2Z.id, Hrow, Hrow' in Hcell. done.
    + rewrite !lookup_ge_None_2; [done|lia..].
  - rewrite !lookup_ge_None_2; [done|lia..].
Qed.

Lemma toggle_wall_in g row col :
  wf g → in_bounds g row col = true →
  ∃ g', toggle_wall g row col = Ok g' ∧ wf g' ∧
        rows g' = rows g ∧ cols g' = cols g ∧
        start_pos g' = start_pos g ∧ end_pos g' = end_pos g ∧
        ∀ p, cell g' p =
             if decide (p = (row, col)) then flip_wall <$> cell g p
             else cell g p.
Proof.
  intros Hwf Hb. unfold toggle_wall.
  grid_read g row col. case_decide as Hw.
  - subst. grid_write g row col EMPTY. eexists. split; [done|].
    split_and!; try done. intros p. rewrite Hcell.
    case_decide; [|done]. subst. by rewrite Hcur.
  - simpl. case_decide as He.
    + subst. grid_write g row col WALL. eexists. split; [done|].
      split_and!; try done. intros p. rewrite Hcell.
      case_decide; [|done]. subst. by rewrite Hcur.
    + eexists. split; [done|]. split_and!; try done. intros p.
      case_decide; [|done]. subst. rewrite Hcur. simpl.
      by destruct cur.
Qed.

(** *** Unchecked indices *)

Lemma py_norm_index_nonneg {A} (l : list A) j :
  0 <= j < Z.of_nat (length l) → py_norm_index l j = Some (Z.to_nat j).
Proof.
  intros Hj. unfold py_norm_index.
  destruct (Z.ltb_spec j 0); [lia|].
  destruct (Z.leb_spec 0 j); [|lia].
  destruct (Z.ltb_spec j (Z.of_nat (length l))); [|lia]. done.
Qed.

Lemma py_norm_index_mod {A} (l : list A) i :
  - Z.of_nat (length l) <= i < Z.of_nat (length l) →
  py_norm_index l i = Some (Z.to_nat (i mod Z.of_nat (length l))) ∧
  py_norm_index l (i mod Z.of_nat (length l)) =
    Some (Z.to_nat (i mod Z.of_nat (length l))).
Proof.
  intros Hi. set (n := Z.of_nat (length l)) in *.
  pose proof (Z.mod_pos_bound i n ltac:(lia)) as Hm.
  split; [|by apply py_norm_index_nonneg].
  unfold py_norm_index. fold n.
  destruct (Z.ltb_spec i 0).
  - assert (i mod n = i + n) as ->.
    { symmetry. apply (Z.mod_unique_pos _ _ (-1)); lia. }
    destruct (Z.leb_spec 0 (i + n)); [|lia].
    destruct (Z.ltb_spec (i + n) n); [|lia]. done.
  - rewrite Z.mod_small by lia.
    destruct (Z.leb_spec 0 i); [|lia].
    destruct (Z.ltb_spec i n); [|lia]. done.
Qed.

Lemma py_norm_index_out {A} (l : list A) i :
  ¬ (- Z.of_nat (length l) <= i < Z.of_nat (length l)) →
  py_norm_index l i = None.
Proof.
  intros Hi. unfold py_norm_index.
  destruct (Z.ltb_spec i 0).
  - destruct (Z.leb_spec 0 (i + Z.of_nat (length l))); [|done].
    destruct (Z.ltb_spec (i + Z.of_nat (length l)) (Z.of_nat (length l)));
      [lia|done].
  - destruct (Z.leb_spec 0 i); [|lia].
    destruct (Z.ltb_spec i (Z.of_nat (length l))); [lia|done].
Qed.

Lemma py_getitem_mod {A} (l : list A) i :
  - Z.of_nat (length l) <= i < Z.of_nat (length l) →
  py_getitem l i = py_getitem l (i mod Z.of_nat (length l)).
Proof.
  intros Hi. unfold py_getitem.
  by destruct (py_norm_index_mod l i Hi) as [-> ->].
Qed.

Lemma py_setitem_mod {A} (l : list A) i x :
  - Z.of_nat (length l) <= i < Z.of_nat (length l) →
  py_setitem l i x = py_setitem l (i mod Z.of_nat (length l)) x.
Proof.
  intros Hi. unfold py_setitem.
  by destruct (py_norm_index_mod l i Hi) as [-> ->].
Qed.

Lemma py_getitem_out {A} (l : list A) i :
  ¬ (- Z.of_nat (length l) <= i < Z.of_nat (length l)) →
  py_getitem l i = Raise IndexError.
Proof. intros Hi. unfold py_getitem. by rewrite py_norm_index_out. Qed.

Lemma wf_row g i row :
  wf g → grid g !! i = Some row → Z.of_nat (length row) = Z.max 0 (cols g).
Proof.
  intros [_ Hc] Hrow.
  eapply (proj1 (Forall_forall _ _) Hc), list_elem_of_lookup_2, Hrow.
Qed.

Lemma read_mod g row col :
  wf g → - rows g <= row < rows g → - cols g <= col < cols g →
  read g row col = read g (row mod rows g) (col mod cols g).
Proof.
  intros Hwf Hr Hc. pose proof Hwf as [Hl _]. unfold read, py_getitem2.
  replace (rows g) with (Z.of_nat (length (grid g))) by lia.
  rewrite (py_getitem_mod (grid g) row) by lia.
  destruct (py_getitem (grid g) (row mod _)) as [r| |] eqn:Hrow; [|done..].
  simpl. unfold py_getitem in Hrow.
  destruct (py_norm_index _ _) as [j|]; [|done].
  destruct (grid g !! j) as [r'|] eqn:Hj; [|done]. simplify_eq.
  pose proof (wf_row g j r Hwf Hj).
  replace (cols g) with (Z.of_nat (length r)) by lia.
  apply py_getitem_mod. lia.
Qed.

Lemma write_mod g row col ct :
  wf g → - rows g <= row < rows g → - cols g <= col < cols g →
  write g row col ct = write g (row mod rows g) (col mod cols g) ct.
Proof.
  intros Hwf Hr Hc. pose proof Hwf as [Hl _]. unfold write, py_setitem2.
  f_equal.
  replace (rows g) with (Z.of_nat (length (grid g))) by lia.
  rewrite (py_getitem_mod (grid g) row) by lia.
  destruct (py_getitem (grid g) (row mod _)) as [r| |] eqn:Hrow; [|done..].
  simpl. unfold py_getitem in Hrow.
  destruct (py_norm_index _ _) as [j|] eqn:Hn; [|done].
  destruct (grid g !! j) as [r'|] eqn:Hj; [|done]. simplify_eq.
  pose proof (wf_row g j r Hwf Hj).
  replace (cols g) with (Z.of_nat (length r)) by lia.
  rewrite (py_setitem_mod r col) by lia.
  destruct (py_setitem r _ ct) as [r2| |]; [|done..]. simpl.
  apply py_setitem_mod. lia.
Qed.

Lemma read_out g row col :
  wf g → ¬ (- rows g <= row < rows g ∧ - cols g <= col < cols g) →
  read g row col = Raise IndexError.
Proof.
  intros Hwf Hout. pose proof Hwf as [Hl _]. unfold read, py_getitem2.
  destruct (decide (- rows g <= row < rows g)) as [Hr|Hr].
  - destruct (py_getitem (grid g) row) as [r|e|] eqn:Hrow.
    + simpl. unfold py_getitem in Hrow.
      destruct (py_norm_index _ _) as [j|]; [|done].
      destruct (grid g !! j) as [r'|] eqn:Hj; [|done]. simplify_eq.
      pose proof (wf_row g j r Hwf Hj). apply py_getitem_out. lia.
    + unfold py_getitem in Hrow. destruct (py_norm_index _ _) as [j|].
      * destruct (grid g !! j); by simplify_eq.
      * by simplify_eq.
    + unfold py_getitem in Hrow. destruct (py_norm_index _ _) as [j|]; [|done].
      by destruct (grid g !! j).
  - rewrite py_getitem_out; [done|lia].
Qed.

Lemma in_bounds_mod g row col :
  - rows g <= row < rows g → - cols g <= col < cols g →
  in_bounds g (row mod rows g) (col mod cols g) = true.
Proof.
  intros Hr Hc. apply in_bounds_spec.
  pose proof (Z.mod_pos_bound row (rows g)).
  pose proof (Z.mod_pos_bound col (cols g)). lia.
Qed.

Lemma toggle_wall_mod g row col :
  wf g → - rows g <= row < rows g → - cols g <= col < cols g →
  toggle_wall g row col = toggle_wall g (row mod rows g) (col mod cols g).
Proof.
  intros Hwf Hr Hc. unfold toggle_wall.
  rewrite (read_mod g row col), !(write_mod g row col) by done. done.
Qed.

(** *** Loops over all cells *)

Section Sweep.
Variable body : Grid → Z → Z → res Grid.
Variable f : CellType → CellType.
Hypothesis body_ok : ∀ g row col,
  wf g → in_bounds g row col = true →
  ∃ g', body g row col = Ok g' ∧ wf g' ∧
        rows g' = rows g ∧ cols g' = cols g ∧
        start_pos g' = start_pos g ∧ end_pos g' = end_pos g ∧
        ∀ p, cell g' p =
             if decide (p = (row, col)) then f <$> cell g p else cell g p.

Lemma sweep_row g row cs :
  wf g → 0 <= row < rows g → NoDup cs → (∀ c, c ∈ cs → 0 <= c < cols g) →
  ∃ g', foldM (λ (g2 : Grid) (col : Z), body g2 row col) g cs = Ok g' ∧
        wf g' ∧ rows g' = rows g ∧ cols g' = cols g ∧
        start_pos g' = start_pos g ∧ end_pos g' = end_pos g ∧
        ∀ p, cell g' p =
             if decide (p.1 = row ∧ p.2 ∈ cs) then f <$> cell g p
             else cell g p.
Proof.
  intros Hwf Hrow Hnd Hcs. revert g Hwf Hrow Hcs.
  induction Hnd as [|c cs Hc Hnd IH]; intros g Hwf Hrow Hcs; simpl.
  - exists g. split_and!; try done. intros p.
    rewrite decide_False; [done|]. intros [_ Hin]. by apply elem_of_nil in Hin.
  - destruct (body_ok g row c Hwf) as (g1 & -> & Hwf1 & Hr1 & Hc1 & Hs1 & He1 & Hcell1).
    { apply in_bounds_spec. split; [done|]. apply Hcs. by left. }
    simpl. destruct (IH g1 Hwf1) as (g' & -> & Hwf' & Hr' & Hc' & Hs' & He' & Hcell').
    { lia. }
    { intros c' Hc'. rewrite Hc1. apply Hcs. by right. }
    exists g'. split_and!; try congruence. intros p.
    rewrite Hcell', Hcell1. destruct p as [pr pc]. simpl.
    destruct (decide (pr = row ∧ pc ∈ cs)) as [[-> Hin]|Hn].
    + rewrite decide_False by (intros [= ->]; done).
      rewrite decide_True; [done|]. split; [done|]. by right.
    + destruct (decide ((pr, pc) = (row, c))) as [[= -> ->]|Hne].
      * rewrite decide_True; [done|]. split; [done|]. by left.
      * rewrite decide_False; [done|]. intros [-> [->|Hin]%elem_of_cons]; tauto.
Qed.

Lemma sweep_rows g rs :
  wf g → NoDup rs → (∀ r, r ∈ rs → 0 <= r < rows g) →
  ∃ g', foldM (λ (g1 : Grid) (row : Z),
                 foldM (λ (g2 : Grid) (col : Z), body g2 row col)
                   g1 (range (cols g1))) g rs = Ok g' ∧
        wf g' ∧ rows g' = rows g ∧ cols g' = cols g ∧
        start_pos g' = start_pos g ∧ end_pos g' = end_pos g ∧
        ∀ p, cell g' p =
             if decide (p.1 ∈ rs) then f <$> cell g p else cell g p.
Proof.
  intros Hwf Hnd Hrs. revert g Hwf Hrs.
  induction Hnd as [|r rs Hr Hnd IH]; intros g Hwf Hrs; simpl.
  - exists g. by split_and!.
  - destruct (sweep_row g r (range (cols g)) Hwf)
      as (g1 & -> & Hwf1 & Hr1 & Hc1 & Hs1 & He1 & Hcell1).
    { apply Hrs. by left. }
    { apply NoDup_range. }
    { intros c. by rewrite elem_of_grid_range. }
    simpl. destruct (IH g1 Hwf1) as (g' & -> & Hwf' & Hr' & Hc' & Hs' & He' & Hcell').
    { intros r' Hr'. rewrite Hr1. apply Hrs. by right. }
    exists g'. split_and!; try congruence. intros p.
    rewrite Hcell', Hcell1. destruct p as [pr pc]. simpl.
    destruct (decide (pr ∈ rs)) as [Hin|Hn].
    + rewrite decide_False by (intros [-> _]; done).
      rewrite decide_True; [done|]. by right.
    + destruct (decide (pr = r ∧ pc ∈ range (cols g))) as [[-> Hc]|Hne].
      * rewrite decide_True; [done|]. by left.
      * destruct (decide (pr ∈ r :: rs)) as [[->|?]%elem_of_cons|?];
          [|done..].
        assert (cell g (r, pc) = None) as ->; [|done].
        unfold cell. simpl. destruct (in_bounds g r pc) eqn:Hb; [|done].
        apply in_bounds_spec in Hb. exfalso. apply Hne. split; [done|].
        apply elem_of_grid_range. lia.
Qed.

Lemma sweep_ok g :
  wf g →
  ∃ g', foldM (λ (g1 : Grid) (row : Z),
                 foldM (λ (g2 : Grid) (col : Z), body g2 row col)
                   g1 (range (cols g1))) g (range (rows g)) = Ok g' ∧
        wf g' ∧ rows g' = rows g ∧ cols g' = cols g ∧
        start_pos g' = start_pos g ∧ end_pos g' = end_pos g ∧
        ∀ p, cell g' p = f <$> cell g p.
Proof.
  intros Hwf.
  destruct (sweep_rows g (range (rows g)) Hwf)
    as (g' & Hrun & Hwf' & Hr' & Hc' & Hs' & He' & Hcell').
  { apply NoDup_range. }
  { intros r. by rewrite elem_of_grid_range. }
  exists g'. split_and!; try done. intros p. rewrite Hcell'.
  case_decide as Hin; [done|].
  assert (cell g p = None) as ->; [|done].
  unfold cell. destruct (in_bounds g p.1 p.2) eqn:Hb; [|done].
  apply in_bounds_spec in Hb. exfalso. apply Hin, elem_of_grid_range. lia.
Qed.
End Sweep.

Lemma clear_path_cell_ok g row col :
  wf g → in_bounds g row col = true →
  ∃ g', clear_path_cell g row col = Ok g' ∧ wf g' ∧
        rows g' = rows g ∧ cols g' = cols g ∧
        start_pos g' = start_pos g ∧ end_pos g' = end_pos g ∧
        ∀ p, cell g' p =
             if decide (p = (row, col)) then unmark <$> cell g p else cell g p.
Proof.
  intros Hwf Hb. unfold clear_path_cell. grid_read g row col.
  case_decide as Hm.
  - grid_write g row col EMPTY. eexists. split; [done|].
    split_and!; try done. intros p. rewrite Hcell.
    case_decide; [|done]. subst. rewrite Hcur. simpl.
    set_unfold. by destruct Hm as [->|[->|[->|[]]]].
  - eexists. split; [done|]. split_and!; try done. intros p.
    case_decide; [|done]. subst. rewrite Hcur. simpl.
    destruct cur; try done; exfalso; apply Hm; set_solver.
Qed.

Lemma clear_walls_cell_ok g row col :
  wf g → in_bounds g row col = true →
  ∃ g', clear_walls_cell g row col = Ok g' ∧ wf g' ∧
        rows g' = rows g ∧ cols g' = cols g ∧
        start_pos g' = start_pos g ∧ end_pos g' = end_pos g ∧
        ∀ p, cell g' p =
             if decide (p = (row, col)) then unwall <$> cell g p else cell g p.
Proof.
  intros Hwf Hb. unfold clear_walls_cell. grid_read g row col.
  case_decide as Hm.
  - grid_write g row col EMPTY. eexists. split; [done|].
    split_and!; try done. intros p. rewrite Hcell.
    case_decide; [|done]. subst. by rewrite Hcur.
  - eexists. split; [done|]. split_and!; try done. intros p.
    case_decide; [|done]. subst. rewrite Hcur. simpl. by destruct cur.
Qed.

Lemma clear_path_ok g :
  wf g →
  ∃ g', clear_path g = Ok g' ∧ wf g' ∧ rows g' = rows g ∧ cols g' = cols g ∧
        start_pos g' = start_pos g ∧ end_pos g' = end_pos g ∧
        ∀ p, cell g' p = unmark <$> cell g p.
Proof. apply (sweep_ok clear_path_cell unmark), clear_path_cell_ok. Qed.

Lemma clear_walls_ok g :
  wf g →
  ∃ g', clear_walls g = Ok g' ∧ wf g' ∧ rows g' = rows g ∧ cols g' = cols g ∧
        start_pos g' = start_pos g ∧ end_pos g' = end_pos g ∧
        ∀ p, cell g' p = unwall <$> cell g p.
Proof. apply (sweep_ok clear_walls_cell unwall), clear_walls_cell_ok. Qed.


Lemma elem_of_cells g p : p ∈ cells g ↔ in_bounds g p.1 p.2 = true.
Proof.
  unfold cells. rewrite in_bounds_spec, list_elem_of_bind.
  destruct p as [r c]. simpl. split.
  - intros (r' & (c' & Heq & Hc%elem_of_grid_range)%list_elem_of_fmap
              & Hr%elem_of_grid_range).
    by simplify_eq.
  - intros [Hr Hc]. exists r. split; [|by apply elem_of_grid_range].
    apply list_elem_of_fmap. exists c. split; [done|]. by apply elem_of_grid_range.
Qed.

Lemma NoDup_cells g : NoDup (cells g).
Proof.
  unfold cells. apply NoDup_bind.
  - intros r1 r2 p _ _ (c1 & -> & _)%list_elem_of_fmap
      (c2 & [= -> _] & _)%list_elem_of_fmap. done.
  - intros r _. apply NoDup_fmap_2; [by intros ?? [= ]|]. apply NoDup_range.
  - apply NoDup_range.
Qed.

Lemma wall_count_row g row cs count :
  wf g → 0 <= row < rows g → (∀ c, c ∈ cs → 0 <= c < cols g) →
  foldM (λ (count' : Z) (col : Z),
           read g row col ≫= λ cur : CellType,
           Ok (if decide (cur = WALL) then count' + 1 else count'))
    count cs =
  Ok (count +
      Z.of_nat (length (filter (λ p, cell g p = Some WALL)
                          ((λ col, (row, col)) <$> cs)))).
Proof.
  intros Hwf Hrow. revert count.
  induction cs as [|c cs IH]; intros count Hcs; cbn [foldM].
  - simpl. f_equal. lia.
  - destruct (read_ok g row c Hwf) as (ct & Hct & ->).
    { apply in_bounds_spec. split; [done|]. apply Hcs. by left. }
    cbn [mbind res_bind]. rewrite IH by (intros c' Hc'; apply Hcs; by right).
    f_equal. rewrite fmap_cons, filter_cons, Hct.
    destruct (decide (ct = WALL)) as [->|Hne].
    + rewrite decide_True by done. cbn [length]. lia.
    + rewrite decide_False by congruence. lia.
Qed.

Lemma wall_count_rows g rs count :
  wf g → (∀ r, r ∈ rs → 0 <= r < rows g) →
  foldM (λ (count : Z) (row : Z),
           foldM (λ (count' : Z) (col : Z),
                    read g row col ≫= λ cur : CellType,
                    Ok (if decide (cur = WALL) then count' + 1 else count'))
             count (range (cols g)))
    count rs =
  Ok (count +
      Z.of_nat (length (filter (λ p, cell g p = Some WALL)
                          (row ← rs; (λ col, (row, col)) <$> range (cols g))))).
Proof.
  intros Hwf. revert count.
  induction rs as [|r rs IH]; intros count Hrs; cbn [foldM].
  - simpl. f_equal. lia.
  - rewrite wall_count_row; [|done|apply Hrs; by left|].
    2:{ intros c. by rewrite elem_of_grid_range. }
    cbn [mbind res_bind]. rewrite IH by (intros r' Hr'; apply Hrs; by right).
    f_equal. rewrite bind_cons, filter_app, length_app. lia.
Qed.

Lemma get_wall_count_ok g :
  wf g → get_wall_count g = Ok (Z.of_nat (length (wall_cells g))).
Proof.
  intros Hwf. unfold get_wall_count, wall_cells, cells.
  rewrite wall_count_rows; [done|done|].
  intros r. by rewrite elem_of_grid_range.
Qed.

(** Changing what holds at one element of a duplicate-free list changes the
    count by one at most. *)
Lemma length_filter_update {A} `{EqDecision A} (P Q : A → Prop)
    `{∀ x, Decision (P x)} `{∀ x, Decision (Q x)} (l : list A) x0 :
  NoDup l → x0 ∈ l → (∀ x, x ≠ x0 → (P x ↔ Q x)) →
  (length (filter Q l) + (if decide (P x0) then 1 else 0) =
   length (filter P l) + (if decide (Q x0) then 1 else 0))%nat.
Proof.
  intros Hnd Hin Hothers.
  assert (∀ l', x0 ∉ l' → length (filter Q l') = length (filter P l')) as Hsame.
  { induction l' as [|y l' IH]; intros Hn; [done|].
    apply not_elem_of_cons in Hn as [Hne Hn].
    rewrite !filter_cons.
    destruct (decide (P y)) as [Hp|Hp], (decide (Q y)) as [Hq|Hq]; simpl;
      rewrite ?IH by done; try done.
    - exfalso. apply Hq, Hothers; done.
    - exfalso. apply Hp, Hothers; done. }
  induction Hnd as [|y l Hy Hnd IH]; [by apply elem_of_nil in Hin|].
  rewrite !filter_cons.
  apply elem_of_cons in Hin as [->|Hin].
  - destruct (decide (P y)), (decide (Q y)); simpl;
      rewrite ?(Hsame l Hy); lia.
  - assert (y ≠ x0) as Hne by (intros ->; done).
    specialize (IH Hin).
    destruct (decide (P y)) as [Hp|Hp], (decide (Q y)) as [Hq|Hq]; simpl;
      try lia.
    + exfalso. apply Hq, Hothers; done.
    + exfalso. apply Hp, Hothers; done.
Qed.

Lemma cells_eq g g' : rows g' = rows g → cols g' = cols g → cells g' = cells g.
Proof. unfold cells. by intros -> ->. Qed.

Lemma wall_cells_update g g' p0 x :
  rows g' = rows g → cols g' = cols g → in_bounds g p0.1 p0.2 = true →
  (∀ p, cell g' p = if decide (p = p0) then Some x else cell g p) →
  (length (wall_cells g') +
     (if decide (cell g p0 = Some WALL) then 1 else 0) =
   length (wall_cells g) + (if decide (x = WALL) then 1 else 0))%nat.
Proof.
  intros Hr Hc Hb Hcell. unfold wall_cells. rewrite (cells_eq g g') by done.
  pose proof (length_filter_update (λ p, cell g p = Some WALL)
                (λ p, cell g' p = Some WALL) (cells g) p0 (NoDup_cells g)) as Hlen.
  assert (cell g' p0 = Some x) as Hx.
  { specialize (Hcell p0). by rewrite decide_True in Hcell. }
  rewrite Hlen.
  - f_equal. rewrite Hx.
    destruct (decide (x = WALL)) as [->|Hne].
    + by rewrite decide_True.
    + rewrite decide_False; [done|]. congruence.
  - by apply elem_of_cells.
  - intros p Hp. by rewrite Hcell, decide_False.
Qed.

Lemma length_range n : length (range n) = Z.to_nat n.
Proof. unfold range. by rewrite length_fmap, length_seq. Qed.

Lemma length_cells g :
  length (cells g) = (Z.to_nat (rows g) * Z.to_nat (cols g))%nat.
Proof.
  unfold cells. rewrite <- (length_range (rows g)).
  induction (range (rows g)) as [|r rs IH]; [done|].
  rewrite bind_cons, length_app, IH, length_fmap, length_range. simpl. lia.
Qed.

Lemma clear_all_wf g : wf (clear_all g).
Proof. apply (init_wf (rows g) (cols g)). Qed.

Lemma cell_clear_all g p :
  cell (clear_all g) p = if in_bounds g p.1 p.2 then Some EMPTY else None.
Proof.
  unfold cell. change (in_bounds (clear_all g) p.1 p.2) with (in_bounds g p.1 p.2).
  destruct (in_bounds g p.1 p.2) eqn:Hb; [|done].
  apply in_bounds_spec in Hb. simpl.
  rewrite lookup_replicate_2 by lia. simpl.
  by rewrite lookup_replicate_2 by lia.
Qed.

(** [toggle_wall] does not check its indices.  Inside
    [-rows, rows) x [-cols, cols) it works on the cell the indices name, a
    negative index counting from the end as Python's lists do: WALL and
    EMPTY change places, any other kind of cell stays, nothing else
    changes, and a second call undoes the first.  Anywhere else the call
    raises [IndexError]. *)
Theorem toggle_wall_cases g row col :
  wf g →
  if decide (- rows g <= row < rows g ∧ - cols g <= col < cols g) then
    ∃ g1, toggle_wall g row col = Ok g1 ∧
          (∀ p, cell g1 p =
                if decide (p = (row mod rows g, col mod cols g))
                then flip_wall <$> cell g p
                else cell g p) ∧
          start_pos g1 = start_pos g ∧ end_pos g1 = end_pos g ∧
          toggle_wall g1 row col = Ok g
  else toggle_wall g row col = Raise IndexError.
Proof.
  intros Hwf. case_decide as Hin.
  - destruct Hin as [Hr Hc].
    rewrite (toggle_wall_mod g row col) by done.
    set (r := row mod rows g). set (c := col mod cols g).
    assert (in_bounds g r c = true) as Hb by by apply in_bounds_mod.
    destruct (toggle_wall_in g r c Hwf Hb)
      as (g1 & Ht1 & Hwf1 & Hr1 & Hc1 & Hs1 & He1 & Hcell1).
    exists g1. split_and!; try done.
    rewrite (toggle_wall_mod g1 row col), Hr1, Hc1 by (done || lia).
    fold r c.
    destruct (toggle_wall_in g1 r c Hwf1)
      as (g2 & -> & Hwf2 & Hr2 & Hc2 & Hs2 & He2 & Hcell2).
    { by rewrite (in_bounds_eq g g1). }
    f_equal. apply grid_ext; try congruence.
    intros p. rewrite Hcell2, Hcell1. case_decide; [|done].
    destruct (cell g p) as [[]|]; done.
  - unfold toggle_wall. by rewrite read_out.
Qed.

Lemma toggle_wall_cases_witness :
  (∃ g1, toggle_wall (init 2 3) (-1) (-1) = Ok g1 ∧
         cell g1 (1, 2) = Some WALL ∧
         toggle_wall g1 (-1) (-1) = Ok (init 2 3)) ∧
  toggle_wall (init 2 3) 2 0 = Raise IndexError.
Proof.
  split.
  - pose proof (toggle_wall_cases (init 2 3) (-1) (-1) (init_wf 2 3)) as H.
    rewrite decide_True in H by (simpl; lia).
    destruct H as (g1 & Ht & Hcell & _ & _ & Hback).
    exists g1. split; [exact Ht|]. split; [|exact Hback].
    rewrite Hcell. reflexivity.
  - pose proof (toggle_wall_cases (init 2 3) 2 0 (init_wf 2 3)) as H.
    rewrite decide_False in H by (simpl; lia). exact H.
Defined.

(** [clear_path] turns every VISITED, PATH and EXPLORING cell into EMPTY
    and leaves walls, start, end and the two marker fields alone; it does
    not change the number of walls, and clearing twice is clearing once. *)
Theorem clear_path_keeps g :
  wf g →
  ∃ g', clear_path g = Ok g' ∧
        (∀ p, cell g' p = unmark <$> cell g p) ∧
        start_pos g' = start_pos g ∧ end_pos g' = end_pos g ∧
        get_wall_count g' = get_wall_count g ∧
        clear_path g' = Ok g'.
Proof.
  intros Hwf.
  destruct (clear_path_ok g Hwf) as (g' & Hc & Hwf' & Hr & Hcs & Hs & He & Hcell).
  exists g'. split_and!; try done.
  - rewrite !get_wall_count_ok by done. do 2 f_equal.
    unfold wall_cells. rewrite (cells_eq g g') by done. f_equal.
    apply list_filter_iff. intros p. rewrite Hcell.
    destruct (cell g p) as [[]|]; naive_solver.
  - destruct (clear_path_ok g' Hwf')
      as (g2 & -> & Hwf2 & Hr2 & Hcs2 & Hs2 & He2 & Hcell2).
    f_equal. apply grid_ext; try congruence.
    intros p. rewrite Hcell2, Hcell. by destruct (cell g p) as [[]|].
Qed.

Lemma clear_path_keeps_witness :
  ∃ g', clear_path (mkGrid 1 3 [[VISITED; WALL; START]] (Some (0, 2)) None)
          = Ok g' ∧ grid g' = [[EMPTY; WALL; START]].
Proof.
  destruct (clear_path_keeps
              (mkGrid 1 3 [[VISITED; WALL; START]] (Some (0, 2)) None))
    as (g' & Hc & _).
  { split; [reflexivity|]. repeat constructor. }
  exists g'. split; [done|].
  vm_compute in Hc. by injection Hc as <-.
Defined.

(** After [clear_walls] no cell is a wall: every WALL cell has become
    EMPTY, the other cells and the marker fields are as before, and
    [get_wall_count] answers 0. *)
Theorem clear_walls_none g :
  wf g →
  ∃ g', clear_walls g = Ok g' ∧
        (∀ p, cell g' p = unwall <$> cell g p) ∧
        start_pos g' = start_pos g ∧ end_pos g' = end_pos g ∧
        get_wall_count g' = Ok 0.
Proof.
  intros Hwf.
  destruct (clear_walls_ok g Hwf) as (g' & Hc & Hwf' & Hr & Hcs & Hs & He & Hcell).
  exists g'. split_and!; try done.
  rewrite get_wall_count_ok by done. do 2 f_equal. unfold wall_cells.
  rewrite PuzzleFacts.filter_none; [done|]. apply Forall_forall. intros p _.
  rewrite Hcell. by destruct (cell g p) as [[]|].
Qed.

Lemma clear_walls_none_witness :
  ∃ g', clear_walls (mkGrid 1 2 [[WALL; END]] None (Some (0, 1))) = Ok g' ∧
        get_wall_count g' = Ok 0.
Proof.
  destruct (clear_walls_none (mkGrid 1 2 [[WALL; END]] None (Some (0, 1))))
    as (g' & Hc & _ & _ & _ & Hn).
  { split; [reflexivity|]. repeat constructor. }
  by exists g'.
Defined.

(** [get_wall_count] returns the number of WALL cells of the grid, a number
    between 0 and [rows * cols]; toggling an EMPTY cell adds one to it and
    toggling a WALL cell takes one away. *)
Theorem get_wall_count_counts g :
  wf g →
  ∃ n, get_wall_count g = Ok n ∧
       n = Z.of_nat (length (wall_cells g)) ∧
       0 <= n <= Z.max 0 (rows g) * Z.max 0 (cols g) ∧
       ∀ row col g', in_bounds g row col = true →
         toggle_wall g row col = Ok g' →
         get_wall_count g' =
           Ok (match cell g (row, col) with
               | Some EMPTY => n + 1
               | Some WALL => n - 1
               | _ => n
               end).
Proof.
  intros Hwf. exists (Z.of_nat (length (wall_cells g))).
  split; [by apply get_wall_count_ok|]. split; [done|]. split.
  - split; [lia|]. unfold wall_cells.
    pose proof (length_filter (λ p, cell g p = Some WALL) (cells g)) as Hle.
    rewrite length_cells in Hle. nia.
  - intros row col g' Hb Ht.
    destruct (toggle_wall_in g row col Hwf Hb)
      as (g1 & Ht1 & Hwf1 & Hr1 & Hc1 & _ & _ & Hcell1).
    rewrite Ht1 in Ht. simplify_eq.
    rewrite get_wall_count_ok by done. f_equal.
    destruct (read_ok g row col Hwf Hb) as (ct & Hct & _).
    pose proof (wall_cells_update g g' (row, col) (flip_wall ct) Hr1 Hc1 Hb)
      as Hupd.
    rewrite Hct in Hupd |- *.
    assert (∀ p, cell g' p = if decide (p = (row, col))
                             then Some (flip_wall ct) else cell g p) as Hc'.
    { intros p. rewrite Hcell1.
      destruct (decide (p = (row, col))) as [->|?]; [by rewrite Hct|done]. }
    specialize (Hupd Hc').
    destruct ct; simpl in *; repeat case_decide; try done; lia.
Qed.

Lemma get_wall_count_counts_witness :
  ∃ n, get_wall_count (mkGrid 1 2 [[WALL; EMPTY]] None None) = Ok n ∧ n = 1.
Proof.
  destruct (get_wall_count_counts (mkGrid 1 2 [[WALL; EMPTY]] None None))
    as (n & Hn & Heq & _).
  { split; [reflexivity|]. repeat constructor. }
  exists n. split; [done|]. rewrite Heq. reflexivity.
Defined.

(** Whatever the grid was, after [clear_all] it is the grid the constructor
    builds: every cell reads EMPTY, [is_valid] holds exactly inside the
    bounds, there is no start or end, and no wall is counted. *)
Theorem clear_all_fresh g :
  clear_all g = init (rows g) (cols g) ∧
  start_pos (clear_all g) = None ∧ end_pos (clear_all g) = None ∧
  get_wall_count (clear_all g) = Ok 0 ∧
  ∀ row col,
    get_cell (clear_all g) row col =
      Ok (if in_bounds g row col then EMPTY else WALL) ∧
    is_valid (clear_all g) row col = Ok (in_bounds g row col).
Proof.
  split; [done|]. split; [done|]. split; [done|].
  pose proof (clear_all_wf g) as Hwf. split.
  - rewrite get_wall_count_ok by done. do 2 f_equal. unfold wall_cells.
    rewrite PuzzleFacts.filter_none; [done|]. apply Forall_forall. intros p _.
    rewrite cell_clear_all. by destruct (in_bounds g p.1 p.2).
  - intros row col. unfold get_cell, is_valid.
    change (in_bounds (clear_all g) row col) with (in_bounds g row col).
    destruct (in_bounds g row col) eqn:Hb; [|done].
    destruct (read_ok (clear_all g) row col Hwf Hb) as (ct & Hct & ->).
    rewrite cell_clear_all in Hct. simpl in Hct. rewrite Hb in Hct.
    by simplify_eq.
Qed.

(** [set_cell] with a cell type other than WALL, START and END: outside the
    grid nothing happens; inside, a START or END cell is left as it is and
    the grid is returned unchanged, and any other cell takes the new type,
    the rest of the grid staying as it was. *)
Theorem set_cell_plain g row col ct :
  reachable g → ct ≠ WALL → ct ≠ START → ct ≠ END →
  ∃ g', set_cell g row col ct = Ok g' ∧
        start_pos g' = start_pos g ∧ end_pos g' = end_pos g ∧
        (in_bounds g row col = false → g' = g) ∧
        (cell g (row, col) = Some START ∨ cell g (row, col) = Some END →
         g' = g) ∧
        ∀ p, cell g' p =
             if decide (p = (row, col) ∧ in_bounds g row col = true ∧
                        cell g p ≠ Some START ∧ cell g p ≠ Some END)
             then Some ct else cell g p.
Proof.
  intros Hr Hw Hs He. pose proof (reachable_marked g Hr) as Hm.
  destruct (in_bounds g row col) eqn:Hb.
  - destruct (set_cell_in g row col ct Hm Hb)
      as (g' & Hset & Hwf' & Hrows & Hcols & Hsp & Hep & Hcell).
    assert (start_pos g' = start_pos g) as Hsp'.
    { rewrite Hsp. by destruct ct. }
    assert (end_pos g' = end_pos g) as Hep'.
    { rewrite Hep. by destruct ct. }
    assert (∀ p, cell g' p =
              if decide (p = (row, col) ∧ true = true ∧
                         cell g p ≠ Some START ∧ cell g p ≠ Some END)
              then Some ct else cell g p) as Hcell'.
    { intros p. rewrite Hcell. unfold set_cell_array.
      destruct ct; try done; repeat case_decide; try done; naive_solver. }
    exists g'. split_and!; try done.
    intros Hor. apply grid_ext; try done; [apply Hm|].
    intros p. rewrite Hcell'. rewrite decide_False; [done|].
    intros (-> & _ & ? & ?). tauto.
  - exists g. rewrite set_cell_out by done. split_and!; try done.
    intros p. rewrite decide_False; [done|]. naive_solver.
Qed.

Lemma set_cell_plain_witness :
  let g := mkGrid 2 2 [[START; EMPTY]; [EMPTY; EMPTY]] (Some (0, 0)) None in
  set_cell g 0 0 VISITED = Ok g.
Proof.
  intros g.
  destruct (set_cell_plain g 0 0 VISITED reachable_example)
    as (g' & Hset & _ & _ & _ & Hkeep & _); [done..|].
  rewrite Hset, Hkeep; [done|]. by left.
Defined.

(** [is_valid] is [get_cell] compared with WALL: neither raises, and a
    position is valid exactly when [get_cell] returns something other than
    WALL, which excludes every position outside the grid. *)
Lemma is_valid_get_cell g row col :
  wf g →
  ∃ ct, get_cell g row col = Ok ct ∧
        is_valid g row col = Ok (bool_decide (ct ≠ WALL)) ∧
        (is_valid g row col = Ok true →
         0 <= row < rows g ∧ 0 <= col < cols g).
Proof.
  intros Hwf. unfold get_cell, is_valid.
  destruct (in_bounds g row col) eqn:Hb.
  - destruct (read_ok g row col Hwf Hb) as (ct & _ & ->).
    exists ct. split_and!; try done. intros _. by apply in_bounds_spec.
  - exists WALL. split_and!; try done.
Qed.

Lemma marked_cells g g' (f : CellType → CellType) :
  marked g → wf g' → rows g' = rows g → cols g' = cols g →
  start_pos g' = start_pos g → end_pos g' = end_pos g →
  (∀ ct, f ct = START → ct = START) → (∀ ct, f ct = END → ct = END) →
  (∀ p, cell g' p = f <$> cell g p ∨ cell g' p = cell g p) →
  marked g'.
Proof.
  intros [Hwf Hs He Hsi Hei] Hwf' Hr Hc Hsp Hep Hfs Hfe Hcell. split.
  - done.
  - intros p Hp. rewrite Hsp. apply Hs.
    destruct (Hcell p) as [Heq|Heq]; rewrite Heq in Hp; [|done].
    destruct (cell g p) as [ct|]; [|done]. simpl in Hp. simplify_eq.
    f_equal. by apply Hfs.
  - intros p Hp. rewrite Hep. apply He.
    destruct (Hcell p) as [Heq|Heq]; rewrite Heq in Hp; [|done].
    destruct (cell g p) as [ct|]; [|done]. simpl in Hp. simplify_eq.
    f_equal. by apply Hfe.
  - intros p Hp. rewrite (in_bounds_eq g g') by done. apply Hsi. congruence.
  - intros p Hp. rewrite (in_bounds_eq g g') by done. apply Hei. congruence.
Qed.

Lemma built_marked g : built g → marked g.
Proof.
  induction 1 as [r c|g row col ct g' _ IH Hset|g row col g' _ IH Hb Ht
                  |g g' _ IH Hc|g g' _ IH Hc|g _ IH].
  - apply init_marked.
  - by eapply set_cell_marked.
  - destruct (toggle_wall_in g row col (marked_wf g IH) Hb)
      as (g1 & Ht1 & Hwf1 & Hr1 & Hc1 & Hs1 & He1 & Hcell1).
    rewrite Ht1 in Ht. simplify_eq.
    apply (marked_cells g g' flip_wall); try done.
    + by intros [].
    + by intros [].
    + intros p. rewrite Hcell1. case_decide; [by left|by right].
  - destruct (clear_path_ok g (marked_wf g IH))
      as (g1 & Hc1 & Hwf1 & Hr1 & Hcs1 & Hs1 & He1 & Hcell1).
    rewrite Hc1 in Hc. simplify_eq.
    apply (marked_cells g g' unmark); try done.
    + by intros [].
    + by intros [].
    + intros p. by left.
  - destruct (clear_walls_ok g (marked_wf g IH))
      as (g1 & Hc1 & Hwf1 & Hr1 & Hcs1 & Hs1 & He1 & Hcell1).
    rewrite Hc1 in Hc. simplify_eq.
    apply (marked_cells g g' unwall); try done.
    + by intros [].
    + by intros [].
    + intros p. by left.
  - apply (init_marked (rows g) (cols g)).
Qed.

(** Whatever sequence of [set_cell], [toggle_wall] (inside the bounds),
    [clear_path], [clear_walls] and [clear_all] calls built the grid, it has
    the constructor's shape, at most one START cell and at most one END
    cell, and [start_pos] and [end_pos] name them when they exist. *)
Theorem markers_of_built g :
  built g →
  wf g ∧
  (∀ p, cell g p = Some START → start_pos g = Some p) ∧
  (∀ p, cell g p = Some END → end_pos g = Some p) ∧
  (∀ p q, cell g p = Some START → cell g q = Some START → p = q) ∧
  (∀ p q, cell g p = Some END → cell g q = Some END → p = q).
Proof.
  intros Hm%built_marked. split_and!.
  - apply Hm.
  - apply Hm.
  - apply Hm.
  - intros p q Hp Hq. apply (marked_start g Hm) in Hp, Hq. congruence.
  - intros p q Hp Hq. apply (marked_end g Hm) in Hp, Hq. congruence.
Qed.

Lemma markers_of_built_witness :
  wf (mkGrid 2 2 [[EMPTY; WALL]; [EMPTY; EMPTY]] None None).
Proof.
  apply (markers_of_built _).
  apply (built_toggle_wall (init 2 2) 0 1); [apply built_init| |];
    vm_compute; reflexivity.
Defined.

(** [get_neighbors] returns, without repetition and in the order right,
    down, left, up (then the four diagonals when [diagonal] is set), the
    positions one step away that [is_valid] accepts; so at most 4, or 8,
    of them. *)
Theorem get_neighbors_valid g row col diagonal :
  wf g →
  ∃ ns, get_neighbors g row col diagonal = Ok ns ∧
        ns = filter (λ q, validb g q = true)
               (move (row, col) <$>
                  (if diagonal then directions4 ++ directions_diag
                   else directions4)) ∧
        NoDup ns ∧
        (length ns <= if diagonal then 8 else 4)%nat ∧
        ∀ q, q ∈ ns ↔
             is_valid g q.1 q.2 = Ok true ∧ q ≠ (row, col) ∧
             Z.abs (q.1 - row) <= 1 ∧ Z.abs (q.2 - col) <= 1 ∧
             (diagonal = false → q.1 = row ∨ q.2 = col).
Proof.
  intros Hwf. unfold get_neighbors.
  rewrite collect_neighbors_ok by done. eexists. split; [done|].
  split; [done|]. simpl app.
  set (dirs := if diagonal then directions4 ++ directions_diag else directions4).
  assert (NoDup dirs) as Hnd.
  { subst dirs. destruct diagonal; unfold directions4, directions_diag; simpl;
      repeat (apply NoDup_cons; split;
                [by apply (bool_decide_unpack _)|]); apply NoDup_nil_2. }
  split; [|split].
  - apply NoDup_filter, NoDup_fmap_2; [|done].
    intros [a b] [c d]. unfold move. simpl. intros [= ]. f_equal; lia.
  - etrans; [apply length_filter|]. rewrite length_fmap. subst dirs.
    by destruct diagonal.
  - intros [qr qc]. rewrite list_elem_of_filter, list_elem_of_fmap. simpl.
    rewrite is_valid_validb by done. split.
    + intros (Hv & d & Hmove & Hd). unfold move in Hmove. simpl in Hmove.
      simplify_eq. split; [by rewrite Hv|].
      subst dirs. destruct diagonal; unfold directions4, directions_diag in Hd;
        simpl in Hd;
        repeat (apply elem_of_cons in Hd as [->|Hd]);
        try (by apply elem_of_nil in Hd); simpl;
        (split; [intros [= ]; lia|]); split_and!; try lia; try done;
        intros; lia.
    + intros ([= Hv] & Hne & Hr & Hc & Hdiag). split; [done|].
      exists (qr - row, qc - col). split.
      { unfold move. simpl. f_equal; lia. }
      assert (qr - row = -1 ∨ qr - row = 0 ∨ qr - row = 1) as Hdr by lia.
      assert (qc - col = -1 ∨ qc - col = 0 ∨ qc - col = 1) as Hdc by lia.
      assert (¬ (qr - row = 0 ∧ qc - col = 0)) as Hnz.
      { intros [??]. apply Hne. f_equal; lia. }
      subst dirs. destruct diagonal; unfold directions4, directions_diag; simpl.
      * destruct Hdr as [Hdr|[Hdr|Hdr]], Hdc as [Hdc|[Hdc|Hdc]];
          try (by destruct Hnz); rewrite Hdr, Hdc;
          repeat first [apply list_elem_of_here | apply list_elem_of_further].
      * specialize (Hdiag eq_refl).
        destruct Hdr as [Hdr|[Hdr|Hdr]], Hdc as [Hdc|[Hdc|Hdc]];
          try (by destruct Hnz); try lia; rewrite Hdr, Hdc;
          repeat first [apply list_elem_of_here | apply list_elem_of_further].
Qed.

Lemma get_neighbors_valid_witness :
  get_neighbors (init 2 2) 0 0 false = Ok [(0, 1); (1, 0)].
Proof.
  destruct (get_neighbors_valid (init 2 2) 0 0 false (init_wf 2 2))
    as (ns & -> & -> & _).
  reflexivity.
Defined.

End GridMore.
(** ** More about algorithms.py: paths, completeness and bookkeeping *)

Module SearchMore.
Import Grid GridFacts Algorithms SearchSpec SearchFacts GridMore.

(** *** The neighbour loop of bfs and dfs, once more *)

Lemma bfs_fold_shape u ns :
  ∀ st, ∃ new,
    b_queue (foldl (bfs_visit u) st ns) = b_queue st ++ new ∧
    visited (b_result (foldl (bfs_visit u) st ns)) =
      visited (b_result st) ++ new ∧
    NoDup new ∧
    (∀ w, w ∈ new ↔ w ∈ ns ∧ w ∉ b_visited st) ∧
    (∀ v, v ∈ b_visited (foldl (bfs_visit u) st ns) ↔
          v ∈ b_visited st ∨ v ∈ new) ∧
    exploring (b_result (foldl (bfs_visit u) st ns)) =
      exploring (b_result st) ∧
    path (b_result (foldl (bfs_visit u) st ns)) = path (b_result st) ∧
    path_length (b_result (foldl (bfs_visit u) st ns)) =
      path_length (b_result st).
Proof.
  induction ns as [|w ns IH]; intros st; simpl.
  - exists []. rewrite !app_nil_r. split_and!; try done.
    + apply NoDup_nil_2.
    + intros w. split; [by intros ?%elem_of_nil|]. by intros [?%elem_of_nil _].
    + intros v. split; [by left|]. by intros [?|?%elem_of_nil].
  - destruct (decide (w ∈ b_visited st)) as [Hw|Hw].
    + assert (bfs_visit u st w = st) as ->.
      { unfold bfs_visit. by rewrite decide_True. }
      destruct (IH st) as (new & Hq & Hv & Hnd & Hnew & Hvis & He & Hp & Hl).
      exists new. split_and!; try done.
      intros w'. rewrite Hnew, elem_of_cons. split; [tauto|].
      intros [[->|?] ?]; [done|tauto].
    + assert (bfs_visit u st w =
              mkBfs (b_queue st ++ [w]) ({[w]} ∪ b_visited st)
                (<[w := Some u]> (b_parent st)) (add_visited (b_result st) w)
                (b_log st ++ [Enq w])) as ->.
      { unfold bfs_visit. by rewrite decide_False. }
      destruct (IH (mkBfs (b_queue st ++ [w]) ({[w]} ∪ b_visited st)
                      (<[w := Some u]> (b_parent st))
                      (add_visited (b_result st) w) (b_log st ++ [Enq w])))
        as (new & Hq & Hv & Hnd & Hnew & Hvis & He & Hp & Hl).
      cbn [b_queue b_visited b_result add_visited visited exploring path
           path_length] in *.
      exists (w :: new). split_and!; try done.
      * by rewrite Hq, <- app_assoc.
      * by rewrite Hv, <- app_assoc.
      * apply NoDup_cons. split; [|done]. rewrite Hnew.
        intros [_ Hn]. apply Hn, elem_of_union_l, elem_of_singleton. done.
      * intros w'. rewrite !elem_of_cons, Hnew, not_elem_of_union,
          not_elem_of_singleton.
        destruct (decide (w' = w)) as [->|?]; [tauto|]. tauto.
      * intros v. rewrite Hvis, elem_of_union, elem_of_singleton, elem_of_cons.
        tauto.
Qed.

Lemma more_inv_init g s e : more_inv g s e (bfs_init s).
Proof.
  unfold bfs_init. split; cbn [b_queue b_visited b_result new_result
    exploring visited path path_length]; try done.
  - apply NoDup_singleton.
  - intros v ->%list_elem_of_singleton. by apply elem_of_singleton.
  - apply NoDup_nil_2.
  - intros v. split; [by intros ?%elem_of_nil|].
    intros [->%elem_of_singleton Hn]. destruct Hn. by left.
  - by intros v ?%elem_of_nil.
  - intros v. rewrite elem_of_singleton. split; [by left|].
    by intros [?|?%elem_of_nil].
  - apply not_elem_of_nil.
Qed.

Lemma more_inv_step g s e st u rest :
  more_inv g s e st → b_queue st ≡ₚ u :: rest → u ≠ e →
  more_inv g s e
    (foldl (bfs_visit u)
       (mkBfs rest (b_visited st) (b_parent st)
          (add_exploring (b_result st) u) (b_log st ++ [Deq u]))
       (nbrs g u)).
Proof.
  intros [Hqnd Hfr Hend Hex Hcl Hvis Hs Hhead [Hpath Hlen]] Hq Hne.
  destruct (bfs_fold_shape u (nbrs g u)
              (mkBfs rest (b_visited st) (b_parent st)
                 (add_exploring (b_result st) u) (b_log st ++ [Deq u])))
    as (new & Hq' & Hv' & Hnd' & Hnew & Hvis' & He' & Hp' & Hl').
  cbn [b_queue b_visited b_result add_exploring visited exploring path
       path_length] in Hq', Hv', Hnew, Hvis', He', Hp', Hl'.
  assert (NoDup (u :: rest)) as [Hu Hrest]%NoDup_cons by by rewrite <- Hq.
  assert (∀ v, v ∈ b_queue st ↔ v = u ∨ v ∈ rest) as Hqm.
  { intros v. by rewrite Hq, elem_of_cons. }
  assert (u ∈ b_visited st) as Huv by (apply Hfr, Hqm; by left).
  assert (∀ w, w ∈ new → w ∉ b_visited st) as Hfresh.
  { intros w Hw. by apply Hnew in Hw as [_ ?]. }
  split.
  - rewrite Hq'. apply NoDup_app. split; [done|]. split; [|done].
    intros v Hv Hvn. apply (Hfresh v Hvn), Hfr, Hqm. by right.
  - intros v. rewrite Hq', Hvis', elem_of_app. intros [Hv|Hv]; [|by right].
    left. apply Hfr, Hqm. by right.
  - rewrite He'. apply NoDup_app. split; [done|].
    split; [|apply NoDup_singleton].
    intros v Hv ->%list_elem_of_singleton. apply Hex in Hv as [_ Hn].
    apply Hn, Hqm. by left.
  - intros v. rewrite He', Hq', Hvis', !elem_of_app, list_elem_of_singleton.
    rewrite Hex, Hqm. split.
    + intros [[Hv Hn] | ->].
      * split; [by left|]. intros [?|Hw]; [tauto|]. by apply Hfresh in Hw.
      * split; [by left|]. intros [?|Hw]; [done|]. by apply Hfresh in Hw.
    + intros [[Hv|Hv] Hn]; [|tauto].
      destruct (decide (v = u)) as [->|?]; [by right|]. left. tauto.
  - intros v. rewrite He', elem_of_app, list_elem_of_singleton.
    intros [Hv | ->].
    + destruct (Hcl v Hv) as [? Hw]. split; [done|].
      intros w Hin. apply Hvis'. left. by apply Hw.
    + split; [done|]. intros w Hin. apply Hvis'.
      destruct (decide (w ∈ b_visited st)); [by left|].
      right. by apply Hnew.
  - intros v. rewrite Hvis', Hv', Hvis, elem_of_app. tauto.
  - rewrite Hv', elem_of_app. intros [?|Hin]; [done|].
    apply (Hfresh s Hin), Hvis. by left.
  - rewrite He'. destruct (exploring (b_result st)) as [|x l]; simpl; [|done].
    rewrite Hhead in Hq. by apply Permutation_singleton_l in Hq as [= -> _].
  - by rewrite Hp', Hl'.
Qed.

Lemma basic_inv_valid g s st dep v :
  basic_inv g s st dep → v ∈ b_visited st → validb g v = true.
Proof.
  intros Hinv Hv. rewrite <- (bi_dom_dep _ _ _ _ Hinv) in Hv.
  apply elem_of_dom in Hv as [dv Hdv].
  by destruct (bi_chain _ _ _ _ Hinv v dv Hdv) as (_ & ? & _).
Qed.

Lemma more_inv_size g s e st :
  more_inv g s e st → NoDup (visited (b_result st)) →
  size (b_visited st) = S (length (visited (b_result st))).
Proof.
  intros Hmi Hnd.
  assert (b_visited st = {[s]} ∪ list_to_set (visited (b_result st))) as ->.
  { apply set_eq. intros v.
    rewrite (mi_visited _ _ _ _ Hmi), elem_of_union, elem_of_singleton,
      elem_of_list_to_set. done. }
  rewrite size_union.
  - by rewrite size_singleton, size_list_to_set.
  - intros v ->%elem_of_singleton Hv%elem_of_list_to_set.
    by apply (mi_start _ _ _ _ Hmi).
Qed.

(** With nothing waiting, every cell a walk from the start reaches has been
    taken off the frontier. *)
Lemma more_inv_closed g s e st v n :
  more_inv g s e st → b_queue st = [] → walk g s v n →
  v ∈ exploring (b_result st).
Proof.
  intros Hmi Hq. induction 1 as [Hs|v w n Hwalk IH Hadj Hw].
  - apply (mi_exploring _ _ _ _ Hmi). rewrite Hq. split; [|apply not_elem_of_nil].
    apply (mi_visited _ _ _ _ Hmi). by left.
  - apply (mi_exploring _ _ _ _ Hmi). rewrite Hq. split; [|apply not_elem_of_nil].
    destruct (mi_closed _ _ _ _ Hmi v IH) as [_ Hn]. apply Hn.
    by apply elem_of_nbrs.
Qed.

Lemma search_post_none g s e st dep n :
  wf g → basic_inv g s st dep → more_inv g s e st → b_queue st = [] →
  search_post g s e (set_nodes_explored (b_result st) n).
Proof.
  intros Hwf Hinv Hmi Hq.
  pose proof (bi_found _ _ _ _ Hinv) as Hfound.
  destruct (mi_path _ _ _ _ Hmi) as [Hpath Hlen].
  split; cbn [set_nodes_explored found path path_length exploring visited].
  - by rewrite Hfound.
  - intros _. split_and!; try done. intros l Hl.
    destruct (path_walk g s e l Hwf Hl) as (m & _ & Hwalk).
    pose proof (more_inv_closed g s e st e m Hmi Hq Hwalk) as He.
    by destruct (mi_closed _ _ _ _ Hmi e He).
  - apply Hmi.
  - pose proof (mi_head _ _ _ _ Hmi) as Hh.
    destruct (exploring (b_result st)) as [|x l]; [congruence|]. by subst.
  - by rewrite Hfound.
  - intros v Hv. apply (mi_exploring _ _ _ _ Hmi) in Hv as [Hv _].
    split; [by eapply basic_inv_valid|]. by apply (mi_visited _ _ _ _ Hmi).
  - intros v Hv. split.
    + eapply basic_inv_valid; [done|]. apply (mi_visited _ _ _ _ Hmi). by right.
    + intros ->. by apply (mi_start _ _ _ _ Hmi).
Qed.

Lemma search_post_found g s e st dep rest p n :
  wf g → basic_inv g s st dep → more_inv g s e st →
  b_queue st ≡ₚ e :: rest →
  path_between g s e p →
  search_post g s e
    (mkResult p (visited (b_result st)) (exploring (b_result st) ++ [e]) true
       (edge_count p) n).
Proof.
  intros Hwf Hinv Hmi Hq Hp.
  assert (e ∈ b_queue st) as Heq by (rewrite Hq; by left).
  split; cbn [found path path_length exploring visited]; try done.
  - apply NoDup_app. split; [apply Hmi|]. split; [|apply NoDup_singleton].
    intros v Hv ->%list_elem_of_singleton.
    by apply (mi_exploring _ _ _ _ Hmi) in Hv as [_ ?].
  - pose proof (mi_head _ _ _ _ Hmi) as Hh.
    destruct (exploring (b_result st)) as [|x l]; simpl; [|by subst].
    rewrite Hh in Hq. by apply Permutation_singleton_l in Hq as [= -> _].
  - intros _. by rewrite last_snoc.
  - intros v. rewrite elem_of_app, list_elem_of_singleton.
    intros [Hv | ->].
    + apply (mi_exploring _ _ _ _ Hmi) in Hv as [Hv _].
      split; [by eapply basic_inv_valid|]. by apply (mi_visited _ _ _ _ Hmi).
    + apply (mi_frontier _ _ _ _ Hmi) in Heq.
      split; [by eapply basic_inv_valid|]. by apply (mi_visited _ _ _ _ Hmi).
  - intros v Hv. split.
    + eapply basic_inv_valid; [done|]. apply (mi_visited _ _ _ _ Hmi). by right.
    + intros ->. by apply (mi_start _ _ _ _ Hmi).
Qed.

Lemma bfs_loop_more g s e :
  wf g →
  ∀ fuel st dep,
    basic_inv g s st dep → more_inv g s e st →
    (bfs_measure g st < fuel)%nat →
    ∃ r log, bfs_loop fuel g e st = Ok (r, log) ∧ search_post g s e r ∧
             nodes_explored r = Z.of_nat (length (visited r)) + 1.
Proof.
  intros Hwf. induction fuel as [|fuel IH]; intros st dep Hinv Hmi Hm; [lia|].
  simpl. destruct (b_queue st) as [|u rest] eqn:Hq.
  - eexists _, _. split; [done|]. split; [by eapply search_post_none|].
    cbn [set_nodes_explored nodes_explored visited].
    rewrite (more_inv_size g s e st Hmi (bi_rvisited_nodup _ _ _ _ Hinv)). lia.
  - assert (∀ v, v ∈ rest → v ∈ b_queue st) as Hrest.
    { intros v Hv. rewrite Hq. by right. }
    assert (u ∈ dom dep) as Hud.
    { rewrite (bi_dom_dep _ _ _ _ Hinv). apply (bi_frontier _ _ _ _ Hinv).
      rewrite Hq. by left. }
    apply elem_of_dom in Hud as [du Hu].
    destruct (decide (u = e)) as [->|Hne].
    + destruct (finish_found_ok g s (b_parent st) dep e du
                  (add_exploring (b_result st) e) (size (b_visited st)))
        as (p & -> & Hp & Hlen); try done.
      { apply (bi_chain _ _ _ _ Hinv). }
      { rewrite (size_dom_parent g s st dep Hinv).
        by apply (bi_depth _ _ _ _ Hinv e). }
      simpl. eexists _, _. split; [done|]. rewrite <- Hlen. split.
      * eapply search_post_found; try done. by rewrite Hq.
      * cbn [nodes_explored visited].
        rewrite (more_inv_size g s e st Hmi (bi_rvisited_nodup _ _ _ _ Hinv)).
        lia.
    + rewrite neighbors_of_ok by done. simpl.
      pose proof (basic_inv_pop g s st dep u rest Hinv Hrest) as Hpop.
      destruct (basic_inv_fold g s u du (nbrs g u)
                  ltac:(by intros w Hw; apply elem_of_nbrs)
                  _ dep Hpop Hu)
        as (dep' & new & Hinv' & Hsub & Hq' & Hvis & Hnew & Hall & _ & Hmeas).
      cbn [b_queue b_visited] in Hq', Hvis, Hnew, Hmeas.
      eapply IH; try done.
      * apply more_inv_step; [done|by rewrite Hq|done].
      * unfold bfs_measure in *. rewrite Hq'. rewrite Hq in Hm.
        rewrite length_app. simpl in Hm. lia.
Qed.

Lemma dfs_loop_more g s e :
  wf g →
  ∀ fuel st dep,
    basic_inv g s st dep → more_inv g s e st →
    (bfs_measure g st < fuel)%nat →
    ∃ r log, dfs_loop fuel g e st = Ok (r, log) ∧ search_post g s e r ∧
             nodes_explored r = Z.of_nat (length (visited r)) + 1.
Proof.
  intros Hwf. induction fuel as [|fuel IH]; intros st dep Hinv Hmi Hm; [lia|].
  simpl. destruct (py_pop (b_queue st)) as [[u rest]|] eqn:Hq.
  - apply py_pop_Some in Hq.
    assert (b_queue st ≡ₚ u :: rest) as Hperm.
    { rewrite Hq. by rewrite <- Permutation_cons_append. }
    assert (∀ v, v ∈ rest → v ∈ b_queue st) as Hrest.
    { intros v Hv. rewrite Hq. apply elem_of_app. by left. }
    assert (u ∈ dom dep) as Hud.
    { rewrite (bi_dom_dep _ _ _ _ Hinv). apply (bi_frontier _ _ _ _ Hinv).
      rewrite Hq. apply elem_of_app. right. by left. }
    apply elem_of_dom in Hud as [du Hu].
    destruct (decide (u = e)) as [->|Hne].
    + destruct (finish_found_ok g s (b_parent st) dep e du
                  (add_exploring (b_result st) e) (size (b_visited st)))
        as (p & -> & Hp & Hlen); try done.
      { apply (bi_chain _ _ _ _ Hinv). }
      { rewrite (size_dom_parent g s st dep Hinv).
        by apply (bi_depth _ _ _ _ Hinv e). }
      simpl. eexists _, _. split; [done|]. rewrite <- Hlen. split.
      * by eapply search_post_found.
      * cbn [nodes_explored visited].
        rewrite (more_inv_size g s e st Hmi (bi_rvisited_nodup _ _ _ _ Hinv)).
        lia.
    + rewrite neighbors_of_ok by done. simpl.
      pose proof (basic_inv_pop g s st dep u rest Hinv Hrest) as Hpop.
      destruct (basic_inv_fold g s u du (nbrs g u)
                  ltac:(by intros w Hw; apply elem_of_nbrs)
                  _ dep Hpop Hu)
        as (dep' & new & Hinv' & Hsub & Hq' & Hvis & Hnew & Hall & _ & Hmeas).
      cbn [b_queue b_visited] in Hq', Hvis, Hnew, Hmeas.
      eapply IH; try done.
      * by apply more_inv_step.
      * unfold bfs_measure in *. rewrite Hq'. rewrite Hq in Hm.
        rewrite length_app in *. simpl in Hm. lia.
  - apply py_pop_None in Hq.
    eexists _, _. split; [done|]. split; [by eapply search_post_none|].
    cbn [set_nodes_explored nodes_explored visited].
    rewrite (more_inv_size g s e st Hmi (bi_rvisited_nodup _ _ _ _ Hinv)). lia.
Qed.

(** A search from or to a cell that [is_valid] rejects. *)
Lemma search_post_invalid g s e :
  wf g → validb g s && validb g e = false →
  ∀ l, ¬ path_between g s e l.
Proof.
  intros Hwf Hbad l (Hpath & Hhead & Hlast).
  destruct (path_walk g s e l Hwf (conj Hpath (conj Hhead Hlast)))
    as (n & _ & Hwalk).
  assert (validb g s = true ∧ validb g e = true) as [Hs He].
  { clear -Hwalk. induction Hwalk as [?|v w n Hw [IH1 IH2] _ ?]; [done|].
    by split. }
  by rewrite Hs, He in Hbad.
Qed.

Lemma bfs_more g s e :
  wf g → validb g s = true → validb g e = true →
  ∃ r, bfs g s e = Ok r ∧ search_post g s e r ∧
       nodes_explored r = Z.of_nat (length (visited r)) + 1.
Proof.
  intros Hwf Hs He. unfold bfs, bfs_trace.
  rewrite endpoints_invalid_ok by done.
  rewrite Hs, He. simpl negb. cbn [mbind res_bind].
  destruct (bfs_loop_more g s e Hwf (S (2 * area g)) (bfs_init s) {[s := 0]})
    as (r & log & -> & Hpost & Hn).
  - by apply basic_inv_init.
  - apply more_inv_init.
  - unfold bfs_measure, bfs_init. cbn [b_queue b_visited].
    pose proof (size_valid_cells g).
    assert (size (valid_cells g ∖ {[s]}) < size (valid_cells g))%nat.
    { apply subset_size. apply elem_of_valid_cells in Hs. set_solver. }
    simpl. lia.
  - by exists r.
Qed.

Lemma dfs_more g s e :
  wf g → validb g s = true → validb g e = true →
  ∃ r, dfs g s e = Ok r ∧ search_post g s e r ∧
       nodes_explored r = Z.of_nat (length (visited r)) + 1.
Proof.
  intros Hwf Hs He. unfold dfs, dfs_trace.
  rewrite endpoints_invalid_ok by done.
  rewrite Hs, He. simpl negb. cbn [mbind res_bind].
  destruct (dfs_loop_more g s e Hwf (S (2 * area g)) (bfs_init s) {[s := 0]})
    as (r & log & -> & Hpost & Hn).
  - by apply basic_inv_init.
  - apply more_inv_init.
  - unfold bfs_measure, bfs_init. cbn [b_queue b_visited].
    pose proof (size_valid_cells g).
    assert (size (valid_cells g ∖ {[s]}) < size (valid_cells g))%nat.
    { apply subset_size. apply elem_of_valid_cells in Hs. set_solver. }
    simpl. lia.
  - by exists r.
Qed.

(** *** The heap loops, once more *)

Section BestFirstMore.
Variable h : pos → Z.
Variable from_key : bool.
Variable g : Grid.
Variable s : pos.
Hypothesis g_wf : wf g.
Hypothesis h_nonneg : ∀ p, 0 <= h p.
Hypothesis h_consistent : ∀ p q, adjacent4 p q → h p <= 1 + h q.
Hypothesis h_from_key : from_key = true → ∀ p, h p = 0.

Lemma bf_visit_shape key u st w st1 :
  bf_visit h from_key key u st w = Ok st1 →
  st1 = st ∨
  (w ∉ a_visited_set st ∧
   (∃ f, a_open_set st1 = a_open_set st ++ [(f, w)]) ∧
   a_visited_set st1 = a_visited_set st ∧
   a_result st1 = add_visited_once (a_result st) w).
Proof.
  unfold bf_visit. case_decide as Hw; [intros [= <-]; by left|].
  destruct (if from_key then Some key else a_g_score st !! u) as [gc|];
    [|done].
  destruct (match a_g_score st !! w with
            | Some g_neighbor => gc + 1 <? g_neighbor
            | None => true
            end); intros [= <-]; [|by left].
  right. cbn [a_open_set a_visited_set a_result]. split; [done|].
  split; [by eexists|]. done.
Qed.

Lemma add_visited_once_fields r w :
  exploring (add_visited_once r w) = exploring r ∧
  path (add_visited_once r w) = path r ∧
  path_length (add_visited_once r w) = path_length r ∧
  (∀ v, v ∈ visited (add_visited_once r w) ↔ v ∈ visited r ∨ v = w).
Proof.
  unfold add_visited_once. case_decide as Hw.
  - split_and!; try done. intros v. split; [by left|]. by intros [?| ->].
  - unfold add_visited. cbn [exploring path path_length visited].
    split_and!; try done. intros v.
    by rewrite elem_of_app, list_elem_of_singleton.
Qed.

Lemma bf_fold_shape key u ns :
  ∀ st st',
    foldM (bf_visit h from_key key u) st ns = Ok st' →
    a_visited_set st' = a_visited_set st ∧
    exploring (a_result st') = exploring (a_result st) ∧
    path (a_result st') = path (a_result st) ∧
    path_length (a_result st') = path_length (a_result st) ∧
    (∀ v, v ∈ visited (a_result st) → v ∈ visited (a_result st')) ∧
    (∀ x, x ∈ a_open_set st' →
          x ∈ a_open_set st ∨ x.2 ∈ visited (a_result st')) ∧
    (∀ v, v ∈ visited (a_result st') →
          v ∈ visited (a_result st) ∨ (v ∈ ns ∧ v ∉ a_visited_set st)).
Proof.
  induction ns as [|w ns IH]; intros st st' Hfold; simpl in Hfold.
  - simplify_eq. split_and!; try done; intros; by left.
  - destruct (bf_visit h from_key key u st w) as [st1| |] eqn:Hv;
      simpl in Hfold; [|done..].
    destruct (IH st1 st' Hfold) as (Hvs & Hex & Hp & Hl & Hmono & Hop & Hvis).
    destruct (bf_visit_shape key u st w st1 Hv)
      as [->|(Hw & (f & Hopen) & Hvs1 & Hr1)].
    + split_and!; try done. intros v Hin.
      destruct (Hvis v Hin) as [?|[??]]; [by left|]. right. split; [by right|done].
    + destruct (add_visited_once_fields (a_result st) w)
        as (Hex1 & Hp1 & Hl1 & Hvis1).
      rewrite Hr1 in *. split_and!; try congruence.
      * intros v Hin. apply Hmono, Hvis1. by left.
      * intros x Hx. destruct (Hop x Hx) as [Hin|?]; [|by right].
        rewrite Hopen in Hin. apply elem_of_app in Hin as [?|Hin]; [by left|].
        apply list_elem_of_singleton in Hin as ->. right. simpl.
        apply Hmono, Hvis1. by right.
      * intros v Hin. destruct (Hvis v Hin) as [Hv1|[??]].
        -- apply Hvis1 in Hv1 as [?| ->]; [by left|]. right.
           split; [by left|done].
        -- right. split; [by right|]. congruence.
Qed.

Lemma bf_more_init e f :
  bf_more g s e
    (mkAstar [(0, s)] {[s := None]} {[s := 0]} f ∅ new_result [Enq s]).
Proof.
  split; cbn [a_open_set a_visited_set a_result new_result exploring visited
              path path_length]; try done.
  - apply NoDup_nil_2.
  - by intros x ->%list_elem_of_singleton.
  - intros x ->%list_elem_of_singleton. by left.
  - by intros v ?%elem_of_nil.
  - by intros v ?%elem_of_nil.
Qed.

Lemma bf_inv_valid st cur v :
  bf_inv h g s cur [] st → v ∈ a_visited_set st → validb g v = true.
Proof.
  intros Hinv Hv. apply (fi_closed_dom _ _ _ _ _ _ Hinv) in Hv.
  apply elem_of_dom in Hv as [gv Hgv].
  by destruct (fi_chain _ _ _ _ _ _ Hinv v gv Hgv) as (_ & ? & _).
Qed.

Lemma bf_size_closed st cur pending :
  bf_inv h g s cur pending st → NoDup (exploring (a_result st)) →
  size (a_visited_set st) = length (exploring (a_result st)).
Proof.
  intros Hinv Hnd.
  assert (a_visited_set st = list_to_set (exploring (a_result st))) as ->.
  { apply set_eq. intros v.
    by rewrite elem_of_list_to_set, (fi_exploring _ _ _ _ _ _ Hinv). }
  by apply size_list_to_set.
Qed.

Lemma bf_loop_more e :
  ∀ fuel st cur,
    bf_inv h g s cur [] st → bf_more g s e st →
    (bf_measure g st < fuel)%nat →
    ∃ r log, bf_loop h from_key fuel g e st = Ok (r, log) ∧
             search_post g s e r ∧
             nodes_explored r = Z.of_nat (length (exploring r)).
Proof.
  induction fuel as [|fuel IH]; intros st cur Hinv Hmo Hm; [lia|].
  simpl. destruct (heappop (a_open_set st)) as [[[key u] rest]|] eqn:Hpop.
  2:{ apply heappop_None in Hpop.
      pose proof (fi_found _ _ _ _ _ _ Hinv) as Hfound.
      destruct (bm_path _ _ _ _ Hmo) as [Hpath Hlen].
      eexists _, _. split; [done|]. split.
      - split; cbn [set_nodes_explored found path path_length exploring
                    visited].
        + by rewrite Hfound.
        + intros _. split_and!; try done. intros l Hl.
          destruct (path_walk g s e l g_wf Hl) as (n & _ & Hwalk).
          destruct (bf_walk_bound h g s h_consistent st cur e n Hinv Hwalk)
            as [He|(y & gy & Hy & Hgy & _)].
          * by apply (bm_closed_ne _ _ _ _ Hmo) in He.
          * destruct (fi_open_has _ _ _ _ _ _ Hinv y gy Hgy Hy) as (f & Hf & _).
            rewrite Hpop in Hf. by apply elem_of_nil in Hf.
        + apply Hmo.
        + pose proof (bm_head _ _ _ _ Hmo) as Hh.
          destruct (exploring (a_result st)) as [|x l] eqn:Hex; [|by subst].
          exfalso.
          assert (s ∉ a_visited_set st) as Hs.
          { rewrite <- (fi_exploring _ _ _ _ _ _ Hinv), Hex.
            apply not_elem_of_nil. }
          destruct (fi_open_has _ _ _ _ _ _ Hinv s 0
                      (fi_start _ _ _ _ _ _ Hinv) Hs) as (f & Hf & _).
          rewrite Hpop in Hf. by apply elem_of_nil in Hf.
        + by rewrite Hfound.
        + intros v Hv. split; [|by apply (bm_explored _ _ _ _ Hmo)].
          eapply bf_inv_valid; [done|].
          by apply (fi_exploring _ _ _ _ _ _ Hinv).
        + apply Hmo.
      - cbn [set_nodes_explored nodes_explored exploring]. f_equal.
        eapply bf_size_closed; [done|apply Hmo]. }
  pose proof Hpop as Hpop'. apply heappop_Some in Hpop' as [Hperm Hmin].
  assert (length (a_open_set st) = S (length rest)) as Hlen.
  { by rewrite Hperm. }
  assert (∀ x, x ∈ rest → x ∈ a_open_set st) as Hrest.
  { intros x Hx. rewrite Hperm. by right. }
  assert ((key, u) ∈ a_open_set st) as Hin.
  { rewrite Hperm. by left. }
  destruct (decide (u ∈ a_visited_set st)) as [Hu|Hu].
  { eapply (IH _ cur); [by eapply bf_inv_stale| |].
    - destruct Hmo as [Hne Hnd Hh Hop Hvis Hexp Hp].
      split; cbn [a_open_set a_visited_set a_result]; try done.
      + destruct (exploring (a_result st)); [|done].
        intros x Hx. by apply Hh, Hrest.
      + intros x Hx. by apply Hop, Hrest.
    - unfold bf_measure in *. cbn [a_open_set a_visited_set]. lia. }
  destruct (fi_open_valid _ _ _ _ _ _ Hinv key u Hin)
    as (Hvalid & gu & Hgu & _).
  pose proof (bf_inv_close h g s h_consistent st cur key u rest gu
                Hinv Hpop Hu Hgu) as Hinv1.
  assert (u ∉ exploring (a_result st)) as Hue.
  { by rewrite (fi_exploring _ _ _ _ _ _ Hinv). }
  assert (NoDup (exploring (a_result st) ++ [u])) as Hnd1.
  { apply NoDup_app. split; [apply Hmo|]. split; [|apply NoDup_singleton].
    by intros v Hv ->%list_elem_of_singleton. }
  assert (head (exploring (a_result st) ++ [u]) = Some s) as Hhead1.
  { pose proof (bm_head _ _ _ _ Hmo) as Hh.
    destruct (exploring (a_result st)) as [|x l]; simpl; [|by subst].
    f_equal. apply (Hh (key, u) Hin). }
  assert (u = s ∨ u ∈ visited (a_result st)) as Hus.
  { apply (bm_open _ _ _ _ Hmo (key, u) Hin). }
  destruct (decide (u = e)) as [->|Hne].
  - destruct (finish_found_ok g s (a_came_from st) (a_g_score st) e gu
                (add_exploring (a_result st) e)
                (size ({[e]} ∪ a_visited_set st)))
      as (p & -> & Hp & Hplen); try done.
    { apply (fi_chain _ _ _ _ _ _ Hinv). }
    { rewrite <- size_dom, (fi_dom_came _ _ _ _ _ _ Hinv), size_dom.
      by apply (fi_depth _ _ _ _ _ _ Hinv e). }
    simpl. eexists _, _. split; [done|]. split.
    + split; cbn [found path path_length exploring visited]; try done.
      * intros _. by rewrite last_snoc.
      * intros v. rewrite elem_of_app, list_elem_of_singleton.
        intros [Hv | ->]; [|done].
        split; [|by apply (bm_explored _ _ _ _ Hmo)].
        eapply bf_inv_valid; [done|].
        by apply (fi_exploring _ _ _ _ _ _ Hinv).
      * apply Hmo.
    + cbn [nodes_explored exploring]. f_equal.
      rewrite size_union, size_singleton by set_solver.
      rewrite (bf_size_closed st cur [] Hinv (bm_exploring_nodup _ _ _ _ Hmo)).
      rewrite length_app. simpl. lia.
  - rewrite neighbors_of_ok by done. cbn [mbind res_bind].
    destruct (bf_visit_fold h from_key g s g_wf h_nonneg h_consistent
                h_from_key key u gu (nbrs g u)
                (bf_pop_key h from_key g s h_from_key st cur key u rest gu
                   Hinv Hpop Hu Hgu)
                ltac:(by intros w Hw; apply elem_of_nbrs) _ Hinv1)
      as (st' & Hfold & Hinv' & Hvis' & Hlen'); cbn [a_visited_set a_g_score].
    { by apply elem_of_union_l, elem_of_singleton. }
    { done. }
    rewrite Hfold.
    destruct (bf_fold_shape key u (nbrs g u) _ st' Hfold)
      as (_ & Hex' & Hp' & Hl' & Hmono & Hop' & Hvs').
    cbn [a_open_set a_visited_set a_result add_exploring exploring visited
         path path_length] in Hlen', Hvis', Hex', Hp', Hl', Hmono, Hop', Hvs'.
    eapply (IH _ u); [done| |].
    + destruct Hmo as [Hcne Hnd Hh Hop Hvis Hexp [Hpath Hplen]].
      split.
      * intros v. rewrite Hvis', elem_of_union, elem_of_singleton.
        intros [->|Hv]; [done|]. by apply Hcne.
      * by rewrite Hex'.
      * rewrite Hex'. destruct (exploring (a_result st) ++ [u]) as [|x l];
          simpl in Hhead1; by simplify_eq.
      * intros x Hx. destruct (Hop' x Hx) as [Hx'|?]; [|by right].
        destruct (Hop x (Hrest x Hx')) as [?|?]; [by left|].
        right. by apply Hmono.
      * intros v Hv. destruct (Hvs' v Hv) as [Hv'|[Hn Hnc]]; [by apply Hvis|].
        apply elem_of_nbrs in Hn as [_ ?]. split; [done|]. intros ->.
        apply Hnc. apply (fi_exploring _ _ _ _ _ _ Hinv1).
        cbn [a_result add_exploring exploring].
        destruct (exploring (a_result st) ++ [u]) as [|x l] eqn:Hexu;
          simpl in Hhead1; simplify_eq. by left.
      * intros v. rewrite Hex', elem_of_app, list_elem_of_singleton.
        intros [Hv | ->].
        -- destruct (Hexp v Hv) as [?|?]; [by left|]. right. by apply Hmono.
        -- destruct Hus as [?|?]; [by left|]. right. by apply Hmono.
      * by rewrite Hp', Hl'.
    + unfold bf_measure in *. rewrite Hvis'.
      pose proof (length_nbrs g u).
      pose proof (size_difference_insert (valid_cells g) (a_visited_set st) u)
        as Hsz.
      rewrite elem_of_valid_cells in Hsz. specialize (Hsz Hvalid Hu). lia.
Qed.

End BestFirstMore.

Lemma astar_more g s e :
  wf g → validb g s = true → validb g e = true →
  ∃ r, astar g s e = Ok r ∧ search_post g s e r ∧
       nodes_explored r = Z.of_nat (length (exploring r)).
Proof.
  intros Hwf Hs He. unfold astar, astar_trace.
  rewrite endpoints_invalid_ok by done.
  rewrite Hs, He. simpl negb. cbn [mbind res_bind].
  rewrite astar_loop_bf.
  destruct (bf_loop_more (manhattan_to e) false g s Hwf
              (manhattan_nonneg e) (manhattan_consistent e)
              ltac:(done) e (4 * area g + 2) (astar_init s e) s)
    as (r & log & -> & Hpost & Hn).
  - by apply bf_inv_init; [apply manhattan_nonneg|].
  - apply bf_more_init.
  - by apply bf_measure_init.
  - by exists r.
Qed.

Lemma dijkstra_more g s e :
  wf g → validb g s = true → validb g e = true →
  ∃ r, dijkstra g s e = Ok r ∧ search_post g s e r ∧
       nodes_explored r = Z.of_nat (length (exploring r)).
Proof.
  intros Hwf Hs He. unfold dijkstra, dijkstra_trace.
  rewrite endpoints_invalid_ok by done.
  rewrite Hs, He. simpl negb. cbn [mbind res_bind].
  rewrite (dijkstra_loop_bf g e _ _ ∅).
  destruct (bf_loop_more zero_heuristic true g s Hwf
              ltac:(done) ltac:(intros p q _; unfold zero_heuristic; lia)
              ltac:(done) e (4 * area g + 2)
              (dijkstra_as_bf (dijkstra_init s) ∅) s)
    as (r & log & -> & Hpost & Hn).
  - by apply bf_inv_init.
  - apply bf_more_init.
  - by apply bf_measure_init.
  - by exists r.
Qed.

Lemma searches_cases (P : (Grid → pos → pos → res PathfindingResult) → Prop) :
  P bfs → P dfs → P astar → P dijkstra → ∀ alg, alg ∈ searches → P alg.
Proof.
  intros ???? alg Hin. unfold searches in Hin.
  repeat (apply elem_of_cons in Hin as [->|Hin]; [done|]).
  by apply elem_of_nil in Hin.
Qed.

Lemma search_valid alg g s e :
  alg ∈ searches → wf g → validb g s = true → validb g e = true →
  ∃ r, alg g s e = Ok r ∧ search_post g s e r.
Proof.
  intros Hin Hwf Hs He. revert alg Hin. apply searches_cases.
  - destruct (bfs_more g s e) as (r & ? & ? & _); eauto.
  - destruct (dfs_more g s e) as (r & ? & ? & _); eauto.
  - destruct (astar_more g s e) as (r & ? & ? & _); eauto.
  - destruct (dijkstra_more g s e) as (r & ? & ? & _); eauto.
Qed.

Lemma search_invalid alg g s e :
  alg ∈ searches → wf g → validb g s && validb g e = false →
  alg g s e = Ok new_result.
Proof.
  intros Hin Hwf Hbad.
  destruct (traces_invalid g s e Hwf Hbad) as (Hb & Hd & Ha & Hj).
  revert alg Hin. apply searches_cases.
  - unfold bfs. by rewrite Hb.
  - unfold dfs. by rewrite Hd.
  - unfold astar. by rewrite Ha.
  - unfold dijkstra. by rewrite Hj.
Qed.

(** Every search returns a result, and a result with [found] set carries a
    path: a sequence of cells that [is_valid] accepts, from the start to
    the end, each one move from the one before, [path_length] being the
    number of its moves. *)
Theorem search_path_valid alg g start end_ :
  alg ∈ searches → wf g →
  ∃ r, alg g start end_ = Ok r ∧
       (found r = true →
        path_between g start end_ (path r) ∧
        path_length r = Z.of_nat (length (path r)) - 1).
Proof.
  intros Hin Hwf.
  destruct (validb g start && validb g end_) eqn:Hv.
  - apply andb_true_iff in Hv as [Hs He].
    destruct (search_valid alg g start end_ Hin Hwf Hs He) as (r & Hr & Hpost).
    exists r. split; [done|]. apply Hpost.
  - exists new_result. split; [by apply search_invalid|]. done.
Qed.

Lemma search_path_valid_witness :
  ∃ r, dfs (init 2 2) (0, 0) (1, 1) = Ok r ∧
       (found r = true →
        path_between (init 2 2) (0, 0) (1, 1) (path r) ∧
        path_length r = Z.of_nat (length (path r)) - 1).
Proof.
  apply (search_path_valid dfs (init 2 2) (0, 0) (1, 1)).
  - unfold searches. apply list_elem_of_further, list_elem_of_here.
  - apply init_wf.
Defined.

(** A search reports [found] exactly when the grid has a path from the
    start to the end; without one it returns an empty path of length 0. *)
Theorem search_complete alg g start end_ :
  alg ∈ searches → wf g →
  ∃ r, alg g start end_ = Ok r ∧
       (found r = true ↔ ∃ l, path_between g start end_ l) ∧
       (found r = false → path r = [] ∧ path_length r = 0).
Proof.
  intros Hin Hwf.
  destruct (validb g start && validb g end_) eqn:Hv.
  - apply andb_true_iff in Hv as [Hs He].
    destruct (search_valid alg g start end_ Hin Hwf Hs He) as (r & Hr & Hpost).
    exists r. split; [done|]. split.
    + split.
      * intros Hf. exists (path r). by apply Hpost.
      * intros (l & Hl). destruct (found r) eqn:Hf; [done|].
        destruct (sp_none _ _ _ _ Hpost Hf) as (_ & _ & Hno).
        by destruct (Hno l).
    + intros Hf. by destruct (sp_none _ _ _ _ Hpost Hf) as (? & ? & _).
  - exists new_result. split; [by apply search_invalid|]. split; [|done].
    split; [done|]. intros (l & Hl).
    by destruct (search_post_invalid g start end_ Hwf Hv l).
Qed.

Lemma search_complete_witness :
  ∃ r, astar (init 2 2) (0, 0) (1, 1) = Ok r ∧
       (found r = true ↔ ∃ l, path_between (init 2 2) (0, 0) (1, 1) l) ∧
       (found r = false → path r = [] ∧ path_length r = 0).
Proof.
  apply (search_complete astar (init 2 2) (0, 0) (1, 1)).
  - unfold searches. do 2 apply list_elem_of_further. apply list_elem_of_here.
  - apply init_wf.
Defined.

(** With valid endpoints, the cells taken off the frontier ([exploring])
    are pairwise distinct, begin with the start and, on success, end with
    the end; each is valid and is the start or was recorded in [visited]
    before; the cells of [visited] are valid and never include the
    start. *)
Theorem search_explored alg g start end_ :
  alg ∈ searches → wf g →
  is_valid g start.1 start.2 = Ok true → is_valid g end_.1 end_.2 = Ok true →
  ∃ r, alg g start end_ = Ok r ∧
       NoDup (exploring r) ∧
       head (exploring r) = Some start ∧
       (found r = true → last (exploring r) = Some end_) ∧
       (∀ v, v ∈ exploring r →
             is_valid g v.1 v.2 = Ok true ∧ (v = start ∨ v ∈ visited r)) ∧
       (∀ v, v ∈ visited r → is_valid g v.1 v.2 = Ok true ∧ v ≠ start).
Proof.
  intros Hin Hwf Hs%is_valid_true He%is_valid_true; [|done..].
  destruct (search_valid alg g start end_ Hin Hwf Hs He) as (r & Hr & Hpost).
  exists r. split; [done|]. split_and!; try apply Hpost.
  - intros v Hv. rewrite is_valid_true by done. by apply Hpost.
  - intros v Hv. rewrite is_valid_true by done. by apply Hpost.
Qed.

Lemma search_explored_witness :
  ∃ r, bfs (init 2 2) (0, 0) (1, 1) = Ok r ∧ NoDup (exploring r) ∧
       head (exploring r) = Some (0, 0).
Proof.
  destruct (search_explored bfs (init 2 2) (0, 0) (1, 1))
    as (r & Hr & Hnd & Hh & _).
  - unfold searches. apply list_elem_of_here.
  - apply init_wf.
  - reflexivity.
  - reflexivity.
  - by exists r.
Defined.

(** [nodes_explored] counts different things: for [bfs] and [dfs] it is the
    number of discovered cells, the start and the cells of [visited]; for
    [astar] and [dijkstra] it is the number of cells taken off the heap for
    the first time, the cells of [exploring]. *)
Theorem nodes_explored_counts g start end_ :
  wf g →
  is_valid g start.1 start.2 = Ok true → is_valid g end_.1 end_.2 = Ok true →
  (∃ r, bfs g start end_ = Ok r ∧
        nodes_explored r = Z.of_nat (length (visited r)) + 1) ∧
  (∃ r, dfs g start end_ = Ok r ∧
        nodes_explored r = Z.of_nat (length (visited r)) + 1) ∧
  (∃ r, astar g start end_ = Ok r ∧
        nodes_explored r = Z.of_nat (length (exploring r))) ∧
  (∃ r, dijkstra g start end_ = Ok r ∧
        nodes_explored r = Z.of_nat (length (exploring r))).
Proof.
  intros Hwf Hs%is_valid_true He%is_valid_true; [|done..]. split_and!.
  - destruct (bfs_more g start end_) as (r & ? & _ & ?); eauto.
  - destruct (dfs_more g start end_) as (r & ? & _ & ?); eauto.
  - destruct (astar_more g start end_) as (r & ? & _ & ?); eauto.
  - destruct (dijkstra_more g start end_) as (r & ? & _ & ?); eauto.
Qed.

Lemma nodes_explored_counts_witness :
  ∃ r, bfs (init 1 2) (0, 0) (0, 1) = Ok r ∧
       nodes_explored r = Z.of_nat (length (visited r)) + 1.
Proof.
  apply (nodes_explored_counts (init 1 2) (0, 0) (0, 1)).
  - apply init_wf.
  - reflexivity.
  - reflexivity.
Defined.

(** [heuristic] is the Manhattan distance: never negative, zero only
    between a cell and itself, symmetric, and never more than the number of
    moves of a path between the two cells. *)
Theorem heuristic_admissible row1 col1 row2 col2 :
  0 <= heuristic row1 col1 row2 col2 ∧
  (heuristic row1 col1 row2 col2 = 0 ↔ row1 = row2 ∧ col1 = col2) ∧
  heuristic row1 col1 row2 col2 = heuristic row2 col2 row1 col1 ∧
  ∀ g l, wf g → path_between g (row1, col1) (row2, col2) l →
         heuristic row1 col1 row2 col2 <= Z.of_nat (length l) - 1.
Proof.
  unfold heuristic. split; [lia|]. split; [lia|]. split; [lia|].
  intros g l Hwf Hl.
  destruct (path_walk g _ _ l Hwf Hl) as (n & -> & Hwalk).
  assert (∀ v m, walk g (row1, col1) v m →
            Z.abs (row1 - v.1) + Z.abs (col1 - v.2) <= Z.of_nat m) as Hbound.
  { clear. induction 1 as [?|v w m _ IH (d & Hd & ->) _]; simpl; [lia|].
    unfold directions4 in Hd.
    repeat (apply elem_of_cons in Hd as [->|Hd]; [simpl; lia|]).
    by apply elem_of_nil in Hd. }
  specialize (Hbound _ _ Hwalk). simpl in Hbound. lia.
Qed.

Lemma heuristic_admissible_witness :
  heuristic 0 0 1 1 <= Z.of_nat (length [(0, 0); (0, 1); (1, 1)]) - 1.
Proof.
  apply (heuristic_admissible 0 0 1 1) with (g := init 2 2);
    [apply init_wf|].
  split; [|split; reflexivity]. simpl.
  split; [reflexivity|]. split.
  { exists (0, 1). split; [apply list_elem_of_here|reflexivity]. }
  split; [reflexivity|]. split; [|split; [reflexivity|exact I]].
  exists (1, 0). split; [|reflexivity].
  apply list_elem_of_further, list_elem_of_here.
Defined.

(** *** The searches read the grid through [is_valid] only *)

Section SameValid.
Variables g g' : Grid.
Hypothesis same_neighbors : ∀ p, neighbors_of g' p = neighbors_of g p.

Lemma bfs_loop_same fuel e : ∀ st, bfs_loop fuel g' e st = bfs_loop fuel g e st.
Proof.
  induction fuel as [|fuel IH]; intros st; [done|]. simpl.
  destruct (b_queue st) as [|u rest]; [done|]. case_decide; [done|].
  rewrite same_neighbors. destruct (neighbors_of g u) as [ns| |]; [|done..].
  simpl. apply IH.
Qed.

Lemma dfs_loop_same fuel e : ∀ st, dfs_loop fuel g' e st = dfs_loop fuel g e st.
Proof.
  induction fuel as [|fuel IH]; intros st; [done|]. simpl.
  destruct (py_pop (b_queue st)) as [[u rest]|]; [|done]. case_decide; [done|].
  rewrite same_neighbors. destruct (neighbors_of g u) as [ns| |]; [|done..].
  simpl. apply IH.
Qed.

Lemma astar_loop_same fuel e :
  ∀ st, astar_loop fuel g' e st = astar_loop fuel g e st.
Proof.
  induction fuel as [|fuel IH]; intros st; [done|]. simpl.
  destruct (heappop (a_open_set st)) as [[[key u] rest]|]; [|done].
  case_decide; [apply IH|]. case_decide; [done|].
  rewrite same_neighbors. destruct (neighbors_of g u) as [ns| |]; [|done..].
  cbn [mbind res_bind]. destruct (foldM _ _ _) as [st'| |]; [|done..].
  cbn [mbind res_bind]. apply IH.
Qed.

Lemma dijkstra_loop_same fuel e :
  ∀ st, dijkstra_loop fuel g' e st = dijkstra_loop fuel g e st.
Proof.
  induction fuel as [|fuel IH]; intros st; [done|]. simpl.
  destruct (heappop (d_pq st)) as [[[key u] rest]|]; [|done].
  case_decide; [apply IH|]. case_decide; [done|].
  rewrite same_neighbors. destruct (neighbors_of g u) as [ns| |]; [|done..].
  cbn [mbind res_bind]. apply IH.
Qed.
End SameValid.

Lemma searches_same g g' :
  wf g → wf g' → rows g' = rows g → cols g' = cols g →
  (∀ p, validb g' p = validb g p) →
  ∀ alg, alg ∈ searches → ∀ s e, alg g' s e = alg g s e.
Proof.
  intros Hwf Hwf' Hr Hc Hv.
  assert (∀ p, neighbors_of g' p = neighbors_of g p) as Hn.
  { intros p. rewrite !neighbors_of_ok by done. f_equal. unfold nbrs.
    apply list_filter_iff. intros q. by rewrite Hv. }
  assert (∀ s e, endpoints_invalid g' s e = endpoints_invalid g s e) as He.
  { intros s e. rewrite !endpoints_invalid_ok by done. by rewrite !Hv. }
  assert (area g' = area g) as Ha by (unfold area; by rewrite Hr, Hc).
  apply (searches_cases (λ alg, ∀ s e, alg g' s e = alg g s e)); intros s e.
  - unfold bfs, bfs_trace. rewrite He, Ha.
    destruct (endpoints_invalid g s e) as [[]| |]; try done.
    cbn [mbind res_bind]. by rewrite (bfs_loop_same g g' Hn).
  - unfold dfs, dfs_trace. rewrite He, Ha.
    destruct (endpoints_invalid g s e) as [[]| |]; try done.
    cbn [mbind res_bind]. by rewrite (dfs_loop_same g g' Hn).
  - unfold astar, astar_trace. rewrite He, Ha.
    destruct (endpoints_invalid g s e) as [[]| |]; try done.
    cbn [mbind res_bind]. by rewrite (astar_loop_same g g' Hn).
  - unfold dijkstra, dijkstra_trace. rewrite He, Ha.
    destruct (endpoints_invalid g s e) as [[]| |]; try done.
    cbn [mbind res_bind]. by rewrite (dijkstra_loop_same g g' Hn).
Qed.

(** The marks of an earlier run do not influence a search: on the grid
    that [clear_path] returns, every search gives the result it gives on
    the grid itself. *)
Theorem search_ignores_marks alg g g' start end_ :
  alg ∈ searches → wf g → clear_path g = Ok g' →
  alg g' start end_ = alg g start end_.
Proof.
  intros Hin Hwf Hclear.
  destruct (clear_path_ok g Hwf)
    as (g1 & Hc & Hwf' & Hr & Hcs & _ & _ & Hcell).
  rewrite Hclear in Hc. simplify_eq.
  apply searches_same; try done.
  intros p. unfold validb. rewrite Hcell.
  by destruct (cell g p) as [[]|].
Qed.

Lemma search_ignores_marks_witness :
  let g := mkGrid 1 3 [[EMPTY; VISITED; EMPTY]] None None in
  bfs (mkGrid 1 3 [[EMPTY; EMPTY; EMPTY]] None None) (0, 0) (0, 2) =
  bfs g (0, 0) (0, 2).
Proof.
  intros g. apply (search_ignores_marks bfs g).
  - apply list_elem_of_here.
  - split; [reflexivity|]. repeat constructor.
  - vm_compute. reflexivity.
Defined.

End SearchMore.

(** * The maze generator *)

Module MazeMore.
Import Grid GridFacts Algorithms SearchSpec SearchFacts GridMore SearchMore.
Import MazeSpec.

Ltac mod_lia := Z.div_mod_to_equations; lia.

(** *** [random.shuffle] *)

Lemma swap_perm {A} (x : list A) i j a b :
  x !! i = Some a → x !! j = Some b → <[j := a]> (<[i := b]> x) ≡ₚ x.
Proof.
  intros Hi Hj. destruct (decide (i = j)) as [->|Hne].
  { rewrite Hi in Hj. injection Hj as ->.
    rewrite list_insert_insert_eq.
    assert (<[j := b]> x = x) as -> by by apply list_insert_id.
    reflexivity. }
  assert (∀ (x : list A) i j a b, (i < j)%nat →
            x !! i = Some a → x !! j = Some b →
            <[j := a]> (<[i := b]> x) ≡ₚ x) as Hlt.
  { clear. intros x i j a b Hij Hi Hj.
    pose proof (take_drop_middle x i a Hi) as Hx.
    assert (drop (S i) x !! (j - i - 1)%nat = Some b) as Hb.
    { rewrite lookup_drop. rewrite <- Hj. f_equal. lia. }
    pose proof (take_drop_middle _ _ _ Hb) as Hd.
    set (A0 := take i x) in *. set (R := drop (S i) x) in *.
    set (M := take (j - i - 1) R) in *. set (B := drop (S (j - i - 1)) R) in *.
    assert (length A0 = i) as HA.
    { subst A0. rewrite length_take. apply lookup_lt_Some in Hi. lia. }
    assert (length M = (j - i - 1)%nat) as HM.
    { subst M. rewrite length_take. apply lookup_lt_Some in Hb. lia. }
    rewrite <- Hx, <- Hd.
    rewrite (insert_app_r_alt A0 _ i) by lia.
    replace (i - length A0)%nat with 0%nat by lia. cbn [insert list_insert].
    rewrite (insert_app_r_alt A0 _ j) by lia.
    replace (j - length A0)%nat with (S (length M)) by lia.
    cbn [insert list_insert].
    rewrite (insert_app_r_alt M _ (length M)) by lia.
    rewrite Nat.sub_diag. cbn [insert list_insert].
    apply Permutation_app_head.
    rewrite !(Permutation_middle M). apply Permutation_app_head.
    apply perm_swap. }
  destruct (decide (i < j)%nat); [by apply Hlt|].
  rewrite list_insert_insert_ne by done. apply Hlt; [lia|done..].
Qed.

Lemma shuffle_from_perm {A} draws i :
  ∀ rng (x : list A), (shuffle_from draws rng i x).1 ≡ₚ x.
Proof.
  induction i as [|i IH]; intros rng x; cbn [shuffle_from]; [done|].
  rewrite IH.
  destruct (x !! S i) as [a|] eqn:Hi; [|reflexivity].
  destruct (x !! (draws rng mod S (S i))%nat) as [b|] eqn:Hj; [|reflexivity].
  by apply swap_perm.
Qed.

Lemma random_shuffle_perm {A} draws rng (x : list A) :
  (random_shuffle draws rng x).1 ≡ₚ x.
Proof. apply shuffle_from_perm. Qed.

(** *** Carving the maze *)

Lemma validb_empty g p : cell g p = Some EMPTY → validb g p = true.
Proof. unfold validb. by intros ->. Qed.

Lemma walk_mono g g' s v n :
  (∀ p, validb g p = true → validb g' p = true) →
  walk g s v n → walk g' s v n.
Proof.
  intros Hmono. induction 1 as [Hs|v w n _ IH Hadj Hw].
  - apply walk_here. by apply Hmono.
  - eapply walk_step; [done..|]. by apply Hmono.
Qed.

Lemma odd_cell_in_bounds g p : odd_cell g p → in_bounds g p.1 p.2 = true.
Proof. intros (? & ? & _). apply in_bounds_spec. lia. Qed.

Lemma passage_in_bounds g p : passage g p → in_bounds g p.1 p.2 = true.
Proof. intros (? & ? & ? & ? & ?). apply in_bounds_spec. mod_lia. Qed.

Lemma odd_cell_passage g p : odd_cell g p → passage g p.
Proof. intros (? & ? & ? & ?). unfold passage. mod_lia. Qed.

Lemma elem_of_odd_cells g p : p ∈ odd_cells g ↔ odd_cell g p.
Proof.
  unfold odd_cells. rewrite elem_of_list_to_set, list_elem_of_filter.
  split; [by intros [? _]|]. intros Hp. split; [done|].
  by apply elem_of_positions, odd_cell_in_bounds.
Qed.

Lemma size_odd_cells g : (size (odd_cells g) ≤ area g)%nat.
Proof.
  unfold odd_cells. rewrite <- length_positions.
  etrans; [apply size_list_to_set_le|]. apply length_filter.
Qed.

(** Opening a cell keeps the invariant. *)
Lemma carve_open g0 st p :
  carve_inv g0 st → passage g0 p →
  ∃ g1, write (c_grid st) p.1 p.2 EMPTY = Ok g1 ∧
        (∀ q, cell g1 q = if decide (q = p) then Some EMPTY
                          else cell (c_grid st) q) ∧
        ∀ V rng,
          (∀ v, v ∈ V →
                v ∈ c_visited st ∨ (v = p ∧ odd_cell g0 p ∧ carve_entry st p)) →
          carve_inv g0 (mkCarve g1 V rng).
Proof.
  intros [Hwf Hrows Hcols Hsp Hep Hcells Hempty Hvis Hconn] Hp.
  destruct (write_ok (c_grid st) p.1 p.2 EMPTY Hwf)
    as (g1 & Hw & Hwf1 & Hrows1 & Hcols1 & Hsp1 & Hep1 & Hcell1).
  { apply passage_in_bounds in Hp. unfold in_bounds in *. congruence. }
  assert (∀ q, cell g1 q = if decide (q = p) then Some EMPTY
                           else cell (c_grid st) q) as Hcell.
  { intros q. rewrite Hcell1. by destruct p. }
  assert (∀ q, validb (c_grid st) q = true → validb g1 q = true) as Hmono.
  { intros q. unfold validb. rewrite Hcell. by case_decide. }
  exists g1. split; [done|]. split; [done|].
  intros V rng HV. split; simpl; try congruence.
  - intros q ct. rewrite Hcell. case_decide; [intros [= <-]; by left|].
    apply Hcells.
  - intros q. rewrite Hcell. case_decide; [by subst|]. apply Hempty.
  - intros v [Hv|(-> & Ho & _)]%HV.
    + destruct (Hvis v Hv) as [Ho Hc]. split; [done|].
      rewrite Hcell. by case_decide.
    + split; [done|]. rewrite Hcell. by rewrite decide_True.
  - intros v [Hv|(-> & Ho & [->|(u & m & Hu & Hum & Hmp & Hm)])]%HV.
    + destruct (Hconn v Hv) as [n Hn]. exists n. by eapply walk_mono.
    + exists 0%nat. apply walk_here. apply validb_empty.
      rewrite Hcell. by rewrite decide_True.
    + destruct (Hconn u Hu) as [n Hn]. exists (S (S n)).
      eapply walk_step; [eapply walk_step| |].
      * by eapply walk_mono.
      * done.
      * apply Hmono. by apply validb_empty.
      * done.
      * apply validb_empty. rewrite Hcell. by rewrite decide_True.
Qed.

Lemma maze_directions_cases d :
  d ∈ maze_directions →
  d = (0, 2) ∨ d = (2, 0) ∨ d = (0, -2) ∨ d = (-2, 0).
Proof.
  unfold maze_directions. intros Hd.
  repeat (apply elem_of_cons in Hd as [->|Hd]; [tauto|]).
  by apply elem_of_nil in Hd.
Qed.

Lemma adjacent4_step p dr dc :
  (dr, dc) ∈ directions4 → adjacent4 p (p.1 + dr, p.2 + dc).
Proof. intros Hd. by exists (dr, dc). Qed.

Lemma size_difference_mono (O V V' : gset pos) :
  V ⊆ V' → (size (O ∖ V') ≤ size (O ∖ V))%nat.
Proof. intros Hsub. apply subseteq_size. set_solver. Qed.

Lemma carve_step_eq rec row col st dr dc :
  carve_step rec row col st (dr, dc) =
    if (0 <? row + dr) && (row + dr <? rows (c_grid st) - 1) &&
       (0 <? col + dc) && (col + dc <? cols (c_grid st) - 1) &&
       bool_decide ((row + dr, col + dc) ∉ c_visited st)
    then
      write (c_grid st) (row + dr / 2) (col + dc / 2) EMPTY ≫= λ g : Grid,
      rec (row + dr) (col + dc) (mkCarve g (c_visited st) (c_rng st))
    else Ok st.
Proof. done. Qed.

(** The loop over the directions, the recursive calls being as specified. *)
Lemma carve_fold g0 rec (fuel' : nat) row col :
  (∀ r c st,
     carve_inv g0 st → odd_cell g0 (r, c) → (r, c) ∉ c_visited st →
     carve_entry st (r, c) →
     (size (odd_cells g0 ∖ c_visited st) ≤ fuel')%nat →
     ∃ st', rec r c st = Ok st' ∧ carve_post g0 (r, c) st st') →
  odd_cell g0 (row, col) →
  ∀ ds st1,
    (∀ d, d ∈ ds → d ∈ maze_directions) →
    carve_inv g0 st1 → (row, col) ∈ c_visited st1 →
    (size (odd_cells g0 ∖ c_visited st1) ≤ fuel')%nat →
    ∃ st2,
      foldM (carve_step rec row col) st1 ds = Ok st2 ∧
      carve_inv g0 st2 ∧ c_visited st1 ⊆ c_visited st2 ∧
      (∀ q, cell (c_grid st1) q = Some EMPTY →
            cell (c_grid st2) q = Some EMPTY) ∧
      (∀ d, d ∈ ds → odd_cell g0 (move (row, col) d) →
            move (row, col) d ∈ c_visited st2) ∧
      (∀ v w, v ∈ c_visited st2 → v ∉ c_visited st1 → lattice_adj v w →
              odd_cell g0 w → w ∈ c_visited st2).
Proof.
  intros Hrec Hcur. induction ds as [|d ds IH];
    intros st1 Hds Hinv Hin Hfuel; cbn [foldM].
  - exists st1. split; [done|]. split; [done|]. split; [done|].
    split; [done|]. split.
    + intros d Hd. by apply elem_of_nil in Hd.
    + intros v w Hv Hn. done.
  - assert (d ∈ maze_directions) as Hd by (apply Hds; by left).
    assert (∀ d', d' ∈ ds → d' ∈ maze_directions) as Hds'
      by (intros d' ?; apply Hds; by right).
    destruct d as [dr dc]. rewrite carve_step_eq.
    rewrite (ci_rows _ _ Hinv), (ci_cols _ _ Hinv).
    destruct ((0 <? row + dr) && (row + dr <? rows g0 - 1) &&
              (0 <? col + dc) && (col + dc <? cols g0 - 1) &&
              bool_decide ((row + dr, col + dc) ∉ c_visited st1)) eqn:Hcond.
    + apply andb_true_iff in Hcond as [Hcond Hnew%bool_decide_eq_true].
      assert (0 < row + dr < rows g0 - 1 ∧ 0 < col + dc < cols g0 - 1)
        as [Hr Hc].
      { rewrite !andb_true_iff in Hcond. lia. }
      destruct Hcur as (Hr0 & Hc0 & Hro & Hco). simpl in Hr0, Hc0, Hro, Hco.
      assert (odd_cell g0 (row + dr, col + dc)) as Hodd.
      { unfold odd_cell. simpl.
        apply maze_directions_cases in Hd as [Hd|[Hd|[Hd|Hd]]];
          injection Hd as -> ->; mod_lia. }
      assert (passage g0 (row + dr / 2, col + dc / 2)) as Hmid.
      { unfold passage. simpl.
        apply maze_directions_cases in Hd as [Hd|[Hd|[Hd|Hd]]];
          injection Hd as -> ->; mod_lia. }
      destruct (carve_open g0 st1 _ Hinv Hmid) as (g1 & Hw & Hcell & Hinv1).
      simpl in Hw. rewrite Hw. cbn [mbind res_bind].
      specialize (Hinv1 (c_visited st1) (c_rng st1) (λ v Hv, or_introl Hv)).
      destruct (Hrec (row + dr) (col + dc) _ Hinv1 Hodd Hnew)
        as (st' & -> & [Hinv' Hsub' Hhere' Hkeep' Hclosed']); [|done|].
      { right. exists (row, col), (row + dr / 2, col + dc / 2).
        split; [done|]. simpl. rewrite Hcell, decide_True by done.
        split; [|split; [|done]].
        - apply maze_directions_cases in Hd as [Hd|[Hd|[Hd|Hd]]];
            injection Hd as -> ->; apply (adjacent4_step (row, col));
            unfold directions4; set_solver.
        - apply maze_directions_cases in Hd as [Hd|[Hd|[Hd|Hd]]];
            injection Hd as -> ->.
          + replace (row + 0, col + 2) with
              ((row + 0 / 2) + 0, (col + 2 / 2) + 1)
              by (f_equal; mod_lia).
            apply (adjacent4_step (_, _)). unfold directions4. set_solver.
          + replace (row + 2, col + 0) with
              ((row + 2 / 2) + 1, (col + 0 / 2) + 0)
              by (f_equal; mod_lia).
            apply (adjacent4_step (_, _)). unfold directions4. set_solver.
          + replace (row + 0, col + -2) with
              ((row + 0 / 2) + 0, (col + -2 / 2) + -1)
              by (f_equal; mod_lia).
            apply (adjacent4_step (_, _)). unfold directions4. set_solver.
          + replace (row + -2, col + 0) with
              ((row + -2 / 2) + -1, (col + 0 / 2) + 0)
              by (f_equal; mod_lia).
            apply (adjacent4_step (_, _)). unfold directions4. set_solver. }
      simpl in Hsub', Hkeep', Hclosed'. cbn [mbind res_bind].
      destruct (IH st' Hds' Hinv') as (st2 & -> & Hinv2 & Hsub2 & Hkeep2 &
                                       Hdone2 & Hclosed2).
      { by apply Hsub'. }
      { etrans; [by apply size_difference_mono|done]. }
      exists st2. split; [done|]. split; [done|].
      split; [by etrans|]. split; [|split].
      * intros q Hq. apply Hkeep2, Hkeep'. rewrite Hcell.
        by case_decide.
      * intros d' [->|Hd']%elem_of_cons Ho; [|by apply Hdone2].
        by apply Hsub2.
      * intros v w Hv Hn Hadj Ho.
        destruct (decide (v ∈ c_visited st')) as [Hv'|Hv'].
        -- apply Hsub2. by apply (Hclosed' v w).
        -- by apply (Hclosed2 v w).
    + cbn [mbind res_bind].
      destruct (IH st1 Hds' Hinv Hin Hfuel)
        as (st2 & -> & Hinv2 & Hsub2 & Hkeep2 & Hdone2 & Hclosed2).
      exists st2. split; [done|]. split; [done|]. split; [done|].
      split; [done|]. split; [|done].
      intros d' [->|Hd']%elem_of_cons Ho; [|by apply Hdone2].
      apply Hsub2. unfold move in *. simpl in *.
      destruct Ho as (Hr & Hc & _). simpl in Hr, Hc.
      destruct (decide ((row + dr, col + dc) ∈ c_visited st1)) as [|Hn];
        [done|].
      exfalso. apply not_true_iff_false in Hcond. apply Hcond.
      rewrite !andb_true_iff, bool_decide_eq_true. repeat split; try lia.
      done.
Qed.

(** A call of [carve_path], the recursion being deep enough for the odd
    cells not yet visited. *)
Lemma carve_path_spec draws g0 fuel :
  ∀ row col st,
    carve_inv g0 st → odd_cell g0 (row, col) → (row, col) ∉ c_visited st →
    carve_entry st (row, col) →
    (size (odd_cells g0 ∖ c_visited st) ≤ fuel)%nat →
    ∃ st', carve_path draws fuel row col st = Ok st' ∧
           carve_post g0 (row, col) st st'.
Proof.
  induction fuel as [|fuel IH]; intros row col st Hinv Hodd Hnew Hentry Hfuel.
  { exfalso.
    assert (odd_cells g0 ∖ c_visited st ≡ ∅) as Hempty
      by (apply size_empty_iff; lia).
    apply (not_elem_of_empty (C:=gset pos) (row, col)). apply Hempty.
    apply elem_of_difference. split; [by apply elem_of_odd_cells|done]. }
  cbn [carve_path].
  destruct (carve_open g0 st (row, col) Hinv (odd_cell_passage _ _ Hodd))
    as (g1 & Hw & Hcell & Hinv1).
  simpl in Hw. rewrite Hw. cbn [mbind res_bind].
  destruct (random_shuffle draws (c_rng st) maze_directions)
    as [directions rng] eqn:Hsh.
  pose proof (random_shuffle_perm draws (c_rng st) maze_directions) as Hperm.
  rewrite Hsh in Hperm. simpl in Hperm.
  specialize (Hinv1 ({[(row, col)]} ∪ c_visited st) rng).
  destruct (carve_fold g0 (carve_path draws fuel) fuel row col IH Hodd
              directions (mkCarve g1 ({[(row, col)]} ∪ c_visited st) rng))
    as (st2 & Hfold & Hinv2 & Hsub2 & Hkeep2 & Hdone2 & Hclosed2).
  - intros d Hd. by rewrite <- Hperm.
  - apply Hinv1. intros v [->%elem_of_singleton|Hv]%elem_of_union;
      [by right|by left].
  - simpl. apply elem_of_union_l. by apply elem_of_singleton.
  - simpl.
    pose proof (size_difference_insert (odd_cells g0) (c_visited st) (row, col))
      as Hsize.
    rewrite <- Hsize in Hfuel; [lia| |done]. by apply elem_of_odd_cells.
  - exists st2. split; [done|]. simpl in *. split.
    + done.
    + intros v Hv. apply Hsub2. by apply elem_of_union_r.
    + apply Hsub2. apply elem_of_union_l. by apply elem_of_singleton.
    + intros q Hq. apply Hkeep2. rewrite Hcell. by case_decide.
    + intros v w Hv Hn Hadj Ho.
      destruct (decide (v = (row, col))) as [->|Hne].
      * destruct Hadj as (d & Hd & ->). apply Hdone2; [|done].
        by rewrite Hperm.
      * apply (Hclosed2 v w); try done.
        intros [?%elem_of_singleton|?]%elem_of_union; done.
Qed.

(** *** The generated maze *)

Lemma write_out g row col ct :
  wf g → ¬ (- rows g <= row < rows g ∧ - cols g <= col < cols g) →
  write g row col ct = Raise IndexError.
Proof.
  intros Hwf Hout. pose proof Hwf as [Hl _]. unfold write, py_setitem2.
  destruct (decide (- rows g <= row < rows g)) as [Hr|Hr].
  - destruct (py_getitem (grid g) row) as [r|e|] eqn:Hrow.
    + unfold py_getitem in Hrow.
      destruct (py_norm_index _ _) as [j|]; [|done].
      destruct (grid g !! j) as [r'|] eqn:Hj; [|done]. simplify_eq.
      pose proof (wf_row g j r Hwf Hj) as Hlen.
      assert (py_setitem r col ct = Raise IndexError) as Hset.
      { unfold py_setitem. rewrite py_norm_index_out; [done|]. lia. }
      cbn [mbind res_bind]. by rewrite Hset.
    + unfold py_getitem in Hrow. destruct (py_norm_index _ _) as [j|].
      * destruct (grid g !! j); by simplify_eq.
      * by simplify_eq.
    + unfold py_getitem in Hrow. destruct (py_norm_index _ _) as [j|]; [|done].
      by destruct (grid g !! j).
  - rewrite py_getitem_out; [done|lia].
Qed.

Lemma write_wall_ok g row col :
  wf g → in_bounds g row col = true →
  ∃ g', write g row col WALL = Ok g' ∧ wf g' ∧
        rows g' = rows g ∧ cols g' = cols g ∧
        start_pos g' = start_pos g ∧ end_pos g' = end_pos g ∧
        ∀ p, cell g' p =
             if decide (p = (row, col)) then (λ _, WALL) <$> cell g p
             else cell g p.
Proof.
  intros Hwf Hb.
  destruct (write_ok g row col WALL Hwf Hb)
    as (g' & Hw & Hwf' & Hr & Hc & Hs & He & Hcell).
  exists g'. split_and!; try done. intros p. rewrite Hcell.
  case_decide; [|done]. subst.
  by destruct (read_ok g row col Hwf Hb) as (ct & -> & _).
Qed.

Lemma fill_walls_ok g :
  wf g →
  ∃ g', fill_walls g = Ok g' ∧ wf g' ∧
        rows g' = rows g ∧ cols g' = cols g ∧
        start_pos g' = start_pos g ∧ end_pos g' = end_pos g ∧
        ∀ p ct, cell g' p = Some ct → ct = WALL.
Proof.
  intros Hwf.
  destruct (sweep_ok (λ g r c, write g r c WALL) (λ _, WALL) write_wall_ok
              g Hwf) as (g' & Hrun & Hwf' & Hr & Hc & Hs & He & Hcell).
  exists g'. split_and!; try done. intros p ct. rewrite Hcell.
  destruct (cell g p); simpl; [|done]. by intros [= <-].
Qed.

(** [carve_path(1, 1, set())] on the grid of walls. *)
Lemma carve_all draws g fuel :
  3 <= rows g → 3 <= cols g → (area g ≤ fuel)%nat →
  ∃ g1 st,
    fill_walls (clear_all g) = Ok g1 ∧
    carve_path draws fuel 1 1 (mkCarve g1 ∅ 0) = Ok st ∧
    carve_inv g st ∧ ∀ p, odd_cell g p → p ∈ c_visited st.
Proof.
  intros HR HC Hfuel.
  destruct (fill_walls_ok (clear_all g) (clear_all_wf g))
    as (g1 & Hfill & Hwf1 & Hr1 & Hc1 & Hs1 & He1 & Hcell1).
  simpl in Hr1, Hc1, Hs1, He1.
  assert (carve_inv g (mkCarve g1 ∅ 0)) as Hinv.
  { split; simpl; try done.
    - intros p ct Hp. right. by eapply Hcell1.
    - intros p Hp. by apply Hcell1 in Hp. }
  assert (odd_cell g (1, 1)) as Hodd.
  { unfold odd_cell. simpl. mod_lia. }
  destruct (carve_path_spec draws g fuel 1 1 (mkCarve g1 ∅ 0) Hinv Hodd)
    as (st & Hcarve & [Hinv' _ Hhere _ Hclosed]).
  - simpl. apply not_elem_of_empty.
  - by left.
  - simpl. etrans; [|done]. etrans; [|apply size_odd_cells].
    apply subseteq_size. set_solver.
  - exists g1, st. split; [done|]. split; [done|]. split; [done|].
    simpl in Hclosed.
    assert (∀ a b : nat,
              odd_cell g (1 + 2 * Z.of_nat a, 1 + 2 * Z.of_nat b) →
              (1 + 2 * Z.of_nat a, 1 + 2 * Z.of_nat b) ∈ c_visited st) as Hall.
    { induction a as [|a IHa].
      - induction b as [|b IHb]; [done|]. intros Ho.
        apply (Hclosed (1 + 2 * Z.of_nat 0, 1 + 2 * Z.of_nat b)).
        + apply IHb. destruct Ho as (? & ? & ? & ?). unfold odd_cell.
          simpl in *. mod_lia.
        + apply not_elem_of_empty.
        + exists (0, 2). split; [unfold maze_directions; set_solver|].
          unfold move. simpl. f_equal; lia.
        + done.
      - intros b Ho.
        apply (Hclosed (1 + 2 * Z.of_nat a, 1 + 2 * Z.of_nat b)).
        + apply IHa. destruct Ho as (? & ? & ? & ?). unfold odd_cell.
          simpl in *. mod_lia.
        + apply not_elem_of_empty.
        + exists (2, 0). split; [unfold maze_directions; set_solver|].
          unfold move. simpl. f_equal; lia.
        + done. }
    intros [r c] Ho. pose proof Ho as (? & ? & ? & ?). simpl in *.
    replace r with (1 + 2 * Z.of_nat (Z.to_nat ((r - 1) / 2))) in * by mod_lia.
    replace c with (1 + 2 * Z.of_nat (Z.to_nat ((c - 1) / 2))) in * by mod_lia.
    by apply Hall.
Qed.

(** The grid [generate_maze_dfs] returns, against the carved one. *)
Lemma generate_maze_ok draws g fuel :
  3 <= rows g → 3 <= cols g → (area g ≤ fuel)%nat →
  ∃ st g',
    carve_inv g st ∧ (∀ p, odd_cell g p → p ∈ c_visited st) ∧
    generate_maze_dfs draws fuel g = Ok g' ∧ wf g' ∧
    rows g' = rows g ∧ cols g' = cols g ∧
    start_pos g' = Some (1, 1) ∧
    end_pos g' = Some (rows g - 2, cols g - 2) ∧
    ∀ p, cell g' p =
         if decide (p = (1, 1)) then Some START
         else if decide (p = (rows g - 2, cols g - 2)) then Some END
         else cell (c_grid st) p.
Proof.
  intros HR HC Hfuel.
  destruct (carve_all draws g fuel HR HC Hfuel)
    as (g1 & st & Hfill & Hcarve & Hinv & Hall).
  exists st. unfold generate_maze_dfs. rewrite Hfill. cbn [mbind res_bind].
  rewrite Hcarve. cbn [mbind res_bind].
  pose proof Hinv as [Hwf Hrows Hcols Hsp Hep Hcells Hempty Hvis Hconn].
  rewrite Hrows, Hcols.
  destruct (Z.ltb_spec 2 (rows g)); [|lia].
  destruct (Z.ltb_spec 2 (cols g)); [|lia]. cbn [andb].
  assert (marked (c_grid st)) as Hm.
  { split; try done.
    - intros p Hp. by destruct (Hcells p _ Hp).
    - intros p Hp. by destruct (Hcells p _ Hp).
    - intros p. by rewrite Hsp.
    - intros p. by rewrite Hep. }
  destruct (set_cell_in (c_grid st) 1 1 START Hm)
    as (g3 & Hset3 & Hwf3 & Hr3 & Hc3 & Hs3 & He3 & Hcell3).
  { apply in_bounds_spec. lia. }
  rewrite Hset3. cbn [mbind res_bind].
  pose proof (set_cell_marked _ _ _ _ _ Hm Hset3) as Hm3.
  destruct (set_cell_in g3 (rows g3 - 2) (cols g3 - 2) END Hm3)
    as (g4 & Hset4 & Hwf4 & Hr4 & Hc4 & Hs4 & He4 & Hcell4).
  { apply in_bounds_spec. lia. }
  rewrite Hset4. exists g4. split; [done|]. split; [done|]. split; [done|].
  split; [done|]. split; [congruence|]. split; [congruence|].
  assert (cell (c_grid st) (1, 1) = Some EMPTY) as H11.
  { apply Hvis, Hall. unfold odd_cell. simpl. mod_lia. }
  assert (∀ p, cell g3 p = if decide (p = (1, 1)) then Some START
                           else cell (c_grid st) p) as Hcell3'.
  { intros p. rewrite Hcell3. unfold set_cell_array.
    case_decide as Hp.
    - subst p. by rewrite H11, decide_False.
    - case_decide as Hst; [|done]. by destruct (Hcells p _ Hst). }
  split; [by rewrite Hs4|]. split; [rewrite He4; simpl; congruence|].
  intros p. rewrite Hcell4. unfold set_cell_array. rewrite Hr3, Hc3, Hrows, Hcols.
  rewrite !Hcell3'.
  destruct (decide (p = (rows g - 2, cols g - 2))) as [->|Hpe].
  - destruct (decide ((rows g - 2, cols g - 2) = (1, 1))) as [Heq|Hne].
    + by rewrite decide_True.
    + rewrite decide_False; [done|].
      intros Hst. by destruct (Hcells _ _ Hst).
  - destruct (decide (p = (1, 1))) as [->|Hp1].
    + by rewrite decide_False.
    + case_decide as Hend; [|done]. by destruct (Hcells _ _ Hend).
Qed.

Lemma walk_valid g s v n :
  walk g s v n → validb g s = true ∧ validb g v = true.
Proof. induction 1 as [Hs|v w n _ [IH _] Hadj Hw]; by split. Qed.

Lemma walk_last g s w n :
  walk g s w n → w = s ∨ ∃ v, adjacent4 v w ∧ validb g v = true.
Proof.
  destruct 1 as [Hs|v w n Hv Hadj Hw]; [by left|].
  right. exists v. split; [done|]. by apply walk_valid in Hv as [_ ?].
Qed.

(** A search finds the end exactly when a walk leads to it. *)
Lemma search_found_walk alg g s e :
  alg ∈ searches → wf g →
  ∃ r, alg g s e = Ok r ∧ (found r = true ↔ ∃ n, walk g s e n).
Proof.
  intros Hin Hwf. destruct (validb g s && validb g e) eqn:Hv.
  - apply andb_true_iff in Hv as [Hs He].
    destruct (search_valid alg g s e Hin Hwf Hs He) as (r & Hr & Hpost).
    exists r. split; [done|]. split.
    + intros Hf. destruct (sp_path _ _ _ _ Hpost Hf) as [Hpath _].
      destruct (path_walk g s e _ Hwf Hpath) as (n & _ & Hn). by exists n.
    + intros [n Hn]. destruct (found r) eqn:Hf; [done|].
      destruct (sp_none _ _ _ _ Hpost Hf) as (_ & _ & Hno).
      destruct (walk_path g s e n Hwf Hn) as (l & Hl & _). by destruct (Hno l).
  - exists new_result. split; [by apply search_invalid|]. split; [done|].
    intros [n [Hs He]%walk_valid]. by rewrite Hs, He in Hv.
Qed.

(** [generate_maze_dfs] reads [rows] and [cols] only.  With fewer than two
    rows or columns it raises [IndexError].  From three rows and columns
    on it ends, the recursion being no deeper than the grid has cells,
    whatever the generator draws: START is at (1, 1), END at
    (rows - 2, cols - 2), the border is WALL, every cell with two odd
    coordinates inside the border is open, and nothing else is open but
    cells between two of them and END. *)
Theorem generate_maze_shape draws fuel g :
  (rows g < 2 ∨ cols g < 2 →
   generate_maze_dfs draws (S fuel) g = Raise IndexError) ∧
  (3 <= rows g → 3 <= cols g → (area g ≤ fuel)%nat →
   ∃ g', generate_maze_dfs draws fuel g = Ok g' ∧ wf g' ∧
         rows g' = rows g ∧ cols g' = cols g ∧
         start_pos g' = Some (1, 1) ∧
         end_pos g' = Some (rows g - 2, cols g - 2) ∧
         cell g' (1, 1) = Some START ∧
         (cell g' (rows g - 2, cols g - 2) = Some END ∨
          (rows g = 3 ∧ cols g = 3)) ∧
         (∀ p, odd_cell g p → validb g' p = true) ∧
         (∀ p, validb g' p = true →
               passage g p ∨ p = (rows g - 2, cols g - 2)) ∧
         (∀ p, in_bounds g p.1 p.2 = true →
               p.1 = 0 ∨ p.1 = rows g - 1 ∨ p.2 = 0 ∨ p.2 = cols g - 1 →
               cell g' p = Some WALL)).
Proof.
  split.
  - intros Hsmall. unfold generate_maze_dfs.
    destruct (fill_walls_ok (clear_all g) (clear_all_wf g))
      as (g1 & -> & Hwf1 & Hr1 & Hc1 & _).
    cbn [mbind res_bind carve_path c_grid]. simpl in Hr1, Hc1.
    rewrite (write_out g1 1 1 EMPTY Hwf1); [done|]. lia.
  - intros HR HC Hfuel.
    destruct (generate_maze_ok draws g fuel HR HC Hfuel)
      as (st & g' & Hinv & Hall & Hgen & Hwf & Hrows & Hcols & Hsp & Hep &
          Hcell).
    pose proof Hinv as [Hwf0 Hrows0 Hcols0 _ _ Hcells Hempty Hvis _].
    assert (∀ p, validb g' p = true →
                 passage g p ∨ p = (rows g - 2, cols g - 2)) as Hopen.
    { intros p. unfold validb. rewrite Hcell.
      destruct (decide (p = (1, 1))) as [->|Hp1].
      { intros _. left. unfold passage. simpl. mod_lia. }
      destruct (decide (p = (rows g - 2, cols g - 2))) as [->|Hpe];
        [by right|].
      destruct (cell (c_grid st) p) as [ct|] eqn:Hct; [|done].
      intros Hne%bool_decide_eq_true. left. apply Hempty.
      by destruct (Hcells p ct Hct) as [->| ->]. }
    exists g'. split; [done|]. split; [done|]. split; [done|].
    split; [done|]. split; [done|]. split; [done|]. split; [|split; [|split]].
    + by rewrite Hcell, decide_True.
    + rewrite Hcell.
      destruct (decide ((rows g - 2, cols g - 2) = (1, 1))) as [Heq|Hne].
      * right. injection Heq. lia.
      * left. by rewrite decide_True.
    + intros p Ho. unfold validb. rewrite Hcell.
      repeat case_decide; try done.
      by destruct (Hvis p (Hall p Ho)) as [_ ->].
    + split; [done|].
      intros [r c] Hb Hborder. simpl in Hb, Hborder.
      destruct (read_ok g' r c Hwf) as (ct & Hct & _).
      { apply in_bounds_spec in Hb. apply in_bounds_spec. lia. }
      rewrite Hct. destruct (decide (ct = WALL)) as [->|Hne]; [done|]. exfalso.
      destruct (Hopen (r, c)) as [(? & ? & ? & ? & ?)|Heq].
      { unfold validb. rewrite Hct. by apply bool_decide_eq_true. }
      { simpl in *. apply in_bounds_spec in Hb. mod_lia. }
      { injection Heq. lia. }
Qed.

Lemma generate_maze_shape_witness :
  ∃ g', generate_maze_dfs (λ _, 0%nat) 25 (init 5 5) = Ok g' ∧
        start_pos g' = Some (1, 1) ∧ end_pos g' = Some (3, 3).
Proof.
  destruct (generate_maze_shape (λ _, 0%nat) 25 (init 5 5)) as [_ Hmaze].
  destruct Hmaze as (g' & Hg & _ & _ & _ & Hs & He & _).
  - simpl. lia.
  - simpl. lia.
  - unfold area. simpl. lia.
  - exists g'. split; [exact Hg|]. split; [exact Hs|exact He].
Defined.

(** In a generated maze each of the four searches finds a way from START
    to END exactly when the grid has an odd number of rows or of columns:
    with both even END is walled in. *)
Theorem generate_maze_search draws fuel g alg :
  3 <= rows g → 3 <= cols g → (area g ≤ fuel)%nat → alg ∈ searches →
  ∃ g' r,
    generate_maze_dfs draws fuel g = Ok g' ∧
    start_pos g' = Some (1, 1) ∧
    end_pos g' = Some (rows g - 2, cols g - 2) ∧
    alg g' (1, 1) (rows g - 2, cols g - 2) = Ok r ∧
    (found r = true ↔ rows g mod 2 = 1 ∨ cols g mod 2 = 1).
Proof.
  intros HR HC Hfuel Halg.
  destruct (generate_maze_ok draws g fuel HR HC Hfuel)
    as (st & g' & Hinv & Hall & Hgen & Hwf & Hrows & Hcols & Hsp & Hep &
        Hcell).
  pose proof Hinv as [Hwf0 Hrows0 Hcols0 _ _ Hcells Hempty Hvis Hconn].
  destruct (search_found_walk alg g' (1, 1) (rows g - 2, cols g - 2) Halg Hwf)
    as (r & Hr & Hfound).
  exists g', r. split; [done|]. split; [done|]. split; [done|].
  split; [done|]. rewrite Hfound. clear Hfound Hr.
  assert (∀ p, validb (c_grid st) p = true → validb g' p = true) as Hmono.
  { intros p. unfold validb. rewrite Hcell. by repeat case_decide. }
  assert (validb g' (rows g - 2, cols g - 2) = true) as Hend.
  { unfold validb. rewrite Hcell. by repeat case_decide. }
  split.
  - intros [n Hwalk].
    destruct (decide (rows g mod 2 = 1 ∨ cols g mod 2 = 1)) as [|Heven];
      [done|]. exfalso.
    apply walk_last in Hwalk as [Heq|(v & (d & Hd & Hv) & Hvalid)].
    { injection Heq. mod_lia. }
    assert (passage g v ∨ v = (1, 1)) as [Hp|Hv1].
    { revert Hvalid. unfold validb. rewrite Hcell.
      destruct (decide (v = (1, 1))) as [->|Hp1]; [by right|].
      destruct (decide (v = (rows g - 2, cols g - 2))) as [->|Hpe].
      { exfalso. unfold directions4 in Hd.
        repeat (apply elem_of_cons in Hd as [->|Hd];
                [injection Hv; simpl; lia|]).
        by apply elem_of_nil in Hd. }
      destruct (cell (c_grid st) v) as [ct|] eqn:Hct; [|done].
      intros Hne%bool_decide_eq_true. left. apply Hempty.
      by destruct (Hcells v ct Hct) as [->| ->]. }
    + destruct Hp as (? & ? & ? & ? & ?). unfold directions4 in Hd.
      repeat (apply elem_of_cons in Hd as [->|Hd];
              [injection Hv; simpl; mod_lia|]).
      by apply elem_of_nil in Hd.
    + subst v. unfold directions4 in Hd.
      repeat (apply elem_of_cons in Hd as [->|Hd];
              [injection Hv; simpl; mod_lia|]).
      by apply elem_of_nil in Hd.
  - intros Hodd.
    assert (∀ u, odd_cell g u → ∃ n, walk g' (1, 1) u n) as Hreach.
    { intros u Hu. destruct (Hconn u (Hall u Hu)) as [n Hn].
      exists n. by eapply walk_mono. }
    destruct (decide (rows g mod 2 = 1)) as [Hro|Hre];
      [destruct (decide (cols g mod 2 = 1)) as [Hco|Hce]|].
    + apply Hreach. unfold odd_cell. simpl. mod_lia.
    + destruct (Hreach (rows g - 2, cols g - 3)) as [n Hn].
      { unfold odd_cell. simpl. mod_lia. }
      exists (S n). eapply walk_step; [done| |done].
      exists (0, 1). split; [unfold directions4; set_solver|].
      simpl. f_equal; lia.
    + destruct (Hreach (rows g - 3, cols g - 2)) as [n Hn].
      { unfold odd_cell. simpl. mod_lia. }
      exists (S n). eapply walk_step; [done| |done].
      exists (1, 0). split; [unfold directions4; set_solver|].
      simpl. f_equal; lia.
Qed.

Lemma generate_maze_search_witness :
  ∃ g' r,
    generate_maze_dfs (λ _, 0%nat) 16 (init 4 4) = Ok g' ∧
    bfs g' (1, 1) (2, 2) = Ok r ∧ found r = false.
Proof.
  destruct (generate_maze_search (λ _, 0%nat) 16 (init 4 4) bfs)
    as (g' & r & Hg & _ & _ & Hr & Hfound).
  - simpl. lia.
  - simpl. lia.
  - unfold area. simpl. lia.
  - unfold searches. apply list_elem_of_here.
  - exists g', r. split; [exact Hg|]. split; [exact Hr|].
    destruct (found r); [|reflexivity].
    destruct (proj1 Hfound eq_refl) as [H|H]; vm_compute in H; discriminate.
Defined.

End MazeMore.

(** * Further properties of the puzzle *)

Module PuzzleMore.
Import PuzzleLogic PuzzleSpec PuzzleFacts BFSSolver SolverSpec SolverFacts.

(** *** The board as one list *)

Lemma concat_join {A} (ls : list (list A)) : concat ls = mjoin ls.
Proof. induction ls as [|l ls IH]; [done|]. simpl. by rewrite IH. Qed.

Lemma length_concat_board n st : board n st → length (concat st) = (n * n)%nat.
Proof.
  intros [Hlen Hrows]. rewrite concat_join, length_join.
  rewrite (sum_list_fmap_same n) by done. by rewrite Hlen.
Qed.

Lemma concat_tile n st q :
  board n st → 0 <= q.1 → 0 <= q.2 < Z.of_nat n →
  concat st !! cell_index n q = tile_at st q.
Proof.
  intros [Hlen Hrows] H1 H2. unfold cell_index, tile_at.
  destruct (Z.leb_spec 0 q.1); [|lia]. destruct (Z.leb_spec 0 q.2); [|lia].
  simpl. rewrite concat_join.
  destruct (st !! Z.to_nat q.1) as [row|] eqn:Hrow; simpl.
  - destruct (row !! Z.to_nat q.2) as [v|] eqn:Hv.
    + apply (join_lookup_Some_same_length' n); [done|lia|]. eauto.
    + apply eq_None_not_Some. intros [x Hx].
      apply (join_lookup_Some_same_length' n) in Hx as (l & Hl & Hx);
        [|done|lia]. congruence.
  - apply eq_None_not_Some. intros [x Hx].
    apply (join_lookup_Some_same_length' n) in Hx as (l & Hl & Hx);
      [|done|lia]. congruence.
Qed.

Lemma cell_index_inj n a b :
  0 <= a.1 → 0 <= a.2 < Z.of_nat n → 0 <= b.1 → 0 <= b.2 < Z.of_nat n →
  cell_index n a = cell_index n b → a = b.
Proof.
  unfold cell_index. destruct a as [a1 a2], b as [b1 b2]. simpl.
  intros ?????.
  assert (Z.to_nat a1 = Z.to_nat b1 ∧ Z.to_nat a2 = Z.to_nat b2) as [??].
  { apply Nat.mul_split_l with (n := n); lia. }
  f_equal; lia.
Qed.

Lemma cell_index_lt n q :
  0 <= q.1 < Z.of_nat n → 0 <= q.2 < Z.of_nat n →
  (cell_index n q < n * n)%nat.
Proof. unfold cell_index. nia. Qed.

Lemma cell_index_split n k :
  (k < n * n)%nat →
  ∃ q, cell_index n q = k ∧ 0 <= q.1 < Z.of_nat n ∧ 0 <= q.2 < Z.of_nat n.
Proof.
  intros Hk. assert (n ≠ 0)%nat by lia.
  exists (Z.of_nat (k / n), Z.of_nat (k mod n)). unfold cell_index. simpl.
  rewrite !Nat2Z.id.
  pose proof (Nat.div_mod_eq k n). pose proof (Nat.mod_upper_bound k n).
  assert (k / n < n)%nat by (apply Nat.Div0.div_lt_upper_bound; lia).
  lia.
Qed.

Lemma length_swap_at f i j : length (swap_at f i j) = length f.
Proof.
  unfold swap_at. destruct (f !! i), (f !! j); try done.
  by rewrite !length_insert.
Qed.

Lemma concat_swap_cells n st a b va vb :
  board n st → tile_at st a = Some va → tile_at st b = Some vb →
  concat (swap_cells st a b) =
  swap_at (concat st) (cell_index n a) (cell_index n b).
Proof.
  intros Hb Ha Hbb.
  pose proof (tile_at_Some _ _ _ _ Hb Ha) as [Ha1 Ha2].
  pose proof (tile_at_Some _ _ _ _ Hb Hbb) as [Hb1 Hb2].
  pose proof (swap_cells_board n st a b Hb) as Hb'.
  unfold swap_at.
  rewrite !(concat_tile n) by (done || lia). rewrite Ha, Hbb.
  apply list_eq. intros k.
  destruct (decide (k < n * n)%nat) as [Hk|Hk].
  - destruct (cell_index_split n k Hk) as (q & <- & Hq1 & Hq2).
    rewrite (concat_tile n) by (done || lia).
    rewrite (tile_at_swap_cells n st a b va vb q Hb Ha Hbb).
    pose proof (cell_index_lt n a Ha1 Ha2). pose proof (cell_index_lt n b Hb1 Hb2).
    pose proof (length_concat_board n st Hb) as Hlen.
    destruct (decide (q = a)) as [->|Hqa].
    { rewrite list_lookup_insert_eq; [done|]. rewrite length_insert. lia. }
    rewrite list_lookup_insert_ne.
    2:{ intros Heq. apply cell_index_inj in Heq; (done || lia). }
    destruct (decide (q = b)) as [->|Hqb].
    { rewrite list_lookup_insert_eq; [done|]. lia. }
    rewrite list_lookup_insert_ne.
    2:{ intros Heq. apply cell_index_inj in Heq; (done || lia). }
    by rewrite (concat_tile n) by (done || lia).
  - rewrite !lookup_ge_None_2; [done| |].
    + rewrite !length_insert, (length_concat_board n) by done. lia.
    + rewrite (length_concat_board n) by done. lia.
Qed.

Lemma swap_at_split f i j x y :
  (i < j)%nat → f !! i = Some x → f !! j = Some y →
  ∃ A M B, f = A ++ x :: M ++ y :: B ∧
           swap_at f i j = A ++ y :: M ++ x :: B ∧
           length A = i ∧ length M = (j - i - 1)%nat.
Proof.
  intros Hij Hi Hj.
  pose proof (take_drop_middle f i x Hi) as Hf.
  assert (drop (S i) f !! (j - i - 1)%nat = Some y) as Hy.
  { rewrite lookup_drop. rewrite <- Hj. f_equal. lia. }
  pose proof (take_drop_middle _ _ _ Hy) as Hd.
  set (A := take i f) in *. set (R := drop (S i) f) in *.
  set (M := take (j - i - 1) R) in *. set (B := drop (S (j - i - 1)) R) in *.
  assert (length A = i) as HA.
  { subst A. rewrite length_take. apply lookup_lt_Some in Hi. lia. }
  assert (length M = (j - i - 1)%nat) as HM.
  { subst M. rewrite length_take. apply lookup_lt_Some in Hy. lia. }
  exists A, M, B. split; [by rewrite Hd|]. split; [|done].
  unfold swap_at. rewrite Hi, Hj. rewrite <- Hf, <- Hd.
  rewrite (insert_app_r_alt A _ j) by lia.
  replace (j - length A)%nat with (S (length M)) by lia. cbn [insert list_insert].
  rewrite (insert_app_r_alt M _ (length M)) by lia.
  rewrite Nat.sub_diag. cbn [insert list_insert].
  rewrite (insert_app_r_alt A _ i) by lia.
  replace (i - length A)%nat with 0%nat by lia. done.
Qed.

Lemma swap_at_comm f i j : swap_at f i j = swap_at f j i.
Proof.
  unfold swap_at. destruct (f !! i) as [x|] eqn:Hi, (f !! j) as [y|] eqn:Hj;
    try done.
  destruct (decide (i = j)) as [->|Hne]; [by simplify_eq|].
  by rewrite list_insert_insert_ne.
Qed.

Lemma swap_at_perm f i j : swap_at f i j ≡ₚ f.
Proof.
  assert (∀ i j, (i < j)%nat → swap_at f i j ≡ₚ f) as Hlt.
  { clear. intros i j Hij. unfold swap_at.
    destruct (f !! i) as [x|] eqn:Hi, (f !! j) as [y|] eqn:Hj; try done.
    destruct (swap_at_split f i j x y Hij Hi Hj) as (A & M & B & Hf & Hs & _).
    unfold swap_at in Hs. rewrite Hi, Hj in Hs. rewrite Hs, Hf.
    apply Permutation_app_head.
    rewrite <- !Permutation_middle. apply perm_swap. }
  destruct (Nat.lt_trichotomy i j) as [?|[->|?]].
  - by apply Hlt.
  - unfold swap_at. destruct (f !! j) as [x|] eqn:Hj; [|done].
    rewrite list_insert_insert_eq. by rewrite list_insert_id.
  - rewrite swap_at_comm. by apply Hlt.
Qed.

(** *** Inversions of a list, head first *)

Lemma length_filter_fmap {A B} (f : A → B) (P : B → Prop) (Q : A → Prop)
    `{∀ y, Decision (P y)} `{∀ x, Decision (Q x)} (l : list A) :
  (∀ x, P (f x) ↔ Q x) →
  length (filter P (f <$> l)) = length (filter Q l).
Proof.
  intros HPQ. induction l as [|x l IH]; [done|]. rewrite fmap_cons.
  destruct (decide (Q x)) as [Hq|Hq].
  - rewrite !filter_cons_True by (done || by apply HPQ). simpl. by rewrite IH.
  - rewrite !filter_cons_False by (done || by rewrite HPQ). done.
Qed.

Lemma inversions_from_cons x l ix :
  inversions_from (x :: l) (S <$> ix) = inversions_from l ix.
Proof.
  induction ix as [|i ix IH]; [done|]. cbn [fmap list_fmap inversions_from].
  rewrite IH. f_equal. cbn [length].
  replace (S (length l) - S (S i))%nat with (length l - S i)%nat by lia.
  rewrite <- fmap_S_seq. by apply length_filter_fmap.
Qed.

Lemma head_inversions x pre l :
  length (filter (λ j, gt_at (x :: pre ++ l) 0 j = true)
            (seq (S (length pre)) (length l))) =
  length (filter (λ y, y < x) l).
Proof.
  revert pre. induction l as [|y l IH]; intros pre; [done|].
  cbn [length seq].
  specialize (IH (pre ++ [y])). rewrite <- app_assoc, length_app in IH.
  simpl in IH. rewrite Nat.add_1_r in IH.
  assert (gt_at (x :: pre ++ y :: l) 0 (S (length pre)) = (y <? x)) as Hgt.
  { unfold gt_at.
    assert ((x :: pre ++ y :: l) !! S (length pre) = Some y) as ->.
    { apply (list_lookup_middle (x :: pre)). done. }
    done. }
  destruct (Z.ltb_spec y x).
  - rewrite !filter_cons_True by (done || congruence). simpl. by rewrite IH.
  - rewrite !filter_cons_False by (lia || congruence). done.
Qed.

Lemma inversion_count_cons x l :
  inversion_count (x :: l) =
  Z.of_nat (length (filter (λ y, y < x) l)) + inversion_count l.
Proof.
  rewrite !inversion_count_from. cbn [length seq inversions_from].
  replace (S (length l) - 1)%nat with (length l) by lia.
  pose proof (head_inversions x [] l) as Hhead. simpl in Hhead.
  rewrite Hhead, <- fmap_S_seq, inversions_from_cons. lia.
Qed.

Lemma length_filter_perm (P : Z → Prop) `{∀ y, Decision (P y)} l l' :
  l ≡ₚ l' → length (filter P l) = length (filter P l').
Proof. intros Hp. by rewrite Hp. Qed.

(** Moving [t] over the tiles [M], none of them [t], changes the number of
    inversions by the parity of [length M]. *)
Lemma inversion_jump X M t Y :
  t ∉ M →
  ∃ k, inversion_count (X ++ M ++ t :: Y) + Z.of_nat (length M) =
       inversion_count (X ++ t :: M ++ Y) + 2 * k.
Proof.
  intros Ht. induction X as [|x X IH].
  - simpl. induction M as [|m M IHM].
    + exists 0. simpl. lia.
    + apply not_elem_of_cons in Ht as [Hne Ht].
      destruct (IHM Ht) as [k Hk]. simpl.
      rewrite !inversion_count_cons in *.
      rewrite !filter_app, !filter_cons, !length_app in *.
      destruct (decide (t < m)), (decide (m < t)); try lia.
      * exists (k + 1). rewrite ?filter_app. simpl length in *.
        rewrite ?length_app. lia.
      * exists k. rewrite ?filter_app. simpl length in *.
        rewrite ?length_app. lia.
  - destruct IH as [k Hk]. exists k. simpl.
    rewrite !inversion_count_cons.
    rewrite (length_filter_perm _ (X ++ M ++ t :: Y) (X ++ t :: M ++ Y)); [lia|].
    apply Permutation_app_head. by rewrite <- Permutation_middle.
Qed.

(** The answer of [is_solvable] in terms of the inversions. *)
Lemma is_solvable_parity p b :
  square p → the_blank p b →
  ∃ r, is_solvable p = Ok r ∧
       (r = true ↔
        parity_solvable (size p)
          (inversion_count (flatten_board (state p))) (size p - 1 - b.1)).
Proof.
  intros Hsq Hblank. pose proof Hsq as [Hsz Hb]%square_board.
  assert (range (size p) = Z.of_nat <$> seq 0 (length (state p))) as Hrange.
  { rewrite Hsz. apply range_seq. }
  unfold is_solvable. rewrite Hrange.
  pose proof (flatten_rows_spec _ _ Hb (state p) [] [] eq_refl) as Hflat.
  simpl in Hflat. rewrite Hflat. simpl.
  rewrite range_seq, inversions_outer_spec.
  2:{ intros i Hi. apply list_elem_of_In, in_seq in Hi. lia. }
  simpl. rewrite <- inversion_count_from.
  set (inv := inversion_count (flatten_board (state p))).
  unfold parity_solvable.
  destruct (size p mod 2 =? 1) eqn:Hodd.
  - eexists. split; [done|]. apply mod2_odd in Hodd.
    rewrite mod2_even. split; [by left|].
    intros [[_ ?]|[Hev _]]; [done|].
    destruct (Z.Even_Odd_False _ Hev Hodd).
  - rewrite (find_empty_blank p Hsq b Hblank). simpl.
    eexists. split; [done|]. rewrite mod2_even.
    assert (¬ Z.Odd (size p)) as Hnodd.
    { rewrite <- mod2_odd. congruence. }
    split.
    + intros Hev. right. split; [|done].
      by destruct (Z.Even_or_Odd (size p)).
    + by intros [[? _]|[_ ?]].
Qed.

(** *** The parity criterion is invariant under moves *)

Lemma Even_mod a : Z.Even a ↔ a mod 2 = 0.
Proof. rewrite <- Z.even_spec, Zeven_mod, Z.eqb_eq. done. Qed.

Lemma Odd_mod a : Z.Odd a ↔ a mod 2 = 1.
Proof. rewrite <- Z.odd_spec, Zodd_mod, Z.eqb_eq. done. Qed.

Lemma parity_solvable_shift n i r i' r' k :
  (i' = i + 2 * k ∧ r' = r) ∨
  (i' = i + (n - 1) + 2 * k ∧ (r' = r + 1 ∨ r' = r - 1)) →
  parity_solvable n i' r' ↔ parity_solvable n i r.
Proof.
  unfold parity_solvable. rewrite !Even_mod, !Odd_mod.
  intros H. split; intros H'; Z.div_mod_to_equations; lia.
Qed.

Lemma filter_all {A} (P : A → Prop) `{∀ x, Decision (P x)} (l : list A) :
  Forall P l → filter P l = l.
Proof.
  induction 1 as [|x l Hx _ IH]; [done|]. by rewrite filter_cons_True, IH.
Qed.

(** The flattening without the blank, before and after the blank at [i]
    and the tile at [j] are exchanged. *)
Lemma flatten_swap f i j v :
  NoDup f → f !! i = Some 0 → f !! j = Some v → i ≠ j →
  ∃ k, inversion_count (filter (λ x, x ≠ 0) (swap_at f i j)) =
       inversion_count (filter (λ x, x ≠ 0) f) +
       (Z.abs (Z.of_nat j - Z.of_nat i) - 1) + 2 * k.
Proof.
  intros Hnd Hi Hj Hne.
  assert (v ≠ 0) as Hv.
  { intros ->. by apply Hne, (NoDup_lookup f i j 0). }
  assert (∀ (A M B : list Z) x y,
            NoDup (A ++ x :: M ++ y :: B) → x ∉ M ∧ y ∉ M) as Hmid.
  { clear. intros A M B x y Hnd.
    apply NoDup_app in Hnd as (_ & _ & Hnd).
    apply NoDup_cons in Hnd as [Hx Hnd].
    apply NoDup_app in Hnd as (_ & Hy & _).
    split; [set_solver|]. intros Hin. apply (Hy y Hin). by left. }
  destruct (Nat.lt_trichotomy i j) as [Hlt|[?|Hlt]]; [|done|].
  - destruct (swap_at_split f i j 0 v Hlt Hi Hj)
      as (A & M & B & Hf & -> & HA & HM).
    rewrite Hf in Hnd |- *. destruct (Hmid _ _ _ _ _ Hnd) as [H0 HvM].
    rewrite !filter_app, !filter_cons, !filter_app, !filter_cons.
    destruct (decide (0 ≠ 0)) as [?|_]; [done|].
    destruct (decide (v ≠ 0)) as [_|?]; [|done].
    rewrite (filter_all _ M).
    2:{ apply Forall_forall. intros x Hx ->. done. }
    destruct (inversion_jump (filter (λ x, x ≠ 0) A) M v
                (filter (λ x, x ≠ 0) B) HvM) as [k Hk].
    exists (- k). lia.
  - rewrite swap_at_comm.
    destruct (swap_at_split f j i v 0 Hlt Hj Hi)
      as (A & M & B & Hf & -> & HA & HM).
    rewrite Hf in Hnd |- *. destruct (Hmid _ _ _ _ _ Hnd) as [HvM H0].
    rewrite !filter_app, !filter_cons, !filter_app, !filter_cons.
    destruct (decide (0 ≠ 0)) as [?|_]; [done|].
    destruct (decide (v ≠ 0)) as [_|?]; [|done].
    rewrite (filter_all _ M).
    2:{ apply Forall_forall. intros x Hx ->. done. }
    destruct (inversion_jump (filter (λ x, x ≠ 0) A) M v
                (filter (λ x, x ≠ 0) B) HvM) as [k Hk].
    exists (k - (Z.of_nat (length M))). lia.
Qed.

(** What a call of [make_move] does, on the board as one list. *)
Lemma make_move_cases p d ok p' :
  square p → (∃ b, the_blank p b) → make_move p d = Ok (ok, p') →
  p' = p ∨
  ∃ b t v, the_blank p b ∧ the_blank p' t ∧ square p' ∧
    target d b.1 b.2 = Some t ∧
    tile_at (state p) t = Some v ∧
    p' = with_state p (swap_cells (state p) b t) ∧
    concat (state p') =
      swap_at (concat (state p)) (cell_index (length (state p)) b)
        (cell_index (length (state p)) t).
Proof.
  intros Hsq [b Hblank] Hmove.
  pose proof Hsq as [Hsz Hb]%square_board.
  destruct (target d b.1 b.2) as [t|] eqn:Ht.
  - destruct (decide (0 <= t.1 < size p ∧ 0 <= t.2 < size p)) as [[H1 H2]|Hout].
    + destruct (make_move_valid p b d t Hsq Hblank Ht H1 H2)
        as (Hm & (v & Hv & Hv0) & Hsq' & Hblank').
      rewrite Hm in Hmove. simplify_eq. right. exists b, t, v.
      split_and!; try done. simpl.
      apply (concat_swap_cells _ _ _ _ 0 v); [done|apply Hblank|done].
    + left. rewrite (make_move_invalid p b d Hsq Hblank) in Hmove.
      * by simplify_eq.
      * intros t' Ht'. by simplify_eq.
  - left. rewrite (make_move_invalid p b d Hsq Hblank) in Hmove.
    + by simplify_eq.
    + intros t' Ht'. by simplify_eq.
Qed.

Lemma make_move_perm p d ok p' :
  square p → (∃ b, the_blank p b) → make_move p d = Ok (ok, p') →
  concat (state p') ≡ₚ concat (state p).
Proof.
  intros Hsq Hbl Hmove.
  destruct (make_move_cases p d ok p' Hsq Hbl Hmove)
    as [->|(b & t & v & _ & _ & _ & _ & _ & _ & ->)]; [done|].
  apply swap_at_perm.
Qed.

Lemma is_solvable_move p d ok p' :
  square p → (∃ b, the_blank p b) → NoDup (concat (state p)) →
  make_move p d = Ok (ok, p') →
  is_solvable p' = is_solvable p.
Proof.
  intros Hsq Hbl Hnd Hmove.
  destruct (make_move_cases p d ok p' Hsq Hbl Hmove)
    as [->|(b & t & v & Hb & Ht & Hsq' & Htar & Hv & Hp' & Hflat)]; [done|].
  pose proof Hsq as [Hsz Hbd]%square_board.
  destruct (is_solvable_parity p b Hsq Hb) as (r & Hr & Hiff).
  destruct (is_solvable_parity p' t Hsq' Ht) as (r' & Hr' & Hiff').
  rewrite Hr, Hr'. f_equal.
  assert (size p' = size p) as Hsize by by rewrite Hp'.
  rewrite Hsize in Hiff'. unfold flatten_board in Hiff, Hiff'.
  rewrite Hflat in Hiff'.
  set (n := length (state p)) in *.
  pose proof (tile_at_Some _ _ _ _ Hbd (proj1 Hb)) as [Hb1 Hb2].
  pose proof (tile_at_Some _ _ _ _ Hbd Hv) as [Ht1 Ht2].
  assert (t ≠ b) as Hne.
  { destruct b. by apply target_neq in Htar. }
  destruct (flatten_swap (concat (state p)) (cell_index n b) (cell_index n t) v)
    as [k Hk]; [done| | | |].
  { rewrite (concat_tile n) by (done || lia). apply Hb. }
  { by rewrite (concat_tile n) by (done || lia). }
  { intros Heq. apply cell_index_inj in Heq; (done || lia). }
  assert (parity_solvable (size p)
            (inversion_count
               (filter (λ v, v ≠ 0)
                  (swap_at (concat (state p)) (cell_index n b) (cell_index n t))))
            (size p - 1 - t.1) ↔
          parity_solvable (size p)
            (inversion_count (filter (λ v, v ≠ 0) (concat (state p))))
            (size p - 1 - b.1)) as Hshift.
  { rewrite Hk. unfold cell_index.
    destruct b as [br bc], t as [tr tc]. simpl in *.
    apply target_cases in Htar as [[_ [= -> ->]]|[[_ [= -> ->]]|
      [[_ [= -> ->]]|[_ [= -> ->]]]]].
    - apply (parity_solvable_shift _ _ _ _ _ k). right. split; [|lia].
      replace (Z.to_nat (br - 1)) with (Z.to_nat br - 1)%nat by lia. nia.
    - apply (parity_solvable_shift _ _ _ _ _ k). right. split; [|lia].
      replace (Z.to_nat (br + 1)) with (Z.to_nat br + 1)%nat by lia. nia.
    - apply (parity_solvable_shift _ _ _ _ _ k). left. split; [|lia]. lia.
    - apply (parity_solvable_shift _ _ _ _ _ k). left. split; [|lia]. lia. }
  destruct r, r'; try done.
  - exfalso. assert (false = true); [|done]. apply Hiff', Hshift, Hiff. done.
  - exfalso. assert (false = true); [|done]. apply Hiff, Hshift, Hiff'. done.
Qed.

(** *** Renaming the tiles *)

Lemma tile_at_fmap f st q : tile_at (relabel_state f st) q = f <$> tile_at st q.
Proof.
  unfold tile_at, relabel_state.
  destruct ((0 <=? q.1) && (0 <=? q.2)); [|done].
  rewrite list_lookup_fmap. destruct (st !! Z.to_nat q.1) as [row|]; [|done].
  simpl. by rewrite list_lookup_fmap.
Qed.

Lemma board_fmap f n st : board n st → board n (relabel_state f st).
Proof.
  intros [Hlen Hrows]. unfold relabel_state. split; [by rewrite length_fmap|].
  apply Forall_fmap. eapply Forall_impl; [done|].
  intros row Hrow. simpl. by rewrite length_fmap.
Qed.

Lemma square_relabel f p : square p → square (relabel f p).
Proof.
  intros [Hsz Hb]%square_board. apply square_board. simpl.
  unfold relabel_state at 1 2. rewrite length_fmap. split; [done|]. by apply board_fmap.
Qed.

Lemma the_blank_relabel f p b :
  (∀ x, f x = 0 ↔ x = 0) → the_blank p b → the_blank (relabel f p) b.
Proof.
  intros Hf [Hb Huniq]. split; simpl.
  - rewrite tile_at_fmap, Hb. simpl. f_equal. by apply Hf.
  - intros q. rewrite tile_at_fmap.
    destruct (tile_at (state p) q) as [v|] eqn:Hv; [|done].
    simpl. intros [= Hz]. apply Hf in Hz as ->. by apply Huniq.
Qed.

Lemma swap_cells_fmap f n st a b va vb :
  board n st → tile_at st a = Some va → tile_at st b = Some vb →
  swap_cells (relabel_state f st) a b = relabel_state f (swap_cells st a b).
Proof.
  intros Hb Ha Hbb. apply (board_ext n).
  - by apply swap_cells_board, board_fmap.
  - by apply board_fmap, swap_cells_board.
  - intros q. rewrite tile_at_fmap.
    rewrite (tile_at_swap_cells n st a b va vb q Hb Ha Hbb).
    rewrite (tile_at_swap_cells n _ a b (f va) (f vb) q).
    + rewrite tile_at_fmap. by repeat case_decide.
    + by apply board_fmap.
    + by rewrite tile_at_fmap, Ha.
    + by rewrite tile_at_fmap, Hbb.
Qed.

Lemma make_move_relabel f p d ok p' :
  square p → (∃ b, the_blank p b) → (∀ x, f x = 0 ↔ x = 0) →
  make_move p d = Ok (ok, p') →
  make_move (relabel f p) d = Ok (ok, relabel f p').
Proof.
  intros Hsq [b Hblank] Hf Hmove.
  pose proof Hsq as [Hsz Hb]%square_board.
  pose proof (square_relabel f p Hsq) as Hsq'.
  pose proof (the_blank_relabel f p b Hf Hblank) as Hblank'.
  assert (∀ t : pos, (∀ t', target d b.1 b.2 = Some t' →
                  ¬ (0 <= t'.1 < size p ∧ 0 <= t'.2 < size p)) →
          make_move (relabel f p) d = Ok (ok, relabel f p')) as Hinv.
  { intros _ Hno. rewrite (make_move_invalid p b d Hsq Hblank Hno) in Hmove.
    simplify_eq. by apply (make_move_invalid _ b). }
  destruct (target d b.1 b.2) as [t|] eqn:Ht.
  - destruct (decide (0 <= t.1 < size p ∧ 0 <= t.2 < size p)) as [[H1 H2]|Hout].
    + destruct (make_move_valid p b d t Hsq Hblank Ht H1 H2)
        as (Hm & (v & Hv & Hv0) & _).
      rewrite Hm in Hmove. simplify_eq.
      destruct (make_move_valid (relabel f p) b d t Hsq' Hblank' Ht H1 H2)
        as (-> & _).
      do 2 f_equal. unfold with_state, relabel. simpl. f_equal.
      eapply swap_cells_fmap; [done|apply Hblank|done].
    + apply (Hinv (0, 0)). intros t' Ht'. by simplify_eq.
  - apply (Hinv (0, 0)). intros t' Ht'. by simplify_eq.
Qed.

Lemma playable_relabel f p :
  (∀ x, f x = 0 ↔ x = 0) → playable p → playable (relabel f p).
Proof.
  intros Hf (Hsq & Hsz & b & Hb). split; [by apply square_relabel|].
  split; [done|]. exists b. by apply the_blank_relabel.
Qed.

Lemma apply_moves_relabel f moves :
  (∀ x, f x = 0 ↔ x = 0) →
  ∀ p q, playable p → apply_moves p moves = Ok q →
         apply_moves (relabel f p) moves = Ok (relabel f q).
Proof.
  intros Hf. induction moves as [|m moves IH]; intros p q Hp Hq; simpl in *.
  - by simplify_eq.
  - destruct (make_move_playable p m Hp) as (ok & p' & Hm & Hp' & _).
    rewrite Hm in Hq. simpl in Hq.
    rewrite (make_move_relabel f p m ok p'); [|apply Hp..|done|done].
    simpl. by apply IH.
Qed.

(** *** Moves and their inverses *)

Lemma swap_cells_back n st a b va vb :
  board n st → tile_at st a = Some va → tile_at st b = Some vb →
  swap_cells (swap_cells st a b) b a = st.
Proof.
  intros Hb Ha Hbb. apply (board_ext n); [|done|].
  { by do 2 apply swap_cells_board. }
  intros q.
  rewrite (tile_at_swap_cells n (swap_cells st a b) b a va vb q).
  - rewrite (tile_at_swap_cells n st a b va vb q Hb Ha Hbb).
    repeat case_decide; simplify_eq; done.
  - by apply swap_cells_board.
  - rewrite (tile_at_swap_cells n st a b va vb b Hb Ha Hbb).
    repeat case_decide; simplify_eq; done.
  - rewrite (tile_at_swap_cells n st a b va vb a Hb Ha Hbb).
    by rewrite decide_True.
Qed.

Lemma target_opposite d row col t :
  target d row col = Some t → target (opposite d) t.1 t.2 = Some (row, col).
Proof.
  intros [[-> ->]|[[-> ->]|[[-> ->]|[-> ->]]]]%target_cases;
    unfold opposite, target; simpl; f_equal; f_equal; lia.
Qed.

Lemma make_move_back p b direction p' :
  square p → the_blank p b →
  make_move p direction = Ok (true, p') →
  make_move p' (opposite direction) = Ok (true, p).
Proof.
  intros Hsq Hblank Hmove.
  pose proof Hsq as [Hsz Hbd]%square_board.
  destruct (make_move_cases p direction true p' Hsq (ex_intro _ b Hblank) Hmove)
    as [->|(b' & t & v & Hb' & Ht & Hsq' & Htar & Hv & -> & _)].
  - exfalso. destruct (get_valid_moves_spec p b Hsq Hblank)
      as (valid & Hvalid & Hin).
    pose proof Hmove as Hmove'.
    unfold make_move in Hmove'. rewrite Hvalid in Hmove'. simpl in Hmove'.
    case_decide as Hd; [|done]. clear Hmove'.
    apply Hin in Hd as (t & Htar & H1 & H2).
    destruct (make_move_valid p b direction t Hsq Hblank Htar H1 H2)
      as (Hm & _ & _ & Hbt).
    rewrite Hm in Hmove. injection Hmove as Hmove. rewrite Hmove in Hbt.
    assert (t = b) as -> by (apply (proj2 Hblank), Hbt).
    destruct b. by apply target_neq in Htar.
  - assert (b' = b) as -> by (apply (proj2 Hblank), Hb').
    pose proof (tile_at_Some _ _ _ _ Hbd (proj1 Hblank)) as [Hb1 Hb2].
    destruct (make_move_valid _ t (opposite direction) b Hsq' Ht)
      as (-> & _); simpl.
    + destruct b. by apply target_opposite.
    + lia.
    + lia.
    + do 2 f_equal. destruct p as [n tt st]. unfold with_state. simpl in *.
      f_equal. by eapply swap_cells_back; [|apply Hblank|].
Qed.

(** A move that [make_move] accepts changes the board and is undone by
    the opposite move: the puzzle is back as it was.  A move it rejects
    leaves the puzzle as it is. *)
Theorem make_move_undo p b direction ok p' :
  square p → the_blank p b →
  make_move p direction = Ok (ok, p') →
  if ok then
    state p' ≠ state p ∧ make_move p' (opposite direction) = Ok (true, p)
  else p' = p.
Proof.
  intros Hsq Hblank Hmove. destruct ok.
  - split; [|by apply (make_move_back p b)].
    pose proof Hsq as [Hsz Hbd]%square_board.
    destruct (make_move_cases p direction true p' Hsq (ex_intro _ b Hblank)
                Hmove) as [->|(b' & t & v & Hb' & Ht & _ & Htar & Hv & -> & _)].
    + exfalso. destruct (get_valid_moves_spec p b Hsq Hblank)
        as (valid & Hvalid & Hin).
      pose proof Hmove as Hmove'.
      unfold make_move in Hmove'. rewrite Hvalid in Hmove'. simpl in Hmove'.
      case_decide as Hd; [|done]. clear Hmove'.
      apply Hin in Hd as (t & Htar & H1 & H2).
      destruct (make_move_valid p b direction t Hsq Hblank Htar H1 H2)
        as (Hm & _ & _ & Hbt).
      rewrite Hm in Hmove. injection Hmove as Hmove. rewrite Hmove in Hbt.
      assert (t = b) as -> by (apply (proj2 Hblank), Hbt).
      destruct b. by apply target_neq in Htar.
    + assert (b' = b) as -> by (apply (proj2 Hblank), Hb').
      simpl. intros Heq.
      pose proof (tile_at_swap_cells _ _ b t 0 v b Hbd (proj1 Hblank) Hv) as Hsw.
      rewrite Heq, decide_True in Hsw by done.
      rewrite (proj1 Hblank) in Hsw. injection Hsw as <-.
      assert (t = b) as -> by (apply (proj2 Hblank), Hv).
      destruct b. by apply target_neq in Htar.
  - unfold make_move in Hmove.
    destruct (get_valid_moves p) as [valid| |]; simpl in Hmove; [|done..].
    case_decide; [|by simplify_eq].
    destruct (find_empty p) as [[row col]| |]; simpl in Hmove; [|done..].
    destruct (target direction row col) as [[new_row new_col]|]; [|done].
    destruct (py_getitem2 (state p) new_row new_col); simpl in Hmove; [|done..].
    destruct (py_getitem2 (state p) row col); simpl in Hmove; [|done..].
    destruct (py_setitem2 (state p) row col _); simpl in Hmove; [|done..].
    destruct (py_setitem2 _ new_row new_col _); simpl in Hmove; done.
Qed.

Lemma make_move_undo_witness :
  let p := mkPuzzle 3 8 [[1; 2; 3]; [4; 5; 6]; [7; 0; 8]] in
  make_move (mkPuzzle 3 8 [[1; 2; 3]; [4; 5; 6]; [7; 8; 0]]) "left" =
    Ok (true, p).
Proof.
  intros p.
  apply (make_move_undo p (2, 1) "right" true
           (mkPuzzle 3 8 [[1; 2; 3]; [4; 5; 6]; [7; 8; 0]])).
  - split; [reflexivity|]. repeat constructor.
  - split; [reflexivity|]. intros [i j] Hq.
    unfold tile_at in Hq. simpl in Hq.
    destruct (Z.leb_spec 0 i); [|done]. destruct (Z.leb_spec 0 j); [|done].
    simpl in Hq.
    destruct (Z.to_nat i) as [|[|[|?]]] eqn:Hi; simpl in Hq; try done;
      destruct (Z.to_nat j) as [|[|[|?]]] eqn:Hj; simpl in Hq; try done.
    f_equal; lia.
  - vm_compute. reflexivity.
Defined.

(** *** What moves keep *)

Lemma apply_moves_keep p moves :
  playable p →
  ∃ q, apply_moves p moves = Ok q ∧ playable q ∧ size q = size p ∧
       total_tiles q = total_tiles p ∧
       concat (state q) ≡ₚ concat (state p) ∧
       (distinct_tiles p → is_solvable q = is_solvable p).
Proof.
  revert p. induction moves as [|m moves IH]; intros p Hp; simpl.
  - by exists p.
  - destruct (make_move_playable p m Hp) as (ok & p' & Hm & Hp' & Hs & Ht).
    rewrite Hm. simpl.
    destruct (IH p' Hp') as (q & -> & Hq & Hsq & Htq & Hperm & Hsol).
    destruct Hp as (Hsq0 & Hn & Hbl).
    pose proof (make_move_perm p m ok p' Hsq0 Hbl Hm) as Hperm'.
    exists q. split_and!; try done; try congruence.
    + by rewrite Hperm.
    + intros Hd. rewrite Hsol.
      * by eapply is_solvable_move.
      * unfold distinct_tiles in *. by rewrite Hperm'.
Qed.

(** Moves never lose or duplicate a tile: after any sequence of
    [make_move] calls, valid or not, the board has its size and holds the
    numbers it held, each as often as before. *)
Theorem moves_keep_tiles p moves :
  playable p →
  ∃ q, apply_moves p moves = Ok q ∧ size q = size p ∧
       square q ∧ (∃ b, the_blank q b) ∧
       concat (state q) ≡ₚ concat (state p).
Proof.
  intros Hp.
  destruct (apply_moves_keep p moves Hp)
    as (q & Hq & (Hsq & _ & Hb) & Hs & _ & Hperm & _).
  by exists q.
Qed.

Lemma moves_keep_tiles_witness :
  ∃ q, apply_moves (mkPuzzle 3 8 [[1; 2; 3]; [4; 5; 6]; [7; 8; 0]])
         ["up"; "left"] = Ok q ∧
       concat (state q) ≡ₚ [1; 2; 3; 4; 5; 6; 7; 8; 0].
Proof.
  destruct (moves_keep_tiles (mkPuzzle 3 8 [[1; 2; 3]; [4; 5; 6]; [7; 8; 0]])
              ["up"; "left"]) as (q & Hq & _ & _ & _ & Hperm).
  - split; [|split; [simpl; lia|exists (2, 2)]].
    + split; [reflexivity|]. repeat constructor.
    + split; [reflexivity|]. intros [i j] Hq.
      unfold tile_at in Hq. simpl in Hq.
      destruct (Z.leb_spec 0 i); [|done]. destruct (Z.leb_spec 0 j); [|done].
      simpl in Hq.
      destruct (Z.to_nat i) as [|[|[|?]]] eqn:Hi; simpl in Hq; try done;
        destruct (Z.to_nat j) as [|[|[|?]]] eqn:Hj; simpl in Hq; try done.
      f_equal; lia.
  - exists q. split; [exact Hq|exact Hperm].
Defined.

(** On a board whose numbers are pairwise distinct, no move changes the
    answer of [is_solvable]; so the precheck accepts every board from which
    some sequence of moves leads to the goal. *)
Theorem solvable_invariant p moves :
  playable p → distinct_tiles p →
  ∃ q, apply_moves p moves = Ok q ∧ is_solvable q = is_solvable p ∧
       (consistent p → is_goal q = true → is_solvable p = Ok true).
Proof.
  intros Hp Hd.
  destruct (apply_moves_keep p moves Hp)
    as (q & Hq & Hpq & Hs & Ht & _ & Hsol).
  exists q. split; [done|]. split; [by apply Hsol|].
  intros Hc Hg. rewrite <- Hsol by done. apply goal_solvable; try done.
  unfold consistent in *. by rewrite Hs, Ht.
Qed.

Lemma solvable_invariant_witness :
  ∃ q, apply_moves (mkPuzzle 3 8 [[1; 2; 3]; [4; 5; 6]; [7; 0; 8]])
         ["right"] = Ok q ∧
       is_solvable q =
       is_solvable (mkPuzzle 3 8 [[1; 2; 3]; [4; 5; 6]; [7; 0; 8]]).
Proof.
  destruct (solvable_invariant
              (mkPuzzle 3 8 [[1; 2; 3]; [4; 5; 6]; [7; 0; 8]]) ["right"])
    as (q & Hq & Hsol & _).
  - split; [|split; [simpl; lia|exists (2, 1)]].
    + split; [reflexivity|]. repeat constructor.
    + split; [reflexivity|]. intros [i j] Hq.
      unfold tile_at in Hq. simpl in Hq.
      destruct (Z.leb_spec 0 i); [|done]. destruct (Z.leb_spec 0 j); [|done].
      simpl in Hq.
      destruct (Z.to_nat i) as [|[|[|?]]] eqn:Hi; simpl in Hq; try done;
        destruct (Z.to_nat j) as [|[|[|?]]] eqn:Hj; simpl in Hq; try done.
      f_equal; lia.
  - unfold distinct_tiles. simpl.
    repeat (apply NoDup_cons; split; [by apply (bool_decide_unpack _)|]).
    apply NoDup_nil_2.
  - exists q. split; [exact Hq|exact Hsol].
Defined.

(** *** The blank and the valid moves *)

(** Positions in reading order. *)
Lemma find_empty_row_first p i js :
  square p → 0 <= i < size p → (∀ j, j ∈ js → 0 <= j < size p) →
  ∃ r, find_empty_row (state p) i js = Ok r ∧
       match r with
       | Some q =>
           q.1 = i ∧ tile_at (state p) q = Some 0 ∧
           ∃ pre post, js = pre ++ q.2 :: post ∧
                       ∀ j, j ∈ pre → tile_at (state p) (i, j) ≠ Some 0
       | None => ∀ j, j ∈ js → tile_at (state p) (i, j) ≠ Some 0
       end.
Proof.
  intros Hsq Hi. induction js as [|j js IH]; intros Hjs; simpl.
  - exists None. split; [done|]. intros j Hj. by apply elem_of_nil in Hj.
  - destruct (getitem2_tile p Hsq i j Hi) as (v & Hv & ->); [apply Hjs; by left|].
    simpl. destruct (Z.eqb_spec v 0) as [->|Hne].
    + exists (Some (i, j)). split; [done|]. split; [done|]. split; [done|].
      exists [], js. split; [done|]. by intros j' ?%elem_of_nil.
    + destruct IH as (r & -> & Hr); [intros j' Hj'; apply Hjs; by right|].
      exists r. split; [done|]. destruct r as [q|].
      * destruct Hr as (? & ? & pre & post & -> & Hpre).
        split; [done|]. split; [done|]. exists (j :: pre), post.
        split; [done|]. intros j' [->|?]%elem_of_cons; [|by apply Hpre].
        rewrite Hv. congruence.
      * intros j' Hj'. apply elem_of_cons in Hj' as [->|Hj']; [|by apply Hr].
        rewrite Hv. congruence.
Qed.

Lemma find_empty_rows_first p ix js :
  square p →
  (∀ i, i ∈ ix → 0 <= i < size p) → (∀ j, j ∈ js → 0 <= j < size p) →
  ∃ r, find_empty_rows (state p) ix js = Ok r ∧
       match r with
       | Some q =>
           tile_at (state p) q = Some 0 ∧
           (∃ pre post, ix = pre ++ q.1 :: post ∧
              ∀ i j, i ∈ pre → j ∈ js → tile_at (state p) (i, j) ≠ Some 0) ∧
           (∃ pre post, js = pre ++ q.2 :: post ∧
              ∀ j, j ∈ pre → tile_at (state p) (q.1, j) ≠ Some 0)
       | None => ∀ i j, i ∈ ix → j ∈ js → tile_at (state p) (i, j) ≠ Some 0
       end.
Proof.
  intros Hsq Hix Hjs. induction ix as [|i ix IH]; simpl.
  - exists None. split; [done|]. intros i j Hi. by apply elem_of_nil in Hi.
  - destruct (find_empty_row_first p i js Hsq) as (r & -> & Hr);
      [apply Hix; by left|done|].
    simpl. destruct r as [q|].
    + exists (Some q). split; [done|]. destruct Hr as (<- & ? & Hpre).
      split; [done|]. split; [|done]. exists [], ix. split; [done|].
      by intros i j ?%elem_of_nil.
    + destruct IH as (r & -> & Hr'); [intros i' Hi'; apply Hix; by right|].
      exists r. split; [done|]. destruct r as [q|].
      * destruct Hr' as (? & (pre & post & -> & Hpre) & ?).
        split; [done|]. split; [|done]. exists (i :: pre), post.
        split; [done|]. intros i' j [->|?]%elem_of_cons Hj;
          [by apply Hr|by apply Hpre].
      * intros i' j Hi' Hj. apply elem_of_cons in Hi' as [->|Hi'];
          [by apply Hr|by apply Hr'].
Qed.

Lemma range_split n pre x post :
  range n = pre ++ x :: post → ∀ y, y ∈ pre ↔ 0 <= y < x.
Proof.
  unfold range. intros Heq y.
  assert (pre = Z.of_nat <$> seq 0 (length pre) ∧ x = Z.of_nat (length pre))
    as [Hpre ->].
  { assert (∀ k m (pre : list Z) x post,
              Z.of_nat <$> seq k m = pre ++ x :: post →
              pre = Z.of_nat <$> seq k (length pre) ∧
              x = Z.of_nat (k + length pre)) as Haux.
    { clear. intros k m. revert k. induction m as [|m IH]; intros k pre x post Heq.
      - by destruct pre.
      - simpl in Heq. destruct pre as [|a pre]; simpl in *.
        + injection Heq as <- _. split; [done|]. f_equal. lia.
        + injection Heq as <- Heq. apply IH in Heq as [Hp ->].
          split; [simpl; by f_equal|]. f_equal. lia. }
    apply Haux in Heq as [? ->]. split; [done|]. f_equal. }
  rewrite Hpre, list_elem_of_fmap, length_fmap, length_seq. split.
  - intros (k & -> & Hk). apply list_elem_of_In, in_seq in Hk. lia.
  - intros Hy. exists (Z.to_nat y). split; [lia|].
    apply list_elem_of_In, in_seq. lia.
Qed.

(** [find_empty] returns the first position, in reading order, that holds
    0; on a board without 0 it returns [(-1, -1)], and [get_valid_moves]
    then answers ["down"; "right"]. *)
Theorem find_empty_first p :
  square p →
  ∃ q, find_empty p = Ok q ∧
       ((tile_at (state p) q = Some 0 ∧
         ∀ q', tile_at (state p) q' = Some 0 →
               q.1 < q'.1 ∨ (q.1 = q'.1 ∧ q.2 <= q'.2)) ∨
        (q = (-1, -1) ∧ (∀ q', tile_at (state p) q' ≠ Some 0) ∧
         (0 < size p → get_valid_moves p = Ok ["down"; "right"]))).
Proof.
  intros Hsq. unfold find_empty.
  destruct (find_empty_rows_first p (range (size p)) (range (size p)) Hsq)
    as (r & Hr & Hspec); try (by intros i; apply elem_of_range).
  rewrite Hr. simpl. destruct r as [q|]; simpl.
  - exists q. split; [done|]. left.
    destruct Hspec as (Hq & (pre & post & Hix & Hpre) &
                       (pre' & post' & Hjs & Hpre')).
    split; [done|]. intros q' Hq'.
    pose proof (tile_at_range p Hsq q' 0 Hq') as [H1 H2].
    destruct (Z.lt_trichotomy q'.1 q.1) as [Hlt|[Heq|Hgt]]; [|right|by left].
    + exfalso. apply (Hpre q'.1 q'.2); [| |by destruct q'].
      * apply (range_split _ _ _ _ Hix). lia.
      * by apply elem_of_range.
    + split; [done|].
      destruct (Z.le_gt_cases q.2 q'.2) as [?|Hlt]; [done|].
      exfalso. apply (Hpre' q'.2); [|by rewrite <- Heq; destruct q'].
      apply (range_split _ _ _ _ Hjs). lia.
  - exists (-1, -1). split; [done|]. right. split; [done|].
    assert (∀ q', tile_at (state p) q' ≠ Some 0) as Hno.
    { intros q' Hq'. pose proof (tile_at_range p Hsq q' 0 Hq') as [H1 H2].
      apply (Hspec q'.1 q'.2); [by apply elem_of_range..|by destruct q']. }
    split; [done|]. intros Hpos. unfold get_valid_moves, find_empty.
    rewrite Hr. simpl.
    destruct (Z.ltb_spec (-1) (size p - 1)); [done|lia].
Qed.

Lemma find_empty_first_witness :
  find_empty (mkPuzzle 3 8 [[1; 2; 3]; [4; 5; 6]; [7; 8; 9]]) = Ok (-1, -1).
Proof.
  destruct (find_empty_first (mkPuzzle 3 8 [[1; 2; 3]; [4; 5; 6]; [7; 8; 9]]))
    as (q & Hq & _).
  - split; [reflexivity|]. repeat constructor.
  - vm_compute in Hq. injection Hq as <-. reflexivity.
Defined.

(** With one blank on the board, [get_valid_moves] lists without
    repetition, in the order up, down, left, right, exactly the directions
    in which [make_move] moves the blank; from size 2 on there are between
    two and four of them. *)
Theorem valid_moves_move p b :
  square p → the_blank p b →
  ∃ valid, get_valid_moves p = Ok valid ∧
    NoDup valid ∧ sublist valid ["up"; "down"; "left"; "right"] ∧
    (∀ d, d ∈ valid ↔
          ∃ p', make_move p d = Ok (true, p') ∧ state p' ≠ state p) ∧
    (2 <= size p → 2 <= Z.of_nat (length valid) <= 4).
Proof.
  intros Hsq Hblank. pose proof Hsq as [Hsz Hbd]%square_board.
  destruct (get_valid_moves_spec p b Hsq Hblank) as (valid & Hvalid & Hin).
  exists valid. split; [done|].
  pose proof (tile_at_Some _ _ _ _ Hbd (proj1 Hblank)) as [Hb1 Hb2].
  assert (valid =
          (if 0 <? b.1 then ["up"] else []) ++
          (if b.1 <? size p - 1 then ["down"] else []) ++
          (if 0 <? b.2 then ["left"] else []) ++
          (if b.2 <? size p - 1 then ["right"] else [])) as Hshape.
  { unfold get_valid_moves in Hvalid.
    rewrite (find_empty_blank p Hsq b Hblank) in Hvalid. simpl in Hvalid.
    destruct b as [row col]. simpl in *.
    destruct (0 <? row), (row <? size p - 1), (0 <? col),
      (col <? size p - 1); by simplify_eq. }
  split_and!.
  - rewrite Hshape.
    destruct (0 <? b.1), (b.1 <? size p - 1), (0 <? b.2),
      (b.2 <? size p - 1); simpl;
      repeat (apply NoDup_cons; split; [by apply (bool_decide_unpack _)|]);
      apply NoDup_nil_2.
  - rewrite Hshape.
    destruct (0 <? b.1), (b.1 <? size p - 1), (0 <? b.2),
      (b.2 <? size p - 1); simpl;
      repeat first [apply sublist_nil | apply sublist_skip
                   | apply sublist_cons].
  - intros d. split.
    + intros Hd. apply Hin in Hd as (t & Ht & Ht1 & Ht2).
      destruct (make_move_valid p b d t Hsq Hblank Ht Ht1 Ht2)
        as (Hm & (v & Hv & Hv0) & _ & _).
      eexists. split; [done|]. simpl. intros Heq.
      pose proof (tile_at_swap_cells _ _ b t 0 v b Hbd (proj1 Hblank) Hv) as Hsw.
      rewrite Heq, decide_True in Hsw by done.
      rewrite (proj1 Hblank) in Hsw. congruence.
    + intros (p' & Hm & Hne).
      destruct (decide (d ∈ valid)) as [?|Hn]; [done|].
      unfold make_move in Hm. rewrite Hvalid in Hm. simpl in Hm.
      by rewrite decide_False in Hm.
  - intros Hn. rewrite Hshape.
    destruct (Z.ltb_spec 0 b.1), (Z.ltb_spec b.1 (size p - 1)),
      (Z.ltb_spec 0 b.2), (Z.ltb_spec b.2 (size p - 1)); simpl; lia.
Qed.

Lemma valid_moves_move_witness :
  get_valid_moves (mkPuzzle 3 8 [[1; 2; 3]; [4; 5; 6]; [7; 8; 0]]) =
    Ok ["up"; "left"].
Proof.
  destruct (valid_moves_move (mkPuzzle 3 8 [[1; 2; 3]; [4; 5; 6]; [7; 8; 0]])
              (2, 2)) as (valid & Hv & _).
  - split; [reflexivity|]. repeat constructor.
  - split; [reflexivity|]. intros [i j] Hq.
    unfold tile_at in Hq. simpl in Hq.
    destruct (Z.leb_spec 0 i); [|done]. destruct (Z.leb_spec 0 j); [|done].
    simpl in Hq.
    destruct (Z.to_nat i) as [|[|[|?]]] eqn:Hi; simpl in Hq; try done;
      destruct (Z.to_nat j) as [|[|[|?]]] eqn:Hj; simpl in Hq; try done.
    f_equal; lia.
  - reflexivity.
Defined.

(** *** The goal board and the constructor *)


Lemma goal_row_spec T js :
  ∀ num c row,
    goal_counter T num c →
    ∃ new num',
      goal_row js T num row = (row ++ new, num') ∧
      length new = length js ∧
      (∀ k, (k < length js)%nat →
            new !! k = Some (goal_value T (c + Z.of_nat k))) ∧
      goal_counter T num' (c + Z.of_nat (length js)).
Proof.
  induction js as [|j js IH]; intros num c row Hc; simpl.
  - exists [], num. rewrite app_nil_r, Z.add_0_r.
    split; [done|]. split; [done|]. split; [intros; lia|done].
  - destruct (Z.leb_spec num T) as [Hle|Hgt].
    + destruct (IH (num + 1) (c + 1) (row ++ [num])) as (new & num' & -> & Hl & Hn & Hc').
      { destruct Hc as [H1 H2]. specialize (H2 Hle). subst c.
        split; [lia|]. intros; lia. }
      exists (num :: new), num'. rewrite <- app_assoc. simpl.
      split; [done|]. split; [by rewrite Hl|]. split.
      * intros [|k] Hk; simpl.
        -- destruct Hc as [H1 H2]. rewrite <- (H2 Hle), Z.add_0_r.
           unfold goal_value. by destruct (Z.leb_spec num T); [|lia].
        -- rewrite Hn by lia. do 2 f_equal. lia.
      * replace (c + Z.of_nat (S (length js))) with (c + 1 + Z.of_nat (length js))
          by lia. done.
    + destruct (IH num (c + 1) (row ++ [0])) as (new & num' & -> & Hl & Hn & Hc').
      { destruct Hc as [H1 H2]. split; [lia|]. intros; lia. }
      exists (0 :: new), num'. rewrite <- app_assoc. simpl.
      split; [done|]. split; [by rewrite Hl|]. split.
      * intros [|k] Hk; simpl.
        -- rewrite Z.add_0_r. unfold goal_value.
           destruct (Z.leb_spec c T); [|done]. destruct Hc as [H1 H2]. lia.
        -- rewrite Hn by lia. do 2 f_equal. lia.
      * replace (c + Z.of_nat (S (length js))) with (c + 1 + Z.of_nat (length js))
          by lia. done.
Qed.

Lemma length_puzzle_range n : length (range n) = Z.to_nat n.
Proof. unfold range. by rewrite length_fmap, length_seq. Qed.

Lemma goal_rows_spec n T ix :
  ∀ num c goal,
    goal_counter T num c →
    ∃ rows,
      goal_rows ix n T num goal = goal ++ rows ∧
      length rows = length ix ∧
      ∀ r row, rows !! r = Some row →
        length row = Z.to_nat n ∧
        ∀ k, (k < Z.to_nat n)%nat →
          row !! k =
          Some (goal_value T (c + Z.of_nat (r * Z.to_nat n) + Z.of_nat k)).
Proof.
  induction ix as [|i ix IH]; intros num c goal Hc; simpl.
  - exists []. rewrite app_nil_r. split; [done|]. split; [done|].
    intros r row Hr. by rewrite lookup_nil in Hr.
  - destruct (goal_row_spec T (range n) num c [] Hc)
      as (new & num' & Hrow & Hl & Hn & Hc').
    rewrite Hrow. simpl. rewrite length_puzzle_range in Hl, Hn, Hc'.
    destruct (IH num' (c + Z.of_nat (Z.to_nat n)) (goal ++ [new]) Hc')
      as (rows & -> & Hlen & Hrows).
    exists (new :: rows). rewrite <- app_assoc. simpl.
    split; [done|]. split; [by rewrite Hlen|].
    intros [|r] row Hr; simpl in Hr.
    + simplify_eq. split; [done|]. intros k Hk. rewrite Hn by done.
      do 2 f_equal. lia.
    + destruct (Hrows r row Hr) as [? Hk]. split; [done|].
      intros k Hlt. rewrite Hk by done. do 2 f_equal. lia.
Qed.

Lemma generate_goal_state_spec p :
  board (Z.to_nat (size p)) (generate_goal_state p) ∧
  ∀ i j, 0 <= i < size p → 0 <= j < size p →
    tile_at (generate_goal_state p) (i, j) =
      Some (goal_value (total_tiles p) (i * size p + j + 1)).
Proof.
  unfold generate_goal_state.
  destruct (goal_rows_spec (size p) (total_tiles p) (range (size p)) 1 1 [])
    as (rows & -> & Hlen & Hrows); [done|].
  simpl. rewrite length_puzzle_range in Hlen. split.
  - split; [done|]. apply Forall_forall. intros row Hrow.
    apply list_elem_of_lookup in Hrow as [r Hr]. by apply Hrows in Hr as [? _].
  - intros i j Hi Hj. unfold tile_at. simpl.
    destruct (Z.leb_spec 0 i); [|lia]. destruct (Z.leb_spec 0 j); [|lia]. simpl.
    destruct (lookup_lt_is_Some_2 rows (Z.to_nat i)) as [row Hrow]; [lia|].
    rewrite Hrow. simpl. destruct (Hrows _ _ Hrow) as [_ Hk].
    rewrite Hk by lia. do 2 f_equal. nia.
Qed.

(** [_generate_goal_state] builds a board of [size] rows of [size]
    numbers whose cell [(i, j)] holds [i * size + j + 1] when that is at
    most [total_tiles], and 0 otherwise; [is_goal] holds exactly of the
    puzzles whose board is this one. *)
Theorem goal_state_cells p :
  0 <= size p →
  board (Z.to_nat (size p)) (generate_goal_state p) ∧
  (∀ i j, 0 <= i < size p → 0 <= j < size p →
     tile_at (generate_goal_state p) (i, j) =
       Some (goal_value (total_tiles p) (i * size p + j + 1))) ∧
  (is_goal p = true ↔
   square p ∧
   ∀ i j, 0 <= i < size p → 0 <= j < size p →
     tile_at (state p) (i, j) =
       Some (goal_value (total_tiles p) (i * size p + j + 1))).
Proof.
  intros Hn. destruct (generate_goal_state_spec p) as [Hb Hcells].
  split; [done|]. split; [done|].
  unfold is_goal. rewrite bool_decide_eq_true. split.
  - intros Heq. split; [|by rewrite Heq].
    apply square_board. rewrite Heq. destruct Hb as [Hl Hr]. rewrite Hl.
    split; [lia|done].
  - intros [Hsq Hst]. pose proof Hsq as [Hsz Hbd]%square_board.
    apply (board_ext (Z.to_nat (size p))); [by rewrite Hsz, Nat2Z.id|done|].
    intros [i j].
    destruct (decide (0 <= i < size p ∧ 0 <= j < size p)) as [[Hi Hj]|Hout].
    + by rewrite Hst, Hcells.
    + destruct (tile_at (state p) (i, j)) as [v|] eqn:Hv.
      { apply (tile_at_Some _ _ _ _ Hbd) in Hv. simpl in Hv. lia. }
      destruct (tile_at (generate_goal_state p) (i, j)) as [v|] eqn:Hv';
        [|done].
      apply (tile_at_Some _ _ _ _ Hb) in Hv'. simpl in Hv'. lia.
Qed.

Lemma goal_state_cells_witness :
  tile_at (generate_goal_state (mkPuzzle 3 8 [])) (2, 2) = Some 0.
Proof.
  destruct (goal_state_cells (mkPuzzle 3 8 [])) as (_ & Hcells & _).
  - simpl. lia.
  - rewrite (Hcells 2 2) by (simpl; lia). reflexivity.
Defined.

Lemma goal_value_zero T k : 0 < k → goal_value T k = 0 ↔ T < k.
Proof. unfold goal_value. destruct (Z.leb_spec k T); lia. Qed.

(** The default puzzle. *)
Lemma init_default_goal n :
  3 <= n <= 5 →
  ∃ p, PuzzleLogic.init n None = Ok p ∧ size p = n ∧
       total_tiles p = n * n - 1 ∧ state p = canonical_goal n ∧
       square p ∧ the_blank p (n - 1, n - 1).
Proof.
  intros Hn. unfold PuzzleLogic.init.
  destruct (Z.ltb_spec n 3); [lia|]. destruct (Z.ltb_spec 5 n); [lia|]. simpl.
  eexists. split; [done|]. simpl. split; [done|]. split; [done|].
  split; [done|].
  set (g := mkPuzzle n (n * n - 1) []).
  destruct (generate_goal_state_spec g) as [Hb Hcells]. simpl in Hb, Hcells.
  pose proof Hb as [Hl Hr].
  assert (square (mkPuzzle n (n * n - 1) (generate_goal_state g))) as Hsq.
  { apply square_board. simpl. rewrite Hl. split; [lia|done]. }
  split; [done|]. split; simpl.
  - rewrite Hcells by lia. f_equal. apply goal_value_zero; lia.
  - intros [i j] Hq.
    pose proof (tile_at_Some _ _ _ _ Hb Hq) as [Hi Hj]. simpl in Hi, Hj.
    rewrite Hcells in Hq by lia. injection Hq as Hq.
    apply goal_value_zero in Hq; [|nia]. f_equal; nia.
Qed.

Lemma init_default_facts n :
  3 <= n <= 5 →
  ∃ p, PuzzleLogic.init n None = Ok p ∧ size p = n ∧
       playable p ∧ consistent p ∧ distinct_tiles p ∧
       the_blank p (n - 1, n - 1) ∧ is_goal p = true.
Proof.
  intros Hn.
  destruct (init_default_goal n Hn) as (p & Hp & Hs & Ht & Hst & Hsq & Hb).
  exists p. split; [done|]. split; [done|].
  assert (consistent p) as Hc by (unfold consistent; by rewrite Ht, Hs).
  split_and!; try done.
  - split; [done|]. split; [lia|]. by exists (n - 1, n - 1).
  - unfold distinct_tiles. rewrite Hst.
    assert (n = 3 ∨ n = 4 ∨ n = 5) as [->|[->| ->]] by lia;
      by apply (bool_decide_unpack _).
  - unfold is_goal. apply bool_decide_eq_true. rewrite Hst.
    unfold canonical_goal, generate_goal_state. simpl. by rewrite Ht, Hs.
Qed.

(** The default puzzle [Puzzle(n)] is the solved one: blank in the last
    cell, numbers pairwise distinct, accepted by [is_goal] and
    [is_solvable], with the two moves up and left; outside 3..5 the
    constructor raises [ValueError] whatever the state given. *)
Theorem init_default n :
  (∀ st, PuzzleLogic.init n st = Raise ValueError ↔ n < 3 ∨ 5 < n) ∧
  (3 <= n <= 5 →
   ∃ p, PuzzleLogic.init n None = Ok p ∧ size p = n ∧
        playable p ∧ consistent p ∧ distinct_tiles p ∧
        the_blank p (n - 1, n - 1) ∧
        is_goal p = true ∧ is_solvable p = Ok true ∧
        get_valid_moves p = Ok ["up"; "left"] ∧ copy p = Ok p).
Proof.
  split.
  - intros st. unfold PuzzleLogic.init.
    destruct (Z.ltb_spec n 3), (Z.ltb_spec 5 n); simpl;
      try (split; [intros; lia|done]).
    split; [by destruct st|lia].
  - intros Hn.
    destruct (init_default_facts n Hn)
      as (p & Hp & Hs & Hplay & Hc & Hd & Hb & Hg).
    pose proof Hplay as (Hsq & _).
    exists p. split_and!; try done.
    + by apply goal_solvable.
    + unfold get_valid_moves. rewrite (find_empty_blank p Hsq _ Hb). simpl.
      destruct (Z.ltb_spec 0 (n - 1)); [|lia].
      destruct (Z.ltb_spec (n - 1) (size p - 1)); [lia|]. done.
    + rewrite copy_normalized by (done || lia). f_equal. by apply normalized_id.
Qed.

Lemma init_default_witness :
  ∃ p, PuzzleLogic.init 3 None = Ok p ∧
       state p = [[1; 2; 3]; [4; 5; 6]; [7; 8; 0]].
Proof.
  destruct (init_default 3) as [_ Hd].
  destruct Hd as (p & Hp & _); [lia|].
  exists p. split; [exact Hp|].
  vm_compute in Hp. injection Hp as <-. reflexivity.
Defined.

(** The constructor takes [size] from the board given and [total_tiles]
    from its argument. *)
Lemma init_state_goal n st b p :
  3 <= n <= 5 → PuzzleLogic.init n (Some st) = Ok p →
  square p → the_blank p b →
  is_goal p = true → size p = n.
Proof.
  intros Hn Hinit Hsq Hb Hg. unfold PuzzleLogic.init in Hinit.
  destruct (Z.ltb_spec n 3); [lia|]. destruct (Z.ltb_spec 5 n); [lia|].
  simpl in Hinit. injection Hinit as <-. simpl in *.
  set (p := mkPuzzle (Z.of_nat (length st)) (n * n - 1) st) in *.
  set (m := Z.of_nat (length st)) in *.
  destruct (goal_state_cells p) as (_ & _ & Hgoal); [simpl; lia|].
  apply Hgoal in Hg as [_ Hcells]. simpl in Hcells. fold m in Hcells.
  destruct Hb as [Hb Huniq]. simpl in Hb, Huniq.
  pose proof Hsq as [Hsz Hbd]%square_board. simpl in Hbd.
  pose proof (tile_at_Some _ _ _ _ Hbd Hb) as [Hb1 Hb2]. fold m in Hb1, Hb2.
  destruct b as [b1 b2]. simpl in Hb1, Hb2.
  rewrite Hcells in Hb by lia. injection Hb as Hb.
  apply goal_value_zero in Hb; [|nia].
  destruct (decide (n * n - 1 < m * m - 1)) as [Hlt|Hge]; [|nia].
  exfalso.
  assert (2 <= m) by nia.
  assert (tile_at st (m - 1, m - 1) = Some 0) as Hz1.
  { rewrite Hcells by lia. f_equal. apply goal_value_zero; nia. }
  assert (tile_at st (m - 1, m - 2) = Some 0) as Hz2.
  { rewrite Hcells by lia. f_equal. apply goal_value_zero; nia. }
  apply Huniq in Hz1, Hz2. rewrite <- Hz2 in Hz1. injection Hz1. lia.
Qed.

(** A puzzle built from a board ([Puzzle(n, st)]) has the side of the
    board as its size but [n * n - 1] as [total_tiles]: with one blank it
    can only be the goal when [n] is the side of the board.  [copy]
    rebuilds [total_tiles] from the size, raising [ValueError] for a side
    outside 3..5; a copy is its own copy. *)
Theorem init_with_state n st b :
  3 <= n <= 5 → board (length st) st →
  the_blank (mkPuzzle (Z.of_nat (length st)) (n * n - 1) st) b →
  ∃ p, PuzzleLogic.init n (Some st) = Ok p ∧
       state p = st ∧ size p = Z.of_nat (length st) ∧
       total_tiles p = n * n - 1 ∧
       (is_goal p = true → size p = n) ∧
       (size p < 3 ∨ 5 < size p → copy p = Raise ValueError) ∧
       (3 <= size p <= 5 →
        ∃ p', copy p = Ok p' ∧ playable p' ∧ consistent p' ∧
              key p' = key p ∧ copy p' = Ok p').
Proof.
  intros Hn Hbd Hb.
  set (p := mkPuzzle (Z.of_nat (length st)) (n * n - 1) st) in *.
  assert (PuzzleLogic.init n (Some st) = Ok p) as Hinit.
  { unfold PuzzleLogic.init.
    destruct (Z.ltb_spec n 3); [lia|]. by destruct (Z.ltb_spec 5 n); [lia|]. }
  assert (square p) as Hsq by (by apply square_board).
  exists p. split; [done|]. split; [done|]. split; [done|]. split; [done|].
  split; [|split].
  - by apply (init_state_goal n st b p).
  - intros Hout. unfold copy, PuzzleLogic.init.
    destruct (Z.ltb_spec (size p) 3), (Z.ltb_spec 5 (size p)); simpl; done || lia.
  - intros Hin. exists (normalized p).
    split; [by apply copy_normalized|].
    split; [split; [done|split; [done|by exists b]]|].
    split; [done|]. split; [done|].
    exact (copy_normalized (normalized p) Hsq Hin).
Qed.

Lemma init_with_state_witness :
  ∃ p, PuzzleLogic.init 3 (Some [[1; 2]; [3; 0]]) = Ok p ∧
       copy p = Raise ValueError.
Proof.
  destruct (init_with_state 3 [[1; 2]; [3; 0]] (1, 1))
    as (p & Hp & _ & _ & _ & _ & Hcopy & _).
  - lia.
  - split; [reflexivity|]. repeat constructor.
  - split; [reflexivity|]. intros [i j] Hq.
    unfold tile_at in Hq. simpl in Hq.
    destruct (Z.leb_spec 0 i); [|done]. destruct (Z.leb_spec 0 j); [|done].
    simpl in Hq.
    destruct (Z.to_nat i) as [|[|?]] eqn:Hi; simpl in Hq; try done;
      destruct (Z.to_nat j) as [|[|?]] eqn:Hj; simpl in Hq; try done.
    f_equal; lia.
  - exists p. split; [exact Hp|]. apply Hcopy.
    vm_compute in Hp. injection Hp as <-. simpl. lia.
Defined.

(** *** Shuffling *)

Lemma valid_moves_playable p :
  playable p →
  ∃ v valid, get_valid_moves p = Ok (v :: valid) ∧
    ∀ d, d ∈ v :: valid →
         ∃ p', make_move p d = Ok (true, p') ∧ playable p' ∧
               size p' = size p ∧ total_tiles p' = total_tiles p.
Proof.
  intros (Hsq & Hn & b & Hb).
  destruct (get_valid_moves_spec p b Hsq Hb) as (valid & Hvalid & Hin).
  pose proof Hsq as [Hsz Hbd]%square_board.
  pose proof (tile_at_Some _ _ _ _ Hbd (proj1 Hb)) as [Hb1 Hb2].
  assert (valid ≠ []) as Hne.
  { intros ->. destruct (decide (0 < b.1)) as [Hup|Hup].
    - assert ("up" ∈ @nil string) as Hx; [|by apply elem_of_nil in Hx].
      apply Hin. exists (b.1 - 1, b.2). split; [done|]. simpl. lia.
    - assert ("down" ∈ @nil string) as Hx; [|by apply elem_of_nil in Hx].
      apply Hin. exists (b.1 + 1, b.2). split; [done|]. simpl. lia. }
  destruct valid as [|v valid]; [done|]. exists v, valid. split; [done|].
  intros d Hd. apply Hin in Hd as (t & Ht & Ht1 & Ht2).
  destruct (make_move_valid p b d t Hsq Hb Ht Ht1 Ht2)
    as (Hm & _ & Hsq' & Hb').
  eexists. split; [done|]. split; [|done].
  split; [done|]. split; [done|]. by exists t.
Qed.

Lemma choice_elem_of d v valid :
  ∃ x, choice d (v :: valid) = Ok x ∧ x ∈ v :: valid.
Proof.
  unfold choice.
  destruct (lookup_lt_is_Some_2 (v :: valid) (d mod length (v :: valid)))
    as [x Hx].
  { apply Nat.mod_upper_bound. simpl. lia. }
  rewrite Hx. exists x. split; [done|]. by eapply list_elem_of_lookup_2.
Qed.

Lemma accepted_apply p moves q : accepted p moves q → apply_moves p moves = Ok q.
Proof. induction 1 as [|p m p1 moves q Hm _ IH]; simpl; [done|]. by rewrite Hm. Qed.

Lemma accepted_snoc p moves q m q' :
  accepted p moves q → make_move q m = Ok (true, q') →
  accepted p (moves ++ [m]) q'.
Proof.
  induction 1 as [|p m0 p1 moves q Hm _ IH]; intros Hq; simpl.
  - econstructor; [done|constructor].
  - econstructor; [done|]. by apply IH.
Qed.

Lemma accepted_back p moves q :
  playable p → accepted p moves q →
  accepted q (reverse (opposite <$> moves)) p.
Proof.
  intros Hp Hacc. induction Hacc as [|p m p1 moves q Hm _ IH]; simpl.
  - constructor.
  - rewrite reverse_cons.
    destruct Hp as (Hsq & Hn & b & Hb).
    destruct (make_move_playable p m) as (ok & p' & Hm' & Hp1 & _);
      [split; [done|split; [done|by exists b]]|].
    rewrite Hm in Hm'. simplify_eq.
    eapply accepted_snoc; [by apply IH|].
    by apply (make_move_back p b).
Qed.

Lemma shuffle_step_ok draws p i :
  playable p →
  ∃ d p', shuffle_step draws p i = Ok p' ∧
          make_move p d = Ok (true, p') ∧ playable p'.
Proof.
  intros Hp. unfold shuffle_step.
  destruct (valid_moves_playable p Hp) as (v & valid & -> & Hall).
  cbn [mbind res_bind].
  destruct (choice_elem_of (draws i) v valid) as (d & -> & Hd).
  cbn [mbind res_bind].
  destruct (Hall d Hd) as (p' & Hm & Hp' & _). rewrite Hm.
  by exists d, p'.
Qed.

Lemma shuffle_fold draws ix :
  ∀ p, playable p →
    ∃ q taken, foldM (shuffle_step draws) p ix = Ok q ∧
               length taken = length ix ∧ accepted p taken q.
Proof.
  induction ix as [|i ix IH]; intros p Hp; cbn [foldM].
  - exists p, []. split; [done|]. split; [done|constructor].
  - destruct (shuffle_step_ok draws p i Hp) as (d & p' & -> & Hm & Hp').
    cbn [mbind res_bind].
    destruct (IH p' Hp') as (q & taken & -> & Hlen & Hacc).
    exists q, (d :: taken). split; [done|]. split; [simpl; by rewrite Hlen|].
    by econstructor.
Qed.

(** [shuffle] never raises on a board of size 3 to 5 with one blank: in
    each of its [moves] iterations (none for a negative number, [size * 50]
    for [None]) it makes one move that [make_move] accepts, whatever the
    generator draws.  So it keeps the numbers of the board and the answer
    of [is_solvable], and the opposite moves in reverse order lead back to
    the board it started from. *)
Theorem shuffle_reversible draws p moves :
  playable p →
  ∃ q taken,
    shuffle draws p moves = Ok q ∧
    Z.of_nat (length taken) = Z.max 0 (default (size p * 50) moves) ∧
    accepted p taken q ∧
    accepted q (reverse (opposite <$> taken)) p ∧
    playable q ∧ size q = size p ∧ total_tiles q = total_tiles p ∧
    concat (state q) ≡ₚ concat (state p) ∧
    (distinct_tiles p → is_solvable q = is_solvable p).
Proof.
  intros Hp. unfold shuffle.
  set (n := match moves with Some m => m | None => size p * 50 end).
  destruct (shuffle_fold draws (range n) p Hp) as (q & taken & Hq & Hlen & Hacc).
  exists q, taken. split; [done|]. split.
  { rewrite Hlen, length_puzzle_range. subst n. destruct moves; simpl; lia. }
  split; [done|]. split; [by apply accepted_back|].
  destruct (apply_moves_keep p taken Hp) as (q' & Hq' & Hkeep).
  rewrite (accepted_apply _ _ _ Hacc) in Hq'. by simplify_eq.
Qed.

Lemma shuffle_reversible_witness :
  ∃ q, shuffle (λ _, 1%nat) (mkPuzzle 3 8 [[1; 2; 3]; [4; 5; 6]; [7; 8; 0]])
         (Some 2) = Ok q ∧
       is_solvable q =
       is_solvable (mkPuzzle 3 8 [[1; 2; 3]; [4; 5; 6]; [7; 8; 0]]).
Proof.
  destruct (shuffle_reversible (λ _, 1%nat)
              (mkPuzzle 3 8 [[1; 2; 3]; [4; 5; 6]; [7; 8; 0]]) (Some 2))
    as (q & taken & Hq & _ & _ & _ & _ & _ & _ & _ & Hsol).
  - split; [|split; [simpl; lia|exists (2, 2)]].
    + split; [reflexivity|]. repeat constructor.
    + split; [reflexivity|]. intros [i j] Hq.
      unfold tile_at in Hq. simpl in Hq.
      destruct (Z.leb_spec 0 i); [|done]. destruct (Z.leb_spec 0 j); [|done].
      simpl in Hq.
      destruct (Z.to_nat i) as [|[|[|?]]] eqn:Hi; simpl in Hq; try done;
        destruct (Z.to_nat j) as [|[|[|?]]] eqn:Hj; simpl in Hq; try done.
      f_equal; lia.
  - exists q. split; [exact Hq|]. apply Hsol.
    unfold distinct_tiles. simpl.
    repeat (apply NoDup_cons; split; [by apply (bool_decide_unpack _)|]).
    apply NoDup_nil_2.
Defined.

End PuzzleMore.

(** * Further properties of the solver *)

Module SolverMore.
Import PuzzleLogic PuzzleSpec PuzzleFacts BFSSolver SolverSpec SolverFacts.
Import PuzzleMore.

(** *** The search of [solve]: termination and shortest solutions *)

Lemma board_concat_inj n st st' :
  board n st → board n st' → concat st = concat st' → st = st'.
Proof.
  intros [Hl Hr] [Hl' Hr']. rewrite <- Hl' in Hl. clear Hl'.
  revert st' Hl Hr'. induction st as [|row st IH]; intros [|row' st'] Hl Hr' Heq;
    simpl in *; try done.
  apply Forall_cons in Hr as [Hrow Hr]. apply Forall_cons in Hr' as [Hrow' Hr'].
  apply app_inj_1 in Heq as [-> Heq]; [|congruence].
  f_equal. apply IH; try done. lia.
Qed.

Lemma visited_bound (p0 : Puzzle) (V : gset (list (list Z) * Z)) :
  (∀ kk, kk ∈ V →
     ∃ q, key q = kk ∧ square q ∧ size q = size p0 ∧
          concat (state q) ≡ₚ concat (state p0)) →
  (base.size V ≤ length (permutations (concat (state p0))))%nat.
Proof.
  intros Htiles. unfold base.size, set_size. simpl.
  rewrite <- (length_fmap (λ kk : list (list Z) * Z, concat kk.1)).
  apply submseteq_length, NoDup_submseteq.
  - apply NoDup_fmap_2_strong; [|apply NoDup_elements].
    intros x y Hx%elem_of_elements Hy%elem_of_elements Heq.
    destruct (Htiles x Hx) as (qx & <- & Hsx & Hnx & _).
    destruct (Htiles y Hy) as (qy & <- & Hsy & Hny & _).
    unfold key in *. simpl in Heq.
    apply square_board in Hsx as [Hzx Hbx]. apply square_board in Hsy as [Hzy Hby].
    f_equal; [|congruence].
    apply (board_concat_inj (length (state qx))); try done.
    replace (length (state qx)) with (length (state qy)) by lia. done.
  - intros f (kk & -> & Hkk%elem_of_elements)%list_elem_of_fmap.
    destruct (Htiles kk Hkk) as (q & <- & _ & _ & Hperm).
    apply permutations_Permutation. by symmetry.
Qed.

(** The states one loop over the valid moves adds. *)
Lemma solve_fold_new current path moves :
  playable current → consistent current →
  ∀ st,
    ∃ st' new,
      foldM (solve_visit current path) st moves = Ok st' ∧
      s_queue st' = s_queue st ++ new ∧
      (∀ kk, kk ∈ s_visited st' ↔ kk ∈ s_visited st ∨ kk ∈ key <$> new.*1) ∧
      base.size (s_visited st') = (base.size (s_visited st) + length new)%nat ∧
      s_nodes_explored st' = s_nodes_explored st ∧
      Forall (λ e, key e.1 ∉ s_visited st ∧
                   ∃ m ok, make_move current m = Ok (ok, e.1) ∧
                           e.2 = path ++ [m]) new.
Proof.
  intros Hp Hc. induction moves as [|m moves IH]; intros st; cbn [foldM].
  - exists st, []. rewrite app_nil_r.
    split; [done|]. split; [done|]. split; [|split; [|split]].
    + intros kk. rewrite elem_of_nil. tauto.
    + simpl. lia.
    + done.
    + done.
  - destruct (make_move_playable current m Hp) as (ok & p' & Hm & Hp' & Hs & Ht).
    rewrite (solve_visit_eq current path st m ok p' Hp Hc Hm).
    destruct (decide (key p' ∈ s_visited st)) as [Hin|Hout];
      cbn [mbind res_bind]; [apply IH|].
    destruct (IH (mkSolve (s_queue st ++ [(p', path ++ [m])])
                    ({[key p']} ∪ s_visited st) (s_nodes_explored st)))
      as (st' & new & -> & Hq & Hvis & Hsize & Hnodes & Hnew).
    simpl in *. exists st', ((p', path ++ [m]) :: new).
    split; [done|]. split; [by rewrite Hq, <- app_assoc|]. split; [|split; [|split]].
    + intros kk. rewrite Hvis, elem_of_union, elem_of_singleton.
      rewrite !fmap_cons, elem_of_cons. simpl. tauto.
    + rewrite Hsize, size_union, size_singleton; [simpl; lia|].
      intros x Hx%elem_of_singleton. by subst.
    + done.
    + apply Forall_cons. split.
      * split; [done|]. by exists m, ok.
      * eapply Forall_impl; [done|]. intros e [Hn He]. split; [|done].
        intros Hin. apply Hn. by apply elem_of_union_r.
Qed.

Lemma apply_moves_snoc p ms m q :
  apply_moves p (ms ++ [m]) = Ok q →
  ∃ y ok, apply_moves p ms = Ok y ∧ make_move y m = Ok (ok, q).
Proof.
  rewrite apply_moves_app.
  destruct (apply_moves p ms) as [y| |]; simpl; [|done..].
  destruct (make_move y m) as [[ok q']| |] eqn:Hm; simpl; [|done..].
  intros Hq. injection Hq as <-. by exists y, ok.
Qed.

Lemma solve_level_init p0 :
  playable p0 → consistent p0 →
  solve_level p0 (mkSolve [(p0, [])] {[key p0]} 0) 0.
Proof.
  intros Hp Hc. split; simpl.
  - split; simpl.
    + apply Forall_singleton. simpl. split_and!; try done.
      by apply elem_of_singleton.
    + intros q (_ & Hcq & Hkq). left. apply elem_of_singleton in Hkq.
      apply key_inj in Hkq; try done. subst. by apply list_elem_of_singleton.
  - apply Forall_singleton. by split.
  - exists [(p0, [])], []. split; [done|].
    split; [by apply Forall_singleton|]. split; [done|done].
  - intros e moves ->%list_elem_of_singleton _. simpl. lia.
  - intros [|m moves] q Hlen Hq; simpl in *; [|lia].
    simplify_eq. by apply elem_of_singleton.
  - intros kk ->%elem_of_singleton. exists p0.
    by destruct Hp as (? & _).
Qed.

Lemma solve_level_step p0 st k current path rest valid :
  playable p0 → consistent p0 →
  solve_level p0 st k → s_queue st = (current, path) :: rest →
  is_goal current = false → get_valid_moves current = Ok valid →
  ∃ st' k',
    foldM (solve_visit current path)
      (mkSolve rest (s_visited st) (s_nodes_explored st + 1)) valid = Ok st' ∧
    solve_level p0 st' k' ∧
    (solve_measure p0 st' < solve_measure p0 st)%nat ∧
    s_nodes_explored st' = s_nodes_explored st + 1 ∧
    ∃ new, s_queue st' = rest ++ new.
Proof.
  intros Hp0 Hc0 [Hinv Hentry (q1 & q2 & Hsplit & Hq1 & Hq2 & Hhead) Hmin Hnear
                   Htiles] Hq Hgoal Hvalid.
  rewrite Hq in Hentry. apply Forall_cons in Hentry as [Hcur Hrest].
  pose proof Hcur as (Hpath & Hp & Hc). simpl in Hpath, Hp, Hc.
  pose proof Hp as (Hsq & Hn & b & Hb).
  destruct (solve_inv_step st current path rest valid b Hinv Hq Hgoal Hb Hvalid)
    as (st' & Hfold & Hinv' & Hmono).
  destruct (solve_fold_ok p0 current path valid Hcur
              (mkSolve rest (s_visited st) (s_nodes_explored st + 1)) Hrest)
    as (st1 & Hfold1 & Hentry').
  rewrite Hfold in Hfold1. injection Hfold1 as <-.
  destruct (solve_fold_new current path valid Hp Hc
              (mkSolve rest (s_visited st) (s_nodes_explored st + 1)))
    as (st1 & new & Hfold1 & Hq' & Hvis & Hsize & Hnodes & Hnew).
  rewrite Hfold in Hfold1. injection Hfold1 as <-. simpl in *.
  (* the head is a path of [k] moves *)
  destruct q1 as [|e0 q1'].
  { rewrite (Hhead eq_refl) in Hsplit. by rewrite Hq in Hsplit. }
  rewrite Hq in Hsplit. simpl in Hsplit. injection Hsplit as <- Hrest_eq.
  apply Forall_cons in Hq1 as [Hk Hq1']. simpl in Hk.
  assert (Forall (λ e : Puzzle * list string, length e.2 = S k) new) as Hnew_len.
  { eapply Forall_impl; [done|]. intros e (_ & m & ok & _ & ->).
    rewrite length_app. simpl. lia. }
  (* no shorter path to a state in the queue *)
  assert (∀ e moves, e ∈ s_queue st' → apply_moves p0 moves = Ok e.1 →
                     (length e.2 ≤ length moves)%nat) as Hmin'.
  { intros e moves He Hmoves. rewrite Hq' in He.
    apply elem_of_app in He as [He|He].
    - apply Hmin; [|done]. rewrite Hq. by right.
    - destruct (proj1 (Forall_forall _ _) Hnew e He) as (Hout & _).
      rewrite (proj1 (Forall_forall _ _) Hnew_len e He).
      destruct (decide (length moves ≤ k)%nat) as [Hle|]; [|lia].
      exfalso. apply Hout. by apply (Hnear moves). }
  (* the states seen are boards of the tiles of [p0] *)
  assert (∀ kk, kk ∈ s_visited st' →
            ∃ q, key q = kk ∧ square q ∧ size q = size p0 ∧
                 concat (state q) ≡ₚ concat (state p0)) as Htiles'.
  { intros kk [Hkk|Hkk]%Hvis; [by apply Htiles|].
    apply list_elem_of_fmap in Hkk as (q & -> & Hkk).
    apply list_elem_of_fmap in Hkk as (e & -> & He).
    destruct (proj1 (Forall_forall _ _) Hnew e He) as (_ & m & ok & Hm & _).
    destruct (apply_moves_keep p0 path Hp0)
      as (c & Hc' & _ & Hsize_c & _ & Hperm_c & _).
    rewrite Hpath in Hc'. injection Hc' as <-.
    destruct (make_move_playable current m Hp) as (ok' & p' & Hm' & Hp' & Hs & _).
    rewrite Hm in Hm'. injection Hm' as <- <-.
    exists e.1. split; [done|]. split; [by destruct Hp'|].
    split; [congruence|]. rewrite <- Hperm_c.
    apply (make_move_perm current m ok); [done|by exists b|done]. }
  assert (∃ k', (∃ q1 q2, s_queue st' = q1 ++ q2 ∧
                   Forall (λ e, length e.2 = k') q1 ∧
                   Forall (λ e, length e.2 = S k') q2 ∧
                   (q1 = [] → q2 = [])) ∧
                ∀ moves q, (length moves ≤ k')%nat →
                           apply_moves p0 moves = Ok q →
                           key q ∈ s_visited st') as (k' & Hsorted' & Hnear').
  { destruct q1' as [|e1 q1'].
    - exists (S k). simpl in Hrest_eq. subst rest. split.
      + exists (q2 ++ new), []. rewrite app_nil_r. split; [done|].
        split; [by apply Forall_app|]. split; [done|done].
      + intros moves q Hlen Hmoves.
        destruct (decide (length moves ≤ k)%nat) as [Hle|Hgt].
        { apply Hvis. left. by apply (Hnear moves). }
        destruct moves as [|m0 moves0] using rev_ind; [simpl in *; lia|].
        clear IHmoves0. rewrite length_app in Hlen, Hgt. simpl in Hlen, Hgt.
        apply apply_moves_snoc in Hmoves as (y & ok & Hy & Hm).
        destruct (apply_moves_playable p0 moves0 Hp0 Hc0)
          as (y' & Hy' & Hpy & Hcy & _).
        rewrite Hy in Hy'. injection Hy' as <-.
        assert (key y ∈ s_visited st') as Hky.
        { apply Hvis. left. apply (Hnear moves0); [lia|done]. }
        destruct (si_visited st' Hinv' y) as [Hin|[_ Hcl]]; [done| |by eapply Hcl].
        exfalso. apply list_elem_of_fmap in Hin as (e & -> & He).
        pose proof (Hmin' e moves0 He Hy) as Hle.
        rewrite Hq' in He.
        assert (length e.2 = S k) as Hlen_e.
        { apply elem_of_app in He as [He|He].
          - by apply (proj1 (Forall_forall _ _) Hq2).
          - by apply (proj1 (Forall_forall _ _) Hnew_len). }
        lia.
    - exists k. split.
      + exists (e1 :: q1'), (q2 ++ new). split; [|split; [done|split]].
        * by rewrite Hq', Hrest_eq, <- app_assoc.
        * by apply Forall_app.
        * done.
      + intros moves q Hlen Hmoves. apply Hvis. left. by apply (Hnear moves). }
  exists st', k'. split; [done|]. split; [by split|].
  split; [|split; [lia|by exists new]].
  unfold solve_measure. rewrite Hq, Hq', length_app, Hsize. simpl.
  pose proof (visited_bound p0 (s_visited st') Htiles') as Hbound.
  rewrite Hsize in Hbound. lia.
Qed.

(** The loop of [solve] ends. *)
Lemma solve_loop_total p0 fuel :
  playable p0 → consistent p0 →
  ∀ st k, solve_level p0 st k → (solve_measure p0 st < fuel)%nat →
          ∃ r, solve_loop fuel st = Ok r.
Proof.
  intros Hp0 Hc0. induction fuel as [|fuel IH]; intros st k Hlev Hfuel; [lia|].
  simpl. destruct (s_queue st) as [|[current path] rest] eqn:Hq; [by eexists|].
  destruct (is_goal current) eqn:Hgoal; [by eexists|].
  pose proof (sl_entry _ _ _ Hlev) as Hentry. rewrite Hq in Hentry.
  apply Forall_cons in Hentry as [(_ & (Hsq & _ & b & Hb) & _) _].
  simpl in *.
  destruct (get_valid_moves_spec current b Hsq Hb) as (valid & Hvalid & _).
  rewrite Hvalid. cbn [mbind res_bind].
  destruct (solve_level_step p0 st k current path rest valid Hp0 Hc0 Hlev Hq
              Hgoal Hvalid) as (st' & k' & -> & Hlev' & Hlt & _).
  cbn [mbind res_bind]. apply (IH st' k'); [done|lia].
Qed.

(** A path the loop returns is a shortest one. *)
Lemma solve_loop_shortest p0 fuel :
  playable p0 → consistent p0 →
  ∀ st k moves,
    solve_level p0 st k → solve_loop fuel st = Ok (Some moves) →
    ∀ moves' q, apply_moves p0 moves' = Ok q → is_goal q = true →
                (length moves ≤ length moves')%nat.
Proof.
  intros Hp0 Hc0. induction fuel as [|fuel IH]; intros st k moves Hlev Hsolve;
    [done|].
  simpl in Hsolve.
  destruct (s_queue st) as [|[current path] rest] eqn:Hq; [done|].
  pose proof (sl_entry _ _ _ Hlev) as Hentry. rewrite Hq in Hentry.
  apply Forall_cons in Hentry as [(Hpath & Hp & Hc) _]. simpl in *.
  destruct (is_goal current) eqn:Hgoal.
  - injection Hsolve as <-. intros moves' q Hq' Hg.
    destruct (apply_moves_playable p0 moves' Hp0 Hc0)
      as (q0 & Hq0 & Hpq & Hcq & Hsize).
    rewrite Hq' in Hq0. injection Hq0 as <-.
    destruct (apply_moves_playable p0 path Hp0 Hc0)
      as (c0 & Hc0' & _ & _ & Hsize').
    rewrite Hpath in Hc0'. injection Hc0' as <-.
    assert (q = current) as ->.
    { apply key_inj; try done. unfold key. f_equal; [|congruence].
      rewrite (is_goal_canonical q Hcq Hg).
      rewrite (is_goal_canonical current Hc Hgoal). congruence. }
    apply (sl_min _ _ _ Hlev (current, path) moves'); [|done].
    rewrite Hq. by left.
  - pose proof Hp as (Hsq & _ & b & Hb).
    destruct (get_valid_moves_spec current b Hsq Hb) as (valid & Hvalid & _).
    rewrite Hvalid in Hsolve. cbn [mbind res_bind] in Hsolve.
    destruct (solve_level_step p0 st k current path rest valid Hp0 Hc0 Hlev Hq
                Hgoal Hvalid) as (st' & k' & Hfold & Hlev' & _).
    rewrite Hfold in Hsolve. cbn [mbind res_bind] in Hsolve.
    by apply (IH st' k' moves).
Qed.

(** More iterations allowed do not change a result. *)
Lemma solve_loop_mono fuel :
  ∀ fuel' st r,
    solve_loop fuel st = Ok r → (fuel ≤ fuel')%nat → solve_loop fuel' st = Ok r.
Proof.
  induction fuel as [|fuel IH]; intros fuel' st r Hsolve Hle; [done|].
  destruct fuel' as [|fuel']; [lia|]. simpl in *.
  destruct (s_queue st) as [|[current path] rest]; [done|].
  destruct (is_goal current); [done|].
  destruct (get_valid_moves current) as [valid| |]; simpl in *; [|done..].
  destruct (foldM _ _ valid) as [st'| |]; simpl in *; [|done..].
  apply IH; [done|lia].
Qed.

Lemma canonical_is_goal q :
  consistent q → state q = canonical_goal (size q) → is_goal q = true.
Proof.
  intros Hc Hst. unfold is_goal. apply bool_decide_eq_true. rewrite Hst.
  unfold canonical_goal, generate_goal_state. simpl. by rewrite Hc.
Qed.

(** Reaching the canonical goal from [p] and from its copy. *)
Lemma reach_normalized p moves :
  playable p →
  (∃ q, apply_moves p moves = Ok q ∧ state q = canonical_goal (size p)) ↔
  (∃ q, apply_moves (normalized p) moves = Ok q ∧ is_goal q = true).
Proof.
  intros Hp.
  destruct (apply_moves_playable (normalized p) moves)
    as (q' & Hq' & Hpq & Hcq & Hsz); [by apply playable_normalized|done|].
  destruct p as [n t st]. unfold normalized in *. simpl in *.
  pose proof (apply_moves_total_tiles moves n _ t st q' Hq') as Hq.
  split.
  - intros (q & Hq0 & Hst). rewrite Hq in Hq0. injection Hq0 as <-.
    exists q'. split; [done|]. apply canonical_is_goal; [done|].
    simpl in Hst. congruence.
  - intros (q & Hq0 & Hg). rewrite Hq' in Hq0. injection Hq0 as <-.
    eexists. split; [done|]. simpl.
    rewrite (is_goal_canonical q' Hcq Hg). congruence.
Qed.

Lemma solve_unfold p fuel :
  playable p →
  solve fuel (mkSolver (normalized p)) =
    if is_goal (normalized p) then Ok (Some [])
    else
      is_solvable (normalized p) ≫= λ solvable : bool,
      if negb solvable then Ok None
      else solve_loop fuel
             (mkSolve [(normalized p, [])] {[key (normalized p)]} 0).
Proof.
  intros (Hsq & Hn & _). unfold solve. simpl.
  destruct (is_goal (normalized p)); [done|].
  destruct (is_solvable (normalized p)) as [[]| |]; simpl; try done.
  by rewrite (copy_normalized (normalized p) Hsq Hn).
Qed.

Lemma init_solver p s :
  playable p → BFSSolver.init p = Ok s → s = mkSolver (normalized p).
Proof.
  intros (Hsq & Hn & _) Hinit. unfold BFSSolver.init in Hinit.
  rewrite copy_normalized in Hinit by done. simpl in Hinit. by simplify_eq.
Qed.

Lemma solve_measure_init p0 :
  playable p0 →
  solve_measure p0 (mkSolve [(p0, [])] {[key p0]} 0) =
    length (permutations (concat (state p0))).
Proof.
  intros (Hsq & _). unfold solve_measure. cbn [s_queue s_visited length].
  rewrite size_singleton.
  assert (concat (state p0) ∈ permutations (concat (state p0))) as Hin
    by by apply permutations_Permutation.
  destruct (permutations (concat (state p0))); [by apply elem_of_nil in Hin|].
  simpl. lia.
Qed.

Lemma solve_mono p fuel fuel' r :
  playable p → solve fuel (mkSolver (normalized p)) = Ok r →
  (fuel ≤ fuel')%nat → solve fuel' (mkSolver (normalized p)) = Ok r.
Proof.
  intros Hp Hsolve Hle. rewrite solve_unfold in * by done.
  destruct (is_goal (normalized p)); [done|].
  destruct (is_solvable (normalized p)) as [[]| |]; simpl in *; try done.
  by apply (solve_loop_mono fuel).
Qed.

Lemma solve_total p fuel :
  playable p → (length (permutations (concat (state p))) < fuel)%nat →
  ∃ r, solve fuel (mkSolver (normalized p)) = Ok r.
Proof.
  intros Hp Hfuel. pose proof Hp as (Hsq & Hn & b & Hb).
  assert (playable (normalized p)) as Hp0 by done.
  assert (consistent (normalized p)) as Hc0 by done.
  rewrite solve_unfold by done. set (p0 := normalized p) in *.
  destruct (is_goal p0); [by eexists|].
  destruct (is_solvable_parity p0 b Hsq Hb) as (r & -> & _).
  cbn [mbind res_bind]. destruct r; simpl; [|by eexists].
  apply (solve_loop_total p0 fuel Hp0 Hc0 _ 0%nat).
  - by apply solve_level_init.
  - by rewrite solve_measure_init.
Qed.

Lemma solve_result p :
  playable p →
  ∃ r, ∀ fuel, (length (permutations (concat (state p))) < fuel)%nat →
               solve fuel (mkSolver (normalized p)) = Ok r.
Proof.
  intros Hp.
  destruct (solve_total p (S (length (permutations (concat (state p))))) Hp)
    as [r Hr]; [lia|].
  exists r. intros fuel Hfuel. apply (solve_mono p _ fuel r Hp Hr). lia.
Qed.

Lemma solve_sound p fuel path :
  playable p → solve fuel (mkSolver (normalized p)) = Ok (Some path) →
  ∃ q, apply_moves p path = Ok q ∧ state q = canonical_goal (size p).
Proof.
  intros Hp Hsolve. apply reach_normalized; [done|].
  rewrite solve_unfold in Hsolve by done.
  assert (playable (normalized p)) as Hp0 by done.
  assert (consistent (normalized p)) as Hc0 by done.
  set (p0 := normalized p) in *.
  destruct (is_goal p0) eqn:Hg0.
  { injection Hsolve as <-. by exists p0. }
  destruct (is_solvable p0) as [[]| |]; simpl in Hsolve; try done.
  destruct (solve_loop_sound p0 fuel (mkSolve [(p0, [])] {[key p0]} 0) path)
    as (q' & Hq' & Hg' & _); [|done|by exists q'].
  apply Forall_singleton. by split.
Qed.

(** [solve] ends on every board of size 3 to 5 with one blank: once its
    loop may make more iterations than the numbers of the board have
    arrangements it returns a result, and allowing more iterations never
    changes what it returns. *)
Theorem solve_terminates p s :
  playable p → BFSSolver.init p = Ok s →
  (∃ r, ∀ fuel, (length (permutations (concat (state p))) < fuel)%nat →
                solve fuel s = Ok r) ∧
  (∀ fuel fuel' r, solve fuel s = Ok r → (fuel ≤ fuel')%nat →
                   solve fuel' s = Ok r).
Proof.
  intros Hp Hinit. rewrite (init_solver p s Hp Hinit). split.
  - by apply solve_result.
  - intros fuel fuel' r Hsolve Hle. by apply (solve_mono p fuel).
Qed.

Lemma solve_terminates_witness :
  solve 6 (mkSolver (mkPuzzle 3 8 [[1; 2; 3]; [4; 5; 6]; [7; 0; 8]])) =
    Ok (Some ["right"]).
Proof.
  destruct (solve_terminates (mkPuzzle 3 8 [[1; 2; 3]; [4; 5; 6]; [7; 0; 8]])
              (mkSolver (mkPuzzle 3 8 [[1; 2; 3]; [4; 5; 6]; [7; 0; 8]])))
    as [_ Hmono].
  - split; [|split; [simpl; lia|exists (2, 1)]].
    + split; [reflexivity|]. repeat constructor.
    + split; [reflexivity|]. intros [i j] Hq.
      unfold tile_at in Hq. simpl in Hq.
      destruct (Z.leb_spec 0 i); [|done]. destruct (Z.leb_spec 0 j); [|done].
      simpl in Hq.
      destruct (Z.to_nat i) as [|[|[|?]]] eqn:Hi; simpl in Hq; try done;
        destruct (Z.to_nat j) as [|[|[|?]]] eqn:Hj; simpl in Hq; try done.
      f_equal; lia.
  - reflexivity.
  - apply (Hmono 5%nat 6%nat); [vm_compute; reflexivity|lia].
Defined.

Lemma solve_least p fuel moves :
  playable p → solve fuel (mkSolver (normalized p)) = Ok (Some moves) →
  ∀ moves' q, apply_moves p moves' = Ok q →
              state q = canonical_goal (size p) →
              (length moves ≤ length moves')%nat.
Proof.
  intros Hp Hsolve moves' q Hq Hgoal.
  rewrite solve_unfold in Hsolve by done.
  assert (playable (normalized p)) as Hp0 by done.
  assert (consistent (normalized p)) as Hc0 by done.
  set (p0 := normalized p) in *.
  destruct (is_goal p0); [injection Hsolve as <-; simpl; lia|].
  destruct (is_solvable p0) as [[]| |]; simpl in Hsolve; try done.
  destruct (proj1 (reach_normalized p moves' Hp)) as (q' & Hq' & Hg');
    [by exists q|].
  eapply (solve_loop_shortest p0 fuel Hp0 Hc0 _ 0%nat moves); try done.
  by apply solve_level_init.
Qed.

(** A path [solve] returns is a shortest solution: its moves take the
    initial board to the goal, and no sequence of moves, valid or not,
    that does so is shorter. *)
Theorem solve_shortest p s fuel moves :
  playable p → BFSSolver.init p = Ok s →
  solve fuel s = Ok (Some moves) →
  (∃ q, apply_moves p moves = Ok q ∧ state q = canonical_goal (size p)) ∧
  ∀ moves' q, apply_moves p moves' = Ok q →
              state q = canonical_goal (size p) →
              (length moves ≤ length moves')%nat.
Proof.
  intros Hp Hinit Hsolve. rewrite (init_solver p s Hp Hinit) in Hsolve.
  split.
  - by apply (solve_sound p fuel).
  - by apply (solve_least p fuel).
Qed.

Lemma solve_shortest_witness :
  (length ["right"] ≤ length ["up"; "down"; "right"])%nat.
Proof.
  refine (proj2 (solve_shortest
                   (mkPuzzle 3 8 [[1; 2; 3]; [4; 5; 6]; [7; 0; 8]])
                   (mkSolver (mkPuzzle 3 8 [[1; 2; 3]; [4; 5; 6]; [7; 0; 8]]))
                   5 ["right"] _ _ _) ["up"; "down"; "right"]
            (mkPuzzle 3 8 [[1; 2; 3]; [4; 5; 6]; [7; 8; 0]]) _ _).
  - split; [|split; [simpl; lia|exists (2, 1)]].
    + split; [reflexivity|]. repeat constructor.
    + split; [reflexivity|]. intros [i j] Hq.
      unfold tile_at in Hq. simpl in Hq.
      destruct (Z.leb_spec 0 i); [|done]. destruct (Z.leb_spec 0 j); [|done].
      simpl in Hq.
      destruct (Z.to_nat i) as [|[|[|?]]] eqn:Hi; simpl in Hq; try done;
        destruct (Z.to_nat j) as [|[|[|?]]] eqn:Hj; simpl in Hq; try done.
      f_equal; lia.
  - reflexivity.
  - vm_compute. reflexivity.
  - vm_compute. reflexivity.
  - vm_compute. reflexivity.
Defined.

Lemma solve_finds p fuel r :
  playable p → distinct_tiles p →
  solve fuel (mkSolver (normalized p)) = Ok r →
  (∃ moves q, apply_moves p moves = Ok q ∧
              state q = canonical_goal (size p)) →
  is_Some r.
Proof.
  intros Hp Hd Hr (moves & q & Hq & Hgoal). destruct r as [path|]; [done|].
  exfalso. rewrite solve_unfold in Hr by done.
  pose proof Hp as (Hsq & Hn & b & Hb).
  assert (playable (normalized p)) as Hp0 by done.
  assert (consistent (normalized p)) as Hc0 by done.
  set (p0 := normalized p) in *.
  destruct (is_goal p0) eqn:Hg0; [done|].
  destruct (proj1 (reach_normalized p moves Hp)) as (q' & Hq' & Hg');
    [by exists q|]. fold p0 in Hq'.
  destruct (apply_moves_keep p0 moves Hp0)
    as (q1 & Hq1 & Hpq & Hsz & Htt & _ & Hsol).
  rewrite Hq' in Hq1. injection Hq1 as <-.
  rewrite <- Hsol in Hr by done.
  rewrite goal_solvable in Hr; [|done| |done].
  2:{ unfold consistent in *. by rewrite Hsz, Htt. }
  cbn [mbind res_bind negb] in Hr.
  assert (is_goal q' = false) as Hng; [|congruence].
  eapply (solve_loop_complete fuel _ p0); [| |done|done].
  - apply (sl_inv p0 _ 0%nat). by apply solve_level_init.
  - simpl. split_and!; try done. by apply elem_of_singleton.
Qed.

(** On a board of pairwise distinct numbers [solve] decides whether the
    goal can be reached: it returns a solution if some sequence of moves
    leads to the goal, and [None] if none does. *)
Theorem solve_decides p s :
  playable p → distinct_tiles p → BFSSolver.init p = Ok s →
  ∃ r,
    (∀ fuel, (length (permutations (concat (state p))) < fuel)%nat →
             solve fuel s = Ok r) ∧
    (is_Some r ↔
     ∃ moves q, apply_moves p moves = Ok q ∧
                state q = canonical_goal (size p)).
Proof.
  intros Hp Hd Hinit. rewrite (init_solver p s Hp Hinit).
  destruct (solve_result p Hp) as [r Hr]. exists r. split; [done|].
  specialize (Hr _ (Nat.lt_succ_diag_r _)).
  set (fuel := S _) in Hr. split.
  - intros [path ->]. exists path. by apply (solve_sound p fuel).
  - by apply (solve_finds p fuel).
Qed.

Lemma solve_decides_witness :
  let p := mkPuzzle 3 8 [[1; 2; 3]; [4; 5; 6]; [7; 0; 8]] in
  ∃ r,
    (∀ fuel, (length (permutations (concat (state p))) < fuel)%nat →
             solve fuel (mkSolver p) = Ok r) ∧
    is_Some r.
Proof.
  intros p. subst p.
  destruct (solve_decides (mkPuzzle 3 8 [[1; 2; 3]; [4; 5; 6]; [7; 0; 8]])
              (mkSolver (mkPuzzle 3 8 [[1; 2; 3]; [4; 5; 6]; [7; 0; 8]])))
    as (r & Hr & Hsome).
  - split; [|split; [simpl; lia|exists (2, 1)]].
    + split; [reflexivity|]. repeat constructor.
    + split; [reflexivity|]. intros [i j] Hq.
      unfold tile_at in Hq. simpl in Hq.
      destruct (Z.leb_spec 0 i); [|done]. destruct (Z.leb_spec 0 j); [|done].
      simpl in Hq.
      destruct (Z.to_nat i) as [|[|[|?]]] eqn:Hi; simpl in Hq; try done;
        destruct (Z.to_nat j) as [|[|[|?]]] eqn:Hj; simpl in Hq; try done.
      f_equal; lia.
  - unfold distinct_tiles. simpl.
    repeat (apply NoDup_cons; split; [by apply (bool_decide_unpack _)|]).
    apply NoDup_nil_2.
  - reflexivity.
  - exists r. split; [exact Hr|]. apply Hsome.
    exists ["right"], (mkPuzzle 3 8 [[1; 2; 3]; [4; 5; 6]; [7; 8; 0]]).
    split; vm_compute; reflexivity.
Defined.

(** *** [solve_with_stats] *)

Lemma stats_loop_solve fuel :
  ∀ st m, fst <$> stats_loop fuel st m = solve_loop fuel st.
Proof.
  induction fuel as [|fuel IH]; intros st m; [done|]. simpl.
  destruct (s_queue st) as [|[current path] rest]; [done|].
  destruct (is_goal current); [done|].
  destruct (get_valid_moves current) as [valid| |]; simpl; [|done..].
  destruct (foldM _ _ valid) as [st'| |]; simpl; [|done..].
  apply IH.
Qed.

Lemma solve_visit_nodes current path st move st' :
  solve_visit current path st move = Ok st' →
  s_nodes_explored st' = s_nodes_explored st.
Proof.
  unfold solve_visit.
  destruct (copy current) as [c| |]; simpl; [|done..].
  destruct (make_move c move) as [[ok q]| |]; simpl; [|done..].
  case_decide; intros [= <-]; done.
Qed.

Lemma solve_fold_nodes current path moves :
  ∀ st st', foldM (solve_visit current path) st moves = Ok st' →
            s_nodes_explored st' = s_nodes_explored st.
Proof.
  induction moves as [|m moves IH]; intros st st' Hfold; simpl in Hfold.
  - by injection Hfold as <-.
  - destruct (solve_visit current path st m) as [st1| |] eqn:Hvisit;
      simpl in Hfold; [|done..].
    rewrite (IH st1 st' Hfold). by eapply solve_visit_nodes.
Qed.

(** What the statistics say after the loop. *)
Lemma stats_loop_stats fuel :
  ∀ st m r stats,
    stats_loop fuel st m = Ok (r, stats) →
    0 <= s_nodes_explored st → 1 <= m →
    ∃ n, stats !! "nodes_explored" = Some n ∧ s_nodes_explored st <= n ∧
      match r with
      | Some path =>
          0 < n ∧
          stats !! "solution_length" = Some (Z.of_nat (length path)) ∧
          ∃ mq, stats !! "max_queue_size" = Some mq ∧ m <= mq
      | None =>
          stats !! "solution_length" = Some 0 ∧
          stats !! "max_queue_size" = None
      end.
Proof.
  induction fuel as [|fuel IH]; intros st m r stats Hloop Hn Hm; [done|].
  simpl in Hloop.
  destruct (s_queue st) as [|[current path] rest].
  - injection Hloop as <- <-. exists (s_nodes_explored st).
    split; [done|]. split; [lia|]. done.
  - destruct (is_goal current).
    + injection Hloop as <- <-. exists (s_nodes_explored st + 1).
      split; [done|]. split; [lia|]. split; [lia|]. split; [done|].
      eexists. split; [done|]. lia.
    + destruct (get_valid_moves current) as [valid| |]; simpl in Hloop;
        [|done..].
      destruct (foldM _ _ valid) as [st'| |] eqn:Hfold; simpl in Hloop;
        [|done..].
      apply solve_fold_nodes in Hfold. simpl in Hfold.
      destruct (IH st' _ r stats Hloop) as (n & Hnodes & Hle & Hr);
        [lia..|].
      exists n. split; [done|]. split; [lia|].
      destruct r as [path'|]; [|done].
      destruct Hr as (? & ? & mq & ? & ?). split; [done|]. split; [done|].
      exists mq. split; [done|]. lia.
Qed.

(** [solve_with_stats] returns the path [solve] returns.  Its statistics
    always hold [nodes_explored] and [solution_length], the length of the
    path or 0 without one; [max_queue_size] is there, and at least 1,
    exactly when the loop found the solution ([nodes_explored] positive):
    not for a puzzle that is solved already and not when there is no
    solution. *)
Theorem solve_with_stats_solve s fuel :
  fst <$> solve_with_stats fuel s = solve fuel s ∧
  ∀ r stats,
    solve_with_stats fuel s = Ok (r, stats) →
    stats !! "solution_length" =
      Some (Z.of_nat (length (default [] r))) ∧
    ∃ n, stats !! "nodes_explored" = Some n ∧ 0 <= n ∧
         (n = 0 → default [] r = []) ∧
         match stats !! "max_queue_size" with
         | Some mq => 1 <= mq ∧ 0 < n ∧ is_Some r
         | None => r = None ∨ n = 0
         end.
Proof.
  unfold solve_with_stats, solve. split.
  - destruct (is_goal (initial_puzzle s)); [done|].
    destruct (is_solvable (initial_puzzle s)) as [[]| |]; simpl; try done.
    destruct (copy (initial_puzzle s)) as [p0| |]; simpl; [|done..].
    apply stats_loop_solve.
  - intros r stats Hstats.
    destruct (is_goal (initial_puzzle s)).
    { injection Hstats as <- <-. split; [done|]. exists 0.
      split; [done|]. split; [done|]. split; [done|]. by right. }
    destruct (is_solvable (initial_puzzle s)) as [[]| |]; simpl in Hstats;
      try done.
    2:{ injection Hstats as <- <-. split; [done|]. exists 0.
        split; [done|]. split; [done|]. split; [done|]. by left. }
    destruct (copy (initial_puzzle s)) as [p0| |]; simpl in Hstats; [|done..].
    apply stats_loop_stats in Hstats as (n & Hnodes & Hle & Hr);
      [|simpl; lia..]. simpl in Hle.
    destruct r as [path|]; simpl.
    + destruct Hr as (Hpos & Hlen & mq & -> & Hmq). split; [done|].
      exists n. split; [done|]. split; [lia|]. split; [lia|]. done.
    + destruct Hr as (Hlen & ->). split; [done|].
      exists n. split; [done|]. split; [lia|]. split; [done|]. by left.
Qed.

(** *** Shuffling the solved puzzle, then solving it *)

(** As the window does: the solved puzzle of size [n] is shuffled with
    [moves] random moves and handed to the solver.  Whatever the generator
    draws, [solve] then returns a solution, one of at most [moves] moves. *)
Theorem shuffle_then_solve n draws moves :
  3 <= n <= 5 →
  ∃ p q s path,
    PuzzleLogic.init n None = Ok p ∧
    shuffle draws p (Some moves) = Ok q ∧
    BFSSolver.init q = Ok s ∧
    (∀ fuel, (length (permutations (concat (state q))) < fuel)%nat →
             solve fuel s = Ok (Some path)) ∧
    Z.of_nat (length path) <= Z.max 0 moves ∧
    ∃ g, apply_moves q path = Ok g ∧ is_goal g = true.
Proof.
  intros Hn.
  destruct (init_default_facts n Hn)
    as (p & Hinit & Hsize & Hp & Hc & Hd & Hb & Hg).
  destruct (shuffle_fold draws (range moves) p Hp)
    as (q & taken & Hq & Hlen & Hacc).
  rewrite length_puzzle_range in Hlen.
  pose proof (accepted_back p taken q Hp Hacc) as Hback.
  apply accepted_apply in Hback, Hacc.
  destruct (apply_moves_keep p taken Hp)
    as (q' & Hq' & Hpq & Hsz & Htt & Hperm & _).
  rewrite Hacc in Hq'. injection Hq' as <-.
  assert (consistent q) as Hcq.
  { unfold consistent in *. by rewrite Hsz, Htt. }
  assert (distinct_tiles q) as Hdq.
  { unfold distinct_tiles in *. by rewrite Hperm. }
  assert (state p = canonical_goal (size q)) as Hgoal.
  { rewrite Hsz. by apply is_goal_canonical. }
  pose proof Hpq as (Hsq & Hnq & _).
  destruct (solve_result q Hpq) as [r Hr].
  rewrite (normalized_id q Hcq) in Hr.
  pose proof (Hr _ (Nat.lt_succ_diag_r _)) as Hr1.
  set (fuel := S _) in Hr1.
  rewrite <- (normalized_id q Hcq) in Hr1.
  destruct (solve_finds q fuel r Hpq Hdq Hr1) as [path ->].
  { by exists (reverse (opposite <$> taken)), p. }
  exists p, q, (mkSolver q), path.
  split; [done|]. split; [done|]. split.
  { unfold BFSSolver.init. rewrite copy_normalized by done. simpl.
    by rewrite (normalized_id q Hcq). }
  split; [done|]. split.
  - pose proof (solve_least q fuel path Hpq Hr1 _ p Hback Hgoal) as Hle.
    rewrite length_reverse, length_fmap in Hle. lia.
  - destruct (solve_sound q fuel path Hpq Hr1) as (g & Hg1 & Hg2).
    exists g. split; [done|].
    destruct (apply_moves_playable q path Hpq Hcq) as (g' & Hg' & _ & Hcg & Hsg).
    rewrite Hg1 in Hg'. injection Hg' as <-.
    apply canonical_is_goal; [done|]. by rewrite Hsg.
Qed.

Lemma shuffle_then_solve_witness :
  ∃ q path,
    shuffle (λ _, 0%nat) (mkPuzzle 3 8 [[1; 2; 3]; [4; 5; 6]; [7; 8; 0]])
      (Some 1) = Ok q ∧
    Z.of_nat (length path) <= 1 ∧
    ∃ g, apply_moves q path = Ok g ∧ is_goal g = true.
Proof.
  destruct (shuffle_then_solve 3 (λ _, 0%nat) 1)
    as (p & q & s & path & Hp & Hq & _ & _ & Hlen & Hg); [lia|].
  vm_compute in Hp. injection Hp as <-.
  exists q, path. split; [exact Hq|]. split; [exact Hlen|exact Hg].
Defined.

End SolverMore.
